(** * A shallow embedding of [sparse_model.py]

    The sparse encoder-decoder transformer of the repository, written as
    Rocq functions over an explicit model of PyTorch tensors:

    - a tensor is its dtype, its shape and its elements read by multi-index;
      [view], [transpose], [expand], broadcasting and slicing are index
      arithmetic, with the shape checks PyTorch performs;
    - floating-point elements are extended reals ([xreal]): real arithmetic
      together with the IEEE special values [+inf], [-inf] and [NaN]
      (rounding and signed zeros are idealised away);
    - Python exceptions are the [Raise] case of [result]; code that consumes
      randomness (dropout, parameter initialisation) runs in the monad [M],
      which threads the generator state. *)

From Stdlib Require Import String Bool ZArith QArith Qreals Reals Lia Lra List.
Import ListNotations.
Open Scope nat_scope.
Open Scope list_scope.

(* ================================================================== *)
(** * Python-level values: exceptions and results *)

Inductive exn : Type :=
| AssertionError (msg : string)
| ZeroDivisionError
| ValueError (msg : string)
| TypeError (msg : string)
| IndexError (msg : string)
| RuntimeError (msg : string).

Inductive result (A : Type) : Type :=
| Ok (a : A)
| Raise (e : exn).
Arguments Ok {A} a.
Arguments Raise {A} e.

Definition is_ok {A} (r : result A) : bool :=
  match r with Ok _ => true | Raise _ => false end.

(** The state of the random generator: an infinite tape of samples drawn
    uniformly from [0, 1); consuming [n] samples shifts the tape. *)
Definition generator : Type := nat -> R.

Definition advance (n : nat) (g : generator) : generator :=
  fun i => g (n + i)%nat.

(** Computations that may raise and that thread the generator. *)
Definition M (A : Type) : Type := generator -> result (A * generator).

Class Monad (m : Type -> Type) : Type := {
  ret : forall {A}, A -> m A;
  bind : forall {A B}, m A -> (A -> m B) -> m B
}.

#[export] Instance Monad_result : Monad result := {
  ret := fun A a => Ok a;
  bind := fun A B c k => match c with Ok a => k a | Raise e => Raise e end
}.

#[export] Instance Monad_M : Monad M := {
  ret := fun A a g => Ok (a, g);
  bind := fun A B c k g =>
    match c g with Ok (a, g') => k a g' | Raise e => Raise e end
}.

Declare Scope monad_scope.
Notation "x <- c ;; k" := (bind c (fun x => k))
  (at level 61, c at next level, right associativity) : monad_scope.
Notation "' pat <- c ;; k" := (bind c (fun x => match x with pat => k end))
  (at level 61, pat pattern, c at next level, right associativity) : monad_scope.
Open Scope monad_scope.

(** A pure computation seen as a generator-threading one. *)
Definition lift {A} (r : result A) : M A :=
  fun g => match r with Ok a => Ok (a, g) | Raise e => Raise e end.

Definition run_ok {A} (c : M A) (g : generator) : bool := is_ok (c g).

(* ================================================================== *)
(** * Floating-point values *)

(** An element of a floating tensor: a real number or an IEEE special. *)
Inductive xreal : Type :=
| Fin (r : R)
| PInf
| NInf
| NaN.

Definition is_finite (x : xreal) : bool :=
  match x with Fin _ => true | _ => false end.

Definition Rltb (a b : R) : bool := if Rlt_dec a b then true else false.
Definition Reqb (a b : R) : bool := if Req_dec_T a b then true else false.

Definition xneg (x : xreal) : xreal :=
  match x with
  | Fin r => Fin (- r)
  | PInf => NInf
  | NInf => PInf
  | NaN => NaN
  end.

Definition xadd (x y : xreal) : xreal :=
  match x, y with
  | NaN, _ | _, NaN => NaN
  | Fin a, Fin b => Fin (a + b)
  | PInf, NInf | NInf, PInf => NaN
  | PInf, _ | _, PInf => PInf
  | NInf, _ | _, NInf => NInf
  end.

Definition xsub (x y : xreal) : xreal := xadd x (xneg y).

(** The infinity of the sign of [r] ([r] is not zero). *)
Definition inf_of_sign (r : R) : xreal := if Rltb r 0 then NInf else PInf.

Definition xmul (x y : xreal) : xreal :=
  match x, y with
  | NaN, _ | _, NaN => NaN
  | Fin a, Fin b => Fin (a * b)
  | Fin a, PInf | PInf, Fin a => if Reqb a 0 then NaN else inf_of_sign a
  | Fin a, NInf | NInf, Fin a => if Reqb a 0 then NaN else inf_of_sign (- a)
  | PInf, PInf | NInf, NInf => PInf
  | PInf, NInf | NInf, PInf => NInf
  end.

Definition xdiv (x y : xreal) : xreal :=
  match x, y with
  | NaN, _ | _, NaN => NaN
  | Fin a, Fin b =>
      if Reqb b 0 then (if Reqb a 0 then NaN else inf_of_sign a)
      else Fin (a / b)
  | Fin _, (PInf | NInf) => Fin 0
  | (PInf | NInf), (PInf | NInf) => NaN
  | PInf, Fin b => if Rltb b 0 then NInf else PInf
  | NInf, Fin b => if Rltb b 0 then PInf else NInf
  end.

Definition xsqrt (x : xreal) : xreal :=
  match x with
  | Fin a => if Rltb a 0 then NaN else Fin (sqrt a)
  | PInf => PInf
  | NInf | NaN => NaN
  end.

Definition xexp (x : xreal) : xreal :=
  match x with
  | Fin a => Fin (exp a)
  | PInf => PInf
  | NInf => Fin 0
  | NaN => NaN
  end.

Definition xsin (x : xreal) : xreal :=
  match x with Fin a => Fin (sin a) | _ => NaN end.

Definition xcos (x : xreal) : xreal :=
  match x with Fin a => Fin (cos a) | _ => NaN end.

(** [torch.relu]: the maximum with zero, [NaN] kept. *)
Definition xrelu (x : xreal) : xreal :=
  match x with
  | Fin a => if Rltb a 0 then Fin 0 else Fin a
  | PInf => PInf
  | NInf => Fin 0
  | NaN => NaN
  end.

Definition xsum (l : list xreal) : xreal := fold_left xadd l (Fin 0).

Definition x_of_Z (z : Z) : xreal := Fin (IZR z).
Definition x_of_nat (n : nat) : xreal := Fin (INR n).

(** [math.sqrt] on a Python number: a negative argument is a domain error. *)
Definition math_sqrt (z : Z) : result xreal :=
  if (z <? 0)%Z then Raise (ValueError "math domain error")
  else Ok (Fin (sqrt (IZR z))).

(** The element types of tensors. *)
Inductive dtype : Type :=
| bool_ | int64 | float16 | bfloat16 | float32 | float64.

Definition dtype_eqb (a b : dtype) : bool :=
  match a, b with
  | bool_, bool_ | int64, int64 | float16, float16
  | bfloat16, bfloat16 | float32, float32 | float64, float64 => true
  | _, _ => false
  end.

(** Precision (bits of significand) and exponent bound of a floating
    dtype, as IEEE-754 gives them. *)
Definition float_format (d : dtype) : option (Z * Z) :=
  match d with
  | float16 => Some (11, 16)
  | bfloat16 => Some (8, 128)
  | float32 => Some (24, 128)
  | float64 => Some (53, 1024)
  | bool_ | int64 => None
  end%Z.

(** [torch.finfo(d).min]: the most negative finite value of the format,
    [-(2^prec - 1) * 2^(emax - prec)]. *)
Definition finfo_min (d : dtype) : result xreal :=
  match float_format d with
  | Some (prec, emax) =>
      Ok (Fin (IZR (- ((2 ^ prec - 1) * 2 ^ (emax - prec)))))
  | None => Raise (TypeError "torch.finfo() requires a floating point input type")
  end.

(** [float("-inf")]. *)
Definition neg_inf : xreal := NInf.

(** Result type of a binary operation on two tensors. *)
Definition dtype_rank (d : dtype) : nat :=
  match d with
  | bool_ => 0 | int64 => 1 | float16 => 2 | bfloat16 => 2
  | float32 => 3 | float64 => 4
  end.

Definition promote_types (a b : dtype) : dtype :=
  if dtype_eqb a b then a
  else if Nat.ltb (dtype_rank a) (dtype_rank b) then b
  else if Nat.ltb (dtype_rank b) (dtype_rank a) then a
  else float32.

(* ================================================================== *)
(** * Tensors *)

(** A tensor: dtype, shape, and the element at each multi-index.  Only the
    elements at indices within the shape are meaningful.  Memory layout is
    not represented: a tensor is always read in logical (row-major) order,
    so [contiguous] is the identity. *)
Record tensor (A : Type) : Type := Tensor {
  dtype_of : dtype;
  shape : list nat;
  item : list nat -> A
}.
Arguments Tensor {A} dtype_of shape item.
Arguments dtype_of {A} t.
Arguments shape {A} t.
Arguments item {A} t idx.

Definition default_dtype : dtype := float32.

Definition ndim {A} (t : tensor A) : nat := length (shape t).

Definition numel (sh : list nat) : nat := fold_right Nat.mul 1 sh.

(** [idx] addresses an element of a tensor of shape [sh]. *)
Definition in_bounds (sh idx : list nat) : Prop := Forall2 lt idx sh.

(** All indices of a shape, in row-major order. *)
Fixpoint indices (sh : list nat) : list (list nat) :=
  match sh with
  | [] => [[]]
  | d :: sh' => flat_map (fun i => map (cons i) (indices sh')) (seq 0 d)
  end.


(** Position of an index in row-major order (the offset of the element in
    a contiguous tensor), and back. *)
Fixpoint ravel (sh idx : list nat) : nat :=
  match sh, idx with
  | _ :: sh', i :: idx' => i * numel sh' + ravel sh' idx'
  | _, _ => 0
  end.

Fixpoint unravel (sh : list nat) (n : nat) : list nat :=
  match sh with
  | [] => []
  | _ :: sh' => n / numel sh' :: unravel sh' (n mod numel sh')
  end.

(** A dimension argument, negative values counting from the end. *)
Definition norm_dim (rank : nat) (d : Z) : result nat :=
  if ((d <? - Z.of_nat rank) || (Z.of_nat rank <=? d))%Z
  then Raise (IndexError "Dimension out of range")
  else Ok (Z.to_nat (if (d <? 0)%Z then d + Z.of_nat rank else d)).

(** [B, T, _ = x.shape] and [B, h, T, d_k = x.size()]. *)
Definition unpack3 (sh : list nat) : result (nat * nat * nat) :=
  match sh with
  | [a; b; c] => Ok (a, b, c)
  | _ => Raise (ValueError "wrong number of values to unpack")
  end.

Definition unpack4 (sh : list nat) : result (nat * nat * nat * nat) :=
  match sh with
  | [a; b; c; d] => Ok (a, b, c, d)
  | _ => Raise (ValueError "wrong number of values to unpack")
  end.

(** [x.shape[i]] for a non-negative literal [i]. *)
Definition shape_at {A} (t : tensor A) (i : nat) : result nat :=
  match nth_error (shape t) i with
  | Some d => Ok d
  | None => Raise (IndexError "tuple index out of range")
  end.

Fixpoint set_nth {X} (i : nat) (x : X) (l : list X) : list X :=
  match l, i with
  | [], _ => []
  | _ :: l', O => x :: l'
  | y :: l', S i' => y :: set_nth i' x l'
  end.

Definition swap {X} (i j : nat) (l : list X) : list X :=
  match nth_error l i, nth_error l j with
  | Some a, Some b => set_nth i b (set_nth j a l)
  | _, _ => l
  end.

Definition tmap {A B} (dt : dtype) (f : A -> B) (t : tensor A) : tensor B :=
  Tensor dt (shape t) (fun idx => f (item t idx)).

Definition contiguous {A} (t : tensor A) : tensor A := t.

(** [t.transpose(d0, d1)]. *)
Definition transpose {A} (d0 d1 : Z) (t : tensor A) : result (tensor A) :=
  i <- norm_dim (ndim t) d0 ;;
  j <- norm_dim (ndim t) d1 ;;
  Ok (Tensor (dtype_of t) (swap i j (shape t))
             (fun idx => item t (swap i j idx))).

(** [t.unsqueeze(d)] for a non-negative [d]: a new dimension of size 1. *)
Definition unsqueeze {A} (d : nat) (t : tensor A) : result (tensor A) :=
  if Nat.ltb (ndim t) d then Raise (IndexError "Dimension out of range")
  else Ok (Tensor (dtype_of t)
             (firstn d (shape t) ++ 1 :: skipn d (shape t))
             (fun idx => item t (firstn d idx ++ skipn (S d) idx))).

(** The sizes [view] is given, with at most one [-1] to be inferred from
    the number of elements (PyTorch's [infer_size]). *)
Fixpoint known_size (sizes : list Z) : result (nat * nat) :=
  match sizes with
  | [] => Ok (1, 0)
  | s :: rest =>
      '(prod, inferred) <- known_size rest ;;
      if (s =? -1)%Z then Ok (prod, S inferred)
      else if (s <? 0)%Z then Raise (RuntimeError "invalid shape dimension")
      else Ok (Z.to_nat s * prod, inferred)
  end.

Definition infer_size (sizes : list Z) (n : nat) : result (list nat) :=
  '(newsize, inferred) <- known_size sizes ;;
  match inferred with
  | 0 =>
      if n =? newsize then Ok (map Z.to_nat sizes)
      else Raise (RuntimeError "shape is invalid for input size")
  | 1 =>
      if (n =? newsize) || ((0 <? newsize) && (n mod newsize =? 0)) then
        if newsize =? 0
        then Raise (RuntimeError
               "cannot reshape tensor of 0 elements: the size -1 is ambiguous")
        else Ok (map (fun s => if (s =? -1)%Z then n / newsize else Z.to_nat s) sizes)
      else Raise (RuntimeError "shape is invalid for input size")
  | _ => Raise (RuntimeError "only one dimension can be inferred")
  end.

(** [t.view(sizes)] of a contiguous tensor: the same elements in the same
    row-major order under a new shape. *)
Definition view {A} (sizes : list Z) (t : tensor A) : result (tensor A) :=
  sh <- infer_size sizes (numel (shape t)) ;;
  Ok (Tensor (dtype_of t) sh
             (fun idx => item t (unravel (shape t) (ravel sh idx)))).

(** The index of the source element that a broadcast (or expanded) tensor
    shows at [idx]: the trailing coordinates, with 0 wherever the source
    has size 1. *)
Fixpoint pin_ones (sh idx : list nat) : list nat :=
  match sh, idx with
  | d :: sh', i :: idx' => (if d =? 1 then 0 else i) :: pin_ones sh' idx'
  | _, _ => []
  end.

Definition bidx (sh idx : list nat) : list nat :=
  pin_ones sh (skipn (length idx - length sh) idx).

(** Sizes of [expand], read from the last dimension backwards
    ([rsh], [rsizes]: the shape and the requested sizes, reversed). *)
Fixpoint expand_rev (rsh : list nat) (rsizes : list Z) : result (list nat) :=
  match rsizes with
  | [] =>
      match rsh with
      | [] => Ok []
      | _ => Raise (RuntimeError
               "the number of sizes provided must be at least the number of dimensions")
      end
  | s :: rsizes' =>
      match rsh with
      | d :: rsh' =>
          rest <- expand_rev rsh' rsizes' ;;
          if (s =? -1)%Z then Ok (d :: rest)
          else if (s <? 0)%Z then Raise (RuntimeError "invalid expanded size")
          else if (Z.to_nat s =? d) || (d =? 1) then Ok (Z.to_nat s :: rest)
          else Raise (RuntimeError
                 "The expanded size must match the existing size at non-singleton dimension")
      | [] =>
          rest <- expand_rev [] rsizes' ;;
          if (s <? 0)%Z
          then Raise (RuntimeError
                 "The expanded size -1 isn't allowed in a leading, non-existing dimension")
          else Ok (Z.to_nat s :: rest)
      end
  end.

(** [t.expand(sizes)]. *)
Definition expand {A} (sizes : list Z) (t : tensor A) : result (tensor A) :=
  rsh <- expand_rev (rev (shape t)) (rev sizes) ;;
  Ok (Tensor (dtype_of t) (rev rsh)
             (fun idx => item t (bidx (shape t) idx))).

(** Broadcast of two shapes, from the trailing dimension. *)
Fixpoint broadcast_rev (r1 r2 : list nat) : result (list nat) :=
  match r1, r2 with
  | [], _ => Ok r2
  | _, [] => Ok r1
  | a :: r1', b :: r2' =>
      if (a =? b) || (a =? 1) || (b =? 1) then
        rest <- broadcast_rev r1' r2' ;;
        Ok ((if a =? 1 then b else a) :: rest)
      else Raise (RuntimeError
             "The size of tensor a must match the size of tensor b at non-singleton dimension")
  end.

Definition broadcast_shapes (s1 s2 : list nat) : result (list nat) :=
  rsh <- broadcast_rev (rev s1) (rev s2) ;;
  Ok (rev rsh).

(** An elementwise binary operation with broadcasting. *)
Definition map2 {A B C} (dt : dtype) (f : A -> B -> C)
    (x : tensor A) (y : tensor B) : result (tensor C) :=
  sh <- broadcast_shapes (shape x) (shape y) ;;
  Ok (Tensor dt sh
        (fun idx => f (item x (bidx (shape x) idx)) (item y (bidx (shape y) idx)))).

Definition tensor_add (x y : tensor xreal) : result (tensor xreal) :=
  map2 (promote_types (dtype_of x) (dtype_of y)) xadd x y.

Definition tensor_sub (x y : tensor xreal) : result (tensor xreal) :=
  map2 (promote_types (dtype_of x) (dtype_of y)) xsub x y.

Definition tensor_mul (x y : tensor xreal) : result (tensor xreal) :=
  map2 (promote_types (dtype_of x) (dtype_of y)) xmul x y.

Definition tensor_div (x y : tensor xreal) : result (tensor xreal) :=
  map2 (promote_types (dtype_of x) (dtype_of y)) xdiv x y.

(** [a & b] on boolean tensors. *)
Definition tensor_and (x y : tensor bool) : result (tensor bool) :=
  map2 bool_ andb x y.

(** Operations with a Python scalar keep the tensor's dtype. *)
Definition mul_scalar (x : tensor xreal) (c : xreal) : tensor xreal :=
  tmap (dtype_of x) (fun v => xmul v c) x.

Definition div_scalar (x : tensor xreal) (c : xreal) : tensor xreal :=
  tmap (dtype_of x) (fun v => xdiv v c) x.

Definition add_scalar (x : tensor xreal) (c : xreal) : tensor xreal :=
  tmap (dtype_of x) (fun v => xadd v c) x.

Definition tensor_not (m : tensor bool) : tensor bool := tmap bool_ negb m.

(** [m.bool()] and the test [m.dtype != torch.bool]. *)
Definition to_bool (m : tensor bool) : tensor bool := tmap bool_ (fun b => b) m.

(** [x.masked_fill(mask, v)]: out of place, both operands broadcast. *)
Definition masked_fill (x : tensor xreal) (mask : tensor bool) (v : xreal)
  : result (tensor xreal) :=
  map2 (dtype_of x) (fun s (m : bool) => if m then v else s) x mask.

(** [x.masked_fill_(mask, v)]: in place, so the mask has to broadcast to
    the shape of [x], which is kept. *)
Definition masked_fill_ (x : tensor xreal) (mask : tensor bool) (v : xreal)
  : result (tensor xreal) :=
  m <- expand (map Z.of_nat (shape x)) mask ;;
  Ok (Tensor (dtype_of x) (shape x)
        (fun idx => if (item m idx : bool) then v else item x idx)).

(** Size of the last dimension, and the index of the [j]-th element in
    the row (last dimension) of [idx]. *)
Definition last_dim (sh : list nat) : nat := last sh 1.

Definition row_index (idx : list nat) (j : nat) : list nat :=
  match idx with
  | [] => []
  | _ => removelast idx ++ [j]
  end.

Definition row {A} (t : tensor A) (idx : list nat) : list A :=
  map (fun j => item t (row_index idx j)) (seq 0 (last_dim (shape t))).

(** Shape after a reduction of the last dimension with [keepdim=True]. *)
Definition keepdim_shape (sh : list nat) : list nat :=
  match sh with
  | [] => []
  | _ => removelast sh ++ [1]
  end.

(** Maximum, [NaN] propagating. *)
Definition xmax (x y : xreal) : xreal :=
  match x, y with
  | NaN, _ | _, NaN => NaN
  | PInf, _ | _, PInf => PInf
  | NInf, z | z, NInf => z
  | Fin a, Fin b => if Rltb a b then Fin b else Fin a
  end.

Definition row_max (l : list xreal) : xreal := fold_left xmax l NInf.

(** Softmax of one row, the way the kernel computes it: the row maximum
    is subtracted before exponentiation. *)
Definition softmax_row (l : list xreal) (x : xreal) : xreal :=
  let m := row_max l in
  xdiv (xexp (xsub x m)) (xsum (map (fun y => xexp (xsub y m)) l)).

(** [x.softmax(dim=-1)]. *)
Definition softmax (x : tensor xreal) : tensor xreal :=
  Tensor (dtype_of x) (shape x)
    (fun idx => softmax_row (row x idx) (item x idx)).

(** [x.mean(dim=-1, keepdim=True)]. *)
Definition mean_last (x : tensor xreal) : tensor xreal :=
  Tensor (dtype_of x) (keepdim_shape (shape x))
    (fun idx => xdiv (xsum (row x idx)) (x_of_nat (last_dim (shape x)))).

(** [x.var(dim=-1, keepdim=True, unbiased=False)]: the population variance. *)
Definition var_last (x : tensor xreal) : tensor xreal :=
  Tensor (dtype_of x) (keepdim_shape (shape x))
    (fun idx =>
       let r := row x idx in
       let mu := xdiv (xsum r) (x_of_nat (last_dim (shape x))) in
       xdiv (xsum (map (fun v => xmul (xsub v mu) (xsub v mu)) r))
            (x_of_nat (last_dim (shape x)))).

(** [torch.matmul] on operands of two or more dimensions (the only ones
    this program multiplies): the leading dimensions broadcast, the last
    two multiply as matrices. *)
Definition matmul (x y : tensor xreal) : result (tensor xreal) :=
  match rev (shape x), rev (shape y) with
  | m :: n :: rbx, p :: m' :: rby =>
      if negb (dtype_eqb (dtype_of x) (dtype_of y))
      then Raise (RuntimeError "expected both operands to have the same dtype")
      else if negb (m =? m')
      then Raise (RuntimeError "mat1 and mat2 shapes cannot be multiplied")
      else
        rb <- broadcast_rev rbx rby ;;
        Ok (Tensor (dtype_of x) (rev rb ++ [n; p])
              (fun idx =>
                 let b := firstn (length idx - 2) idx in
                 let i := nth (length idx - 2) idx 0 in
                 let j := nth (length idx - 1) idx 0 in
                 xsum (map (fun c =>
                              xmul (item x (bidx (rev rbx) b ++ [i; c]))
                                   (item y (bidx (rev rby) b ++ [c; j])))
                           (seq 0 m))))
  | _, _ => Raise (RuntimeError "matmul: operand of fewer than two dimensions")
  end.

(** [F.linear(x, w, b)]: [x @ w.T + b] along the last dimension of [x];
    [w] has shape (out_features, in_features). *)
Definition linear (x w : tensor xreal) (b : option (tensor xreal))
  : result (tensor xreal) :=
  match shape w, rev (shape x) with
  | [o; i], i' :: rpre =>
      if negb (dtype_eqb (dtype_of x) (dtype_of w))
      then Raise (RuntimeError "mat1 and mat2 must have the same dtype")
      else if negb (i =? i')
      then Raise (RuntimeError "mat1 and mat2 shapes cannot be multiplied")
      else
        Ok (Tensor (dtype_of x) (rev rpre ++ [o])
              (fun idx =>
                 let k := last idx 0 in
                 let s := xsum (map (fun c =>
                                       xmul (item x (row_index idx c)) (item w [k; c]))
                                    (seq 0 i)) in
                 match b with
                 | Some bias => xadd s (item bias [k])
                 | None => s
                 end))
  | _, _ => Raise (RuntimeError "linear: weight must be a matrix and the input at least a vector")
  end.

(** [t[:, :n, :]]: the first [n] positions of dimension [d] (a Python slice
    past the end is clipped). *)
Definition slice_to {A} (d n : nat) (t : tensor A) : result (tensor A) :=
  match nth_error (shape t) d with
  | Some len => Ok (Tensor (dtype_of t) (set_nth d (Nat.min n len) (shape t)) (item t))
  | None => Raise (IndexError "too many indices for tensor")
  end.

(** [t[:, start::step] = src] on a matrix [t]: the selected columns take
    the values of [src], which must broadcast to the shape of the slice. *)
Definition setitem_cols (start step : nat) (t src : tensor xreal)
  : result (tensor xreal) :=
  match shape t with
  | [rows; cols] =>
      let width := (cols - start + (step - 1)) / step in
      s <- expand [Z.of_nat rows; Z.of_nat width] src ;;
      Ok (Tensor (dtype_of t) [rows; cols]
            (fun idx =>
               match idx with
               | [i; j] =>
                   if (start <=? j) && ((j - start) mod step =? 0)
                   then item s [i; (j - start) / step]
                   else item t idx
               | _ => item t idx
               end))
  | _ => Raise (IndexError "too many indices for tensor")
  end.

(** [torch.zeros(sizes)], [torch.ones(n)]. *)
Definition full (sizes : list Z) (v : xreal) : result (tensor xreal) :=
  if existsb (fun s => (s <? 0)%Z) sizes
  then Raise (RuntimeError "Trying to create tensor with negative dimension")
  else Ok (Tensor default_dtype (map Z.to_nat sizes) (fun _ => v)).

Definition zeros (sizes : list Z) : result (tensor xreal) := full sizes (Fin 0).
Definition ones (sizes : list Z) : result (tensor xreal) := full sizes (Fin 1).

(** [torch.arange(0, stop, step)] for a positive [step], as floats. *)
Definition arange (stop : Z) (step : nat) : result (tensor xreal) :=
  if (stop <? 0)%Z
  then Raise (RuntimeError "upper bound and larger bound inconsistent with step sign")
  else Ok (Tensor default_dtype [(Z.to_nat stop + (step - 1)) / step]
             (fun idx => x_of_nat (step * nth 0 idx 0))).

(** Python float divided by a Python int. *)
Definition py_div (a : xreal) (z : Z) : result xreal :=
  if (z =? 0)%Z then Raise ZeroDivisionError else Ok (xdiv a (x_of_Z z)).

(** ** Random tensors *)

(** [numel sh] fresh uniform samples in the given shape. *)
Definition rand (sh : list nat) : M (tensor xreal) :=
  fun g => Ok (Tensor default_dtype sh (fun idx => Fin (g (ravel sh idx))),
               advance (numel sh) g).

(** [t.uniform_(a, b)]. *)
Definition uniform_ (t : tensor xreal) (a b : R) : M (tensor xreal) :=
  u <- rand (shape t) ;;
  ret (Tensor (dtype_of t) (shape t)
         (fun idx => xadd (Fin a) (xmul (Fin (b - a)) (item u idx)))).

(** [t.normal_(0, 1)], by the Box-Muller transform of two uniform samples
    per element. *)
Definition normal_ (t : tensor xreal) : M (tensor xreal) :=
  fun g =>
    Ok (Tensor (dtype_of t) (shape t)
          (fun idx =>
             let k := ravel (shape t) idx in
             Fin (sqrt (-2 * ln (1 - g (2 * k))) * cos (2 * PI * g (2 * k + 1)))),
        advance (2 * numel (shape t)) g).

(** [torch.bernoulli] with success probability [p], one sample per element. *)
Definition bernoulli (sh : list nat) (p : R) : M (tensor bool) :=
  fun g => Ok (Tensor bool_ sh (fun idx => Rltb (g (ravel sh idx)) p),
               advance (numel sh) g).

(** [for _ in range(n)]: run [c] [n] times, collecting the results. *)
Fixpoint repeatM {A} (n : nat) (c : M A) : M (list A) :=
  match n with
  | O => ret []
  | S n' => a <- c ;; rest <- repeatM n' c ;; ret (a :: rest)
  end.

(** Thread a computation through a list (a [for] loop that rebuilds each
    element). *)
Fixpoint mapM {A B} (f : A -> M B) (l : list A) : M (list B) :=
  match l with
  | [] => ret []
  | a :: l' => b <- f a ;; rest <- mapM f l' ;; ret (b :: rest)
  end.

(** [modules[i]] on an [nn.ModuleList]. *)
Definition module_at {A} (l : list A) (i : nat) : result A :=
  match nth_error l i with
  | Some a => Ok a
  | None => Raise (IndexError "index is out of range")
  end.

(** [nn.init.xavier_uniform_] on a matrix of shape (fan_out, fan_in). *)
Definition xavier_uniform_ (w : tensor xreal) : M (tensor xreal) :=
  match shape w with
  | [fan_out; fan_in] =>
      if fan_in + fan_out =? 0 then lift (Raise ZeroDivisionError)
      else
        let a := (sqrt 3 * sqrt (2 / INR (fan_in + fan_out)))%R in
        uniform_ w (- a) a
  | _ => lift (Raise (ValueError
           "Fan in and fan out can not be computed for tensor with fewer than 2 dimensions"))
  end.

(* ================================================================== *)
(** * The modules of [torch.nn] the model is built from *)

(** [nn.Dropout]. *)
Module Dropout.

Record t : Type := Build { p : Q; training : bool }.

(** A module is created in training mode. *)
Definition init (p : Q) : result t :=
  if Qle_bool 0 p && Qle_bool p 1
  then Ok (Build p true)
  else Raise (ValueError "dropout probability has to be between 0 and 1").

(** In evaluation mode, or with rate 0, the input is returned; otherwise
    each element is kept with probability [1 - p] and scaled by
    [1 / (1 - p)], the others are multiplied by zero. *)
Definition forward (d : t) (x : tensor xreal) : M (tensor xreal) :=
  if negb (training d) || Qeq_bool (p d) 0 || (numel (shape x) =? 0)
  then ret x
  else if Qeq_bool (p d) 1
  then ret (mul_scalar x (Fin 0))
  else
    keep <- bernoulli (shape x) (1 - Q2R (p d)) ;;
    ret (Tensor (dtype_of x) (shape x)
           (fun idx =>
              xmul (item x idx)
                   (xdiv (if (item keep idx : bool) then Fin 1 else Fin 0)
                         (Fin (1 - Q2R (p d)))))).

End Dropout.

(** [nn.Linear]. *)
Module Linear.

Record t : Type := Build {
  in_features : Z;
  out_features : Z;
  weight : tensor xreal;           (* (out_features, in_features) *)
  bias : option (tensor xreal)     (* (out_features) *)
}.

(** The default initialisation draws the weight and the bias uniformly
    from [-1/sqrt(fan_in), 1/sqrt(fan_in)]. *)
Definition init (in_features out_features : Z) (with_bias : bool) : M t :=
  w0 <- lift (zeros [out_features; in_features]) ;;
  let bound := (/ sqrt (IZR in_features))%R in
  w <- uniform_ w0 (- bound) bound ;;
  if with_bias then
    b0 <- lift (zeros [out_features]) ;;
    b <- uniform_ b0 (- (if (0 <? in_features)%Z then bound else 0))
                     (if (0 <? in_features)%Z then bound else 0) ;;
    ret (Build in_features out_features w (Some b))
  else ret (Build in_features out_features w None).

Definition forward (l : t) (x : tensor xreal) : result (tensor xreal) :=
  linear x (weight l) (bias l).

(** The pass over the parameters of more than one dimension. *)
Definition xavier (l : t) : M t :=
  w <- xavier_uniform_ (weight l) ;;
  ret (Build (in_features l) (out_features l) w (bias l)).

End Linear.

(** [nn.Embedding]: a table of shape (num_embeddings, embedding_dim),
    initialised from the normal distribution. *)
Module Embedding.

Record t : Type := Build { weight : tensor xreal }.

Definition init (num_embeddings embedding_dim : Z) : M t :=
  w0 <- lift (zeros [num_embeddings; embedding_dim]) ;;
  w <- normal_ w0 ;;
  ret (Build w).

(** Row [x[idx]] of the table for every position; an id outside the table
    is an error. *)
Definition forward (e : t) (x : tensor Z) : result (tensor xreal) :=
  match shape (weight e) with
  | [n; d] =>
      if forallb (fun idx => (0 <=? item x idx)%Z && (item x idx <? Z.of_nat n)%Z)
                 (indices (shape x))
      then Ok (Tensor (dtype_of (weight e)) (shape x ++ [d])
                 (fun idx =>
                    item (weight e) [Z.to_nat (item x (removelast idx)); last idx 0]))
      else Raise (IndexError "index out of range in self")
  | _ => Raise (RuntimeError "'weight' must be 2-D")
  end.

Definition xavier (e : t) : M t :=
  w <- xavier_uniform_ (weight e) ;;
  ret (Build w).

End Embedding.

(* ================================================================== *)
(** * The classes of [sparse_model.py] *)

Module InputEmbeddings.

Record t : Type := Build {
  d_model : Z;
  vocab_size : Z;
  embedding : Embedding.t
}.

Definition init (d_model vocab_size : Z) : M t :=
  e <- Embedding.init vocab_size d_model ;;
  ret (Build d_model vocab_size e).

(** (batch, seq_len) -> (batch, seq_len, d_model), scaled by sqrt(d_model). *)
Definition forward (m : t) (x : tensor Z) : result (tensor xreal) :=
  y <- Embedding.forward (embedding m) x ;;
  s <- math_sqrt (d_model m) ;;
  Ok (mul_scalar y s).

Definition xavier (m : t) : M t :=
  e <- Embedding.xavier (embedding m) ;;
  ret (Build (d_model m) (vocab_size m) e).

End InputEmbeddings.

Module PositionalEncoding.

Record t : Type := Build {
  d_model : Z;
  seq_len : Z;
  dropout : Dropout.t;
  pe : tensor xreal                (* (1, seq_len, d_model) *)
}.

(** [torch.exp(torch.arange(0, d_model, 2).float() * -(math.log(1000.0) / d_model))] *)
Definition div_term (d_model : Z) : result (tensor xreal) :=
  two_i <- arange d_model 2 ;;
  c <- py_div (Fin (ln 1000)) d_model ;;
  Ok (tmap default_dtype xexp (mul_scalar two_i (xneg c))).

(** The table: sines in the even columns, cosines in the odd ones. *)
Definition table (d_model seq_len : Z) : result (tensor xreal) :=
  pe0 <- zeros [seq_len; d_model] ;;
  ar <- arange seq_len 1 ;;
  position <- unsqueeze 1 ar ;;
  dt <- div_term d_model ;;
  even <- tensor_mul position dt ;;
  pe1 <- setitem_cols 0 2 pe0 (tmap default_dtype xsin even) ;;
  odd <- tensor_mul position dt ;;
  pe2 <- setitem_cols 1 2 pe1 (tmap default_dtype xcos odd) ;;
  unsqueeze 0 pe2.

Definition init (d_model seq_len : Z) (dropout : Q) : result t :=
  dr <- Dropout.init dropout ;;
  pe <- table d_model seq_len ;;
  Ok (Build d_model seq_len dr pe).

(** [x + self.pe[:, :x.shape[1], :]], then dropout. *)
Definition add_positions (m : t) (x : tensor xreal) : result (tensor xreal) :=
  n <- shape_at x 1 ;;
  rows <- slice_to 1 n (pe m) ;;
  tensor_add x rows.

Definition forward (m : t) (x : tensor xreal) : M (tensor xreal) :=
  y <- lift (add_positions m x) ;;
  Dropout.forward (dropout m) y.

End PositionalEncoding.

(** [y.view(B, T, h, d_k).transpose(1, 2)]:
    (batch, seq_len, d_model) -> (batch, h, seq_len, d_k). *)
Definition split_heads (B T h d_k : Z) (y : tensor xreal) : result (tensor xreal) :=
  v <- view [B; T; h; d_k] y ;;
  transpose 1 2 v.

Module MultiHeadAttentionBlock.

Record t : Type := Build {
  d_model : Z;
  h : Z;
  d_k : Z;
  w_q : Linear.t;
  w_k : Linear.t;
  w_v : Linear.t;
  w_o : Linear.t;
  dropout : Dropout.t
}.

Definition init (d_model h : Z) (dropout : Q) : M t :=
  if (h =? 0)%Z then lift (Raise ZeroDivisionError)
  else if negb (d_model mod h =? 0)%Z
  then lift (Raise (AssertionError "d_model is not divisible by h"))
  else
    wq <- Linear.init d_model d_model false ;;
    wk <- Linear.init d_model d_model false ;;
    wv <- Linear.init d_model d_model false ;;
    wo <- Linear.init d_model d_model false ;;
    dr <- lift (Dropout.init dropout) ;;
    ret (Build d_model h (d_model / h) wq wk wv wo dr).

(** The scores after the optional mask has been written into them:
    [(query @ key.transpose(-2, -1)) / math.sqrt(d_k)], then
    [masked_fill_(mask == 0, torch.finfo(dtype).min)]. *)
Definition masked_scores (query key : tensor xreal) (mask : option (tensor bool))
  : result (tensor xreal) :=
  d_k <- match rev (shape query) with
         | d :: _ => Ok d
         | [] => Raise (IndexError "tuple index out of range")
         end ;;
  kt <- transpose (-2) (-1) key ;;
  s <- matmul query kt ;;
  sq <- math_sqrt (Z.of_nat d_k) ;;
  let attention_scores := div_scalar s sq in
  match mask with
  | Some m =>
      low <- finfo_min (dtype_of attention_scores) ;;
      masked_fill_ attention_scores (tensor_not m) low
  | None => Ok attention_scores
  end.

Definition attention (query key value : tensor xreal) (mask : option (tensor bool))
    (dropout : option Dropout.t) : M (tensor xreal * tensor xreal) :=
  scores <- lift (masked_scores query key mask) ;;
  let weights := softmax scores in
  weights <- match dropout with
             | Some d => Dropout.forward d weights
             | None => ret weights
             end ;;
  out <- lift (matmul weights value) ;;
  ret (out, weights).

(** [y.view(y.shape[0], y.shape[1], h, d_k).transpose(1, 2)] *)
Definition split (m : t) (y : tensor xreal) : result (tensor xreal) :=
  b <- shape_at y 0 ;;
  n <- shape_at y 1 ;;
  split_heads (Z.of_nat b) (Z.of_nat n) (h m) (d_k m) y.

(** [x.transpose(1, 2).contiguous().view(x.shape[0], -1, h * d_k)] *)
Definition merge (m : t) (x : tensor xreal) : result (tensor xreal) :=
  xt <- transpose 1 2 x ;;
  b <- shape_at x 0 ;;
  view [Z.of_nat b; -1; h m * d_k m]%Z (contiguous xt).

Definition forward (m : t) (q k v : tensor xreal) (mask : option (tensor bool))
  : M (tensor xreal) :=
  query <- lift (Linear.forward (w_q m) q) ;;
  key <- lift (Linear.forward (w_k m) k) ;;
  value <- lift (Linear.forward (w_v m) v) ;;
  query <- lift (split m query) ;;
  key <- lift (split m key) ;;
  value <- lift (split m value) ;;
  '(x, _) <- attention query key value mask (Some (dropout m)) ;;
  x <- lift (merge m x) ;;
  lift (Linear.forward (w_o m) x).

Definition xavier (m : t) : M t :=
  wq <- Linear.xavier (w_q m) ;;
  wk <- Linear.xavier (w_k m) ;;
  wv <- Linear.xavier (w_v m) ;;
  wo <- Linear.xavier (w_o m) ;;
  ret (Build (d_model m) (h m) (d_k m) wq wk wv wo (dropout m)).

End MultiHeadAttentionBlock.

(** Modelled from the spec: [create_sparse_mask] is imported from [utils],
    which is not among the sources.  The spec (4.3) gives the pattern: a
    query position may attend to every key position of its own contiguous
    block of [block_size] positions, and to the key positions at offsets
    that are multiples of [stride] from it; with [causal] the result is
    intersected with the lower-triangular mask (no key after the query).
    The spec leaves non-positive [block_size] and [stride] to rejection
    elsewhere, so the pattern there is only what the formula gives. *)
Definition sparse_allow (block_size stride : Z) (causal : bool) (q k : nat) : bool :=
  let q := Z.of_nat q in
  let k := Z.of_nat k in
  (((q / block_size =? k / block_size) || ((q - k) mod stride =? 0))
   && (if causal then k <=? q else true))%Z.

(** Modelled from the spec: the mask of shape (1, 1, T, T) that
    [create_sparse_mask] returns. *)
Definition create_sparse_mask (seq_len : nat) (block_size stride : Z) (causal : bool)
  : tensor bool :=
  Tensor bool_ [1; 1; seq_len; seq_len]
    (fun idx => sparse_allow block_size stride causal (nth 2 idx 0) (nth 3 idx 0)).

Module SparseMultiHeadAttentionBlock.

Record t : Type := Build {
  d_model : Z;
  h : Z;
  d_k : Z;
  block_size : Z;
  stride : Z;
  causal : bool;
  w_q : Linear.t;
  w_k : Linear.t;
  w_v : Linear.t;
  w_o : Linear.t;
  dropout : Dropout.t
}.

Definition init (d_model h : Z) (dropout : Q) (block_size stride : Z) (causal : bool)
  : M t :=
  if (h =? 0)%Z then lift (Raise ZeroDivisionError)
  else if negb (d_model mod h =? 0)%Z
  then lift (Raise (AssertionError "d_model must be divisible by h"))
  else
    wq <- Linear.init d_model d_model false ;;
    wk <- Linear.init d_model d_model false ;;
    wv <- Linear.init d_model d_model false ;;
    wo <- Linear.init d_model d_model false ;;
    dr <- lift (Dropout.init dropout) ;;
    ret (Build d_model h (d_model / h) block_size stride causal wq wk wv wo dr).

Definition compute_qkv (m : t) (x : tensor xreal)
  : result (tensor xreal * tensor xreal * tensor xreal) :=
  '(B, T, _) <- unpack3 (shape x) ;;
  xq <- Linear.forward (w_q m) x ;;
  q <- split_heads (Z.of_nat B) (Z.of_nat T) (h m) (d_k m) xq ;;
  xk <- Linear.forward (w_k m) x ;;
  k <- split_heads (Z.of_nat B) (Z.of_nat T) (h m) (d_k m) xk ;;
  xv <- Linear.forward (w_v m) x ;;
  v <- split_heads (Z.of_nat B) (Z.of_nat T) (h m) (d_k m) xv ;;
  Ok (q, k, v).

Definition build_sparse_mask (m : t) (seq_len batch_size : nat) : result (tensor bool) :=
  let base_mask := create_sparse_mask seq_len (block_size m) (stride m) (causal m) in
  expand [Z.of_nat batch_size; h m; Z.of_nat seq_len; Z.of_nat seq_len] base_mask.

(** The mask [forward] hands to [compute_attention]. *)
Definition attn_mask (m : t) (B T : nat) (mask : option (tensor bool))
  : result (tensor bool) :=
  sparse_mask <- build_sparse_mask m T B ;;
  match mask with
  | Some mask =>
      mask <- (if ndim mask =? 3 then unsqueeze 1 mask else Ok mask) ;;
      mask <- expand [Z.of_nat B; h m; Z.of_nat T; Z.of_nat T] mask ;;
      tensor_and sparse_mask mask
  | None => Ok sparse_mask
  end.

(** The scores after masking:
    [torch.matmul(q, k.transpose(-2, -1)) / math.sqrt(self.d_k)], then
    [masked_fill(~mask, float("-inf"))]. *)
Definition masked_scores (m : t) (q k : tensor xreal) (mask : tensor bool)
  : result (tensor xreal) :=
  kt <- transpose (-2) (-1) k ;;
  s <- matmul q kt ;;
  sq <- math_sqrt (d_k m) ;;
  let scores := div_scalar s sq in
  let mask := if dtype_eqb (dtype_of mask) bool_ then mask else to_bool mask in
  masked_fill scores (tensor_not mask) neg_inf.

Definition compute_attention (m : t) (q k v : tensor xreal) (mask : tensor bool)
  : M (tensor xreal) :=
  scores <- lift (masked_scores m q k mask) ;;
  let attn_weights := softmax scores in
  attn_weights <- Dropout.forward (dropout m) attn_weights ;;
  lift (matmul attn_weights v).

(** [x.transpose(1, 2).contiguous().view(B, T, h * d_k)] with
    [B, h, T, d_k = x.size()]. *)
Definition merge (x : tensor xreal) : result (tensor xreal) :=
  '(B, h, T, d_k) <- unpack4 (shape x) ;;
  xt <- transpose 1 2 x ;;
  view [Z.of_nat B; Z.of_nat T; Z.of_nat (h * d_k)] (contiguous xt).

Definition output_projection (m : t) (x : tensor xreal) : result (tensor xreal) :=
  y <- merge x ;;
  Linear.forward (w_o m) y.

Definition forward (m : t) (q k v : tensor xreal) (mask : option (tensor bool))
  : M (tensor xreal) :=
  '(B, T, _) <- lift (unpack3 (shape q)) ;;
  '(q, k, v) <- lift (compute_qkv m q) ;;
  attn_mask <- lift (attn_mask m B T mask) ;;
  attn_out <- compute_attention m q k v attn_mask ;;
  lift (output_projection m attn_out).

Definition xavier (m : t) : M t :=
  wq <- Linear.xavier (w_q m) ;;
  wk <- Linear.xavier (w_k m) ;;
  wv <- Linear.xavier (w_v m) ;;
  wo <- Linear.xavier (w_o m) ;;
  ret (Build (d_model m) (h m) (d_k m) (block_size m) (stride m) (causal m)
             wq wk wv wo (dropout m)).

End SparseMultiHeadAttentionBlock.

Module LayerNormalization.

Record t : Type := Build {
  eps : xreal;
  alpha : tensor xreal;            (* (features), ones *)
  bias : tensor xreal              (* (features), zeros *)
}.

(** The default [eps] is [10**-6]. *)
Definition init (features : Z) : result t :=
  a <- ones [features] ;;
  b <- zeros [features] ;;
  Ok (Build (Fin (/ 1000000)) a b).

Definition forward (m : t) (x : tensor xreal) : result (tensor xreal) :=
  let mean := mean_last x in
  let var := var_last x in
  centred <- tensor_sub x mean ;;
  norm <- tensor_div centred (tmap (dtype_of var) xsqrt (add_scalar var (eps m))) ;;
  scaled <- tensor_mul (alpha m) norm ;;
  tensor_add scaled (bias m).

End LayerNormalization.

Module FeedForwardBlock.

Record t : Type := Build {
  linear1 : Linear.t;
  dropout : Dropout.t;
  linear2 : Linear.t
}.

Definition init (d_model d_ff : Z) (dropout : Q) : M t :=
  l1 <- Linear.init d_model d_ff true ;;
  dr <- lift (Dropout.init dropout) ;;
  l2 <- Linear.init d_ff d_model true ;;
  ret (Build l1 dr l2).

Definition forward (m : t) (x : tensor xreal) : M (tensor xreal) :=
  a <- lift (Linear.forward (linear1 m) x) ;;
  d <- Dropout.forward (dropout m) (tmap (dtype_of a) xrelu a) ;;
  lift (Linear.forward (linear2 m) d).

Definition xavier (m : t) : M t :=
  l1 <- Linear.xavier (linear1 m) ;;
  l2 <- Linear.xavier (linear2 m) ;;
  ret (Build l1 (dropout m) l2).

End FeedForwardBlock.

Module ResidualConnection.

Record t : Type := Build {
  dropout : Dropout.t;
  norm : LayerNormalization.t
}.

Definition init (features : Z) (dropout : Q) : result t :=
  dr <- Dropout.init dropout ;;
  n <- LayerNormalization.init features ;;
  Ok (Build dr n).

(** [x + self.dropout(sublayer(self.norm(x)))] *)
Definition forward (m : t) (x : tensor xreal) (sublayer : tensor xreal -> M (tensor xreal))
  : M (tensor xreal) :=
  normed <- lift (LayerNormalization.forward (norm m) x) ;;
  out <- sublayer normed ;;
  dropped <- Dropout.forward (dropout m) out ;;
  lift (tensor_add x dropped).

End ResidualConnection.

(** [[ResidualConnection(features, dropout) for _ in range(n)]] *)
Fixpoint residual_list (n : nat) (features : Z) (dropout : Q)
  : result (list ResidualConnection.t) :=
  match n with
  | O => Ok []
  | S n' =>
      r <- ResidualConnection.init features dropout ;;
      rest <- residual_list n' features dropout ;;
      Ok (r :: rest)
  end.

Module EncoderBlock.

Record t : Type := Build {
  self_attention_block : SparseMultiHeadAttentionBlock.t;
  feed_forward_block : FeedForwardBlock.t;
  residual_connections : list ResidualConnection.t
}.

Definition init (features : Z) (self_attention_block : SparseMultiHeadAttentionBlock.t)
    (feed_forward_block : FeedForwardBlock.t) (dropout : Q) : result t :=
  rcs <- residual_list 2 features dropout ;;
  Ok (Build self_attention_block feed_forward_block rcs).

Definition forward (m : t) (x : tensor xreal) (src_mask : option (tensor bool))
  : M (tensor xreal) :=
  rc0 <- lift (module_at (residual_connections m) 0) ;;
  x <- ResidualConnection.forward rc0 x
         (fun x => SparseMultiHeadAttentionBlock.forward (self_attention_block m)
                     x x x src_mask) ;;
  rc1 <- lift (module_at (residual_connections m) 1) ;;
  ResidualConnection.forward rc1 x (FeedForwardBlock.forward (feed_forward_block m)).

Definition xavier (m : t) : M t :=
  sa <- SparseMultiHeadAttentionBlock.xavier (self_attention_block m) ;;
  ff <- FeedForwardBlock.xavier (feed_forward_block m) ;;
  ret (Build sa ff (residual_connections m)).

End EncoderBlock.

Module Encoder.

Record t : Type := Build {
  layers : list EncoderBlock.t;
  norm : LayerNormalization.t
}.

Definition init (features : Z) (layers : list EncoderBlock.t) : result t :=
  n <- LayerNormalization.init features ;;
  Ok (Build layers n).

(** [for layer in self.layers: x = layer(x, mask)] *)
Fixpoint run_layers (layers : list EncoderBlock.t) (x : tensor xreal)
    (mask : option (tensor bool)) : M (tensor xreal) :=
  match layers with
  | [] => ret x
  | layer :: rest =>
      x <- EncoderBlock.forward layer x mask ;;
      run_layers rest x mask
  end.

Definition forward (m : t) (x : tensor xreal) (mask : option (tensor bool))
  : M (tensor xreal) :=
  x <- run_layers (layers m) x mask ;;
  lift (LayerNormalization.forward (norm m) x).

Definition xavier (m : t) : M t :=
  ls <- mapM EncoderBlock.xavier (layers m) ;;
  ret (Build ls (norm m)).

End Encoder.

Module DecoderBlock.

Record t : Type := Build {
  self_attention_block : SparseMultiHeadAttentionBlock.t;
  cross_attention_block : MultiHeadAttentionBlock.t;
  feed_forward_block : FeedForwardBlock.t;
  residual_connection : list ResidualConnection.t
}.

Definition init (features : Z) (self_attention_block : SparseMultiHeadAttentionBlock.t)
    (cross_attention_block : MultiHeadAttentionBlock.t)
    (feed_forward_block : FeedForwardBlock.t) (dropout : Q) : result t :=
  rcs <- residual_list 3 features dropout ;;
  Ok (Build self_attention_block cross_attention_block feed_forward_block rcs).

Definition forward (m : t) (x encoder_output : tensor xreal)
    (src_mask tgt_mask : option (tensor bool)) : M (tensor xreal) :=
  rc0 <- lift (module_at (residual_connection m) 0) ;;
  x <- ResidualConnection.forward rc0 x
         (fun x => SparseMultiHeadAttentionBlock.forward (self_attention_block m)
                     x x x tgt_mask) ;;
  rc1 <- lift (module_at (residual_connection m) 1) ;;
  x <- ResidualConnection.forward rc1 x
         (fun x => MultiHeadAttentionBlock.forward (cross_attention_block m)
                     x encoder_output encoder_output src_mask) ;;
  rc2 <- lift (module_at (residual_connection m) 2) ;;
  ResidualConnection.forward rc2 x (FeedForwardBlock.forward (feed_forward_block m)).

Definition xavier (m : t) : M t :=
  sa <- SparseMultiHeadAttentionBlock.xavier (self_attention_block m) ;;
  ca <- MultiHeadAttentionBlock.xavier (cross_attention_block m) ;;
  ff <- FeedForwardBlock.xavier (feed_forward_block m) ;;
  ret (Build sa ca ff (residual_connection m)).

End DecoderBlock.

Module Decoder.

Record t : Type := Build {
  layers : list DecoderBlock.t;
  norm : LayerNormalization.t
}.

Definition init (features : Z) (layers : list DecoderBlock.t) : result t :=
  n <- LayerNormalization.init features ;;
  Ok (Build layers n).

(** [for layer in self.layers: x = layer(x, encoder_output, src_mask, tgt_mask)] *)
Fixpoint run_layers (layers : list DecoderBlock.t) (x encoder_output : tensor xreal)
    (src_mask tgt_mask : option (tensor bool)) : M (tensor xreal) :=
  match layers with
  | [] => ret x
  | layer :: rest =>
      x <- DecoderBlock.forward layer x encoder_output src_mask tgt_mask ;;
      run_layers rest x encoder_output src_mask tgt_mask
  end.

Definition forward (m : t) (x encoder_output : tensor xreal)
    (src_mask tgt_mask : option (tensor bool)) : M (tensor xreal) :=
  x <- run_layers (layers m) x encoder_output src_mask tgt_mask ;;
  lift (LayerNormalization.forward (norm m) x).

Definition xavier (m : t) : M t :=
  ls <- mapM DecoderBlock.xavier (layers m) ;;
  ret (Build ls (norm m)).

End Decoder.

Module ProjectionLayer.

Record t : Type := Build { proj : Linear.t }.

Definition init (d_model vocab_size : Z) : M t :=
  l <- Linear.init d_model vocab_size true ;;
  ret (Build l).

Definition forward (m : t) (x : tensor xreal) : result (tensor xreal) :=
  Linear.forward (proj m) x.

Definition xavier (m : t) : M t :=
  l <- Linear.xavier (proj m) ;;
  ret (Build l).

End ProjectionLayer.

Module Transformer.

Record t : Type := Build {
  encoder : Encoder.t;
  decoder : Decoder.t;
  src_embed : InputEmbeddings.t;
  tgt_embed : InputEmbeddings.t;
  src_pos : PositionalEncoding.t;
  tgt_pos : PositionalEncoding.t;
  projection_layer : ProjectionLayer.t
}.

Definition forward (m : t) (encoder_input decoder_input : tensor Z)
    (encoder_mask decoder_mask : option (tensor bool)) : M (tensor xreal) :=
  src <- lift (InputEmbeddings.forward (src_embed m) encoder_input) ;;
  src <- PositionalEncoding.forward (src_pos m) src ;;
  encoder_output <- Encoder.forward (encoder m) src encoder_mask ;;
  tgt <- lift (InputEmbeddings.forward (tgt_embed m) decoder_input) ;;
  tgt <- PositionalEncoding.forward (tgt_pos m) tgt ;;
  decoder_output <- Decoder.forward (decoder m) tgt encoder_output encoder_mask decoder_mask ;;
  lift (ProjectionLayer.forward (projection_layer m) decoder_output).

(** [for p in transformer.parameters(): if p.dim() > 1: nn.init.xavier_uniform_(p)],
    in the order the submodules are registered. *)
Definition xavier (m : t) : M t :=
  enc <- Encoder.xavier (encoder m) ;;
  dec <- Decoder.xavier (decoder m) ;;
  se <- InputEmbeddings.xavier (src_embed m) ;;
  te <- InputEmbeddings.xavier (tgt_embed m) ;;
  pl <- ProjectionLayer.xavier (projection_layer m) ;;
  ret (Build enc dec se te (src_pos m) (tgt_pos m) pl).

End Transformer.

Definition encoder_block (d_model h d_ff : Z) (dropout : Q) (block_size stride : Z)
  : M EncoderBlock.t :=
  encoder_self_attention_block <-
    SparseMultiHeadAttentionBlock.init d_model h dropout block_size stride false ;;
  feed_forward_block <- FeedForwardBlock.init d_model d_ff dropout ;;
  lift (EncoderBlock.init d_model encoder_self_attention_block feed_forward_block dropout).

Definition decoder_block (d_model h d_ff : Z) (dropout : Q) (block_size stride : Z)
  : M DecoderBlock.t :=
  decoder_self_attention_block <-
    SparseMultiHeadAttentionBlock.init d_model h dropout block_size stride true ;;
  decoder_cross_attention_block <- MultiHeadAttentionBlock.init d_model h dropout ;;
  feed_forward_block <- FeedForwardBlock.init d_model d_ff dropout ;;
  lift (DecoderBlock.init d_model decoder_self_attention_block
          decoder_cross_attention_block feed_forward_block dropout).

Definition build_sparse_transformer
    (src_vocab_size tgt_vocab_size src_seq_len tgt_seq_len d_model N h : Z)
    (dropout : Q) (d_ff block_size stride : Z) : M Transformer.t :=
  src_embed <- InputEmbeddings.init d_model src_vocab_size ;;
  tgt_embed <- InputEmbeddings.init d_model tgt_vocab_size ;;
  src_pos <- lift (PositionalEncoding.init d_model src_seq_len dropout) ;;
  tgt_pos <- lift (PositionalEncoding.init d_model tgt_seq_len dropout) ;;
  encoder_blocks <-
    repeatM (Z.to_nat N) (encoder_block d_model h d_ff dropout block_size stride) ;;
  decoder_blocks <-
    repeatM (Z.to_nat N) (decoder_block d_model h d_ff dropout block_size stride) ;;
  encoder <- lift (Encoder.init d_model encoder_blocks) ;;
  decoder <- lift (Decoder.init d_model decoder_blocks) ;;
  projection_layer <- ProjectionLayer.init d_model tgt_vocab_size ;;
  Transformer.xavier
    (Transformer.Build encoder decoder src_embed tgt_embed src_pos tgt_pos
       projection_layer).

(* ================================================================== *)
(** * Vocabulary of the statements *)

(** The element of the caller's mask that position (b, j, q, k) of its
    (B, h, T, T) expansion shows: the mask's own trailing coordinates, 0
    along each of its dimensions of size 1; a mask of three dimensions has
    no head coordinate. *)
Definition external_mask_at (mask : tensor bool) (b j q k : nat) : bool :=
  if ndim mask =? 3 then item mask (bidx (shape mask) [b; q; k])
  else item mask (bidx (shape mask) [b; j; q; k]).

(** The block [m] with other sparsity settings. *)
Definition set_sparsity (bs st : Z) (m : SparseMultiHeadAttentionBlock.t)
  : SparseMultiHeadAttentionBlock.t :=
  SparseMultiHeadAttentionBlock.Build
    (SparseMultiHeadAttentionBlock.d_model m)
    (SparseMultiHeadAttentionBlock.h m)
    (SparseMultiHeadAttentionBlock.d_k m)
    bs st
    (SparseMultiHeadAttentionBlock.causal m)
    (SparseMultiHeadAttentionBlock.w_q m)
    (SparseMultiHeadAttentionBlock.w_k m)
    (SparseMultiHeadAttentionBlock.w_v m)
    (SparseMultiHeadAttentionBlock.w_o m)
    (SparseMultiHeadAttentionBlock.dropout m).

Definition respecify_encoder_block (bs st : Z) (b : EncoderBlock.t) : EncoderBlock.t :=
  EncoderBlock.Build (set_sparsity bs st (EncoderBlock.self_attention_block b))
    (EncoderBlock.feed_forward_block b) (EncoderBlock.residual_connections b).

Definition respecify_decoder_block (bs st : Z) (b : DecoderBlock.t) : DecoderBlock.t :=
  DecoderBlock.Build (set_sparsity bs st (DecoderBlock.self_attention_block b))
    (DecoderBlock.cross_attention_block b)
    (DecoderBlock.feed_forward_block b) (DecoderBlock.residual_connection b).

(** The model [m] with [block_size] and [stride] replaced in every sparse
    attention block. *)
Definition respecify (bs st : Z) (m : Transformer.t) : Transformer.t :=
  Transformer.Build
    (Encoder.Build (map (respecify_encoder_block bs st) (Encoder.layers (Transformer.encoder m)))
       (Encoder.norm (Transformer.encoder m)))
    (Decoder.Build (map (respecify_decoder_block bs st) (Decoder.layers (Transformer.decoder m)))
       (Decoder.norm (Transformer.decoder m)))
    (Transformer.src_embed m) (Transformer.tgt_embed m)
    (Transformer.src_pos m) (Transformer.tgt_pos m) (Transformer.projection_layer m).

(** The result of a computation, mapped. *)
Definition fmapM {A B} (f : A -> B) (c : M A) : M B :=
  fun g => match c g with Ok (a, g') => Ok (f a, g') | Raise e => Raise e end.

(** ** Shapes of activations and parameters *)

(** A float32 tensor of shape [sh]: what the layers of the model are fed
    and what they return. *)
Definition float_tensor (sh : list nat) (x : tensor xreal) : Prop :=
  dtype_of x = float32 /\ shape x = sh.

(** A linear layer from [i] to [o] features. *)
Definition linear_shaped (i o : nat) (l : Linear.t) : Prop :=
  float_tensor [o; i] (Linear.weight l).

Definition norm_shaped (d : nat) (n : LayerNormalization.t) : Prop :=
  float_tensor [d] (LayerNormalization.alpha n) /\
  float_tensor [d] (LayerNormalization.bias n).

(** An attention block of [h] heads over [d] features: [h] divides [d],
    [d_k] is the quotient and the four projections are square. *)
Definition sparse_shaped (d h : nat) (m : SparseMultiHeadAttentionBlock.t) : Prop :=
  0 < h /\ d mod h = 0 /\
  SparseMultiHeadAttentionBlock.h m = Z.of_nat h /\
  SparseMultiHeadAttentionBlock.d_k m = Z.of_nat (d / h) /\
  linear_shaped d d (SparseMultiHeadAttentionBlock.w_q m) /\
  linear_shaped d d (SparseMultiHeadAttentionBlock.w_k m) /\
  linear_shaped d d (SparseMultiHeadAttentionBlock.w_v m) /\
  linear_shaped d d (SparseMultiHeadAttentionBlock.w_o m).

Definition dense_shaped (d h : nat) (m : MultiHeadAttentionBlock.t) : Prop :=
  0 < h /\ d mod h = 0 /\
  MultiHeadAttentionBlock.h m = Z.of_nat h /\
  MultiHeadAttentionBlock.d_k m = Z.of_nat (d / h) /\
  linear_shaped d d (MultiHeadAttentionBlock.w_q m) /\
  linear_shaped d d (MultiHeadAttentionBlock.w_k m) /\
  linear_shaped d d (MultiHeadAttentionBlock.w_v m) /\
  linear_shaped d d (MultiHeadAttentionBlock.w_o m).

Definition feed_forward_shaped (d : nat) (m : FeedForwardBlock.t) : Prop :=
  exists d_ff,
    linear_shaped d d_ff (FeedForwardBlock.linear1 m) /\
    linear_shaped d_ff d (FeedForwardBlock.linear2 m).

(** [n] residual wrappers around [d] features. *)
Definition residuals_shaped (d n : nat) (l : list ResidualConnection.t) : Prop :=
  length l = n /\
  Forall (fun rc => norm_shaped d (ResidualConnection.norm rc)) l.

Definition encoder_block_shaped (d h : nat) (b : EncoderBlock.t) : Prop :=
  sparse_shaped d h (EncoderBlock.self_attention_block b) /\
  feed_forward_shaped d (EncoderBlock.feed_forward_block b) /\
  residuals_shaped d 2 (EncoderBlock.residual_connections b).

Definition decoder_block_shaped (d h : nat) (b : DecoderBlock.t) : Prop :=
  sparse_shaped d h (DecoderBlock.self_attention_block b) /\
  dense_shaped d h (DecoderBlock.cross_attention_block b) /\
  feed_forward_shaped d (DecoderBlock.feed_forward_block b) /\
  residuals_shaped d 3 (DecoderBlock.residual_connection b).

Definition embeddings_shaped (vocab d : nat) (m : InputEmbeddings.t) : Prop :=
  InputEmbeddings.d_model m = Z.of_nat d /\
  float_tensor [vocab; d] (Embedding.weight (InputEmbeddings.embedding m)).

(** A model over vocabularies of [sv] and [tv] tokens, sequences of at
    most [sl] and [tl] positions, [d] features and [h] heads. *)
Definition transformer_shaped (sv tv sl tl d h : nat) (m : Transformer.t) : Prop :=
  Forall (encoder_block_shaped d h) (Encoder.layers (Transformer.encoder m)) /\
  norm_shaped d (Encoder.norm (Transformer.encoder m)) /\
  Forall (decoder_block_shaped d h) (Decoder.layers (Transformer.decoder m)) /\
  norm_shaped d (Decoder.norm (Transformer.decoder m)) /\
  embeddings_shaped sv d (Transformer.src_embed m) /\
  embeddings_shaped tv d (Transformer.tgt_embed m) /\
  float_tensor [1; sl; d] (PositionalEncoding.pe (Transformer.src_pos m)) /\
  float_tensor [1; tl; d] (PositionalEncoding.pe (Transformer.tgt_pos m)) /\
  linear_shaped d tv (ProjectionLayer.proj (Transformer.projection_layer m)).

(** The masks a caller passes: none, a padding mask of shape (B, 1, 1, S)
    or a full mask of shape (B, 1, T, S). *)
Definition mask_fits (B T S : nat) (mask : option (tensor bool)) : Prop :=
  match mask with
  | None => True
  | Some m => exists R, shape m = [B; 1; R; S] /\ (R = 1 \/ R = T)
  end.

(** Token ids of shape (B, T), each within a vocabulary of [vocab] tokens. *)
Definition tokens (B T vocab : nat) (x : tensor Z) : Prop :=
  shape x = [B; T] /\
  forall b t, b < B -> t < T -> (0 <= item x [b; t] < Z.of_nat vocab)%Z.

(** The settings a sparse block carries. *)
Definition sparse_settings (d h bs st : Z) (c : bool)
    (m : SparseMultiHeadAttentionBlock.t) : Prop :=
  SparseMultiHeadAttentionBlock.h m = h /\
  SparseMultiHeadAttentionBlock.d_k m = (d / h)%Z /\
  SparseMultiHeadAttentionBlock.block_size m = bs /\
  SparseMultiHeadAttentionBlock.stride m = st /\
  SparseMultiHeadAttentionBlock.causal m = c.

(** A computation that does not touch the generator: it gives the same
    result from every generator state and leaves the state as it found it. *)
Definition deterministic {A} (c : M A) : Prop :=
  exists r : result A, forall g, c g = lift r g.

(** A dropout layer of rate zero. *)
Definition no_dropout (d : Dropout.t) : Prop := Qeq_bool (Dropout.p d) 0 = true.

Definition encoder_block_quiet (b : EncoderBlock.t) : Prop :=
  no_dropout (SparseMultiHeadAttentionBlock.dropout (EncoderBlock.self_attention_block b)) /\
  no_dropout (FeedForwardBlock.dropout (EncoderBlock.feed_forward_block b)) /\
  Forall (fun rc => no_dropout (ResidualConnection.dropout rc))
         (EncoderBlock.residual_connections b).

Definition decoder_block_quiet (b : DecoderBlock.t) : Prop :=
  no_dropout (SparseMultiHeadAttentionBlock.dropout (DecoderBlock.self_attention_block b)) /\
  no_dropout (MultiHeadAttentionBlock.dropout (DecoderBlock.cross_attention_block b)) /\
  no_dropout (FeedForwardBlock.dropout (DecoderBlock.feed_forward_block b)) /\
  Forall (fun rc => no_dropout (ResidualConnection.dropout rc))
         (DecoderBlock.residual_connection b).

(** A generator whose samples lie in [0, 1), as those of [torch.rand] do. *)
Definition unit_samples (g : generator) : Prop := forall i, (0 <= g i < 1)%R.

(** A computation that, run from such a generator, returns a value with
    property [P] and leaves such a generator. *)
Definition yields {A} (P : A -> Prop) (c : M A) : Prop :=
  forall g a g', c g = Ok (a, g') -> unit_samples g -> P a /\ unit_samples g'.

(** The range [nn.init.xavier_uniform_] draws a matrix from: every entry
    within [sqrt 3 * sqrt (2 / (fan_in + fan_out))] of zero. *)
Definition within_xavier_bound (w : tensor xreal) : Prop :=
  exists fan_out fan_in,
    shape w = [fan_out; fan_in] /\
    forall idx, exists r,
      item w idx = Fin r /\
      (Rabs r <= sqrt 3 * sqrt (2 / INR (fan_in + fan_out)))%R.

Definition linear_within_bound (l : Linear.t) : Prop :=
  within_xavier_bound (Linear.weight l).

Definition sparse_within_bound (m : SparseMultiHeadAttentionBlock.t) : Prop :=
  linear_within_bound (SparseMultiHeadAttentionBlock.w_q m) /\
  linear_within_bound (SparseMultiHeadAttentionBlock.w_k m) /\
  linear_within_bound (SparseMultiHeadAttentionBlock.w_v m) /\
  linear_within_bound (SparseMultiHeadAttentionBlock.w_o m).

Definition dense_within_bound (m : MultiHeadAttentionBlock.t) : Prop :=
  linear_within_bound (MultiHeadAttentionBlock.w_q m) /\
  linear_within_bound (MultiHeadAttentionBlock.w_k m) /\
  linear_within_bound (MultiHeadAttentionBlock.w_v m) /\
  linear_within_bound (MultiHeadAttentionBlock.w_o m).

Definition feed_forward_within_bound (m : FeedForwardBlock.t) : Prop :=
  linear_within_bound (FeedForwardBlock.linear1 m) /\
  linear_within_bound (FeedForwardBlock.linear2 m).

Definition encoder_block_within_bound (b : EncoderBlock.t) : Prop :=
  sparse_within_bound (EncoderBlock.self_attention_block b) /\
  feed_forward_within_bound (EncoderBlock.feed_forward_block b).

Definition decoder_block_within_bound (b : DecoderBlock.t) : Prop :=
  sparse_within_bound (DecoderBlock.self_attention_block b) /\
  dense_within_bound (DecoderBlock.cross_attention_block b) /\
  feed_forward_within_bound (DecoderBlock.feed_forward_block b).

(** Every parameter of more than one dimension lies in its range. *)
Definition transformer_within_bound (m : Transformer.t) : Prop :=
  Forall encoder_block_within_bound (Encoder.layers (Transformer.encoder m)) /\
  Forall decoder_block_within_bound (Decoder.layers (Transformer.decoder m)) /\
  within_xavier_bound (Embedding.weight (InputEmbeddings.embedding (Transformer.src_embed m))) /\
  within_xavier_bound (Embedding.weight (InputEmbeddings.embedding (Transformer.tgt_embed m))) /\
  linear_within_bound (ProjectionLayer.proj (Transformer.projection_layer m)).

(** ** Causality *)

(** Every element of a tensor of shape (B, H, T, D) is finite. *)
Definition finite_heads (B H T D : nat) (x : tensor xreal) : Prop :=
  forall b j r c, b < B -> j < H -> r < T -> c < D ->
    is_finite (item x [b; j; r; c]) = true.

(** Two tensors of shape (B, H, T, D) that agree at every position up to
    [t]. *)
Definition agree_upto (B H T D t : nat) (x y : tensor xreal) : Prop :=
  forall b j r c, b < B -> j < H -> r < T -> c < D -> r <= t ->
    item x [b; j; r; c] = item y [b; j; r; c].


(** Every element of a tensor of shape (B, T, D) is finite. *)
Definition finite_rows (B T D : nat) (x : tensor xreal) : Prop :=
  forall b r c, b < B -> r < T -> c < D -> is_finite (item x [b; r; c]) = true.

(** Two tensors of shape (B, T, D) that agree at every position up to [t]. *)
Definition agree_rows (B T D t : nat) (x y : tensor xreal) : Prop :=
  forall b r c, b < B -> r < T -> c < D -> r <= t ->
    item x [b; r; c] = item y [b; r; c].

(** Two runs side by side: finite float32 activations of shape (B, T, D)
    that agree up to position [t]; and the same for heads. *)
Definition paired (B T D t : nat) (x y : tensor xreal) : Prop :=
  float_tensor [B; T; D] x /\ float_tensor [B; T; D] y /\
  finite_rows B T D x /\ finite_rows B T D y /\ agree_rows B T D t x y.

Definition paired_heads (B H T D t : nat) (x y : tensor xreal) : Prop :=
  float_tensor [B; H; T; D] x /\ float_tensor [B; H; T; D] y /\
  finite_heads B H T D x /\ finite_heads B H T D y /\ agree_upto B H T D t x y.

(** A layer from [D] to [D'] features that draws nothing, never fails on
    finite input, keeps its output finite and lets no position after [t]
    influence the positions up to [t]. *)
Definition layer_ok (B T D D' t : nat) (f : tensor xreal -> M (tensor xreal)) : Prop :=
  forall x y g, paired B T D t x y ->
    exists x' y', f x g = Ok (x', g) /\ f y g = Ok (y', g) /\ paired B T D' t x' y'.

(** Parameters that are finite numbers. *)
Definition linear_finite (l : Linear.t) : Prop :=
  (forall idx, is_finite (item (Linear.weight l) idx) = true) /\
  match Linear.bias l with
  | Some b => forall idx, is_finite (item b idx) = true
  | None => True
  end.

Definition norm_finite (n : LayerNormalization.t) : Prop :=
  (forall idx, is_finite (item (LayerNormalization.alpha n) idx) = true) /\
  (forall idx, is_finite (item (LayerNormalization.bias n) idx) = true) /\
  exists e, LayerNormalization.eps n = Fin e /\ (0 < e)%R.

Definition sparse_finite (m : SparseMultiHeadAttentionBlock.t) : Prop :=
  linear_finite (SparseMultiHeadAttentionBlock.w_q m) /\
  linear_finite (SparseMultiHeadAttentionBlock.w_k m) /\
  linear_finite (SparseMultiHeadAttentionBlock.w_v m) /\
  linear_finite (SparseMultiHeadAttentionBlock.w_o m).

Definition dense_finite (m : MultiHeadAttentionBlock.t) : Prop :=
  linear_finite (MultiHeadAttentionBlock.w_q m) /\
  linear_finite (MultiHeadAttentionBlock.w_k m) /\
  linear_finite (MultiHeadAttentionBlock.w_v m) /\
  linear_finite (MultiHeadAttentionBlock.w_o m).

Definition feed_forward_finite (m : FeedForwardBlock.t) : Prop :=
  linear_finite (FeedForwardBlock.linear1 m) /\
  linear_finite (FeedForwardBlock.linear2 m).

Definition encoder_block_finite (b : EncoderBlock.t) : Prop :=
  sparse_finite (EncoderBlock.self_attention_block b) /\
  feed_forward_finite (EncoderBlock.feed_forward_block b) /\
  Forall (fun rc => norm_finite (ResidualConnection.norm rc))
         (EncoderBlock.residual_connections b).

Definition decoder_block_finite (b : DecoderBlock.t) : Prop :=
  sparse_finite (DecoderBlock.self_attention_block b) /\
  dense_finite (DecoderBlock.cross_attention_block b) /\
  feed_forward_finite (DecoderBlock.feed_forward_block b) /\
  Forall (fun rc => norm_finite (ResidualConnection.norm rc))
         (DecoderBlock.residual_connection b).


(** A computation whose every result has property [P]. *)
Definition returns {A} (P : A -> Prop) (c : M A) : Prop :=
  forall g a g', c g = Ok (a, g') -> P a.

(** Every parameter of the model is finite, as are the two tables of
    positions, and every epsilon is positive. *)
Definition transformer_finite (sl tl d : nat) (m : Transformer.t) : Prop :=
  Forall encoder_block_finite (Encoder.layers (Transformer.encoder m)) /\
  norm_finite (Encoder.norm (Transformer.encoder m)) /\
  Forall decoder_block_finite (Decoder.layers (Transformer.decoder m)) /\
  norm_finite (Decoder.norm (Transformer.decoder m)) /\
  (forall idx, is_finite (item (Embedding.weight (InputEmbeddings.embedding
                                                    (Transformer.src_embed m))) idx) = true) /\
  (forall idx, is_finite (item (Embedding.weight (InputEmbeddings.embedding
                                                    (Transformer.tgt_embed m))) idx) = true) /\
  finite_rows 1 sl d (PositionalEncoding.pe (Transformer.src_pos m)) /\
  finite_rows 1 tl d (PositionalEncoding.pe (Transformer.tgt_pos m)) /\
  linear_finite (ProjectionLayer.proj (Transformer.projection_layer m)).

(** No dropout layer of the model drops anything. *)
Definition transformer_quiet (m : Transformer.t) : Prop :=
  Forall encoder_block_quiet (Encoder.layers (Transformer.encoder m)) /\
  Forall decoder_block_quiet (Decoder.layers (Transformer.decoder m)) /\
  no_dropout (PositionalEncoding.dropout (Transformer.src_pos m)) /\
  no_dropout (PositionalEncoding.dropout (Transformer.tgt_pos m)).

(** Every self-attention block of the decoder is causal. *)
Definition decoder_causal (m : Transformer.t) : Prop :=
  Forall (fun b => SparseMultiHeadAttentionBlock.causal (DecoderBlock.self_attention_block b)
                   = true)
         (Decoder.layers (Transformer.decoder m)).

(** Two batches of token ids that agree at every position up to [t]. *)
Definition same_prefix (B T t : nat) (x y : tensor Z) : Prop :=
  forall b r, b < B -> r < T -> r <= t -> item x [b; r] = item y [b; r].

(** ** Concrete inputs *)

Definition ones_tensor (sh : list nat) : tensor xreal :=
  Tensor float32 sh (fun _ => Fin 1).

Definition lower_triangular (sh : list nat) : tensor bool :=
  Tensor bool_ sh (fun idx => nth 3 idx 0 <=? nth 2 idx 0).

Definition zero_tape : generator := fun _ => 0%R.

Definition zero_linear (n : Z) : Linear.t :=
  Linear.Build n n (Tensor float32 [Z.to_nat n; Z.to_nat n] (fun _ => Fin 0)) None.

Definition example_sparse_block : SparseMultiHeadAttentionBlock.t :=
  SparseMultiHeadAttentionBlock.Build 4 2 2 2 2 true
    (zero_linear 4) (zero_linear 4) (zero_linear 4) (zero_linear 4) (Dropout.Build 0 true).


Definition example_residual : ResidualConnection.t :=
  ResidualConnection.Build (Dropout.Build 0 true)
    (LayerNormalization.Build (Fin (/ 1000000)) (ones_tensor [4])
       (Tensor float32 [4] (fun _ => Fin 0))).

(* ================================================================== *)
(** * Results and the two monads *)

Lemma Ok_inj {A} (a b : A) : Ok a = Ok b -> a = b.
Proof. intros H; now injection H. Qed.

Lemma bind_ok_inv {A B} (c : result A) (k : A -> result B) b :
  bind c k = Ok b -> exists a, c = Ok a /\ k a = Ok b.
Proof. destruct c; simpl; intros H; [eauto | discriminate]. Qed.

Lemma bindM_ok_inv {A B} (c : M A) (k : A -> M B) g b g' :
  bind c k g = Ok (b, g') -> exists a g1, c g = Ok (a, g1) /\ k a g1 = Ok (b, g').
Proof.
  cbn [bind Monad_M]. destruct (c g) as [[a g1]|e]; intros H; [eauto | discriminate].
Qed.

Lemma bindM_ok_iff {A B} (c : M A) (k : A -> M B) g b g' :
  bind c k g = Ok (b, g') <-> exists a g1, c g = Ok (a, g1) /\ k a g1 = Ok (b, g').
Proof.
  split; [apply bindM_ok_inv|].
  intros (a & g1 & Hc & Hk). cbn [bind Monad_M]. now rewrite Hc.
Qed.

Lemma lift_ok_inv {A} (r : result A) g a g' :
  lift r g = Ok (a, g') -> r = Ok a /\ g' = g.
Proof. unfold lift. destruct r; intros H; inversion H; auto. Qed.

Lemma lift_ok_iff {A} (r : result A) g a g' :
  lift r g = Ok (a, g') <-> r = Ok a /\ g' = g.
Proof.
  split; [apply lift_ok_inv|]. intros (-> & ->). reflexivity.
Qed.

Lemma Reqb_false a b : a <> b -> Reqb a b = false.
Proof. intros H. unfold Reqb. now destruct (Req_dec_T a b). Qed.

(** Run the next step of a monadic computation; a raised exception ends
    both sides of the goal alike. *)
Ltac run c :=
  let a := fresh "a" in let g := fresh "g" in
  destruct c as [[a g]|?]; cbn [bind ret Monad_M Monad_result lift]; [|reflexivity].

(* ================================================================== *)
(** * Index arithmetic *)

Lemma ravel_lt sh : forall idx, in_bounds sh idx -> ravel sh idx < numel sh.
Proof.
  induction sh as [|d sh IH]; intros idx Hb; inversion Hb; subst; simpl.
  - lia.
  - specialize (IH _ H3). nia.
Qed.

Lemma unravel_ravel sh : forall idx, in_bounds sh idx -> unravel sh (ravel sh idx) = idx.
Proof.
  induction sh as [|d sh IH]; intros idx Hb; inversion Hb; subst; simpl.
  - reflexivity.
  - pose proof (ravel_lt _ _ H3) as Hlt.
    assert (Hn : numel sh <> 0) by lia.
    rewrite Nat.div_add_l by exact Hn.
    rewrite (Nat.div_small _ _ Hlt), Nat.add_0_r.
    rewrite Nat.add_comm, Nat.Div0.mod_add, (Nat.mod_small _ _ Hlt).
    now rewrite IH.
Qed.



Lemma in_bounds_length sh idx : in_bounds sh idx -> length idx = length sh.
Proof. intros H. induction H; simpl; auto. Qed.

Lemma in_bounds_4 a b c d idx :
  in_bounds [a; b; c; d] idx ->
  exists i j k l, idx = [i; j; k; l] /\ i < a /\ j < b /\ k < c /\ l < d.
Proof.
  intros H. repeat (match goal with H : in_bounds _ _ |- _ => inversion H; subst; clear H
                    | H : Forall2 _ _ _ |- _ => inversion H; subst; clear H end).
  eexists _, _, _, _. repeat split; eauto.
Qed.

Lemma pin_ones_in_bounds sh : forall idx, in_bounds sh idx -> pin_ones sh idx = idx.
Proof.
  induction sh as [|d sh IH]; intros idx Hb; inversion Hb; subst; simpl; [reflexivity|].
  rewrite (IH _ H3). destruct (Nat.eqb_spec d 1); [|reflexivity].
  f_equal. lia.
Qed.

Lemma bidx_in_bounds sh idx : in_bounds sh idx -> bidx sh idx = idx.
Proof.
  intros H. unfold bidx. rewrite (in_bounds_length _ _ H), Nat.sub_diag.
  now apply pin_ones_in_bounds.
Qed.

(* ================================================================== *)
(** * Tensor operations *)

Lemma known_size_of_nat l : known_size (map Z.of_nat l) = Ok (numel l, 0).
Proof.
  induction l as [|d l IH]; simpl; [reflexivity|].
  rewrite IH; simpl.
  destruct (Z.eqb_spec (Z.of_nat d) (-1)); [lia|].
  destruct (Z.ltb_spec (Z.of_nat d) 0); [lia|].
  now rewrite Nat2Z.id.
Qed.

Lemma map_to_nat_of_nat l : map Z.to_nat (map Z.of_nat l) = l.
Proof. induction l; simpl; [reflexivity|]. now rewrite Nat2Z.id, IHl. Qed.

Lemma infer_size_exact l n :
  n = numel l -> infer_size (map Z.of_nat l) n = Ok l.
Proof.
  intros ->. unfold infer_size. rewrite known_size_of_nat; simpl.
  now rewrite Nat.eqb_refl, map_to_nat_of_nat.
Qed.

Lemma view_exact {A} (sizes : list nat) (t : tensor A) :
  numel (shape t) = numel sizes ->
  view (map Z.of_nat sizes) t =
  Ok (Tensor (dtype_of t) sizes
        (fun idx => item t (unravel (shape t) (ravel sizes idx)))).
Proof.
  intros H. unfold view. now rewrite (infer_size_exact sizes _ H).
Qed.

Lemma known_size_cons_inv s rest r :
  known_size (s :: rest) = Ok r ->
  exists prod k, known_size rest = Ok (prod, k) /\
    ((s = (-1)%Z /\ r = (prod, S k)) \/ ((0 <= s)%Z /\ r = (Z.to_nat s * prod, k))).
Proof.
  cbn [known_size]. intros H. apply bind_ok_inv in H as ([prod k] & Hr & H).
  exists prod, k. split; [exact Hr|].
  destruct (Z.eqb_spec s (-1)) as [->|Hn].
  - left. apply Ok_inj in H. auto.
  - destruct (Z.ltb_spec s 0) as [Hneg|Hpos]; [discriminate|].
    right. apply Ok_inj in H. auto.
Qed.

Lemma known_size_middle (B W : nat) :
  known_size [Z.of_nat B; (-1)%Z; Z.of_nat W] = Ok (B * (W * 1), 1).
Proof.
  change [Z.of_nat B; (-1)%Z; Z.of_nat W]
    with (Z.of_nat B :: (-1)%Z :: map Z.of_nat [W]).
  cbn [known_size]. rewrite known_size_of_nat.
  cbn [bind Monad_result numel fold_right]. change ((-1 =? -1)%Z) with true. cbv iota.
  destruct (Z.eqb_spec (Z.of_nat B) (-1)) as [E|_]; [lia|].
  destruct (Z.ltb_spec (Z.of_nat B) 0) as [E|_]; [lia|].
  now rewrite Nat2Z.id.
Qed.

Lemma infer_size_middle (B T W : nat) :
  0 < B * W ->
  infer_size [Z.of_nat B; (-1)%Z; Z.of_nat W] (numel [B; T; W]) = Ok [B; T; W].
Proof.
  intros Hpos. unfold infer_size. rewrite known_size_middle.
  cbn [bind Monad_result].
  assert (En : numel [B; T; W] = T * (B * (W * 1))) by (simpl; lia).
  rewrite En, Nat.Div0.mod_mul, Nat.eqb_refl.
  replace (0 <? B * (W * 1)) with true by (symmetry; apply Nat.ltb_lt; lia).
  cbn [andb]. rewrite orb_true_r.
  replace (B * (W * 1) =? 0) with false by (symmetry; apply Nat.eqb_neq; lia).
  cbn [map]. rewrite !Nat2Z.id, Nat.div_mul by lia.
  change ((-1 =? -1)%Z) with true. cbv iota.
  destruct (Z.eqb_spec (Z.of_nat B) (-1)) as [E|_]; [lia|].
  destruct (Z.eqb_spec (Z.of_nat W) (-1)) as [E|_]; [lia|].
  reflexivity.
Qed.

Lemma transpose_1_2 {A} (t : tensor A) a b c d :
  shape t = [a; b; c; d] ->
  transpose 1 2 t =
  Ok (Tensor (dtype_of t) [a; c; b; d] (fun idx => item t (swap 1 2 idx))).
Proof.
  intros H. unfold transpose, ndim. rewrite H. reflexivity.
Qed.

Lemma full_ok_inv sizes v t :
  full sizes v = Ok t ->
  Forall (fun s => (0 <= s)%Z) sizes /\
  t = Tensor default_dtype (map Z.to_nat sizes) (fun _ => v).
Proof.
  unfold full. destruct (existsb _ sizes) eqn:E; [discriminate|].
  intros H; inversion H; subst; split; [|reflexivity].
  apply Forall_forall. intros s Hs.
  destruct (Z.ltb_spec s 0); [|assumption].
  exfalso. assert (existsb (fun s => (s <? 0)%Z) sizes = true).
  { apply existsb_exists. exists s. split; [assumption|]. now apply Z.ltb_lt. }
  congruence.
Qed.

Lemma arange_ok_inv stop step t :
  arange stop step = Ok t ->
  (0 <= stop)%Z /\
  t = Tensor default_dtype [(Z.to_nat stop + (step - 1)) / step]
        (fun idx => x_of_nat (step * nth 0 idx 0)).
Proof.
  unfold arange. destruct (Z.ltb_spec stop 0) as [Hlt|Hge]; [discriminate|].
  intros E; inversion E; auto.
Qed.

Lemma unsqueeze_ok_inv {A} d (t r : tensor A) :
  unsqueeze d t = Ok r ->
  d <= ndim t /\
  r = Tensor (dtype_of t) (firstn d (shape t) ++ 1 :: skipn d (shape t))
        (fun idx => item t (firstn d idx ++ skipn (S d) idx)).
Proof.
  unfold unsqueeze. destruct (Nat.ltb_spec (ndim t) d) as [Hlt|Hge]; [discriminate|].
  intros E; inversion E; split; [lia | reflexivity].
Qed.

Lemma py_div_ok_inv a z r :
  py_div a z = Ok r -> z <> 0%Z /\ r = xdiv a (x_of_Z z).
Proof.
  unfold py_div. destruct (Z.eqb_spec z 0) as [Hz|Hz]; [discriminate|].
  intros E; inversion E; auto.
Qed.

Lemma map2_ok_inv {A B C} dt (f : A -> B -> C) x y r :
  map2 dt f x y = Ok r ->
  exists sh, broadcast_shapes (shape x) (shape y) = Ok sh /\
    r = Tensor dt sh
          (fun idx => f (item x (bidx (shape x) idx)) (item y (bidx (shape y) idx))).
Proof.
  unfold map2. intros H. apply bind_ok_inv in H as (sh & Hsh & H).
  inversion H; eauto.
Qed.

Lemma broadcast_rev_same l : broadcast_rev l l = Ok l.
Proof.
  induction l as [|d l IH]; [reflexivity|]. cbn [broadcast_rev].
  rewrite Nat.eqb_refl. cbn [orb]. rewrite IH. cbn [bind Monad_result].
  now destruct (Nat.eqb_spec d 1) as [->|].
Qed.

Lemma broadcast_shapes_same sh : broadcast_shapes sh sh = Ok sh.
Proof.
  unfold broadcast_shapes. rewrite broadcast_rev_same. cbn [bind Monad_result].
  now rewrite rev_involutive.
Qed.

Lemma broadcast_col_row L K :
  broadcast_shapes [L; 1] [K] = Ok [L; K].
Proof.
  unfold broadcast_shapes. cbn [rev app broadcast_rev].
  rewrite Nat.eqb_refl, orb_true_r. cbn. reflexivity.
Qed.

Lemma tensor_add_same_shape (x y r : tensor xreal) :
  tensor_add x y = Ok r -> shape y = shape x ->
  shape r = shape x /\
  forall idx, in_bounds (shape x) idx -> item r idx = xadd (item x idx) (item y idx).
Proof.
  intros H Hs. apply map2_ok_inv in H as (sh & Hsh & ->).
  rewrite Hs, broadcast_shapes_same in Hsh. apply Ok_inj in Hsh. subst sh.
  split; [reflexivity|]. intros idx Hb. cbn [item].
  now rewrite Hs, (bidx_in_bounds _ _ Hb).
Qed.

Lemma expand_ok_inv {A} sizes (t r : tensor A) :
  expand sizes t = Ok r ->
  exists rsh, expand_rev (rev (shape t)) (rev sizes) = Ok rsh /\
    r = Tensor (dtype_of t) (rev rsh) (fun idx => item t (bidx (shape t) idx)).
Proof.
  unfold expand. intros H. apply bind_ok_inv in H as (rsh & Hr & H).
  inversion H; eauto.
Qed.

Lemma expand_rev_cons d rsh s rs :
  expand_rev (d :: rsh) (Z.of_nat s :: rs) =
  (rest <- expand_rev rsh rs ;;
   if (s =? d) || (d =? 1) then Ok (s :: rest)
   else Raise (RuntimeError
          "The expanded size must match the existing size at non-singleton dimension")).
Proof.
  cbn [expand_rev]. destruct (expand_rev rsh rs); cbn [bind Monad_result]; [|reflexivity].
  destruct (Z.eqb_spec (Z.of_nat s) (-1)); [lia|].
  destruct (Z.ltb_spec (Z.of_nat s) 0); [lia|].
  now rewrite Nat2Z.id.
Qed.

Lemma expand_rev_nil s rs :
  expand_rev [] (Z.of_nat s :: rs) = (rest <- expand_rev [] rs ;; Ok (s :: rest)).
Proof.
  cbn [expand_rev]. destruct (expand_rev [] rs); cbn [bind Monad_result]; [|reflexivity].
  destruct (Z.ltb_spec (Z.of_nat s) 0); [lia|].
  now rewrite Nat2Z.id.
Qed.

Lemma expand_rev_nat_sizes rs : forall rsh out,
  expand_rev rsh (map Z.of_nat rs) = Ok out -> out = rs.
Proof.
  induction rs as [|s rs IH]; intros rsh out H.
  - destruct rsh; simpl in H; [now inversion H | discriminate].
  - cbn [map] in H. destruct rsh as [|d rsh].
    + rewrite expand_rev_nil in H. apply bind_ok_inv in H as (rest & Hr & H).
      inversion H; subst. f_equal. eauto.
    + rewrite expand_rev_cons in H. apply bind_ok_inv in H as (rest & Hr & H).
      destruct ((s =? d) || (d =? 1)); inversion H; subst. f_equal. eauto.
Qed.

Lemma expand_nat_ok_inv {A} sizes (t r : tensor A) :
  expand (map Z.of_nat sizes) t = Ok r ->
  r = Tensor (dtype_of t) sizes (fun idx => item t (bidx (shape t) idx)).
Proof.
  intros H. apply expand_ok_inv in H as (rsh & Hr & ->).
  rewrite <- map_rev in Hr. apply expand_rev_nat_sizes in Hr. subst.
  now rewrite rev_involutive.
Qed.

Lemma setitem_cols_ok_inv start step t src r :
  setitem_cols start step t src = Ok r ->
  exists rows cols s,
    shape t = [rows; cols] /\
    expand [Z.of_nat rows; Z.of_nat ((cols - start + (step - 1)) / step)] src = Ok s /\
    r = Tensor (dtype_of t) [rows; cols]
          (fun idx =>
             match idx with
             | [i; j] =>
                 if (start <=? j) && ((j - start) mod step =? 0)
                 then item s [i; (j - start) / step]
                 else item t idx
             | _ => item t idx
             end).
Proof.
  unfold setitem_cols. destruct (shape t) as [|rows [|cols [|? ?]]]; try discriminate.
  intros H. apply bind_ok_inv in H as (s & Hs & H). inversion H; subst.
  eexists _, _, _; eauto.
Qed.

(* ================================================================== *)
(** * Positional encoding *)

(** The table [PositionalEncoding.table] builds, when it builds one: column
    [j] of row [pos] holds the sine (even [j]) or cosine (odd [j]) of
    [pos * exp((2 * (j / 2)) * -(ln 1000 / d_model))]. *)
Lemma table_ok_inv d_model seq_len pe :
  PositionalEncoding.table d_model seq_len = Ok pe ->
  (0 <= seq_len)%Z /\ (0 < d_model)%Z /\
  shape pe = [1; Z.to_nat seq_len; Z.to_nat d_model] /\
  forall pos j, pos < Z.to_nat seq_len -> j < Z.to_nat d_model ->
    item pe [0; pos; j] =
    let angle := xmul (x_of_nat (1 * pos))
                   (xexp (xmul (x_of_nat (2 * (j / 2)))
                            (xneg (xdiv (Fin (ln 1000)) (x_of_Z d_model))))) in
    if j mod 2 =? 0 then xsin angle else xcos angle.
Proof.
  unfold PositionalEncoding.table. intros H.
  apply bind_ok_inv in H as (pe0 & H0 & H).
  apply full_ok_inv in H0 as (Hs & ->).
  inversion Hs as [|? ? Hseq Hs']; subst. inversion Hs' as [|? ? Hd _]; subst.
  apply bind_ok_inv in H as (ar & Har & H). apply arange_ok_inv in Har as (_ & ->).
  apply bind_ok_inv in H as (position & Hp & H).
  apply unsqueeze_ok_inv in Hp as (_ & ->). cbn [shape firstn skipn app] in H.
  apply bind_ok_inv in H as (dt & Hdt & H).
  unfold PositionalEncoding.div_term in Hdt.
  apply bind_ok_inv in Hdt as (two_i & H2 & Hdt). apply arange_ok_inv in H2 as (_ & ->).
  apply bind_ok_inv in Hdt as (c & Hc & Hdt). apply py_div_ok_inv in Hc as (Hnz & ->).
  apply Ok_inj in Hdt; subst dt.
  apply bind_ok_inv in H as (even & He & H).
  apply map2_ok_inv in He as (sh & Hsh & ->).
  cbn [shape tmap mul_scalar] in Hsh. rewrite broadcast_col_row in Hsh.
  apply Ok_inj in Hsh; subst sh.
  apply bind_ok_inv in H as (pe1 & H1 & H).
  apply setitem_cols_ok_inv in H1 as (rows & cols & s1 & Hsh1 & Hs1 & ->).
  cbn [shape map] in Hsh1. injection Hsh1 as <- <-.
  change [Z.of_nat ?a; Z.of_nat ?b] with (map Z.of_nat [a; b]) in Hs1.
  apply expand_nat_ok_inv in Hs1. subst s1.
  apply bind_ok_inv in H as (odd & Ho & H).
  apply map2_ok_inv in Ho as (sh & Hsh & ->).
  cbn [shape tmap mul_scalar] in Hsh. rewrite broadcast_col_row in Hsh.
  apply Ok_inj in Hsh; subst sh.
  apply bind_ok_inv in H as (pe2 & H2 & H).
  apply setitem_cols_ok_inv in H2 as (rows & cols & s2 & Hsh2 & Hs2 & ->).
  cbn [shape map] in Hsh2. injection Hsh2 as <- <-.
  change [Z.of_nat ?a; Z.of_nat ?b] with (map Z.of_nat [a; b]) in Hs2.
  apply expand_nat_ok_inv in Hs2. subst s2.
  apply unsqueeze_ok_inv in H as (_ & ->).
  split; [assumption|]. split; [lia|]. split; [reflexivity|].
  intros pos j Hpos Hj.
  cbn [item shape dtype_of tmap mul_scalar firstn skipn app].
  replace (Z.to_nat seq_len + (1 - 1)) with (Z.to_nat seq_len) by lia.
  rewrite Nat.div_1_r.
  set (K := (Z.to_nat d_model + (2 - 1)) / 2).
  assert (HjK : j / 2 < K).
  { unfold K. apply Nat.Div0.div_lt_upper_bound.
    pose proof (Nat.div_mod_eq (Z.to_nat d_model + (2 - 1)) 2) as E.
    pose proof (Nat.mod_upper_bound (Z.to_nat d_model + (2 - 1)) 2). lia. }
  assert (Hb : forall c, c < K -> in_bounds [Z.to_nat seq_len; K] [pos; c]).
  { intros c Hc. repeat constructor; assumption. }
  destruct (Nat.eqb_spec (j mod 2) 0) as [Hev|Hodd].
  - (* an even column keeps the sine written first *)
    replace ((1 <=? j) && ((j - 1) mod 2 =? 0)) with false.
    2:{ symmetry. apply andb_false_iff. destruct j as [|j']; [left; reflexivity|right].
        apply Nat.eqb_neq. replace (S j' - 1) with j' by lia.
        intros E. pose proof (Nat.div_mod_eq (S j') 2). pose proof (Nat.div_mod_eq j' 2). lia. }
    cbn [Nat.leb andb]. rewrite Nat.sub_0_r, Hev, Nat.eqb_refl.
    rewrite (bidx_in_bounds _ _ (Hb _ HjK)).
    cbn [bidx length Nat.sub skipn pin_ones nth].
    destruct (Nat.eqb_spec (Z.to_nat seq_len) 1) as [E1|_];
      destruct (Nat.eqb_spec K 1) as [E2|_]; cbn [firstn skipn app nth];
      repeat match goal with
        | |- context [1 * 0] => replace (1 * 0) with (1 * pos) by lia
        | |- context [2 * 0] => replace (2 * 0) with (2 * (j / 2)) by lia
        end; reflexivity.
  - assert (Ej : j - 1 = j / 2 * 2).
    { pose proof (Nat.mod_upper_bound j 2). pose proof (Nat.div_mod_eq j 2). lia. }
    replace ((1 <=? j) && ((j - 1) mod 2 =? 0)) with true.
    2:{ symmetry. apply andb_true_iff. split.
        - apply Nat.leb_le. destruct j; [simpl in Hodd; lia | lia].
        - apply Nat.eqb_eq. rewrite Ej. apply Nat.Div0.mod_mul. }
    assert (Hj2 : (j - 1) / 2 = j / 2).
    { rewrite Ej. now apply Nat.div_mul. }
    rewrite Hj2.
    cbn [bidx length Nat.sub skipn pin_ones nth].
    destruct (Nat.eqb_spec (Z.to_nat seq_len) 1) as [E1|_];
      destruct (Nat.eqb_spec K 1) as [E2|_]; cbn [firstn skipn app nth];
      repeat match goal with
        | |- context [1 * 0] => replace (1 * 0) with (1 * pos) by lia
        | |- context [2 * 0] => replace (2 * 0) with (2 * (j / 2)) by lia
        end; reflexivity.
Qed.

(** The angle, read as a quotient by a power of 1000. *)
Lemma angle_divisor (pos two_i : nat) (d : Z) :
  d <> 0%Z ->
  xmul (x_of_nat (1 * pos))
       (xexp (xmul (x_of_nat two_i) (xneg (xdiv (Fin (ln 1000)) (x_of_Z d))))) =
  Fin (INR pos / Rpower 1000 (INR two_i / IZR d)).
Proof.
  intros Hd. assert (Hr : IZR d <> 0%R) by (now apply not_0_IZR).
  unfold x_of_nat, x_of_Z, xdiv. rewrite (Reqb_false _ _ Hr).
  cbn [xneg xmul xexp]. rewrite Nat.mul_1_l. f_equal.
  unfold Rpower.
  replace (INR pos / exp (INR two_i / IZR d * ln 1000))%R
    with (INR pos * exp (- (INR two_i / IZR d * ln 1000)))%R
    by (rewrite exp_Ropp; reflexivity).
  do 2 f_equal. field. exact Hr.
Qed.

Lemma init_ok_inv d_model seq_len dropout m :
  PositionalEncoding.init d_model seq_len dropout = Ok m ->
  PositionalEncoding.table d_model seq_len = Ok (PositionalEncoding.pe m).
Proof.
  unfold PositionalEncoding.init. intros H.
  apply bind_ok_inv in H as (dr & _ & H).
  apply bind_ok_inv in H as (pe & Hpe & H).
  apply Ok_inj in H. subst m. exact Hpe.
Qed.

Lemma init_pe_shape d_model seq_len dropout m :
  PositionalEncoding.init d_model seq_len dropout = Ok m ->
  shape (PositionalEncoding.pe m) = [1; Z.to_nat seq_len; Z.to_nat d_model].
Proof.
  intros H. apply init_ok_inv, table_ok_inv in H as (_ & _ & Hs & _). exact Hs.
Qed.

(** C6. The table computed at construction for maximum length [seq_len]
    and width [d_model] has shape (1, seq_len, d_model) and holds, for every
    position [pos] below [seq_len], sin(pos / 1000^(2i / d_model)) in the
    even column [2i] and cos(pos / 1000^(2i / d_model)) in the odd column
    [2i + 1]: the base of the divisor is 1000.  (Float arithmetic is read
    over the reals.) *)
Theorem positional_encoding_table_formula :
  forall (d_model seq_len : Z) (dropout : Q) (m : PositionalEncoding.t),
    PositionalEncoding.init d_model seq_len dropout = Ok m ->
    shape (PositionalEncoding.pe m) = [1; Z.to_nat seq_len; Z.to_nat d_model] /\
    forall pos i : nat,
      pos < Z.to_nat seq_len ->
      (2 * i < Z.to_nat d_model ->
       item (PositionalEncoding.pe m) [0; pos; 2 * i] =
       Fin (sin (INR pos / Rpower 1000 (INR (2 * i) / IZR d_model)))) /\
      (2 * i + 1 < Z.to_nat d_model ->
       item (PositionalEncoding.pe m) [0; pos; 2 * i + 1] =
       Fin (cos (INR pos / Rpower 1000 (INR (2 * i) / IZR d_model)))).
Proof.
  intros d_model seq_len dropout m Hinit.
  apply init_ok_inv, table_ok_inv in Hinit as (Hs & Hd & Hshape & Hitem).
  split; [exact Hshape|].
  intros pos i Hpos. split; intros Hi.
  - rewrite (Hitem pos (2 * i) Hpos Hi). cbv zeta.
    rewrite Nat.mul_comm, Nat.Div0.mod_mul, Nat.div_mul by lia.
    cbn [Nat.eqb]. rewrite (Nat.mul_comm i 2), angle_divisor by lia. reflexivity.
  - rewrite (Hitem pos (2 * i + 1) Hpos Hi). cbv zeta.
    assert (E1 : (2 * i + 1) mod 2 = 1).
    { rewrite Nat.add_comm, Nat.mul_comm, Nat.Div0.mod_add. reflexivity. }
    assert (E2 : (2 * i + 1) / 2 = i).
    { rewrite Nat.add_comm, Nat.mul_comm, Nat.div_add by lia. reflexivity. }
    rewrite E1, E2. cbn [Nat.eqb]. rewrite angle_divisor by lia. reflexivity.
Qed.

Lemma positional_encoding_table_formula_witness :
  exists m, PositionalEncoding.init 4 3 0 = Ok m /\
    item (PositionalEncoding.pe m) [0; 1; 2] =
    Fin (sin (INR 1 / Rpower 1000 (INR (2 * 1) / IZR 4))).
Proof.
  eexists. split; [reflexivity|].
  refine (proj1 (proj2 (positional_encoding_table_formula 4 3 0 _ eq_refl) 1 1 _) _);
    simpl; lia.
Defined.

(** Addition of the positions fails when the table is too short: more
    positions than rows, unless there is exactly one of either. *)
Lemma add_positions_raises m (x : tensor xreal) B T D L D' :
  shape (PositionalEncoding.pe m) = [1; L; D'] ->
  shape x = [B; T; D] ->
  L < T -> L <> 1 -> T <> 1 ->
  exists e, PositionalEncoding.add_positions m x = Raise e.
Proof.
  intros Hpe Hx HLT HL HT.
  unfold PositionalEncoding.add_positions, shape_at, slice_to.
  rewrite Hx, Hpe. cbn [nth_error bind Monad_result set_nth].
  unfold tensor_add, map2. cbn [shape]. rewrite Hx.
  unfold broadcast_shapes. cbn [rev app broadcast_rev].
  rewrite Nat.min_r by lia.
  destruct ((D =? D') || (D =? 1) || (D' =? 1)); [|eexists; reflexivity].
  replace ((T =? L) || (T =? 1) || (L =? 1)) with false.
  - eexists; reflexivity.
  - symmetry. rewrite !orb_false_iff. repeat split; apply Nat.eqb_neq; lia.
Qed.

(** C7, as amended.  For an input of shape (B, T, D) longer than the table
    ([T > seq_len]) the forward pass raises, provided the table does not
    have exactly one row and the input not exactly one position: a
    dimension of size 1 broadcasts instead of failing. *)
Theorem positional_encoding_forward_too_long :
  forall (d_model seq_len : Z) (dropout : Q) (m : PositionalEncoding.t)
         (x : tensor xreal) (B T D : nat) (g : generator),
    PositionalEncoding.init d_model seq_len dropout = Ok m ->
    shape x = [B; T; D] ->
    Z.to_nat seq_len < T ->
    Z.to_nat seq_len <> 1 -> T <> 1 ->
    exists e, PositionalEncoding.forward m x g = Raise e.
Proof.
  intros d_model seq_len dropout m x B T D g Hinit Hx HLT HL HT.
  apply init_pe_shape in Hinit.
  destruct (add_positions_raises m x B T D _ _ Hinit Hx HLT HL HT) as (e & He).
  exists e. unfold PositionalEncoding.forward.
  cbn [bind Monad_M]. now rewrite He.
Qed.

Lemma positional_encoding_forward_too_long_witness :
  exists m, PositionalEncoding.init 4 2 0 = Ok m /\
    exists e, PositionalEncoding.forward m (ones_tensor [1; 3; 4]) zero_tape = Raise e.
Proof.
  eexists. split; [reflexivity|].
  apply (positional_encoding_forward_too_long 4 2 0 _ (ones_tensor [1; 3; 4]) 1 3 4
           zero_tape eq_refl eq_refl); simpl; lia.
Defined.

(** C7, the claim as stated fails: a table of one row ([seq_len = 1]) and
    an input of three positions; the single row is broadcast to every
    position and the forward pass returns. *)
Lemma positional_encoding_single_row_broadcasts :
  exists m, PositionalEncoding.init 4 1 0 = Ok m /\
    shape (ones_tensor [1; 3; 4]) = [1; 3; 4] /\
    Z.to_nat 1 < 3 /\
    exists y g', PositionalEncoding.forward m (ones_tensor [1; 3; 4]) zero_tape = Ok (y, g') /\
                 shape y = [1; 3; 4].
Proof.
  eexists. split; [reflexivity|]. split; [reflexivity|]. split; [simpl; lia|].
  eexists. eexists. split; reflexivity.
Qed.

(* ================================================================== *)
(** * The sparse mask and its combination with the caller's mask *)

Lemma expand_base_rev (T B : nat) (h : Z) rsh :
  expand_rev [T; T; 1; 1] [Z.of_nat T; Z.of_nat T; h; Z.of_nat B] = Ok rsh ->
  exists H, rsh = [T; T; H; B] /\ ((0 <= h)%Z -> H = Z.to_nat h).
Proof.
  rewrite !expand_rev_cons.
  cbn [expand_rev]. cbn [bind Monad_result].
  rewrite !Nat.eqb_refl, Nat2Z.id. cbn [orb].
  destruct (Z.eqb_spec (Z.of_nat B) (-1)) as [HB|_]; [lia|].
  destruct (Z.ltb_spec (Z.of_nat B) 0) as [HB|_]; [lia|].
  rewrite !orb_true_r.
  destruct (Z.eqb_spec h (-1)) as [->|Hn1].
  - intros E. apply Ok_inj in E. subst. exists 1. split; [reflexivity|lia].
  - destruct (Z.ltb_spec h 0) as [Hneg|Hpos]; [discriminate|].
    intros E. apply Ok_inj in E. subst.
    exists (Z.to_nat h). split; [reflexivity|auto].
Qed.

Lemma build_sparse_mask_ok_inv (m : SparseMultiHeadAttentionBlock.t) (T B : nat) am :
  SparseMultiHeadAttentionBlock.build_sparse_mask m T B = Ok am ->
  exists H,
    shape am = [B; H; T; T] /\
    ((0 <= SparseMultiHeadAttentionBlock.h m)%Z ->
     H = Z.to_nat (SparseMultiHeadAttentionBlock.h m)) /\
    forall b j q k, b < B -> j < H -> q < T -> k < T ->
      item am [b; j; q; k] =
      sparse_allow (SparseMultiHeadAttentionBlock.block_size m)
        (SparseMultiHeadAttentionBlock.stride m)
        (SparseMultiHeadAttentionBlock.causal m) q k.
Proof.
  unfold SparseMultiHeadAttentionBlock.build_sparse_mask. intros H.
  apply expand_ok_inv in H as (rsh & Hr & ->).
  cbn [shape create_sparse_mask rev app] in Hr.
  apply expand_base_rev in Hr as (H & -> & HH).
  exists H. split; [reflexivity|]. split; [exact HH|].
  intros b j q k Hb Hj Hq Hk.
  cbn [item shape create_sparse_mask bidx length Nat.sub skipn pin_ones Nat.eqb].
  destruct (Nat.eqb_spec T 1) as [->|_]; cbn [nth].
  - replace q with 0 by lia. replace k with 0 by lia. reflexivity.
  - reflexivity.
Qed.

Lemma build_sparse_mask_ok (m : SparseMultiHeadAttentionBlock.t) (T B : nat) :
  (0 <= SparseMultiHeadAttentionBlock.h m)%Z ->
  exists am, SparseMultiHeadAttentionBlock.build_sparse_mask m T B = Ok am.
Proof.
  intros Hh. unfold SparseMultiHeadAttentionBlock.build_sparse_mask, expand.
  cbn [shape create_sparse_mask rev app].
  rewrite <- (Z2Nat.id (SparseMultiHeadAttentionBlock.h m)) by exact Hh.
  rewrite !expand_rev_cons. cbn [expand_rev bind Monad_result].
  rewrite !Nat.eqb_refl, !orb_true_r. cbn [orb bind Monad_result].
  eexists; reflexivity.
Qed.

Lemma sparse_allow_causal bs st q k : q < k -> sparse_allow bs st true q k = false.
Proof.
  intros H. unfold sparse_allow. apply andb_false_iff. right.
  apply Z.leb_gt. lia.
Qed.

(** C2. With [causal = true] the mask built for self-attention, for every
    sequence length, block size and stride, is false at every (q, k) with
    k > q, in every batch element and head; and the mask is built (for a
    head count that is not negative), with shape (B, h, T, T). *)
Theorem causal_sparse_mask_hides_future :
  forall (m : SparseMultiHeadAttentionBlock.t) (T B : nat),
    SparseMultiHeadAttentionBlock.causal m = true ->
    ((0 <= SparseMultiHeadAttentionBlock.h m)%Z ->
     exists am, SparseMultiHeadAttentionBlock.build_sparse_mask m T B = Ok am /\
                shape am = [B; Z.to_nat (SparseMultiHeadAttentionBlock.h m); T; T]) /\
    (forall am, SparseMultiHeadAttentionBlock.build_sparse_mask m T B = Ok am ->
       forall b j q k, in_bounds (shape am) [b; j; q; k] ->
         q < k -> item am [b; j; q; k] = false).
Proof.
  intros m T B Hc. split.
  - intros Hh. destruct (build_sparse_mask_ok m T B Hh) as (am & Ham).
    exists am. split; [exact Ham|].
    apply build_sparse_mask_ok_inv in Ham as (H & Hs & HH & _).
    now rewrite Hs, (HH Hh).
  - intros am Ham b j q k Hb Hqk.
    apply build_sparse_mask_ok_inv in Ham as (H & Hs & _ & Hitem).
    rewrite Hs in Hb.
    apply in_bounds_4 in Hb as (b' & j' & q' & k' & E & Hb' & Hj' & Hq' & Hk').
    injection E as <- <- <- <-.
    rewrite (Hitem b j q k Hb' Hj' Hq' Hk'), Hc.
    now apply sparse_allow_causal.
Qed.

Lemma causal_sparse_mask_hides_future_witness :
  exists am,
    SparseMultiHeadAttentionBlock.build_sparse_mask example_sparse_block 3 1 = Ok am /\
    item am [0; 1; 0; 2] = false.
Proof.
  eexists. split; [reflexivity|].
  refine (proj2 (causal_sparse_mask_hides_future example_sparse_block 3 1 eq_refl)
            _ eq_refl 0 1 0 2 _ _).
  - repeat constructor.
  - lia.
Defined.

Lemma expanded_external_mask (mask mask1 : tensor bool) b j q k :
  (if ndim mask =? 3 then unsqueeze 1 mask else Ok mask) = Ok mask1 ->
  item mask1 (bidx (shape mask1) [b; j; q; k]) = external_mask_at mask b j q k.
Proof.
  unfold external_mask_at, ndim.
  destruct (Nat.eqb_spec (length (shape mask)) 3) as [E|_].
  - intros H. apply unsqueeze_ok_inv in H as (_ & ->).
    destruct (shape mask) as [|s0 [|s1 [|s2 [|? ?]]]]; try discriminate E.
    cbn [shape item firstn skipn app bidx length Nat.sub pin_ones Nat.eqb].
    reflexivity.
  - intros H. apply Ok_inj in H. now subst.
Qed.

Lemma attn_mask_some (m : SparseMultiHeadAttentionBlock.t) (B T : nat)
    (mask am : tensor bool) :
  (0 <= SparseMultiHeadAttentionBlock.h m)%Z ->
  SparseMultiHeadAttentionBlock.attn_mask m B T (Some mask) = Ok am ->
  shape am = [B; Z.to_nat (SparseMultiHeadAttentionBlock.h m); T; T] /\
  forall b j q k,
    b < B -> j < Z.to_nat (SparseMultiHeadAttentionBlock.h m) -> q < T -> k < T ->
    item am [b; j; q; k] =
    sparse_allow (SparseMultiHeadAttentionBlock.block_size m)
      (SparseMultiHeadAttentionBlock.stride m)
      (SparseMultiHeadAttentionBlock.causal m) q k
    && external_mask_at mask b j q k.
Proof.
  intros Hh H. unfold SparseMultiHeadAttentionBlock.attn_mask in H.
  apply bind_ok_inv in H as (sparse & Hsp & H).
  apply bind_ok_inv in H as (mask1 & H1 & H).
  apply bind_ok_inv in H as (mask2 & H2 & H).
  apply build_sparse_mask_ok_inv in Hsp as (H' & Hs & HH & Hitem).
  rewrite (HH Hh) in *. clear HH H'.
  rewrite <- (Z2Nat.id (SparseMultiHeadAttentionBlock.h m)) in H2 at 1 by exact Hh.
  change [Z.of_nat B; Z.of_nat ?h; Z.of_nat T; Z.of_nat T]
    with (map Z.of_nat [B; h; T; T]) in H2.
  apply expand_nat_ok_inv in H2. subst mask2.
  apply map2_ok_inv in H as (sh & Hsh & ->).
  cbn [shape] in Hsh. rewrite Hs, broadcast_shapes_same in Hsh.
  apply Ok_inj in Hsh. subst sh. split; [reflexivity|].
  intros b j q k Hb Hj Hq Hk.
  assert (Hin : in_bounds [B; Z.to_nat (SparseMultiHeadAttentionBlock.h m); T; T]
                  [b; j; q; k])
    by (repeat constructor; assumption).
  cbn [item shape]. rewrite Hs, (bidx_in_bounds _ _ Hin).
  rewrite (Hitem b j q k Hb Hj Hq Hk). f_equal.
  now apply expanded_external_mask.
Qed.

(** A padding mask of shape (B, 1, 1, T) or a full mask of shape
    (B, 1, T, T) expands to (B, h, T, T). *)
Lemma attn_mask_total (m : SparseMultiHeadAttentionBlock.t) (B T R : nat)
    (mask : tensor bool) :
  (0 <= SparseMultiHeadAttentionBlock.h m)%Z ->
  shape mask = [B; 1; R; T] -> R = 1 \/ R = T ->
  exists am, SparseMultiHeadAttentionBlock.attn_mask m B T (Some mask) = Ok am.
Proof.
  intros Hh Hm HR. unfold SparseMultiHeadAttentionBlock.attn_mask.
  destruct (build_sparse_mask_ok m T B Hh) as (sparse & Hsp).
  rewrite Hsp. cbn [bind Monad_result].
  apply build_sparse_mask_ok_inv in Hsp as (H' & Hs & HH & _).
  rewrite (HH Hh) in Hs.
  unfold ndim. rewrite Hm. cbn [length Nat.eqb bind Monad_result].
  unfold expand. rewrite Hm. cbn [rev app].
  rewrite <- (Z2Nat.id (SparseMultiHeadAttentionBlock.h m)) by exact Hh.
  rewrite !expand_rev_cons. cbn [expand_rev bind Monad_result].
  rewrite !Nat.eqb_refl, !orb_true_r. cbn [orb bind Monad_result rev app].
  replace ((T =? R) || (R =? 1)) with true
    by (symmetry; apply orb_true_iff; destruct HR as [->| ->];
        [right | left]; apply Nat.eqb_refl).
  cbn [rev app]. unfold tensor_and, map2. cbn [shape].
  rewrite Hs, broadcast_shapes_same.
  cbn [bind Monad_result]. eexists; reflexivity.
Qed.



(** A block the constructor returned computes its queries, keys and
    values only if its head count is not negative: every call of [forward]
    that reaches the mask has [0 <= h]. *)
Lemma linear_init_ok_inv i o b g l g' :
  Linear.init i o b g = Ok (l, g') -> (0 <= o)%Z /\ (0 <= i)%Z.
Proof.
  unfold Linear.init. intros H.
  apply bindM_ok_inv in H as (w0 & g0 & Hz & _).
  apply lift_ok_inv in Hz as (Hz & _).
  apply full_ok_inv in Hz as (Hs & _).
  inversion Hs as [|? ? Ho Hs']; subst. inversion Hs' as [|? ? Hi _]; subst. auto.
Qed.

Lemma sparse_init_fields d h p bs st c g m g' :
  SparseMultiHeadAttentionBlock.init d h p bs st c g = Ok (m, g') ->
  SparseMultiHeadAttentionBlock.h m = h /\
  SparseMultiHeadAttentionBlock.d_k m = (d / h)%Z /\
  SparseMultiHeadAttentionBlock.block_size m = bs /\
  SparseMultiHeadAttentionBlock.stride m = st /\
  h <> 0%Z /\ (d mod h = 0)%Z /\ (0 <= d)%Z.
Proof.
  unfold SparseMultiHeadAttentionBlock.init.
  destruct (Z.eqb_spec h 0) as [|Hh]; [discriminate|].
  destruct (Z.eqb_spec (d mod h) 0) as [Hm|]; [|discriminate].
  cbn [negb]. intros H.
  apply bindM_ok_inv in H as (wq & g1 & Hq & H).
  apply linear_init_ok_inv in Hq as (Hd & _).
  apply bindM_ok_inv in H as (wk & g2 & _ & H).
  apply bindM_ok_inv in H as (wv & g3 & _ & H).
  apply bindM_ok_inv in H as (wo & g4 & _ & H).
  apply bindM_ok_inv in H as (dr & g5 & _ & H).
  cbn [ret Monad_M] in H. apply Ok_inj in H. injection H as <- _.
  cbn. auto 10.
Qed.

Lemma heads_not_negative_when_qkv_computed d h p bs st c g m g' x r :
  SparseMultiHeadAttentionBlock.init d h p bs st c g = Ok (m, g') ->
  SparseMultiHeadAttentionBlock.compute_qkv m x = Ok r ->
  (0 <= SparseMultiHeadAttentionBlock.h m)%Z.
Proof.
  intros Hinit Hqkv.
  apply sparse_init_fields in Hinit as (Hh & Hdk & _ & _ & Hh0 & Hmod & Hd).
  unfold SparseMultiHeadAttentionBlock.compute_qkv in Hqkv.
  apply bind_ok_inv in Hqkv as ([[B T] D] & _ & H).
  apply bind_ok_inv in H as (xq & _ & H).
  apply bind_ok_inv in H as (q & Hsplit & _).
  unfold split_heads in Hsplit. apply bind_ok_inv in Hsplit as (v & Hv & _).
  unfold view in Hv. apply bind_ok_inv in Hv as (sh & Hsh & _).
  rewrite Hh, Hdk in *. unfold infer_size in Hsh.
  apply bind_ok_inv in Hsh as ([newsize inferred] & Hk & Hsh).
  apply known_size_cons_inv in Hk as (p1 & k1 & Hk & HB).
  apply known_size_cons_inv in Hk as (p2 & k2 & Hk & HT).
  apply known_size_cons_inv in Hk as (p3 & k3 & Hk & HH).
  apply known_size_cons_inv in Hk as (p4 & k4 & Hk & HD).
  cbn [known_size] in Hk. apply Ok_inj in Hk. injection Hk as <- <-.
  destruct HB as [(HB & _)|(_ & EB)]; [lia|].
  destruct HT as [(HT & _)|(_ & ET)]; [lia|].
  destruct HH as [(HH & EH)|(HH & _)]; [|exact HH].
  exfalso. clear Hh Hdk. subst h.
  assert (Edk : (d / -1 = - d)%Z).
  { pose proof (Z_div_mod_eq_full d (-1)). pose proof (Z.mod_neg_bound d (-1)). lia. }
  rewrite Edk in HD.
  destruct HD as [(HD & ED)|(HD & ED)].
  - injection ED as -> ->. injection EH as -> ->. injection ET as -> ->.
    injection EB as -> ->. discriminate Hsh.
  - assert (d = 0%Z) by lia. subst d.
    injection ED as -> ->. injection EH as -> ->. injection ET as -> ->.
    injection EB as -> ->.
    cbn [Z.opp Z.to_nat Nat.mul] in Hsh.
    rewrite !Nat.mul_0_r in Hsh. cbn [Nat.ltb Nat.leb andb] in Hsh.
    rewrite orb_false_r in Hsh.
    destruct (numel (shape xq) =? 0); discriminate Hsh.
Qed.

(* ================================================================== *)
(** * Masked scores *)

(** The sparse block writes [float("-inf")] wherever its mask is false. *)
Lemma sparse_masked_scores_fill (m : SparseMultiHeadAttentionBlock.t)
    (q k : tensor xreal) (mask : tensor bool) s :
  SparseMultiHeadAttentionBlock.masked_scores m q k mask = Ok s ->
  forall idx,
    item mask (bidx (shape mask) idx) = false ->
    item s idx = NInf.
Proof.
  unfold SparseMultiHeadAttentionBlock.masked_scores. intros H idx Hm.
  apply bind_ok_inv in H as (kt & _ & H).
  apply bind_ok_inv in H as (sc & _ & H).
  apply bind_ok_inv in H as (sq & _ & H).
  apply map2_ok_inv in H as (sh & _ & ->).
  cbn [item]. destruct (dtype_eqb (dtype_of mask) bool_);
    cbn [shape item tensor_not to_bool tmap]; now rewrite Hm.
Qed.

Lemma finfo_min_finite d low : finfo_min d = Ok low -> is_finite low = true.
Proof.
  unfold finfo_min. destruct (float_format d) as [[prec emax]|]; [|discriminate].
  intros H. apply Ok_inj in H. now subst.
Qed.

(** The dense block writes the most negative finite value of the dtype of
    the scores wherever the mask is false. *)
Lemma dense_masked_scores_fill (query key : tensor xreal) (mask : tensor bool) s :
  MultiHeadAttentionBlock.masked_scores query key (Some mask) = Ok s ->
  exists low, finfo_min (dtype_of s) = Ok low /\ is_finite low = true /\
    forall idx,
      item mask (bidx (shape mask) idx) = false ->
      item s idx = low.
Proof.
  unfold MultiHeadAttentionBlock.masked_scores. intros H.
  apply bind_ok_inv in H as (d_k & _ & H).
  apply bind_ok_inv in H as (kt & _ & H).
  apply bind_ok_inv in H as (sc & _ & H).
  apply bind_ok_inv in H as (sq & _ & H).
  apply bind_ok_inv in H as (low & Hlow & H).
  unfold masked_fill_ in H.
  apply bind_ok_inv in H as (mm & Hmm & H).
  apply expand_nat_ok_inv in Hmm. subst mm.
  apply Ok_inj in H. subst s. cbn [dtype_of item shape tensor_not tmap].
  exists low. split; [exact Hlow|]. split; [exact (finfo_min_finite _ _ Hlow)|].
  intros idx Hm. now rewrite Hm.
Qed.

(** C1, the code at a failing input.  Queries and keys of shape
    (1, 2, 2, 2) under a lower-triangular mask: at the masked position
    (0, 0, 0, 1) the sparse block's score is negative infinity, which is
    not finite, while the dense block's score on the same input is
    [torch.finfo(float32).min], which is. *)
Theorem sparse_attention_fills_negative_infinity :
  (exists s,
     SparseMultiHeadAttentionBlock.masked_scores example_sparse_block
       (ones_tensor [1; 2; 2; 2]) (ones_tensor [1; 2; 2; 2])
       (lower_triangular [1; 2; 2; 2]) = Ok s /\
     item s [0; 0; 0; 1] = neg_inf /\ is_finite (item s [0; 0; 0; 1]) = false) /\
  (exists s low,
     MultiHeadAttentionBlock.masked_scores (ones_tensor [1; 2; 2; 2]) (ones_tensor [1; 2; 2; 2])
       (Some (lower_triangular [1; 2; 2; 2])) = Ok s /\
     finfo_min float32 = Ok low /\
     item s [0; 0; 0; 1] = low /\ is_finite low = true).
Proof.
  split.
  - eexists. split; [reflexivity|]. split; reflexivity.
  - eexists. eexists. split; [reflexivity|]. repeat split; reflexivity.
Qed.

(** With every key of a row masked, the sparse block's softmax of that row
    is [NaN]. *)
Lemma sparse_fully_masked_row_is_nan :
  exists s,
    SparseMultiHeadAttentionBlock.masked_scores example_sparse_block
      (ones_tensor [1; 2; 2; 2]) (ones_tensor [1; 2; 2; 2])
      (Tensor bool_ [1; 2; 2; 2] (fun _ => false)) = Ok s /\
    item (softmax s) [0; 0; 0; 0] = NaN.
Proof. eexists. split; reflexivity. Qed.

(* ================================================================== *)
(** * Residual connections and the decoder *)

(** C5. The residual wrapper returns [r] exactly when the normalisation of
    [x], then the sublayer applied to the normalised tensor, then dropout of
    the sublayer's output succeed and [r] is the sum of the original [x] and
    the dropped-out output; with equal shapes the sum is elementwise. *)
Theorem residual_connection_adds_sublayer_of_norm :
  forall (m : ResidualConnection.t) (x : tensor xreal)
         (sublayer : tensor xreal -> M (tensor xreal))
         (g : generator) (r : tensor xreal) (g' : generator),
    (ResidualConnection.forward m x sublayer g = Ok (r, g') <->
     exists normed out g1 dropped,
       LayerNormalization.forward (ResidualConnection.norm m) x = Ok normed /\
       sublayer normed g = Ok (out, g1) /\
       Dropout.forward (ResidualConnection.dropout m) out g1 = Ok (dropped, g') /\
       tensor_add x dropped = Ok r) /\
    (forall dropped,
       tensor_add x dropped = Ok r -> shape dropped = shape x ->
       shape r = shape x /\
       forall idx, in_bounds (shape x) idx ->
         item r idx = xadd (item x idx) (item dropped idx)).
Proof.
  intros m x sublayer g r g'. split.
  - unfold ResidualConnection.forward. rewrite bindM_ok_iff. split.
    + intros (normed & g0 & Hn & H). apply lift_ok_inv in Hn as (Hn & ->).
      apply bindM_ok_inv in H as (out & g1 & Hs & H).
      apply bindM_ok_inv in H as (dropped & g2 & Hd & H).
      apply lift_ok_inv in H as (Ha & ->).
      exists normed, out, g1, dropped. auto.
    + intros (normed & out & g1 & dropped & Hn & Hs & Hd & Ha).
      exists normed, g. split; [now apply lift_ok_iff|].
      apply bindM_ok_iff. exists out, g1. split; [exact Hs|].
      apply bindM_ok_iff. exists dropped, g'. split; [exact Hd|].
      now apply lift_ok_iff.
  - intros dropped. apply tensor_add_same_shape.
Qed.

Lemma residual_connection_adds_sublayer_of_norm_witness :
  exists r g',
    ResidualConnection.forward example_residual (ones_tensor [1; 2; 4])
      (fun y => ret y) zero_tape = Ok (r, g') /\
    exists normed out g1 dropped,
      LayerNormalization.forward (ResidualConnection.norm example_residual)
        (ones_tensor [1; 2; 4]) = Ok normed /\
      (fun y => ret y) normed zero_tape = Ok (out, g1) /\
      Dropout.forward (ResidualConnection.dropout example_residual) out g1 = Ok (dropped, g') /\
      tensor_add (ones_tensor [1; 2; 4]) dropped = Ok r.
Proof.
  eexists. eexists. split; [reflexivity|].
  apply (proj1 (proj1 (residual_connection_adds_sublayer_of_norm example_residual
                         (ones_tensor [1; 2; 4]) (fun y => ret y) zero_tape _ _))).
  reflexivity.
Defined.

Lemma decoder_run_layers_app (l1 l2 : list DecoderBlock.t) x enc src tgt g :
  Decoder.run_layers (l1 ++ l2) x enc src tgt g =
  (y <- Decoder.run_layers l1 x enc src tgt ;; Decoder.run_layers l2 y enc src tgt) g.
Proof.
  revert x g. induction l1 as [|l l1 IH]; intros x g; cbn [app Decoder.run_layers].
  - cbn [bind ret Monad_M]. reflexivity.
  - cbn [bind Monad_M].
    destruct (DecoderBlock.forward l x enc src tgt g) as [[x1 g1]|e]; [|reflexivity].
    rewrite IH. reflexivity.
Qed.

Lemma residual_list_length n features p rcs :
  residual_list n features p = Ok rcs -> length rcs = n.
Proof.
  revert rcs. induction n as [|n IH]; intros rcs H; cbn [residual_list] in H.
  - apply Ok_inj in H. now subst.
  - apply bind_ok_inv in H as (r & _ & H). apply bind_ok_inv in H as (rest & Hr & H).
    apply Ok_inj in H. subst. cbn [length]. f_equal. eauto.
Qed.

(** C8. A decoder block returns exactly when its three residual wrappers
    succeed in the order sparse self-attention (on the target mask), dense
    cross-attention against the encoder output (on the source mask),
    feed-forward, each fed the previous result; the stack runs its blocks
    first to last and applies its own normalisation once, to the output of
    the last block; a block built by the constructor owns exactly three
    residual wrappers and no normalisation of its own output. *)
Theorem decoder_block_and_stack_order :
  forall (blk : DecoderBlock.t) (dec : Decoder.t) (x encoder_output : tensor xreal)
         (src_mask tgt_mask : option (tensor bool)) (g : generator)
         (r : tensor xreal) (g' : generator),
    (* a block: three residual wrappers, in this order *)
    (DecoderBlock.forward blk x encoder_output src_mask tgt_mask g = Ok (r, g') <->
     exists rc0 rc1 rc2 x1 g1 x2 g2,
       module_at (DecoderBlock.residual_connection blk) 0 = Ok rc0 /\
       ResidualConnection.forward rc0 x
         (fun y => SparseMultiHeadAttentionBlock.forward (DecoderBlock.self_attention_block blk)
                     y y y tgt_mask) g = Ok (x1, g1) /\
       module_at (DecoderBlock.residual_connection blk) 1 = Ok rc1 /\
       ResidualConnection.forward rc1 x1
         (fun y => MultiHeadAttentionBlock.forward (DecoderBlock.cross_attention_block blk)
                     y encoder_output encoder_output src_mask) g1 = Ok (x2, g2) /\
       module_at (DecoderBlock.residual_connection blk) 2 = Ok rc2 /\
       ResidualConnection.forward rc2 x2
         (FeedForwardBlock.forward (DecoderBlock.feed_forward_block blk)) g2 = Ok (r, g')) /\
    (* the stack: the blocks one after the other, then one normalisation *)
    (Decoder.forward dec x encoder_output src_mask tgt_mask g = Ok (r, g') <->
     exists y,
       Decoder.run_layers (Decoder.layers dec) x encoder_output src_mask tgt_mask g = Ok (y, g') /\
       LayerNormalization.forward (Decoder.norm dec) y = Ok r) /\
    (forall layer rest,
       Decoder.run_layers (layer :: rest) x encoder_output src_mask tgt_mask g =
       (y <- DecoderBlock.forward layer x encoder_output src_mask tgt_mask ;;
        Decoder.run_layers rest y encoder_output src_mask tgt_mask) g) /\
    Decoder.run_layers [] x encoder_output src_mask tgt_mask g = Ok (x, g) /\
    (* a block built by the constructor owns exactly three residual wrappers *)
    (forall features sa ca ff p b,
       DecoderBlock.init features sa ca ff p = Ok b ->
       length (DecoderBlock.residual_connection b) = 3 /\
       DecoderBlock.self_attention_block b = sa /\ DecoderBlock.cross_attention_block b = ca /\
       DecoderBlock.feed_forward_block b = ff).
Proof.
  intros blk dec x enc src tgt g r g'. repeat split.
  - unfold DecoderBlock.forward. intros H.
    apply bindM_ok_inv in H as (rc0 & g0 & H0 & H). apply lift_ok_inv in H0 as (H0 & ->).
    apply bindM_ok_inv in H as (x1 & g1 & H1 & H).
    apply bindM_ok_inv in H as (rc1 & g1' & Hm1 & H). apply lift_ok_inv in Hm1 as (Hm1 & ->).
    apply bindM_ok_inv in H as (x2 & g2 & H2 & H).
    apply bindM_ok_inv in H as (rc2 & g2' & Hm2 & H). apply lift_ok_inv in Hm2 as (Hm2 & ->).
    exists rc0, rc1, rc2, x1, g1, x2, g2. auto 10.
  - intros (rc0 & rc1 & rc2 & x1 & g1 & x2 & g2 & H0 & H1 & Hm1 & H2 & Hm2 & H3).
    unfold DecoderBlock.forward.
    apply bindM_ok_iff. exists rc0, g. split; [now apply lift_ok_iff|].
    apply bindM_ok_iff. exists x1, g1. split; [exact H1|].
    apply bindM_ok_iff. exists rc1, g1. split; [now apply lift_ok_iff|].
    apply bindM_ok_iff. exists x2, g2. split; [exact H2|].
    apply bindM_ok_iff. exists rc2, g2. split; [now apply lift_ok_iff|].
    exact H3.
  - unfold Decoder.forward. intros H.
    apply bindM_ok_inv in H as (y & g1 & Hy & H). apply lift_ok_inv in H as (Hn & ->).
    exists y. auto.
  - intros (y & Hy & Hn). unfold Decoder.forward.
    apply bindM_ok_iff. exists y, g'. split; [exact Hy|]. now apply lift_ok_iff.
  - unfold DecoderBlock.init in H. apply bind_ok_inv in H as (rcs & Hr & H).
    apply Ok_inj in H. subst b. cbn [DecoderBlock.residual_connection].
    now apply residual_list_length in Hr.
  - unfold DecoderBlock.init in H. apply bind_ok_inv in H as (rcs & Hr & H).
    apply Ok_inj in H. now subst b.
  - unfold DecoderBlock.init in H. apply bind_ok_inv in H as (rcs & Hr & H).
    apply Ok_inj in H. now subst b.
  - unfold DecoderBlock.init in H. apply bind_ok_inv in H as (rcs & Hr & H).
    apply Ok_inj in H. now subst b.
Qed.

(** C10. The sparse block's [forward] gives the same result, and leaves
    the generator in the same state, whatever is passed for [k] and [v]. *)
Theorem sparse_attention_ignores_key_and_value :
  forall (m : SparseMultiHeadAttentionBlock.t) (q k v k' v' : tensor xreal)
         (mask : option (tensor bool)) (g : generator),
    SparseMultiHeadAttentionBlock.forward m q k v mask g =
    SparseMultiHeadAttentionBlock.forward m q k' v' mask g.
Proof.
  intros m q k v k' v' mask g.
  unfold SparseMultiHeadAttentionBlock.forward.
  reflexivity.
Qed.

(* ================================================================== *)
(** * Splitting into heads and merging back *)

Lemma split_heads_ok (B T H Dk : nat) (x : tensor xreal) :
  shape x = [B; T; H * Dk] ->
  split_heads (Z.of_nat B) (Z.of_nat T) (Z.of_nat H) (Z.of_nat Dk) x =
  Ok (Tensor (dtype_of x) [B; H; T; Dk]
        (fun idx => item x (unravel [B; T; H * Dk] (ravel [B; T; H; Dk] (swap 1 2 idx))))).
Proof.
  intros Hx. unfold split_heads.
  change [Z.of_nat B; Z.of_nat T; Z.of_nat H; Z.of_nat Dk]
    with (map Z.of_nat [B; T; H; Dk]).
  rewrite view_exact by (rewrite Hx; simpl; lia).
  cbn [bind Monad_result]. rewrite Hx.
  erewrite transpose_1_2 by reflexivity. reflexivity.
Qed.

Lemma sparse_merge_ok (B H T Dk : nat) (s : tensor xreal) :
  shape s = [B; H; T; Dk] ->
  SparseMultiHeadAttentionBlock.merge s =
  Ok (Tensor (dtype_of s) [B; T; H * Dk]
        (fun idx => item s (swap 1 2 (unravel [B; T; H; Dk] (ravel [B; T; H * Dk] idx))))).
Proof.
  intros Hs. unfold SparseMultiHeadAttentionBlock.merge. rewrite Hs.
  cbn [unpack4 bind Monad_result].
  rewrite (transpose_1_2 _ B H T Dk Hs). cbn [bind Monad_result].
  change [Z.of_nat B; Z.of_nat T; Z.of_nat (H * Dk)]
    with (map Z.of_nat [B; T; H * Dk]).
  unfold contiguous.
  rewrite view_exact by (simpl; lia).
  reflexivity.
Qed.

Lemma dense_split_ok (m : MultiHeadAttentionBlock.t) (B T H Dk : nat) (x : tensor xreal) :
  MultiHeadAttentionBlock.h m = Z.of_nat H -> MultiHeadAttentionBlock.d_k m = Z.of_nat Dk ->
  shape x = [B; T; H * Dk] ->
  MultiHeadAttentionBlock.split m x =
  Ok (Tensor (dtype_of x) [B; H; T; Dk]
        (fun idx => item x (unravel [B; T; H * Dk] (ravel [B; T; H; Dk] (swap 1 2 idx))))).
Proof.
  intros Hh Hd Hx. unfold MultiHeadAttentionBlock.split, shape_at. rewrite Hx, Hh, Hd.
  cbn [nth_error bind Monad_result]. now apply split_heads_ok.
Qed.

Lemma dense_merge_ok (m : MultiHeadAttentionBlock.t) (B H T Dk : nat) (s : tensor xreal) :
  MultiHeadAttentionBlock.h m = Z.of_nat H -> MultiHeadAttentionBlock.d_k m = Z.of_nat Dk ->
  shape s = [B; H; T; Dk] -> 0 < B * (H * Dk) ->
  MultiHeadAttentionBlock.merge m s =
  Ok (Tensor (dtype_of s) [B; T; H * Dk]
        (fun idx => item s (swap 1 2 (unravel [B; T; H; Dk] (ravel [B; T; H * Dk] idx))))).
Proof.
  intros Hh Hd Hs Hpos. unfold MultiHeadAttentionBlock.merge, shape_at.
  rewrite (transpose_1_2 _ B H T Dk Hs), Hs. cbn [bind Monad_result nth_error].
  rewrite Hh, Hd, <- Nat2Z.inj_mul. unfold view, contiguous. cbn [shape dtype_of item].
  replace (numel [B; T; H; Dk]) with (numel [B; T; H * Dk]) by (simpl; lia).
  rewrite infer_size_middle by exact Hpos. reflexivity.
Qed.


Lemma exact_division (D H : nat) :
  H <> 0 -> D mod H = 0 ->
  D = H * (D / H) /\ (Z.of_nat D / Z.of_nat H)%Z = Z.of_nat (D / H).
Proof.
  intros HH Hm. split.
  - pose proof (Nat.div_mod_eq D H). lia.
  - now rewrite Nat2Z.inj_div.
Qed.




(* ================================================================== *)
(** * Construction *)

Lemma sparse_init_sparsity d h p bs st bs' st' c g :
  SparseMultiHeadAttentionBlock.init d h p bs st c g =
  fmapM (set_sparsity bs st) (SparseMultiHeadAttentionBlock.init d h p bs' st' c) g.
Proof.
  unfold fmapM, SparseMultiHeadAttentionBlock.init.
  destruct (h =? 0)%Z; [reflexivity|].
  destruct (negb (d mod h =? 0)%Z); [reflexivity|].
  cbn [bind Monad_M].
  run (Linear.init d d false g). run (Linear.init d d false g0).
  run (Linear.init d d false g1). run (Linear.init d d false g2).
  unfold lift. destruct (Dropout.init p); reflexivity.
Qed.

Lemma encoder_block_sparsity d h dff p bs st bs' st' g :
  encoder_block d h dff p bs st g =
  fmapM (respecify_encoder_block bs st) (encoder_block d h dff p bs' st') g.
Proof.
  unfold encoder_block. cbn [bind Monad_M]. unfold fmapM at 1.
  rewrite (sparse_init_sparsity d h p bs st bs' st'). unfold fmapM at 1.
  cbn [bind Monad_M].
  run (SparseMultiHeadAttentionBlock.init d h p bs' st' false g).
  run (FeedForwardBlock.init d dff p g0).
  unfold lift, EncoderBlock.init.
  destruct (residual_list 2 d p); reflexivity.
Qed.

Lemma decoder_block_sparsity d h dff p bs st bs' st' g :
  decoder_block d h dff p bs st g =
  fmapM (respecify_decoder_block bs st) (decoder_block d h dff p bs' st') g.
Proof.
  unfold decoder_block. cbn [bind Monad_M]. unfold fmapM at 1.
  rewrite (sparse_init_sparsity d h p bs st bs' st'). unfold fmapM at 1.
  cbn [bind Monad_M].
  run (SparseMultiHeadAttentionBlock.init d h p bs' st' true g).
  run (MultiHeadAttentionBlock.init d h p g0).
  run (FeedForwardBlock.init d dff p g1).
  unfold lift, DecoderBlock.init.
  destruct (residual_list 3 d p); reflexivity.
Qed.

Lemma repeatM_fmap {A B} (f : A -> B) (c : M B) (c0 : M A) n :
  (forall g, c g = fmapM f c0 g) ->
  forall g, repeatM n c g = fmapM (map f) (repeatM n c0) g.
Proof.
  intros Hc. induction n as [|n IH]; intros g; cbn [repeatM].
  - reflexivity.
  - unfold fmapM. cbn [bind Monad_M]. rewrite Hc. unfold fmapM at 1.
    run (c0 g). rewrite IH. unfold fmapM.
    run (repeatM n c0 g0). reflexivity.
Qed.

Lemma mapM_fmap {A} (f : A -> M A) (r : A -> A) :
  (forall a g, f (r a) g = fmapM r (f a) g) ->
  forall l g, mapM f (map r l) g = fmapM (map r) (mapM f l) g.
Proof.
  intros Hf. induction l as [|a l IH]; intros g; cbn [mapM map].
  - reflexivity.
  - unfold fmapM. cbn [bind Monad_M]. rewrite Hf. unfold fmapM at 1.
    run (f a g). rewrite IH. unfold fmapM.
    run (mapM f l g0). reflexivity.
Qed.

Lemma sparse_xavier_sparsity bs st m g :
  SparseMultiHeadAttentionBlock.xavier (set_sparsity bs st m) g =
  fmapM (set_sparsity bs st) (SparseMultiHeadAttentionBlock.xavier m) g.
Proof.
  unfold fmapM, SparseMultiHeadAttentionBlock.xavier.
  cbn [bind Monad_M set_sparsity SparseMultiHeadAttentionBlock.w_q
       SparseMultiHeadAttentionBlock.w_k SparseMultiHeadAttentionBlock.w_v
       SparseMultiHeadAttentionBlock.w_o].
  run (Linear.xavier (SparseMultiHeadAttentionBlock.w_q m) g).
  run (Linear.xavier (SparseMultiHeadAttentionBlock.w_k m) g0).
  run (Linear.xavier (SparseMultiHeadAttentionBlock.w_v m) g1).
  run (Linear.xavier (SparseMultiHeadAttentionBlock.w_o m) g2).
  reflexivity.
Qed.

Lemma encoder_block_xavier_sparsity bs st b g :
  EncoderBlock.xavier (respecify_encoder_block bs st b) g =
  fmapM (respecify_encoder_block bs st) (EncoderBlock.xavier b) g.
Proof.
  unfold EncoderBlock.xavier.
  cbn [bind Monad_M respecify_encoder_block EncoderBlock.self_attention_block
       EncoderBlock.feed_forward_block EncoderBlock.residual_connections].
  unfold fmapM at 1. rewrite sparse_xavier_sparsity. unfold fmapM at 1.
  cbn [bind Monad_M].
  run (SparseMultiHeadAttentionBlock.xavier (EncoderBlock.self_attention_block b) g).
  run (FeedForwardBlock.xavier (EncoderBlock.feed_forward_block b) g0).
  reflexivity.
Qed.

Lemma decoder_block_xavier_sparsity bs st b g :
  DecoderBlock.xavier (respecify_decoder_block bs st b) g =
  fmapM (respecify_decoder_block bs st) (DecoderBlock.xavier b) g.
Proof.
  unfold DecoderBlock.xavier.
  cbn [bind Monad_M respecify_decoder_block DecoderBlock.self_attention_block
       DecoderBlock.cross_attention_block
       DecoderBlock.feed_forward_block DecoderBlock.residual_connection].
  unfold fmapM at 1. rewrite sparse_xavier_sparsity. unfold fmapM at 1.
  cbn [bind Monad_M].
  run (SparseMultiHeadAttentionBlock.xavier (DecoderBlock.self_attention_block b) g).
  run (MultiHeadAttentionBlock.xavier (DecoderBlock.cross_attention_block b) g0).
  run (FeedForwardBlock.xavier (DecoderBlock.feed_forward_block b) g1).
  reflexivity.
Qed.

Lemma transformer_xavier_sparsity bs st m g :
  Transformer.xavier (respecify bs st m) g = fmapM (respecify bs st) (Transformer.xavier m) g.
Proof.
  unfold Transformer.xavier, Encoder.xavier, Decoder.xavier.
  cbn [bind Monad_M respecify Transformer.encoder Transformer.decoder
       Transformer.src_embed Transformer.tgt_embed Transformer.src_pos
       Transformer.tgt_pos Transformer.projection_layer
       Encoder.layers Encoder.norm Decoder.layers Decoder.norm].
  unfold fmapM at 1.
  rewrite (mapM_fmap _ _ (encoder_block_xavier_sparsity bs st)). unfold fmapM at 1.
  run (mapM EncoderBlock.xavier (Encoder.layers (Transformer.encoder m)) g).
  rewrite (mapM_fmap _ _ (decoder_block_xavier_sparsity bs st)). unfold fmapM at 1.
  run (mapM DecoderBlock.xavier (Decoder.layers (Transformer.decoder m)) g0).
  run (InputEmbeddings.xavier (Transformer.src_embed m) g1).
  run (InputEmbeddings.xavier (Transformer.tgt_embed m) g2).
  run (ProjectionLayer.xavier (Transformer.projection_layer m) g3).
  reflexivity.
Qed.

(** C4, as amended.  Construction does not examine [block_size] and
    [stride]: built with any pair of values it raises exactly when it raises
    with any other pair, and otherwise returns the same model, with the same
    generator state, up to the values stored in the sparse blocks. *)
Theorem construction_ignores_block_size_and_stride :
  forall (src_vocab_size tgt_vocab_size src_seq_len tgt_seq_len d_model N h : Z)
         (dropout : Q) (d_ff block_size stride block_size' stride' : Z) (g : generator),
    build_sparse_transformer src_vocab_size tgt_vocab_size src_seq_len tgt_seq_len
      d_model N h dropout d_ff block_size stride g =
    fmapM (respecify block_size stride)
      (build_sparse_transformer src_vocab_size tgt_vocab_size src_seq_len tgt_seq_len
         d_model N h dropout d_ff block_size' stride') g /\
    run_ok (build_sparse_transformer src_vocab_size tgt_vocab_size src_seq_len tgt_seq_len
              d_model N h dropout d_ff block_size stride) g =
    run_ok (build_sparse_transformer src_vocab_size tgt_vocab_size src_seq_len tgt_seq_len
              d_model N h dropout d_ff block_size' stride') g.
Proof.
  intros sv tv ss ts d N h p dff bs st bs' st' g.
  assert (E : build_sparse_transformer sv tv ss ts d N h p dff bs st g =
              fmapM (respecify bs st)
                (build_sparse_transformer sv tv ss ts d N h p dff bs' st') g).
  { unfold build_sparse_transformer. cbn [bind Monad_M]. unfold fmapM at 1.
    run (InputEmbeddings.init d sv g). run (InputEmbeddings.init d tv g0).
    unfold lift at 1 5.
    destruct (PositionalEncoding.init d ss p) as [sp|?]; [|reflexivity].
    unfold lift at 1 4.
    destruct (PositionalEncoding.init d ts p) as [tp|?]; [|reflexivity].
    rewrite (repeatM_fmap _ _ _ (Z.to_nat N)
               (encoder_block_sparsity d h dff p bs st bs' st')).
    unfold fmapM at 1.
    run (repeatM (Z.to_nat N) (encoder_block d h dff p bs' st') g1).
    rewrite (repeatM_fmap _ _ _ (Z.to_nat N)
               (decoder_block_sparsity d h dff p bs st bs' st')).
    unfold fmapM at 1.
    run (repeatM (Z.to_nat N) (decoder_block d h dff p bs' st') g2).
    unfold lift, Encoder.init, Decoder.init.
    destruct (LayerNormalization.init d) as [n|?]; cbn [bind Monad_result]; [|reflexivity].
    run (ProjectionLayer.init d tv g3).
    exact (transformer_xavier_sparsity bs st
             (Transformer.Build (Encoder.Build a1 n) (Decoder.Build a2 n) a a0 sp tp a3) g4). }
  split; [exact E|].
  unfold run_ok. rewrite E. unfold fmapM.
  now destruct (build_sparse_transformer sv tv ss ts d N h p dff bs' st' g) as [[m g']|e].
Qed.

(** C4, the claim as stated fails: with [block_size = 0] and
    [stride = -2] construction returns a model. *)
Lemma construction_accepts_nonpositive_sparsity :
  (0 <= 0)%Z /\ (-2 <= 0)%Z /\
  run_ok (build_sparse_transformer 100 100 16 16 64 2 4 (1 # 10) 256 0 (-2)) zero_tape = true.
Proof. repeat split; try lia. Qed.

(* ================================================================== *)
(** * Rows that are masked *)

(** ** Rows of constant value *)

Lemma map_constant {A B} (f : A -> B) (c : B) (l : list A) :
  (forall a, In a l -> f a = c) -> map f l = repeat c (length l).
Proof.
  induction l as [|a l IH]; intros H; cbn [map length repeat]; [reflexivity|].
  rewrite (H a (or_introl eq_refl)), IH; [reflexivity|].
  intros b Hb. apply H. now right.
Qed.

Lemma row_constant {A} (t : tensor A) (idx : list nat) (c : A) :
  (forall j, j < last_dim (shape t) -> item t (row_index idx j) = c) ->
  row t idx = repeat c (last_dim (shape t)).
Proof.
  intros H. unfold row.
  rewrite (map_constant _ c) by (intros j Hj; apply in_seq in Hj; apply H; lia).
  now rewrite length_seq.
Qed.

Lemma row_max_all_neg_inf n : row_max (repeat NInf n) = NInf.
Proof.
  unfold row_max. induction n as [|n IH]; cbn [repeat fold_left xmax]; auto.
Qed.

Lemma fold_xmax_fin r n : fold_left xmax (repeat (Fin r) n) (Fin r) = Fin r.
Proof.
  induction n as [|n IH]; cbn [repeat fold_left xmax]; [reflexivity|].
  unfold Rltb. destruct (Rlt_dec r r) as [H|_]; [lra|exact IH].
Qed.

Lemma row_max_all_fin r n : 0 < n -> row_max (repeat (Fin r) n) = Fin r.
Proof.
  intros Hn. destruct n as [|n]; [lia|].
  unfold row_max. cbn [repeat fold_left xmax]. apply fold_xmax_fin.
Qed.

Lemma fold_xadd_fin e n a :
  fold_left xadd (repeat (Fin e) n) (Fin a) = Fin (a + INR n * e).
Proof.
  revert a. induction n as [|n IH]; intros a.
  - cbn [repeat fold_left INR]. f_equal. ring.
  - cbn [repeat fold_left xadd]. rewrite IH, S_INR. f_equal. ring.
Qed.

Lemma xsum_all_fin e n : xsum (repeat (Fin e) n) = Fin (INR n * e).
Proof. unfold xsum. rewrite fold_xadd_fin. f_equal. ring. Qed.

Lemma map_repeat {A B} (f : A -> B) a n : map f (repeat a n) = repeat (f a) n.
Proof. induction n; cbn [repeat map]; congruence. Qed.

(** Softmax of a row that is negative infinity throughout. *)
Lemma softmax_row_all_neg_inf n : softmax_row (repeat NInf n) NInf = NaN.
Proof. unfold softmax_row. rewrite row_max_all_neg_inf. reflexivity. Qed.

(** Softmax of a row that holds one finite value throughout. *)
Lemma softmax_row_all_fin r n :
  0 < n -> softmax_row (repeat (Fin r) n) (Fin r) = Fin (/ INR n).
Proof.
  intros Hn. unfold softmax_row. rewrite (row_max_all_fin r n Hn).
  rewrite map_repeat. cbn [xsub xneg xadd xexp]. rewrite xsum_all_fin.
  replace (r + - r)%R with 0%R by ring. rewrite exp_0.
  assert (HR : (INR n * 1 <> 0)%R).
  { rewrite Rmult_1_r. apply not_0_INR. lia. }
  unfold xdiv. rewrite (Reqb_false _ _ HR). f_equal. field.
  apply not_0_INR. lia.
Qed.

(** X1. In the sparse block, a query row all of whose keys are masked
    holds negative infinity throughout after masking, and every attention
    weight of that row is [NaN]. *)
Theorem sparse_fully_masked_row_weights_nan :
  forall (m : SparseMultiHeadAttentionBlock.t) (q k : tensor xreal) (mask : tensor bool)
         (s : tensor xreal) (b j r c : nat),
    SparseMultiHeadAttentionBlock.masked_scores m q k mask = Ok s ->
    (forall c', c' < last_dim (shape s) ->
                item mask (bidx (shape mask) [b; j; r; c']) = false) ->
    c < last_dim (shape s) ->
    item s [b; j; r; c] = neg_inf /\
    item (softmax s) [b; j; r; c] = NaN.
Proof.
  intros m q k mask s b j r c Hs Hrow Hc.
  assert (Hfill : forall c', c' < last_dim (shape s) -> item s [b; j; r; c'] = NInf).
  { intros c' Hc'. apply (sparse_masked_scores_fill m q k mask s Hs). now apply Hrow. }
  split; [now apply Hfill|].
  cbn [softmax item]. rewrite (row_constant s [b; j; r; c] NInf).
  - rewrite (Hfill c Hc). apply softmax_row_all_neg_inf.
  - intros c' Hc'. cbn [row_index removelast app]. now apply Hfill.
Qed.

Lemma sparse_fully_masked_row_weights_nan_witness :
  exists s,
    SparseMultiHeadAttentionBlock.masked_scores example_sparse_block
      (ones_tensor [1; 2; 2; 2]) (ones_tensor [1; 2; 2; 2])
      (Tensor bool_ [1; 2; 2; 2] (fun idx => negb (nth 2 idx 0 =? 0))) = Ok s /\
    item s [0; 1; 0; 1] = neg_inf /\
    item (softmax s) [0; 1; 0; 1] = NaN.
Proof.
  eexists. split; [reflexivity|].
  apply (sparse_fully_masked_row_weights_nan example_sparse_block
           (ones_tensor [1; 2; 2; 2]) (ones_tensor [1; 2; 2; 2])
           (Tensor bool_ [1; 2; 2; 2] (fun idx => negb (nth 2 idx 0 =? 0))) _ 0 1 0 1 eq_refl).
  - intros c' Hc'. reflexivity.
  - cbn. lia.
Defined.

(** X2. In the dense block, a query row all of whose keys are masked
    holds the most negative finite value of the dtype throughout, and its
    attention weights are uniform: [1 / n] over the [n] keys. *)
Theorem dense_fully_masked_row_weights_uniform :
  forall (query key : tensor xreal) (mask : tensor bool)
         (s : tensor xreal) (b j r c : nat),
    MultiHeadAttentionBlock.masked_scores query key (Some mask) = Ok s ->
    (forall c', c' < last_dim (shape s) ->
                item mask (bidx (shape mask) [b; j; r; c']) = false) ->
    c < last_dim (shape s) ->
    exists low,
      finfo_min (dtype_of s) = Ok low /\ is_finite low = true /\
      item s [b; j; r; c] = low /\
      item (softmax s) [b; j; r; c] = Fin (/ INR (last_dim (shape s))).
Proof.
  intros query key mask s b j r c Hs Hrow Hc.
  destruct (dense_masked_scores_fill query key mask s Hs) as (low & Hlow & Hfin & Hfill).
  exists low. split; [exact Hlow|]. split; [exact Hfin|].
  assert (Hall : forall c', c' < last_dim (shape s) -> item s [b; j; r; c'] = low).
  { intros c' Hc'. apply Hfill. now apply Hrow. }
  split; [now apply Hall|].
  destruct low as [x| | |]; try discriminate Hfin.
  cbn [softmax item]. rewrite (row_constant s [b; j; r; c] (Fin x)).
  - rewrite (Hall c Hc). apply softmax_row_all_fin. lia.
  - intros c' Hc'. cbn [row_index removelast app]. now apply Hall.
Qed.

Lemma dense_fully_masked_row_weights_uniform_witness :
  exists s low,
    MultiHeadAttentionBlock.masked_scores
      (ones_tensor [1; 2; 2; 2]) (ones_tensor [1; 2; 2; 2])
      (Some (Tensor bool_ [1; 2; 2; 2] (fun idx => negb (nth 2 idx 0 =? 0)))) = Ok s /\
    finfo_min (dtype_of s) = Ok low /\ is_finite low = true /\
    item s [0; 1; 0; 1] = low /\
    item (softmax s) [0; 1; 0; 1] = Fin (/ INR (last_dim (shape s))).
Proof.
  eexists.
  destruct (dense_fully_masked_row_weights_uniform
              (ones_tensor [1; 2; 2; 2]) (ones_tensor [1; 2; 2; 2])
              (Tensor bool_ [1; 2; 2; 2] (fun idx => negb (nth 2 idx 0 =? 0)))
              _ 0 1 0 1 eq_refl) as (low & H).
  - intros c' Hc'. reflexivity.
  - cbn. lia.
  - exists low. split; [reflexivity|]. exact H.
Defined.

(** ** Rows with masked and finite scores *)

Lemma fold_xmax_from_fin l : forall a,
  (forall y, In y l -> y = NInf \/ exists r, y = Fin r) ->
  exists M, fold_left xmax l (Fin a) = Fin M.
Proof.
  induction l as [|y l IH]; intros a Hl; cbn [fold_left].
  - now exists a.
  - destruct (Hl y (or_introl eq_refl)) as [->|(r & ->)]; cbn [xmax].
    + apply IH. intros z Hz. apply Hl. now right.
    + destruct (Rltb a r); apply IH; intros z Hz; apply Hl; now right.
Qed.

Lemma row_max_some_fin l :
  (forall y, In y l -> y = NInf \/ exists r, y = Fin r) ->
  (exists r, In (Fin r) l) ->
  exists M, row_max l = Fin M.
Proof.
  unfold row_max. induction l as [|y l IH]; intros Hl (r & Hr); [destruct Hr|].
  cbn [fold_left].
  destruct (Hl y (or_introl eq_refl)) as [->|(a & ->)]; cbn [xmax].
  - apply IH; [intros z Hz; apply Hl; now right|].
    destruct Hr as [Hr|Hr]; [discriminate Hr|now exists r].
  - apply fold_xmax_from_fin. intros z Hz. apply Hl. now right.
Qed.

(** The denominator of the softmax of such a row is finite and positive. *)
Lemma exp_sum_positive M l : forall acc,
  (forall y, In y l -> y = NInf \/ exists r, y = Fin r) ->
  exists t,
    fold_left xadd (map (fun y => xexp (xsub y (Fin M))) l) (Fin acc) = Fin t /\
    (acc <= t)%R /\ ((exists r, In (Fin r) l) -> (acc < t)%R).
Proof.
  induction l as [|y l IH]; intros acc Hl; cbn [map fold_left].
  - exists acc. split; [reflexivity|]. split; [lra|]. intros (r & []).
  - assert (Hl' : forall z, In z l -> z = NInf \/ exists r, z = Fin r)
      by (intros z Hz; apply Hl; now right).
    destruct (Hl y (or_introl eq_refl)) as [->|(a & ->)]; cbn [xsub xneg xadd xexp].
    + destruct (IH (acc + 0)%R Hl') as (t & Et & Hle & Hlt).
      exists t. split; [exact Et|]. split; [lra|].
      intros (r & [Hr|Hr]); [discriminate Hr|].
      assert (acc + 0 < t)%R by (apply Hlt; now exists r). lra.
    + destruct (IH (acc + exp (a + - M))%R Hl') as (t & Et & Hle & _).
      pose proof (exp_pos (a + - M)).
      exists t. split; [exact Et|]. split; lra.
Qed.

Lemma softmax_row_masked l :
  (forall y, In y l -> y = NInf \/ exists r, y = Fin r) ->
  (exists r, In (Fin r) l) ->
  softmax_row l NInf = Fin 0.
Proof.
  intros Hl Hfin. unfold softmax_row.
  destruct (row_max_some_fin l Hl Hfin) as (M & ->).
  destruct (exp_sum_positive M l 0 Hl) as (t & Et & _ & Hlt).
  unfold xsum. rewrite Et. cbn [xsub xneg xadd xexp].
  specialize (Hlt Hfin).
  unfold xdiv. rewrite (Reqb_false t 0) by lra. f_equal. unfold Rdiv. ring.
Qed.

(** X3. In the sparse block, a masked key receives attention weight
    exactly zero, in every row that has some unmasked key and whose
    unmasked scores are finite. *)
Theorem sparse_masked_key_gets_zero_weight :
  forall (m : SparseMultiHeadAttentionBlock.t) (q k : tensor xreal) (mask : tensor bool)
         (s : tensor xreal) (b j r c c0 : nat),
    SparseMultiHeadAttentionBlock.masked_scores m q k mask = Ok s ->
    item mask (bidx (shape mask) [b; j; r; c]) = false ->
    c0 < last_dim (shape s) ->
    item mask (bidx (shape mask) [b; j; r; c0]) = true ->
    (forall c', c' < last_dim (shape s) ->
       item mask (bidx (shape mask) [b; j; r; c']) = true ->
       is_finite (item s [b; j; r; c']) = true) ->
    item (softmax s) [b; j; r; c] = Fin 0.
Proof.
  intros m q k mask s b j r c c0 Hs Hc Hc0 Hm0 Hfin.
  pose proof (sparse_masked_scores_fill m q k mask s Hs) as Hfill.
  cbn [softmax item]. rewrite (Hfill _ Hc).
  apply softmax_row_masked.
  - intros y Hy. unfold row in Hy. apply in_map_iff in Hy as (c' & <- & Hc').
    apply in_seq in Hc'. cbn [row_index removelast app].
    destruct (item mask (bidx (shape mask) [b; j; r; c'])) eqn:Em.
    + right. specialize (Hfin c' ltac:(lia) Em).
      destruct (item s [b; j; r; c']) as [x| | |]; try discriminate Hfin. now exists x.
    + left. now apply Hfill.
  - specialize (Hfin c0 Hc0 Hm0).
    destruct (item s [b; j; r; c0]) as [x| | |] eqn:Ex; try discriminate Hfin.
    exists x. unfold row. apply in_map_iff. exists c0. split.
    + cbn [row_index removelast app]. exact Ex.
    + apply in_seq. lia.
Qed.

Lemma sparse_masked_key_gets_zero_weight_witness :
  exists s,
    SparseMultiHeadAttentionBlock.masked_scores example_sparse_block
      (ones_tensor [1; 2; 2; 2]) (ones_tensor [1; 2; 2; 2])
      (lower_triangular [1; 2; 2; 2]) = Ok s /\
    item (softmax s) [0; 0; 0; 1] = Fin 0.
Proof.
  eexists. split; [reflexivity|].
  apply (sparse_masked_key_gets_zero_weight example_sparse_block
           (ones_tensor [1; 2; 2; 2]) (ones_tensor [1; 2; 2; 2])
           (lower_triangular [1; 2; 2; 2]) _ 0 0 0 1 0 eq_refl).
  - reflexivity.
  - cbn. lia.
  - reflexivity.
  - intros c' Hc' Hm.
    assert (Hs2 : sqrt (IZR 2) <> 0%R) by (apply Rgt_not_eq, sqrt_lt_R0; lra).
    destruct c' as [|[|c']].
    + cbn. rewrite (Reqb_false _ _ Hs2). reflexivity.
    + discriminate Hm.
    + cbn in Hc'. lia.
Defined.

(** ** The weights of a row as a distribution *)

(** Each term of the denominator is at most the whole. *)
Lemma exp_sum_bounds_terms M l : forall acc t,
  (forall y, In y l -> y = NInf \/ exists r, y = Fin r) ->
  fold_left xadd (map (fun y => xexp (xsub y (Fin M))) l) (Fin acc) = Fin t ->
  forall x, In x l ->
    exists e, xexp (xsub x (Fin M)) = Fin e /\ (0 <= e)%R /\ (acc + e <= t)%R.
Proof.
  induction l as [|y l IH]; intros acc t Hl Ht x Hx; [destruct Hx|].
  assert (Hl' : forall z, In z l -> z = NInf \/ exists r, z = Fin r)
    by (intros z Hz; apply Hl; now right).
  cbn [map fold_left] in Ht.
  assert (Hy : exists e, xexp (xsub y (Fin M)) = Fin e /\ (0 <= e)%R).
  { destruct (Hl y (or_introl eq_refl)) as [->|(a & ->)]; cbn [xsub xneg xadd xexp].
    - exists 0%R. split; [reflexivity|lra].
    - eexists. split; [reflexivity|]. left. apply exp_pos. }
  destruct Hy as (e & Ee & He). rewrite Ee in Ht. cbn [xadd] in Ht.
  destruct (exp_sum_positive M l (acc + e)%R Hl') as (t' & Et' & Hle & _).
  rewrite Et' in Ht. apply (f_equal (fun v => match v with Fin r => r | _ => 0%R end)) in Ht.
  subst t'.
  destruct Hx as [->|Hx].
  - exists e. split; [exact Ee|]. split; [exact He|exact Hle].
  - destruct (IH (acc + e)%R t Hl' Et' x Hx) as (e' & Ee' & He' & Hle').
    exists e'. split; [exact Ee'|]. split; [exact He'|lra].
Qed.

Lemma normalised_sum M t l : forall acc acc',
  t <> 0%R ->
  (forall y, In y l -> y = NInf \/ exists r, y = Fin r) ->
  fold_left xadd (map (fun y => xexp (xsub y (Fin M))) l) (Fin acc) = Fin acc' ->
  fold_left xadd (map (fun y => xdiv (xexp (xsub y (Fin M))) (Fin t)) l) (Fin (acc / t))
  = Fin (acc' / t).
Proof.
  induction l as [|y l IH]; intros acc acc' Ht Hl H; cbn [map fold_left] in *.
  - apply (f_equal (fun v => match v with Fin r => r | _ => 0%R end)) in H. now subst.
  - assert (Hl' : forall z, In z l -> z = NInf \/ exists r, z = Fin r)
      by (intros z Hz; apply Hl; now right).
    assert (Hy : exists e, xexp (xsub y (Fin M)) = Fin e).
    { destruct (Hl y (or_introl eq_refl)) as [->|(a & ->)]; cbn [xsub xneg xadd xexp];
        eexists; reflexivity. }
    destruct Hy as (e & Ee). rewrite Ee in *. cbn [xadd] in H.
    unfold xdiv at 2. rewrite (Reqb_false _ _ Ht). cbn [xadd].
    replace (acc / t + e / t)%R with ((acc + e) / t)%R by (now field).
    now apply IH.
Qed.

Lemma softmax_row_distribution l :
  (forall y, In y l -> y = NInf \/ exists r, y = Fin r) ->
  (exists r, In (Fin r) l) ->
  xsum (map (softmax_row l) l) = Fin 1 /\
  forall x, In x l -> exists w, softmax_row l x = Fin w /\ (0 <= w <= 1)%R.
Proof.
  intros Hl Hfin.
  destruct (row_max_some_fin l Hl Hfin) as (M & EM).
  destruct (exp_sum_positive M l 0 Hl) as (t & Et & _ & Hlt).
  specialize (Hlt Hfin). assert (Ht : t <> 0%R) by lra.
  assert (Hsm : forall x, softmax_row l x = xdiv (xexp (xsub x (Fin M))) (Fin t)).
  { intros x. unfold softmax_row, xsum. now rewrite EM, Et. }
  split.
  - rewrite (map_ext _ _ Hsm). unfold xsum.
    replace (Fin 0) with (Fin (0 / t)) by (f_equal; now field).
    rewrite (normalised_sum M t l 0 t Ht Hl Et). f_equal. now field.
  - intros x Hx. rewrite Hsm.
    destruct (exp_sum_bounds_terms M l 0 t Hl Et x Hx) as (e & Ee & He & Hle).
    rewrite Ee. unfold xdiv. rewrite (Reqb_false _ _ Ht).
    eexists. split; [reflexivity|]. split.
    + apply Rmult_le_pos; [exact He|]. left. apply Rinv_0_lt_compat. lra.
    + apply (Rmult_le_reg_r t); [lra|]. unfold Rdiv.
      rewrite Rmult_assoc, Rinv_l by exact Ht. lra.
Qed.

(** X4. In the sparse block, the attention weights of a row that has some
    unmasked key and finite unmasked scores are numbers between 0 and 1 that
    sum to 1. *)
Theorem sparse_attention_weights_form_distribution :
  forall (m : SparseMultiHeadAttentionBlock.t) (q k : tensor xreal) (mask : tensor bool)
         (s : tensor xreal) (b j r c0 : nat),
    SparseMultiHeadAttentionBlock.masked_scores m q k mask = Ok s ->
    c0 < last_dim (shape s) ->
    item mask (bidx (shape mask) [b; j; r; c0]) = true ->
    (forall c', c' < last_dim (shape s) ->
       item mask (bidx (shape mask) [b; j; r; c']) = true ->
       is_finite (item s [b; j; r; c']) = true) ->
    xsum (row (softmax s) [b; j; r; 0]) = Fin 1 /\
    forall c, c < last_dim (shape s) ->
      exists w, item (softmax s) [b; j; r; c] = Fin w /\ (0 <= w <= 1)%R.
Proof.
  intros m q k mask s b j r c0 Hs Hc0 Hm0 Hfin.
  pose proof (sparse_masked_scores_fill m q k mask s Hs) as Hfill.
  set (L := row s [b; j; r; 0]).
  assert (HL : forall y, In y L -> y = NInf \/ exists x, y = Fin x).
  { intros y Hy. unfold L, row in Hy. apply in_map_iff in Hy as (c' & <- & Hc').
    apply in_seq in Hc'. cbn [row_index removelast app].
    destruct (item mask (bidx (shape mask) [b; j; r; c'])) eqn:Em.
    - right. specialize (Hfin c' ltac:(lia) Em).
      destruct (item s [b; j; r; c']) as [x| | |]; try discriminate Hfin. now exists x.
    - left. now apply Hfill. }
  assert (HF : exists x, In (Fin x) L).
  { specialize (Hfin c0 Hc0 Hm0).
    destruct (item s [b; j; r; c0]) as [x| | |] eqn:Ex; try discriminate Hfin.
    exists x. unfold L, row. apply in_map_iff. exists c0. split.
    - cbn [row_index removelast app]. exact Ex.
    - apply in_seq. lia. }
  destruct (softmax_row_distribution L HL HF) as (Hsum & Hw).
  split.
  - replace (row (softmax s) [b; j; r; 0]) with (map (softmax_row L) L); [exact Hsum|].
    unfold L, row. cbn [softmax shape item]. rewrite map_map.
    apply map_ext. intros c. reflexivity.
  - intros c Hc. cbn [softmax item]. apply (Hw (item s [b; j; r; c])).
    unfold L, row. apply in_map_iff. exists c. split.
    + reflexivity.
    + apply in_seq. lia.
Qed.

Lemma sparse_attention_weights_form_distribution_witness :
  exists s,
    SparseMultiHeadAttentionBlock.masked_scores example_sparse_block
      (ones_tensor [1; 2; 2; 2]) (ones_tensor [1; 2; 2; 2])
      (lower_triangular [1; 2; 2; 2]) = Ok s /\
    xsum (row (softmax s) [0; 0; 0; 0]) = Fin 1.
Proof.
  eexists. split; [reflexivity|].
  refine (proj1 (sparse_attention_weights_form_distribution example_sparse_block
                   (ones_tensor [1; 2; 2; 2]) (ones_tensor [1; 2; 2; 2])
                   (lower_triangular [1; 2; 2; 2]) _ 0 0 0 0 eq_refl _ _ _)).
  - cbn. lia.
  - reflexivity.
  - intros c' Hc' Hm.
    assert (Hs2 : sqrt (IZR 2) <> 0%R) by (apply Rgt_not_eq, sqrt_lt_R0; lra).
    destruct c' as [|[|c']].
    + cbn. rewrite (Reqb_false _ _ Hs2). reflexivity.
    + discriminate Hm.
    + cbn in Hc'. lia.
Defined.

(* ================================================================== *)
(** * Heads, embeddings and normalisation *)

(** ** Which features a head sees *)

(** X5. Splitting (B, T, H * Dk) into heads never fails, and head [j]
    holds the contiguous features [j * Dk .. j * Dk + Dk - 1] of every
    position. *)
Theorem head_split_slices_features :
  forall (B T H Dk : nat) (x : tensor xreal),
    shape x = [B; T; H * Dk] ->
    exists s,
      split_heads (Z.of_nat B) (Z.of_nat T) (Z.of_nat H) (Z.of_nat Dk) x = Ok s /\
      shape s = [B; H; T; Dk] /\
      forall b j t c, b < B -> j < H -> t < T -> c < Dk ->
        item s [b; j; t; c] = item x [b; t; j * Dk + c].
Proof.
  intros B T H Dk x Hx.
  eexists. split; [now apply split_heads_ok|]. split; [reflexivity|].
  intros b j t c Hb Hj Ht Hc. cbn [item swap nth_error set_nth].
  assert (Hin : in_bounds [B; T; H * Dk] [b; t; j * Dk + c]).
  { repeat constructor; try assumption. nia. }
  replace (ravel [B; T; H; Dk] [b; t; j; c])
    with (ravel [B; T; H * Dk] [b; t; j * Dk + c])
    by (cbn [ravel numel fold_right]; ring).
  now rewrite unravel_ravel.
Qed.

Lemma head_split_slices_features_witness :
  exists s,
    split_heads 1 3 2 2 (ones_tensor [1; 3; 4]) = Ok s /\
    shape s = [1; 2; 3; 2] /\
    item s [0; 1; 2; 1] = item (ones_tensor [1; 3; 4]) [0; 2; 1 * 2 + 1].
Proof.
  destruct (head_split_slices_features 1 3 2 2 (ones_tensor [1; 3; 4]) eq_refl)
    as (s & Hs & Hsh & Hitem).
  exists s. split; [exact Hs|]. split; [exact Hsh|].
  apply Hitem; lia.
Defined.

(** ** Token embeddings *)

Lemma indices_in_bounds sh : forall idx, In idx (indices sh) <-> in_bounds sh idx.
Proof.
  induction sh as [|d sh IH]; intros idx; cbn [indices].
  - split.
    + intros [<-|[]]. constructor.
    + intros H. inversion H. now left.
  - rewrite in_flat_map. split.
    + intros (i & Hi & Hm). apply in_map_iff in Hm as (rest & <- & Hr).
      apply in_seq in Hi. constructor; [lia|]. now apply IH.
    + intros H. inversion H as [|i ? rest ? Hi Hr]; subst.
      exists i. split; [apply in_seq; lia|].
      apply in_map. now apply IH.
Qed.

Lemma embedding_init_weight n d g e g' :
  Embedding.init n d g = Ok (e, g') ->
  (0 <= n)%Z /\ (0 <= d)%Z /\ shape (Embedding.weight e) = [Z.to_nat n; Z.to_nat d].
Proof.
  unfold Embedding.init. intros H.
  apply bindM_ok_inv in H as (w0 & g0 & Hz & H).
  apply lift_ok_inv in Hz as (Hz & ->).
  apply full_ok_inv in Hz as (Hs & ->).
  inversion Hs as [|? ? Hn Hs']; subst. inversion Hs' as [|? ? Hd _]; subst.
  cbn [bind ret Monad_M normal_ shape dtype_of] in H.
  apply Ok_inj in H. injection H as <- _. auto.
Qed.

(** X6. The embedding of a (B, T) tensor of token ids succeeds exactly
    when every id lies in [0, vocab_size); its result has shape
    (B, T, d_model) and holds the table row of each id multiplied by
    sqrt(d_model). *)
Theorem input_embeddings_lookup :
  forall (d_model vocab_size : Z) (g g' : generator) (m : InputEmbeddings.t)
         (x : tensor Z) (B T : nat),
    InputEmbeddings.init d_model vocab_size g = Ok (m, g') ->
    shape x = [B; T] ->
    ((exists y, InputEmbeddings.forward m x = Ok y) <->
     (forall b t, b < B -> t < T -> (0 <= item x [b; t] < vocab_size)%Z)) /\
    (forall y, InputEmbeddings.forward m x = Ok y ->
       shape y = [B; T; Z.to_nat d_model] /\
       forall b t j, b < B -> t < T -> j < Z.to_nat d_model ->
         item y [b; t; j] =
         xmul (item (Embedding.weight (InputEmbeddings.embedding m))
                 [Z.to_nat (item x [b; t]); j])
              (Fin (sqrt (IZR d_model)))).
Proof.
  intros d v g g' m x B T Hinit Hx.
  unfold InputEmbeddings.init in Hinit.
  apply bindM_ok_inv in Hinit as (e & g1 & He & Hm).
  cbn [ret Monad_M] in Hm. apply Ok_inj in Hm. injection Hm as <- _.
  apply embedding_init_weight in He as (Hv & Hd & Hw).
  unfold InputEmbeddings.forward, Embedding.forward.
  cbn [InputEmbeddings.embedding InputEmbeddings.d_model]. rewrite Hw, Hx.
  unfold math_sqrt. destruct (Z.ltb_spec d 0) as [Hneg|_]; [lia|].
  set (ok := forallb _ _).
  assert (Hok : ok = true <->
                forall b t, b < B -> t < T -> (0 <= item x [b; t] < v)%Z).
  { unfold ok. rewrite forallb_forall. split.
    - intros H b t Hb Ht.
      specialize (H [b; t]). rewrite indices_in_bounds in H.
      assert (Hin : in_bounds [B; T] [b; t]) by (repeat constructor; assumption).
      apply H in Hin. apply andb_true_iff in Hin as (H1 & H2).
      apply Z.leb_le in H1. apply Z.ltb_lt in H2. lia.
    - intros H idx Hin. apply indices_in_bounds in Hin.
      inversion Hin as [|b ? r1 ? Hb Hr1]; subst.
      inversion Hr1 as [|t ? r2 ? Ht Hr2]; subst. inversion Hr2; subst.
      specialize (H b t Hb Ht). apply andb_true_iff. split.
      + apply Z.leb_le. lia.
      + apply Z.ltb_lt. lia. }
  split.
  - rewrite <- Hok. destruct ok; cbn [bind Monad_result]; split.
    + reflexivity.
    + intros _. eexists; reflexivity.
    + intros (y & Hy). discriminate Hy.
    + discriminate.
  - intros y Hy. destruct ok; cbn [bind Monad_result] in Hy; [|discriminate].
    apply Ok_inj in Hy. subst y. split; [reflexivity|].
    intros b t j Hb Ht Hj. reflexivity.
Qed.

Lemma input_embeddings_lookup_witness :
  exists m g' y,
    InputEmbeddings.init 4 10 zero_tape = Ok (m, g') /\
    InputEmbeddings.forward m (Tensor int64 [1; 2] (fun _ => 3%Z)) = Ok y /\
    shape y = [1; 2; 4].
Proof.
  eexists. eexists. eexists. split; [reflexivity|]. split; [reflexivity|].
  refine (proj1 (proj2 (input_embeddings_lookup 4 10 zero_tape _ _
                          (Tensor int64 [1; 2] (fun _ => 3%Z)) 1 2 eq_refl eq_refl)
                   _ eq_refl)).
Defined.

(** ** Layer normalisation *)

Lemma broadcast_keepdim B T D : broadcast_shapes [B; T; D] [B; T; 1] = Ok [B; T; D].
Proof.
  unfold broadcast_shapes. cbn [rev app broadcast_rev].
  rewrite !Nat.eqb_refl, !orb_true_r. cbn [orb bind Monad_result].
  destruct (Nat.eqb_spec D 1) as [->|_];
    destruct (Nat.eqb_spec T 1) as [->|_];
    destruct (Nat.eqb_spec B 1) as [->|_]; reflexivity.
Qed.

Lemma broadcast_vector_left B T D : broadcast_shapes [D] [B; T; D] = Ok [B; T; D].
Proof.
  unfold broadcast_shapes. cbn [rev app broadcast_rev].
  rewrite Nat.eqb_refl. cbn [orb bind Monad_result].
  destruct (Nat.eqb_spec D 1) as [->|_]; reflexivity.
Qed.

Lemma broadcast_vector_right B T D : broadcast_shapes [B; T; D] [D] = Ok [B; T; D].
Proof.
  unfold broadcast_shapes. cbn [rev app broadcast_rev].
  rewrite Nat.eqb_refl. cbn [orb bind Monad_result].
  destruct (Nat.eqb_spec D 1) as [->|_]; reflexivity.
Qed.

Lemma Rltb_false a b : (b <= a)%R -> Rltb a b = false.
Proof. intros H. unfold Rltb. destruct (Rlt_dec a b); [lra|reflexivity]. Qed.





(* ================================================================== *)
(** * Positions within and beyond the table *)

(** ** Positions within the table *)

Lemma broadcast_batch_row B T D : broadcast_shapes [B; T; D] [1; T; D] = Ok [B; T; D].
Proof.
  unfold broadcast_shapes. cbn [rev app broadcast_rev].
  rewrite !Nat.eqb_refl. cbn [orb bind Monad_result]. rewrite orb_true_r.
  cbn [bind Monad_result].
  destruct (Nat.eqb_spec D 1) as [->|_];
    destruct (Nat.eqb_spec T 1) as [->|_];
    destruct (Nat.eqb_spec B 1) as [->|_]; reflexivity.
Qed.

Lemma dropout_forward_shape (d : Dropout.t) (x : tensor xreal) g :
  exists y g', Dropout.forward d x g = Ok (y, g') /\ shape y = shape x /\
    (Qeq_bool (Dropout.p d) 0 = true -> y = x /\ g' = g).
Proof.
  unfold Dropout.forward.
  destruct (Qeq_bool (Dropout.p d) 0) eqn:E0.
  - rewrite orb_true_r. cbn [orb]. eexists _, _. repeat split; reflexivity.
  - rewrite orb_false_r.
    destruct (negb (Dropout.training d) || (numel (shape x) =? 0)).
    + eexists _, _. split; [reflexivity|]. split; [reflexivity|discriminate].
    + destruct (Qeq_bool (Dropout.p d) 1).
      * eexists _, _. split; [reflexivity|]. split; [reflexivity|discriminate].
      * eexists _, _. split; [reflexivity|]. split; [reflexivity|discriminate].
Qed.

(** X8. For an input of shape (B, T, d_model) no longer than the table,
    the positions are added without error: the shape is kept, element
    (b, t, j) becomes [x[b, t, j] + pe[0, t, j]], and the forward pass
    returns a tensor of that shape; with rate zero it returns the sum
    itself and draws nothing. *)
Theorem positional_encoding_forward_in_range :
  forall (d_model seq_len : Z) (dropout : Q) (m : PositionalEncoding.t)
         (x : tensor xreal) (B T : nat),
    PositionalEncoding.init d_model seq_len dropout = Ok m ->
    shape x = [B; T; Z.to_nat d_model] ->
    T <= Z.to_nat seq_len ->
    exists y,
      PositionalEncoding.add_positions m x = Ok y /\
      shape y = [B; T; Z.to_nat d_model] /\
      (forall b t j, b < B -> t < T -> j < Z.to_nat d_model ->
         item y [b; t; j] = xadd (item x [b; t; j]) (item (PositionalEncoding.pe m) [0; t; j])) /\
      forall g, exists z g',
        PositionalEncoding.forward m x g = Ok (z, g') /\
        shape z = [B; T; Z.to_nat d_model] /\
        (Qeq_bool dropout 0 = true -> z = y /\ g' = g).
Proof.
  intros d_model seq_len dropout m x B T Hinit Hx HT.
  pose proof (init_pe_shape _ _ _ _ Hinit) as Hpe.
  assert (Hp : Dropout.p (PositionalEncoding.dropout m) = dropout).
  { unfold PositionalEncoding.init in Hinit.
    apply bind_ok_inv in Hinit as (dr & Hdr & H).
    apply bind_ok_inv in H as (pe & _ & H). apply Ok_inj in H. subst m.
    unfold Dropout.init in Hdr. destruct (Qle_bool 0 dropout && Qle_bool dropout 1);
      [|discriminate]. apply Ok_inj in Hdr. subst dr. reflexivity. }
  set (D := Z.to_nat d_model) in *.
  assert (Hadd : PositionalEncoding.add_positions m x =
                 Ok (Tensor (promote_types (dtype_of x) (dtype_of (PositionalEncoding.pe m)))
                       [B; T; D]
                       (fun idx => xadd (item x (bidx [B; T; D] idx))
                                        (item (PositionalEncoding.pe m) (bidx [1; T; D] idx))))).
  { unfold PositionalEncoding.add_positions, shape_at, slice_to.
    rewrite Hx, Hpe. cbn [nth_error bind Monad_result set_nth].
    rewrite Nat.min_l by exact HT.
    unfold tensor_add, map2. cbn [shape dtype_of item]. rewrite Hx, broadcast_batch_row.
    reflexivity. }
  eexists. split; [exact Hadd|]. split; [reflexivity|]. split.
  - intros b t j Hb Ht Hj. cbn [item].
    rewrite bidx_in_bounds by (repeat constructor; assumption).
    cbn [bidx length Nat.sub skipn pin_ones Nat.eqb].
    destruct (Nat.eqb_spec T 1) as [->|_]; destruct (Nat.eqb_spec D 1) as [E|_];
      try rewrite E in *;
      repeat match goal with
        | H : ?v < 1 |- _ => replace v with 0 by lia; clear H
        end; reflexivity.
  - intros g. unfold PositionalEncoding.forward. cbn [bind Monad_M]. unfold lift.
    rewrite Hadd.
    destruct (dropout_forward_shape (PositionalEncoding.dropout m)
                (Tensor (promote_types (dtype_of x) (dtype_of (PositionalEncoding.pe m)))
                   [B; T; D]
                   (fun idx => xadd (item x (bidx [B; T; D] idx))
                                 (item (PositionalEncoding.pe m) (bidx [1; T; D] idx)))) g)
      as (z & g' & Hz & Hs & Hid).
    exists z, g'. split; [exact Hz|]. split; [exact Hs|].
    rewrite Hp in Hid. exact Hid.
Qed.

Lemma positional_encoding_forward_in_range_witness :
  exists m, PositionalEncoding.init 4 3 0 = Ok m /\
    exists y, PositionalEncoding.add_positions m (ones_tensor [1; 2; 4]) = Ok y /\
      item y [0; 1; 2] = xadd (Fin 1) (item (PositionalEncoding.pe m) [0; 1; 2]).
Proof.
  eexists. split; [reflexivity|].
  destruct (positional_encoding_forward_in_range 4 3 0 _ (ones_tensor [1; 2; 4]) 1 2
              eq_refl eq_refl) as (y & Hy & _ & Hitem & _); [simpl; lia|].
  exists y. split; [exact Hy|].
  apply (Hitem 0 1 2); simpl; lia.
Defined.

(** ** When the table can be built *)

Lemma expand_matrix_ok {A} (t : tensor A) (r c R C : nat) :
  shape t = [r; c] ->
  is_ok (expand [Z.of_nat R; Z.of_nat C] t) =
  ((R =? r) || (r =? 1)) && ((C =? c) || (c =? 1)).
Proof.
  intros Hs. unfold expand. rewrite Hs. cbn [rev app].
  rewrite !expand_rev_cons. cbn [expand_rev bind Monad_result].
  destruct ((R =? r) || (r =? 1)); cbn [bind Monad_result andb];
    destruct ((C =? c) || (c =? 1)); reflexivity.
Qed.

Lemma setitem_cols_ok (start step : nat) (t src : tensor xreal) (rows cols r c : nat) :
  shape t = [rows; cols] -> shape src = [r; c] ->
  is_ok (setitem_cols start step t src) =
  ((rows =? r) || (r =? 1)) &&
  (((cols - start + (step - 1)) / step =? c) || (c =? 1)).
Proof.
  intros Ht Hs. unfold setitem_cols. rewrite Ht.
  rewrite <- (expand_matrix_ok src r c rows _ Hs).
  destruct (expand _ src); reflexivity.
Qed.

Lemma table_ok d_model seq_len :
  (0 <= seq_len)%Z -> (0 < d_model)%Z ->
  is_ok (PositionalEncoding.table d_model seq_len) =
  (Z.to_nat d_model / 2 =? (Z.to_nat d_model + 1) / 2) || ((Z.to_nat d_model + 1) / 2 =? 1).
Proof.
  intros HL Hd. unfold PositionalEncoding.table, zeros, full.
  cbn [existsb].
  destruct (Z.ltb_spec seq_len 0) as [|_]; [lia|].
  destruct (Z.ltb_spec d_model 0) as [|_]; [lia|].
  cbn [orb bind Monad_result map].
  unfold arange at 1.
  destruct (Z.ltb_spec seq_len 0) as [|_]; [lia|].
  cbn [bind Monad_result]. unfold unsqueeze, ndim. cbn [shape length Nat.ltb Nat.leb].
  cbn [bind Monad_result firstn skipn app].
  unfold PositionalEncoding.div_term, arange, py_div.
  destruct (Z.ltb_spec d_model 0) as [|_]; [lia|].
  destruct (Z.eqb_spec d_model 0) as [|_]; [lia|].
  cbn [bind Monad_result].
  unfold tensor_mul, map2. cbn [shape tmap mul_scalar dtype_of].
  rewrite broadcast_col_row. cbn [bind Monad_result].
  set (L := (Z.to_nat seq_len + (1 - 1)) / 1).
  set (K := (Z.to_nat d_model + (2 - 1)) / 2).
  assert (HL' : L = Z.to_nat seq_len).
  { unfold L. rewrite Nat.div_1_r. lia. }
  match goal with
  | |- context [setitem_cols 0 2 ?t ?src] =>
      pose proof (setitem_cols_ok 0 2 t src (Z.to_nat seq_len) (Z.to_nat d_model) L K
                    eq_refl eq_refl) as H1;
      destruct (setitem_cols 0 2 t src) as [pe1|e] eqn:E1
  end.
  2:{ exfalso. cbn [is_ok] in H1. rewrite HL', Nat.eqb_refl in H1. cbn [orb andb] in H1.
      rewrite Nat.sub_0_r in H1. fold K in H1. rewrite Nat.eqb_refl in H1. discriminate. }
  cbn [bind Monad_result].
  apply setitem_cols_ok_inv in E1 as (rows & cols & s1 & Hsh1 & _ & Epe1).
  cbn [shape] in Hsh1. injection Hsh1 as <- <-.
  match goal with
  | |- context [setitem_cols 1 2 pe1 ?src] =>
      pose proof (setitem_cols_ok 1 2 pe1 src (Z.to_nat seq_len) (Z.to_nat d_model) L K
                    ltac:(subst pe1; reflexivity) eq_refl) as H2;
      destruct (setitem_cols 1 2 pe1 src) as [pe2|e] eqn:E2
  end.
  - cbn [bind Monad_result].
    apply setitem_cols_ok_inv in E2 as (rows & cols & s2 & Hsh2 & _ & Epe2).
    unfold unsqueeze, ndim. rewrite Epe2. cbn [shape length Nat.ltb Nat.leb is_ok].
    cbn [is_ok] in H2. rewrite H2, HL', Nat.eqb_refl. cbn [orb andb].
    unfold K. replace (Z.to_nat d_model - 1 + (2 - 1)) with (Z.to_nat d_model) by lia.
    replace (2 - 1) with 1 by reflexivity. reflexivity.
  - cbn [bind Monad_result is_ok]. cbn [is_ok] in H2.
    rewrite H2, HL', Nat.eqb_refl. cbn [orb andb].
    unfold K. replace (Z.to_nat d_model - 1 + (2 - 1)) with (Z.to_nat d_model) by lia.
    replace (2 - 1) with 1 by reflexivity. reflexivity.
Qed.

Lemma halves_agree (d : Z) :
  (0 < d)%Z ->
  (Z.to_nat d / 2 =? (Z.to_nat d + 1) / 2) || ((Z.to_nat d + 1) / 2 =? 1) = true <->
  Z.even d = true \/ d = 1%Z.
Proof.
  intros Hd.
  pose proof (Nat.div_mod_eq (Z.to_nat d) 2) as E1.
  pose proof (Nat.mod_upper_bound (Z.to_nat d) 2 ltac:(lia)) as B1.
  pose proof (Nat.div_mod_eq (Z.to_nat d + 1) 2) as E2.
  pose proof (Nat.mod_upper_bound (Z.to_nat d + 1) 2 ltac:(lia)) as B2.
  rewrite orb_true_iff, !Nat.eqb_eq, Z.even_spec. unfold Z.Even. split.
  - intros [H|H].
    + left. exists (Z.of_nat (Z.to_nat d / 2)). lia.
    + destruct (Z.to_nat d mod 2) eqn:Em.
      * left. exists (Z.of_nat (Z.to_nat d / 2)). lia.
      * right. lia.
  - intros [(k & Hk)|H].
    + left. lia.
    + right. subst d. reflexivity.
Qed.

(** X9. The positional encoding can be constructed exactly when the
    dropout rate lies in [0, 1], the maximum length is not negative and
    [d_model] is positive and even, or 1: an odd [d_model] of 3 or more is
    refused, the cosine columns being one fewer than the values written
    into them. *)
Theorem positional_encoding_init_succeeds_iff :
  forall (d_model seq_len : Z) (dropout : Q),
    (exists m, PositionalEncoding.init d_model seq_len dropout = Ok m) <->
    (0 <= dropout)%Q /\ (dropout <= 1)%Q /\ (0 <= seq_len)%Z /\ (0 < d_model)%Z /\
    (Z.even d_model = true \/ d_model = 1%Z).
Proof.
  intros d_model seq_len dropout. split.
  - intros (m & Hinit).
    pose proof (init_ok_inv _ _ _ _ Hinit) as Ht.
    pose proof (table_ok_inv _ _ _ Ht) as (HL & Hd & _).
    pose proof (table_ok d_model seq_len HL Hd) as Hok. rewrite Ht in Hok.
    cbn [is_ok] in Hok. symmetry in Hok. apply (halves_agree _ Hd) in Hok.
    unfold PositionalEncoding.init, Dropout.init in Hinit.
    destruct (Qle_bool 0 dropout && Qle_bool dropout 1) eqn:Ep; [|discriminate].
    apply andb_true_iff in Ep as (E0 & E1).
    apply Qle_bool_iff in E0. apply Qle_bool_iff in E1. auto.
  - intros (E0 & E1 & HL & Hd & Hpar).
    apply (halves_agree _ Hd) in Hpar.
    pose proof (table_ok d_model seq_len HL Hd) as Hok. rewrite Hpar in Hok.
    unfold PositionalEncoding.init, Dropout.init.
    apply Qle_bool_iff in E0. apply Qle_bool_iff in E1. rewrite E0, E1.
    cbn [andb bind Monad_result].
    destruct (PositionalEncoding.table d_model seq_len) as [pe|e]; [|discriminate].
    eexists. reflexivity.
Qed.

(** ** Range of the positional encoding *)

(** X10. Every entry of the positional table is a finite number between
    -1 and 1; the row of position 0 holds 0 in the even and 1 in the odd
    columns. *)
Theorem positional_encoding_entries_bounded :
  forall (d_model seq_len : Z) (dropout : Q) (m : PositionalEncoding.t) (pos j : nat),
    PositionalEncoding.init d_model seq_len dropout = Ok m ->
    pos < Z.to_nat seq_len -> j < Z.to_nat d_model ->
    (exists r, item (PositionalEncoding.pe m) [0; pos; j] = Fin r /\ (-1 <= r <= 1)%R) /\
    (pos = 0 ->
     item (PositionalEncoding.pe m) [0; pos; j] = Fin (if j mod 2 =? 0 then 0 else 1)).
Proof.
  intros d_model seq_len dropout m pos j Hinit Hpos Hj.
  apply init_ok_inv, table_ok_inv in Hinit as (Hs & Hd & _ & Hitem).
  rewrite (Hitem pos j Hpos Hj). cbv zeta.
  rewrite angle_divisor by lia. split.
  - destruct (j mod 2 =? 0); cbn [xsin xcos]; eexists; (split; [reflexivity|]).
    + apply SIN_bound.
    + apply COS_bound.
  - intros ->. cbn [INR]. unfold Rdiv. rewrite Rmult_0_l.
    destruct (j mod 2 =? 0); cbn [xsin xcos]; f_equal; [apply sin_0 | apply cos_0].
Qed.

Lemma positional_encoding_entries_bounded_witness :
  exists m, PositionalEncoding.init 4 3 0 = Ok m /\
    exists r, item (PositionalEncoding.pe m) [0; 1; 2] = Fin r /\ (-1 <= r <= 1)%R.
Proof.
  eexists. split; [reflexivity|].
  refine (proj1 (positional_encoding_entries_bounded 4 3 0 _ 1 2 eq_refl _ _));
    simpl; lia.
Defined.

(* ================================================================== *)
(** * Shapes through the model *)

(** ** Shapes through the layers *)

Lemma linear_typed (i o : nat) (l : Linear.t) (pre : list nat) (x : tensor xreal) :
  linear_shaped i o l -> float_tensor (pre ++ [i]) x ->
  exists y, Linear.forward l x = Ok y /\ float_tensor (pre ++ [o]) y.
Proof.
  intros (Hd & Hs) (Hxd & Hxs). unfold Linear.forward, linear.
  rewrite Hs, Hxs, rev_app_distr. cbn [rev app]. rewrite Hxd, Hd.
  cbn [dtype_eqb negb]. rewrite Nat.eqb_refl. cbn [negb].
  eexists. split; [reflexivity|].
  split; cbn [dtype_of shape]; [reflexivity | now rewrite rev_involutive].
Qed.

Lemma dropout_typed (d : Dropout.t) (sh : list nat) (x : tensor xreal) (g : generator) :
  float_tensor sh x ->
  exists y g', Dropout.forward d x g = Ok (y, g') /\ float_tensor sh y.
Proof.
  intros (Hd & Hs). unfold Dropout.forward.
  destruct (negb (Dropout.training d) || Qeq_bool (Dropout.p d) 0 || (numel (shape x) =? 0)).
  - eexists _, _. split; [reflexivity|]. now split.
  - destruct (Qeq_bool (Dropout.p d) 1).
    + eexists _, _. split; [reflexivity|]. now split.
    + eexists _, _. split; [reflexivity|]. now split.
Qed.

Lemma tensor_add_typed (sh : list nat) (x y : tensor xreal) :
  float_tensor sh x -> float_tensor sh y ->
  exists r, tensor_add x y = Ok r /\ float_tensor sh r.
Proof.
  intros (Hxd & Hxs) (Hyd & Hys). unfold tensor_add, map2.
  rewrite Hxs, Hys, broadcast_shapes_same, Hxd, Hyd. cbn [bind Monad_result].
  eexists. split; [reflexivity|]. now split.
Qed.

Lemma layer_norm_typed (n : LayerNormalization.t) (B T D : nat) (x : tensor xreal) :
  norm_shaped D n -> float_tensor [B; T; D] x ->
  exists y, LayerNormalization.forward n x = Ok y /\ float_tensor [B; T; D] y.
Proof.
  intros ((Had & Has) & (Hbd & Hbs)) (Hxd & Hxs).
  unfold LayerNormalization.forward, tensor_sub, tensor_div, tensor_mul, tensor_add, map2.
  cbn [shape mean_last var_last tmap add_scalar dtype_of]. rewrite Hxs.
  cbn [keepdim_shape removelast app]. rewrite broadcast_keepdim.
  cbn [bind Monad_result shape]. rewrite broadcast_keepdim.
  cbn [bind Monad_result shape]. rewrite Has, broadcast_vector_left.
  cbn [bind Monad_result shape]. rewrite Hbs, broadcast_vector_right.
  cbn [bind Monad_result dtype_of]. rewrite Hxd, Had, Hbd.
  eexists. split; [reflexivity|]. now split.
Qed.

Lemma residual_typed (rc : ResidualConnection.t) (B T D : nat) (x : tensor xreal)
    (sublayer : tensor xreal -> M (tensor xreal)) :
  norm_shaped D (ResidualConnection.norm rc) ->
  float_tensor [B; T; D] x ->
  (forall y g, float_tensor [B; T; D] y ->
     exists z g', sublayer y g = Ok (z, g') /\ float_tensor [B; T; D] z) ->
  forall g, exists r g',
    ResidualConnection.forward rc x sublayer g = Ok (r, g') /\ float_tensor [B; T; D] r.
Proof.
  intros Hn Hx Hsub g. unfold ResidualConnection.forward.
  destruct (layer_norm_typed _ _ _ _ _ Hn Hx) as (normed & En & Hnormed).
  destruct (Hsub normed g Hnormed) as (out & g1 & Eo & Hout).
  destruct (dropout_typed (ResidualConnection.dropout rc) _ out g1 Hout)
    as (dropped & g2 & Ed & Hdropped).
  destruct (tensor_add_typed _ _ _ Hx Hdropped) as (r & Er & Hr).
  exists r, g2. split; [|exact Hr].
  cbn [bind Monad_M]. unfold lift. rewrite En, Eo, Ed, Er. reflexivity.
Qed.

Lemma feed_forward_typed (m : FeedForwardBlock.t) (B T D : nat) (x : tensor xreal) g :
  feed_forward_shaped D m -> float_tensor [B; T; D] x ->
  exists y g', FeedForwardBlock.forward m x g = Ok (y, g') /\ float_tensor [B; T; D] y.
Proof.
  intros (dff & H1 & H2) Hx. unfold FeedForwardBlock.forward.
  destruct (linear_typed _ _ _ [B; T] x H1 Hx) as (a & Ea & Ha).
  assert (Hr : float_tensor ([B; T] ++ [dff]) (tmap (dtype_of a) xrelu a)).
  { destruct Ha as (Had & Has). split; assumption. }
  destruct (dropout_typed (FeedForwardBlock.dropout m) _ _ g Hr) as (dd & g1 & Ed & Hdd).
  destruct (linear_typed _ _ _ [B; T] dd H2 Hdd) as (y & Ey & Hy).
  exists y, g1. split; [|exact Hy].
  cbn [bind Monad_M]. unfold lift. rewrite Ea, Ed, Ey. reflexivity.
Qed.

(** ** Shapes through the attention blocks *)

Lemma split_heads_typed (B T H Dk : nat) (x : tensor xreal) :
  float_tensor [B; T; H * Dk] x ->
  exists s, split_heads (Z.of_nat B) (Z.of_nat T) (Z.of_nat H) (Z.of_nat Dk) x = Ok s /\
            float_tensor [B; H; T; Dk] s.
Proof.
  intros (Hd & Hs). rewrite (split_heads_ok B T H Dk x Hs).
  eexists. split; [reflexivity|]. now split.
Qed.

Lemma transpose_last_two {A} (t : tensor A) a b c d :
  shape t = [a; b; c; d] ->
  transpose (-2) (-1) t =
  Ok (Tensor (dtype_of t) [a; b; d; c] (fun idx => item t (swap 2 3 idx))).
Proof.
  intros H. unfold transpose, ndim. rewrite H. reflexivity.
Qed.

Lemma matmul_typed (B H n m p : nat) (x y : tensor xreal) :
  float_tensor [B; H; n; m] x -> float_tensor [B; H; m; p] y ->
  exists o, matmul x y = Ok o /\ float_tensor [B; H; n; p] o.
Proof.
  intros (Hxd & Hxs) (Hyd & Hys). unfold matmul. rewrite Hxs, Hys.
  cbn [rev app]. rewrite Hxd, Hyd. cbn [dtype_eqb negb].
  rewrite Nat.eqb_refl. cbn [negb].
  rewrite (broadcast_rev_same [H; B]). cbn [bind Monad_result].
  eexists. split; [reflexivity|]. now split.
Qed.

Lemma scores_typed (B H T S Dk : nat) (q k : tensor xreal) :
  float_tensor [B; H; T; Dk] q -> float_tensor [B; H; S; Dk] k ->
  exists kt s,
    transpose (-2) (-1) k = Ok kt /\ matmul q kt = Ok s /\ float_tensor [B; H; T; S] s.
Proof.
  intros Hq (Hkd & Hks).
  rewrite (transpose_last_two k _ _ _ _ Hks).
  destruct (matmul_typed B H T Dk S q
              (Tensor (dtype_of k) [B; H; Dk; S] (fun idx => item k (swap 2 3 idx))) Hq)
    as (s & Es & Hs); [now split|].
  eexists _, s. split; [reflexivity|]. now split.
Qed.

Lemma math_sqrt_nat (n : nat) : math_sqrt (Z.of_nat n) = Ok (Fin (sqrt (IZR (Z.of_nat n)))).
Proof.
  unfold math_sqrt. destruct (Z.ltb_spec (Z.of_nat n) 0) as [|_]; [lia|reflexivity].
Qed.

Lemma attn_mask_typed (m : SparseMultiHeadAttentionBlock.t) (B T d h : nat)
    (mask : option (tensor bool)) :
  sparse_shaped d h m -> mask_fits B T T mask ->
  exists am, SparseMultiHeadAttentionBlock.attn_mask m B T mask = Ok am /\
             shape am = [B; h; T; T].
Proof.
  intros (Hh & _ & Eh & _) Hm.
  assert (Hh0 : (0 <= SparseMultiHeadAttentionBlock.h m)%Z) by lia.
  assert (Eh' : Z.to_nat (SparseMultiHeadAttentionBlock.h m) = h) by lia.
  destruct mask as [mask|].
  - destruct Hm as (R & Hs & HR).
    destruct (attn_mask_total m B T R mask Hh0 Hs HR) as (am & Eam).
    exists am. split; [exact Eam|].
    apply (attn_mask_some m B T mask am Hh0) in Eam as (Hsh & _). now rewrite Hsh, Eh'.
  - unfold SparseMultiHeadAttentionBlock.attn_mask.
    destruct (build_sparse_mask_ok m T B Hh0) as (am & Eam). rewrite Eam.
    exists am. split; [reflexivity|].
    apply build_sparse_mask_ok_inv in Eam as (H' & Hsh & HH & _).
    now rewrite Hsh, (HH Hh0), Eh'.
Qed.

Lemma sparse_masked_scores_typed (m : SparseMultiHeadAttentionBlock.t)
    (B H T Dk : nat) (q k : tensor xreal) (mask : tensor bool) :
  SparseMultiHeadAttentionBlock.d_k m = Z.of_nat Dk ->
  float_tensor [B; H; T; Dk] q -> float_tensor [B; H; T; Dk] k ->
  shape mask = [B; H; T; T] ->
  exists s, SparseMultiHeadAttentionBlock.masked_scores m q k mask = Ok s /\
            float_tensor [B; H; T; T] s.
Proof.
  intros Edk Hq Hk Hm. unfold SparseMultiHeadAttentionBlock.masked_scores.
  destruct (scores_typed B H T T Dk q k Hq Hk) as (kt & s & Ekt & Es & (Hsd & Hss)).
  rewrite Ekt. cbn [bind Monad_result]. rewrite Es. cbn [bind Monad_result].
  rewrite Edk, math_sqrt_nat. cbn [bind Monad_result].
  unfold masked_fill, map2. cbn [shape div_scalar tmap tensor_not dtype_of].
  assert (Hm' : shape (if dtype_eqb (dtype_of mask) bool_ then mask else to_bool mask)
                = [B; H; T; T]).
  { destruct (dtype_eqb (dtype_of mask) bool_); [exact Hm|exact Hm]. }
  rewrite Hm', Hss, broadcast_shapes_same. cbn [bind Monad_result].
  eexists. split; [reflexivity|]. split; [exact Hsd|reflexivity].
Qed.

Lemma softmax_typed (sh : list nat) (x : tensor xreal) :
  float_tensor sh x -> float_tensor sh (softmax x).
Proof. intros (Hd & Hs). split; assumption. Qed.

Lemma sparse_forward_typed (m : SparseMultiHeadAttentionBlock.t) (B T d h : nat)
    (x k v : tensor xreal) (mask : option (tensor bool)) (g : generator) :
  sparse_shaped d h m -> float_tensor [B; T; d] x -> mask_fits B T T mask ->
  exists y g',
    SparseMultiHeadAttentionBlock.forward m x k v mask g = Ok (y, g') /\
    float_tensor [B; T; d] y.
Proof.
  intros Hm Hx Hmask.
  destruct (attn_mask_typed m B T d h mask Hm Hmask) as (am & Eam & Ham).
  destruct Hm as (Hh & Hmod & Eh & Edk & Hwq & Hwk & Hwv & Hwo).
  destruct (exact_division d h ltac:(lia) Hmod) as (Ed & _).
  remember (d / h) as Dk eqn:EDk. clear EDk Hmod. subst d.
  unfold SparseMultiHeadAttentionBlock.forward.
  cbn [bind Monad_M]. unfold lift at 1. rewrite (proj2 Hx). cbn [unpack3].
  (* queries, keys and values *)
  unfold SparseMultiHeadAttentionBlock.compute_qkv. rewrite (proj2 Hx). cbn [unpack3].
  cbn [bind Monad_result]. rewrite Eh, Edk.
  destruct (linear_typed _ _ _ [B; T] x Hwq Hx) as (xq & Exq & Hxq).
  destruct (split_heads_typed B T h Dk xq Hxq) as (q & Eq & Hq).
  destruct (linear_typed _ _ _ [B; T] x Hwk Hx) as (xk & Exk & Hxk).
  destruct (split_heads_typed B T h Dk xk Hxk) as (k' & Ek & Hk).
  destruct (linear_typed _ _ _ [B; T] x Hwv Hx) as (xv & Exv & Hxv).
  destruct (split_heads_typed B T h Dk xv Hxv) as (v' & Ev & Hv).
  unfold lift at 1. rewrite Exq. cbn [bind Monad_result]. rewrite Eq.
  cbn [bind Monad_result]. rewrite Exk. cbn [bind Monad_result]. rewrite Ek.
  cbn [bind Monad_result]. rewrite Exv. cbn [bind Monad_result]. rewrite Ev.
  cbn [bind Monad_result].
  (* the mask *)
  unfold lift at 1. rewrite Eam.
  (* the attention *)
  unfold SparseMultiHeadAttentionBlock.compute_attention. cbn [bind Monad_M].
  destruct (sparse_masked_scores_typed m B h T Dk q k' am Edk Hq Hk Ham) as (s & Es & Hs).
  unfold lift at 1. rewrite Es.
  destruct (dropout_typed (SparseMultiHeadAttentionBlock.dropout m) _ _ g
              (softmax_typed _ _ Hs)) as (w & g1 & Ew & Hw).
  rewrite Ew.
  destruct (matmul_typed B h T T Dk w v' Hw Hv) as (o & Eo & (Hod & Hos)).
  unfold lift at 1. rewrite Eo.
  (* merging the heads *)
  unfold SparseMultiHeadAttentionBlock.output_projection.
  rewrite (sparse_merge_ok B h T Dk o Hos). cbn [bind Monad_result].
  match goal with
  | |- context [Linear.forward _ ?t] =>
      destruct (linear_typed _ _ _ [B; T] t Hwo) as (y & Ey & Hy); [now split|]
  end.
  unfold lift. rewrite Ey. exists y, g1. split; [reflexivity|exact Hy].
Qed.

Lemma dense_masked_scores_typed (B H T S Dk : nat) (q k : tensor xreal)
    (mask : option (tensor bool)) :
  float_tensor [B; H; T; Dk] q -> float_tensor [B; H; S; Dk] k ->
  mask_fits B T S mask ->
  exists s, MultiHeadAttentionBlock.masked_scores q k mask = Ok s /\
            float_tensor [B; H; T; S] s.
Proof.
  intros Hq Hk Hm. unfold MultiHeadAttentionBlock.masked_scores.
  rewrite (proj2 Hq). cbn [rev app bind Monad_result].
  destruct (scores_typed B H T S Dk q k Hq Hk) as (kt & s & Ekt & Es & (Hsd & Hss)).
  rewrite Ekt. cbn [bind Monad_result]. rewrite Es. cbn [bind Monad_result].
  rewrite math_sqrt_nat. cbn [bind Monad_result].
  destruct mask as [mask|].
  - destruct Hm as (R & Hms & HR).
    cbn [div_scalar tmap dtype_of]. rewrite Hsd. cbn [finfo_min float_format bind Monad_result].
    unfold masked_fill_, expand.
    change (shape (div_scalar s (Fin (sqrt (IZR (Z.of_nat Dk)))))) with (shape s).
    change (dtype_of (div_scalar s (Fin (sqrt (IZR (Z.of_nat Dk)))))) with (dtype_of s).
    cbn [shape tensor_not tmap]. rewrite Hss, Hms, Hsd.
    cbn [map rev app]. rewrite !expand_rev_cons. cbn [expand_rev bind Monad_result].
    rewrite !Nat.eqb_refl, !orb_true_r. cbn [orb bind Monad_result].
    replace ((T =? R) || (R =? 1)) with true
      by (symmetry; apply orb_true_iff; destruct HR as [->| ->];
          [right | left]; apply Nat.eqb_refl).
    cbn [bind Monad_result].
    eexists. split; [reflexivity|]. split; reflexivity.
  - eexists. split; [reflexivity|]. split; [exact Hsd|exact Hss].
Qed.

Lemma dense_forward_typed (m : MultiHeadAttentionBlock.t) (B T S d h : nat)
    (q k v : tensor xreal) (mask : option (tensor bool)) (g : generator) :
  dense_shaped d h m -> 0 < B -> 0 < d ->
  float_tensor [B; T; d] q -> float_tensor [B; S; d] k -> float_tensor [B; S; d] v ->
  mask_fits B T S mask ->
  exists y g',
    MultiHeadAttentionBlock.forward m q k v mask g = Ok (y, g') /\
    float_tensor [B; T; d] y.
Proof.
  intros Hm HB Hd Hq Hk Hv Hmask.
  destruct Hm as (Hh & Hmod & Eh & Edk & Hwq & Hwk & Hwv & Hwo).
  destruct (exact_division d h ltac:(lia) Hmod) as (Ed & _).
  remember (d / h) as Dk eqn:EDk. clear EDk Hmod. subst d.
  unfold MultiHeadAttentionBlock.forward. cbn [bind Monad_M].
  destruct (linear_typed _ _ _ [B; T] q Hwq Hq) as (xq & Exq & Hxq).
  destruct (linear_typed _ _ _ [B; S] k Hwk Hk) as (xk & Exk & Hxk).
  destruct (linear_typed _ _ _ [B; S] v Hwv Hv) as (xv & Exv & Hxv).
  unfold lift at 1. rewrite Exq. unfold lift at 1. rewrite Exk.
  unfold lift at 1. rewrite Exv.
  rewrite (dense_split_ok m B T h Dk xq Eh Edk (proj2 Hxq)).
  rewrite (dense_split_ok m B S h Dk xk Eh Edk (proj2 Hxk)).
  rewrite (dense_split_ok m B S h Dk xv Eh Edk (proj2 Hxv)).
  unfold lift at 1 2 3.
  unfold MultiHeadAttentionBlock.attention. cbn [bind Monad_M].
  match goal with
  | |- context [MultiHeadAttentionBlock.masked_scores ?a ?b mask] =>
      destruct (dense_masked_scores_typed B h T S Dk a b mask) as (s & Es & Hs);
        [split; [exact (proj1 Hxq)|reflexivity]
        |split; [exact (proj1 Hxk)|reflexivity]
        |exact Hmask|]
  end.
  unfold lift at 1. rewrite Es.
  destruct (dropout_typed (MultiHeadAttentionBlock.dropout m) _ _ g
              (softmax_typed _ _ Hs)) as (w & g1 & Ew & Hw).
  rewrite Ew.
  match goal with
  | |- context [matmul w ?val] =>
      destruct (matmul_typed B h T S Dk w val Hw) as (o & Eo & (Hod & Hos));
        [split; [exact (proj1 Hxv)|reflexivity]|]
  end.
  unfold lift at 1. rewrite Eo. cbn [ret Monad_M].
  rewrite (dense_merge_ok m B h T Dk o Eh Edk Hos) by lia.
  unfold lift at 1.
  match goal with
  | |- context [Linear.forward _ ?t] =>
      destruct (linear_typed _ _ _ [B; T] t Hwo) as (y & Ey & Hy); [now split|]
  end.
  unfold lift. rewrite Ey. exists y, g1. split; [reflexivity|exact Hy].
Qed.

(** ** Shapes through the blocks, the stacks and the model *)

Lemma encoder_block_typed (b : EncoderBlock.t) (B T d h : nat) (x : tensor xreal)
    (mask : option (tensor bool)) (g : generator) :
  encoder_block_shaped d h b -> float_tensor [B; T; d] x -> mask_fits B T T mask ->
  exists y g', EncoderBlock.forward b x mask g = Ok (y, g') /\ float_tensor [B; T; d] y.
Proof.
  intros (Hsa & Hff & (Hlen & Hrcs)) Hx Hmask. unfold EncoderBlock.forward.
  destruct (EncoderBlock.residual_connections b) as [|rc0 [|rc1 [|? ?]]];
    try discriminate Hlen.
  inversion Hrcs as [|? ? H0 Hrcs']; subst. inversion Hrcs' as [|? ? H1 _]; subst.
  cbn [bind Monad_M module_at nth_error lift].
  destruct (residual_typed rc0 B T d x
              (fun x => SparseMultiHeadAttentionBlock.forward
                          (EncoderBlock.self_attention_block b) x x x mask) H0 Hx)
    with (g := g) as (x1 & g1 & E1 & Hx1).
  { intros y g0 Hy. now apply (sparse_forward_typed _ B T d h). }
  rewrite E1.
  destruct (residual_typed rc1 B T d x1
              (FeedForwardBlock.forward (EncoderBlock.feed_forward_block b)) H1 Hx1)
    with (g := g1) as (x2 & g2 & E2 & Hx2).
  { intros y g0 Hy. now apply feed_forward_typed. }
  rewrite E2. exists x2, g2. split; [reflexivity|exact Hx2].
Qed.

Lemma encoder_layers_typed (B T d h : nat) (mask : option (tensor bool)) :
  mask_fits B T T mask ->
  forall (layers : list EncoderBlock.t) (x : tensor xreal) (g : generator),
    Forall (encoder_block_shaped d h) layers -> float_tensor [B; T; d] x ->
    exists y g', Encoder.run_layers layers x mask g = Ok (y, g') /\
                 float_tensor [B; T; d] y.
Proof.
  intros Hmask. induction layers as [|b layers IH]; intros x g Hl Hx.
  - exists x, g. split; [reflexivity|exact Hx].
  - inversion Hl as [|? ? Hb Hl']; subst. cbn [Encoder.run_layers bind Monad_M].
    destruct (encoder_block_typed b B T d h x mask g Hb Hx Hmask) as (x1 & g1 & E1 & Hx1).
    rewrite E1. now apply IH.
Qed.

Lemma encoder_typed (m : Encoder.t) (B T d h : nat) (x : tensor xreal)
    (mask : option (tensor bool)) (g : generator) :
  Forall (encoder_block_shaped d h) (Encoder.layers m) -> norm_shaped d (Encoder.norm m) ->
  float_tensor [B; T; d] x -> mask_fits B T T mask ->
  exists y g', Encoder.forward m x mask g = Ok (y, g') /\ float_tensor [B; T; d] y.
Proof.
  intros Hl Hn Hx Hmask. unfold Encoder.forward. cbn [bind Monad_M].
  destruct (encoder_layers_typed B T d h mask Hmask _ x g Hl Hx) as (x1 & g1 & E1 & Hx1).
  rewrite E1.
  destruct (layer_norm_typed _ _ _ _ _ Hn Hx1) as (y & Ey & Hy).
  unfold lift. rewrite Ey. exists y, g1. split; [reflexivity|exact Hy].
Qed.

Lemma decoder_block_typed (b : DecoderBlock.t) (B T S d h : nat)
    (x enc : tensor xreal) (src_mask tgt_mask : option (tensor bool)) (g : generator) :
  decoder_block_shaped d h b -> 0 < B -> 0 < d ->
  float_tensor [B; T; d] x -> float_tensor [B; S; d] enc ->
  mask_fits B T S src_mask -> mask_fits B T T tgt_mask ->
  exists y g',
    DecoderBlock.forward b x enc src_mask tgt_mask g = Ok (y, g') /\
    float_tensor [B; T; d] y.
Proof.
  intros (Hsa & Hca & Hff & (Hlen & Hrcs)) HB Hd Hx Henc Hsrc Htgt.
  unfold DecoderBlock.forward.
  destruct (DecoderBlock.residual_connection b) as [|rc0 [|rc1 [|rc2 [|? ?]]]];
    try discriminate Hlen.
  inversion Hrcs as [|? ? H0 Hrcs']; subst. inversion Hrcs' as [|? ? H1 Hrcs'']; subst.
  inversion Hrcs'' as [|? ? H2 _]; subst.
  cbn [bind Monad_M module_at nth_error lift].
  destruct (residual_typed rc0 B T d x
              (fun x => SparseMultiHeadAttentionBlock.forward
                          (DecoderBlock.self_attention_block b) x x x tgt_mask) H0 Hx)
    with (g := g) as (x1 & g1 & E1 & Hx1).
  { intros y g0 Hy. now apply (sparse_forward_typed _ B T d h). }
  rewrite E1.
  destruct (residual_typed rc1 B T d x1
              (fun x => MultiHeadAttentionBlock.forward
                          (DecoderBlock.cross_attention_block b) x enc enc src_mask) H1 Hx1)
    with (g := g1) as (x2 & g2 & E2 & Hx2).
  { intros y g0 Hy. now apply (dense_forward_typed _ B T S d h). }
  rewrite E2.
  destruct (residual_typed rc2 B T d x2
              (FeedForwardBlock.forward (DecoderBlock.feed_forward_block b)) H2 Hx2)
    with (g := g2) as (x3 & g3 & E3 & Hx3).
  { intros y g0 Hy. now apply feed_forward_typed. }
  rewrite E3. exists x3, g3. split; [reflexivity|exact Hx3].
Qed.

Lemma decoder_layers_typed (B T S d h : nat) (enc : tensor xreal)
    (src_mask tgt_mask : option (tensor bool)) :
  0 < B -> 0 < d -> float_tensor [B; S; d] enc ->
  mask_fits B T S src_mask -> mask_fits B T T tgt_mask ->
  forall (layers : list DecoderBlock.t) (x : tensor xreal) (g : generator),
    Forall (decoder_block_shaped d h) layers -> float_tensor [B; T; d] x ->
    exists y g', Decoder.run_layers layers x enc src_mask tgt_mask g = Ok (y, g') /\
                 float_tensor [B; T; d] y.
Proof.
  intros HB Hd Henc Hsrc Htgt. induction layers as [|b layers IH]; intros x g Hl Hx.
  - exists x, g. split; [reflexivity|exact Hx].
  - inversion Hl as [|? ? Hb Hl']; subst. cbn [Decoder.run_layers bind Monad_M].
    destruct (decoder_block_typed b B T S d h x enc src_mask tgt_mask g
                Hb HB Hd Hx Henc Hsrc Htgt) as (x1 & g1 & E1 & Hx1).
    rewrite E1. now apply IH.
Qed.

Lemma decoder_typed (m : Decoder.t) (B T S d h : nat) (x enc : tensor xreal)
    (src_mask tgt_mask : option (tensor bool)) (g : generator) :
  Forall (decoder_block_shaped d h) (Decoder.layers m) -> norm_shaped d (Decoder.norm m) ->
  0 < B -> 0 < d -> float_tensor [B; T; d] x -> float_tensor [B; S; d] enc ->
  mask_fits B T S src_mask -> mask_fits B T T tgt_mask ->
  exists y g', Decoder.forward m x enc src_mask tgt_mask g = Ok (y, g') /\
               float_tensor [B; T; d] y.
Proof.
  intros Hl Hn HB Hd Hx Henc Hsrc Htgt. unfold Decoder.forward. cbn [bind Monad_M].
  destruct (decoder_layers_typed B T S d h enc src_mask tgt_mask HB Hd Henc Hsrc Htgt
              _ x g Hl Hx) as (x1 & g1 & E1 & Hx1).
  rewrite E1.
  destruct (layer_norm_typed _ _ _ _ _ Hn Hx1) as (y & Ey & Hy).
  unfold lift. rewrite Ey. exists y, g1. split; [reflexivity|exact Hy].
Qed.

Lemma embeddings_typed (m : InputEmbeddings.t) (B T vocab d : nat) (x : tensor Z) :
  embeddings_shaped vocab d m -> tokens B T vocab x ->
  exists y, InputEmbeddings.forward m x = Ok y /\ float_tensor [B; T; d] y.
Proof.
  intros (Ed & (Hwd & Hws)) (Hx & Hrange).
  unfold InputEmbeddings.forward, Embedding.forward. rewrite Hws, Hx, Ed.
  replace (forallb _ (indices [B; T])) with true.
  - cbn [bind Monad_result]. rewrite math_sqrt_nat.
    eexists. split; [reflexivity|]. split; [exact Hwd|reflexivity].
  - symmetry. apply forallb_forall. intros idx Hin. apply indices_in_bounds in Hin.
    inversion Hin as [|b ? r1 ? Hb Hr1]; subst.
    inversion Hr1 as [|t ? r2 ? Ht Hr2]; subst. inversion Hr2; subst.
    specialize (Hrange b t Hb Ht). apply andb_true_iff. split.
    + apply Z.leb_le. lia.
    + apply Z.ltb_lt. lia.
Qed.

Lemma positions_typed (m : PositionalEncoding.t) (B T L d : nat) (x : tensor xreal)
    (g : generator) :
  float_tensor [1; L; d] (PositionalEncoding.pe m) -> float_tensor [B; T; d] x -> T <= L ->
  exists y g', PositionalEncoding.forward m x g = Ok (y, g') /\ float_tensor [B; T; d] y.
Proof.
  intros (Hpd & Hps) (Hxd & Hxs) HT.
  unfold PositionalEncoding.forward, PositionalEncoding.add_positions, shape_at, slice_to.
  rewrite Hxs, Hps. cbn [nth_error bind Monad_result set_nth].
  rewrite Nat.min_l by exact HT.
  unfold tensor_add, map2. cbn [shape dtype_of item]. rewrite Hxs, broadcast_batch_row.
  cbn [bind Monad_result Monad_M lift]. rewrite Hxd, Hpd.
  apply dropout_typed. split; reflexivity.
Qed.

Lemma transformer_typed (m : Transformer.t) (sv tv sl tl d h B S T : nat)
    (encoder_input decoder_input : tensor Z)
    (encoder_mask decoder_mask : option (tensor bool)) (g : generator) :
  transformer_shaped sv tv sl tl d h m ->
  0 < B -> 0 < d -> S <= sl -> T <= tl ->
  tokens B S sv encoder_input -> tokens B T tv decoder_input ->
  mask_fits B S S encoder_mask -> mask_fits B T S encoder_mask ->
  mask_fits B T T decoder_mask ->
  exists out g',
    Transformer.forward m encoder_input decoder_input encoder_mask decoder_mask g
    = Ok (out, g') /\
    float_tensor [B; T; tv] out.
Proof.
  intros (Hel & Hen & Hdl & Hdn & Hse & Hte & Hsp & Htp & Hpl) HB Hd HS HT
    Hein Hdin Hm1 Hm2 Hm3.
  unfold Transformer.forward. cbn [bind Monad_M].
  destruct (embeddings_typed _ _ _ _ _ _ Hse Hein) as (src & Esrc & Hsrc).
  unfold lift at 1. rewrite Esrc.
  destruct (positions_typed _ B S sl d src g Hsp Hsrc HS) as (src1 & g1 & Esrc1 & Hsrc1).
  rewrite Esrc1.
  destruct (encoder_typed _ B S d h src1 encoder_mask g1 Hel Hen Hsrc1 Hm1)
    as (enc & g2 & Eenc & Henc).
  rewrite Eenc.
  destruct (embeddings_typed _ _ _ _ _ _ Hte Hdin) as (tgt & Etgt & Htgt).
  unfold lift at 1. rewrite Etgt.
  destruct (positions_typed _ B T tl d tgt g2 Htp Htgt HT) as (tgt1 & g3 & Etgt1 & Htgt1).
  rewrite Etgt1.
  destruct (decoder_typed _ B T S d h tgt1 enc encoder_mask decoder_mask g3
              Hdl Hdn HB Hd Htgt1 Henc Hm2 Hm3) as (dec & g4 & Edec & Hdec).
  rewrite Edec.
  destruct (linear_typed _ _ _ [B; T] dec Hpl Hdec) as (out & Eout & Hout).
  unfold ProjectionLayer.forward, lift. rewrite Eout.
  exists out, g4. split; [reflexivity|exact Hout].
Qed.

(** ** What construction establishes *)

Lemma uniform_typed (sh : list nat) (t r : tensor xreal) a b g g' :
  uniform_ t a b g = Ok (r, g') -> float_tensor sh t -> float_tensor sh r.
Proof.
  unfold uniform_, rand. cbn [bind ret Monad_M]. intros H (Hd & Hs).
  apply Ok_inj in H. injection H as <- _. split; assumption.
Qed.

Lemma linear_init_shaped i o b g l g' :
  Linear.init i o b g = Ok (l, g') ->
  (0 <= i)%Z /\ (0 <= o)%Z /\ linear_shaped (Z.to_nat i) (Z.to_nat o) l.
Proof.
  intros H. pose proof (linear_init_ok_inv _ _ _ _ _ _ H) as (Ho & Hi).
  split; [exact Hi|]. split; [exact Ho|].
  unfold Linear.init in H.
  apply bindM_ok_inv in H as (w0 & g0 & Hz & H).
  apply lift_ok_inv in Hz as (Hz & ->). apply full_ok_inv in Hz as (_ & ->).
  apply bindM_ok_inv in H as (w & g1 & Hw & H).
  apply uniform_typed with (sh := [Z.to_nat o; Z.to_nat i]) in Hw; [|split; reflexivity].
  destruct b.
  - apply bindM_ok_inv in H as (b0 & g2 & _ & H).
    apply bindM_ok_inv in H as (b1 & g3 & _ & H).
    cbn [ret Monad_M] in H. apply Ok_inj in H. injection H as <- _. exact Hw.
  - cbn [ret Monad_M] in H. apply Ok_inj in H. injection H as <- _. exact Hw.
Qed.

Lemma xavier_uniform_typed (sh : list nat) (w r : tensor xreal) g g' :
  xavier_uniform_ w g = Ok (r, g') -> float_tensor sh w -> float_tensor sh r.
Proof.
  unfold xavier_uniform_. intros H Hw.
  destruct (shape w) as [|fo [|fi [|? ?]]]; try discriminate H.
  destruct (fi + fo =? 0); [discriminate H|].
  now apply (uniform_typed sh) in H.
Qed.

Lemma linear_xavier_shaped i o l l' g g' :
  Linear.xavier l g = Ok (l', g') -> linear_shaped i o l -> linear_shaped i o l'.
Proof.
  unfold Linear.xavier. intros H Hl.
  apply bindM_ok_inv in H as (w & g1 & Hw & H).
  cbn [ret Monad_M] in H. apply Ok_inj in H. injection H as <- _.
  now apply (xavier_uniform_typed _ _ _ _ _ Hw).
Qed.

Lemma heads_divide (d h : Z) :
  (0 <= d)%Z -> (0 < h)%Z -> (d mod h = 0)%Z ->
  Z.to_nat d mod Z.to_nat h = 0 /\ (d / h)%Z = Z.of_nat (Z.to_nat d / Z.to_nat h).
Proof.
  intros Hd Hh Hm. split.
  - apply Nat2Z.inj. rewrite Nat2Z.inj_mod, !Z2Nat.id by lia. exact Hm.
  - rewrite Nat2Z.inj_div, !Z2Nat.id by lia. reflexivity.
Qed.

Lemma sparse_init_shaped d h p bs st c g m g' :
  SparseMultiHeadAttentionBlock.init d h p bs st c g = Ok (m, g') -> (0 < h)%Z ->
  sparse_shaped (Z.to_nat d) (Z.to_nat h) m /\
  SparseMultiHeadAttentionBlock.block_size m = bs /\
  SparseMultiHeadAttentionBlock.stride m = st /\
  SparseMultiHeadAttentionBlock.causal m = c.
Proof.
  unfold SparseMultiHeadAttentionBlock.init.
  destruct (Z.eqb_spec h 0) as [|Hh]; [discriminate|].
  destruct (Z.eqb_spec (d mod h) 0) as [Hm|]; [|discriminate].
  cbn [negb]. intros H Hpos.
  apply bindM_ok_inv in H as (wq & g1 & Hq & H).
  apply linear_init_shaped in Hq as (Hd & _ & Hq).
  apply bindM_ok_inv in H as (wk & g2 & Hk & H). apply linear_init_shaped in Hk as (_ & _ & Hk).
  apply bindM_ok_inv in H as (wv & g3 & Hv & H). apply linear_init_shaped in Hv as (_ & _ & Hv).
  apply bindM_ok_inv in H as (wo & g4 & Ho & H). apply linear_init_shaped in Ho as (_ & _ & Ho).
  apply bindM_ok_inv in H as (dr & g5 & _ & H).
  cbn [ret Monad_M] in H. apply Ok_inj in H. injection H as <- _.
  destruct (heads_divide d h Hd Hpos Hm) as (Hmod & Hdiv).
  split; [|repeat split]. unfold sparse_shaped.
  cbn [SparseMultiHeadAttentionBlock.h SparseMultiHeadAttentionBlock.d_k
       SparseMultiHeadAttentionBlock.w_q SparseMultiHeadAttentionBlock.w_k
       SparseMultiHeadAttentionBlock.w_v SparseMultiHeadAttentionBlock.w_o].
  split; [lia|]. split; [exact Hmod|]. split; [lia|]. split; [exact Hdiv|]. auto.
Qed.

Lemma dense_init_shaped d h p g m g' :
  MultiHeadAttentionBlock.init d h p g = Ok (m, g') -> (0 < h)%Z ->
  dense_shaped (Z.to_nat d) (Z.to_nat h) m.
Proof.
  unfold MultiHeadAttentionBlock.init.
  destruct (Z.eqb_spec h 0) as [|Hh]; [discriminate|].
  destruct (Z.eqb_spec (d mod h) 0) as [Hm|]; [|discriminate].
  cbn [negb]. intros H Hpos.
  apply bindM_ok_inv in H as (wq & g1 & Hq & H).
  apply linear_init_shaped in Hq as (Hd & _ & Hq).
  apply bindM_ok_inv in H as (wk & g2 & Hk & H). apply linear_init_shaped in Hk as (_ & _ & Hk).
  apply bindM_ok_inv in H as (wv & g3 & Hv & H). apply linear_init_shaped in Hv as (_ & _ & Hv).
  apply bindM_ok_inv in H as (wo & g4 & Ho & H). apply linear_init_shaped in Ho as (_ & _ & Ho).
  apply bindM_ok_inv in H as (dr & g5 & _ & H).
  cbn [ret Monad_M] in H. apply Ok_inj in H. injection H as <- _.
  destruct (heads_divide d h Hd Hpos Hm) as (Hmod & Hdiv).
  unfold dense_shaped.
  cbn [MultiHeadAttentionBlock.h MultiHeadAttentionBlock.d_k
       MultiHeadAttentionBlock.w_q MultiHeadAttentionBlock.w_k
       MultiHeadAttentionBlock.w_v MultiHeadAttentionBlock.w_o].
  split; [lia|]. split; [exact Hmod|]. split; [lia|]. split; [exact Hdiv|]. auto.
Qed.

Lemma feed_forward_init_shaped d dff p g m g' :
  FeedForwardBlock.init d dff p g = Ok (m, g') -> feed_forward_shaped (Z.to_nat d) m.
Proof.
  unfold FeedForwardBlock.init. intros H.
  apply bindM_ok_inv in H as (l1 & g1 & H1 & H). apply linear_init_shaped in H1 as (_ & _ & H1).
  apply bindM_ok_inv in H as (dr & g2 & _ & H).
  apply bindM_ok_inv in H as (l2 & g3 & H2 & H). apply linear_init_shaped in H2 as (_ & _ & H2).
  cbn [ret Monad_M] in H. apply Ok_inj in H. injection H as <- _.
  exists (Z.to_nat dff). split; assumption.
Qed.

Lemma norm_init_shaped d n :
  LayerNormalization.init d = Ok n -> norm_shaped (Z.to_nat d) n.
Proof.
  unfold LayerNormalization.init, ones, zeros. intros H.
  apply bind_ok_inv in H as (a & Ha & H). apply full_ok_inv in Ha as (_ & ->).
  apply bind_ok_inv in H as (b & Hb & H). apply full_ok_inv in Hb as (_ & ->).
  apply Ok_inj in H. subst n. repeat split.
Qed.

Lemma residual_list_shaped n d p rcs :
  residual_list n d p = Ok rcs -> residuals_shaped (Z.to_nat d) n rcs.
Proof.
  intros H. split; [now apply residual_list_length in H|].
  revert rcs H. induction n as [|n IH]; intros rcs H; cbn [residual_list] in H.
  - apply Ok_inj in H. subst. constructor.
  - apply bind_ok_inv in H as (r & Hr & H). apply bind_ok_inv in H as (rest & Hrest & H).
    apply Ok_inj in H. subst. constructor; [|now apply IH].
    unfold ResidualConnection.init in Hr.
    apply bind_ok_inv in Hr as (dr & _ & Hr). apply bind_ok_inv in Hr as (nm & Hn & Hr).
    apply Ok_inj in Hr. subst r. now apply norm_init_shaped.
Qed.

Lemma encoder_block_built d h dff p bs st g b g' :
  encoder_block d h dff p bs st g = Ok (b, g') -> (0 < h)%Z ->
  encoder_block_shaped (Z.to_nat d) (Z.to_nat h) b /\
  SparseMultiHeadAttentionBlock.block_size (EncoderBlock.self_attention_block b) = bs /\
  SparseMultiHeadAttentionBlock.stride (EncoderBlock.self_attention_block b) = st /\
  SparseMultiHeadAttentionBlock.causal (EncoderBlock.self_attention_block b) = false.
Proof.
  unfold encoder_block. intros H Hh.
  apply bindM_ok_inv in H as (sa & g1 & Hsa & H).
  apply bindM_ok_inv in H as (ff & g2 & Hff & H).
  apply lift_ok_inv in H as (H & _). unfold EncoderBlock.init in H.
  apply bind_ok_inv in H as (rcs & Hrcs & H). apply Ok_inj in H. subst b.
  apply sparse_init_shaped in Hsa as (Hsa & Hbs & Hst & Hc); [|exact Hh].
  apply feed_forward_init_shaped in Hff. apply residual_list_shaped in Hrcs.
  split; [|auto]. repeat (split; [assumption|]). assumption.
Qed.

Lemma decoder_block_built d h dff p bs st g b g' :
  decoder_block d h dff p bs st g = Ok (b, g') -> (0 < h)%Z ->
  decoder_block_shaped (Z.to_nat d) (Z.to_nat h) b /\
  SparseMultiHeadAttentionBlock.block_size (DecoderBlock.self_attention_block b) = bs /\
  SparseMultiHeadAttentionBlock.stride (DecoderBlock.self_attention_block b) = st /\
  SparseMultiHeadAttentionBlock.causal (DecoderBlock.self_attention_block b) = true.
Proof.
  unfold decoder_block. intros H Hh.
  apply bindM_ok_inv in H as (sa & g1 & Hsa & H).
  apply bindM_ok_inv in H as (ca & g2 & Hca & H).
  apply bindM_ok_inv in H as (ff & g3 & Hff & H).
  apply lift_ok_inv in H as (H & _). unfold DecoderBlock.init in H.
  apply bind_ok_inv in H as (rcs & Hrcs & H). apply Ok_inj in H. subst b.
  apply sparse_init_shaped in Hsa as (Hsa & Hbs & Hst & Hc); [|exact Hh].
  apply dense_init_shaped in Hca; [|exact Hh].
  apply feed_forward_init_shaped in Hff. apply residual_list_shaped in Hrcs.
  split; [|auto]. repeat (split; [assumption|]). assumption.
Qed.

Lemma repeatM_Forall {A} (P : A -> Prop) (c : M A) :
  (forall g a g', c g = Ok (a, g') -> P a) ->
  forall n g l g', repeatM n c g = Ok (l, g') -> length l = n /\ Forall P l.
Proof.
  intros Hc. induction n as [|n IH]; intros g l g' H; cbn [repeatM] in H.
  - cbn [ret Monad_M] in H. apply Ok_inj in H. injection H as <- _.
    split; [reflexivity|constructor].
  - apply bindM_ok_inv in H as (a & g1 & Ha & H).
    apply bindM_ok_inv in H as (rest & g2 & Hrest & H).
    cbn [ret Monad_M] in H. apply Ok_inj in H. injection H as <- _.
    apply IH in Hrest as (Hlen & Hall). split; [cbn [length]; now f_equal|].
    constructor; [now apply (Hc g a g1)|exact Hall].
Qed.

Lemma mapM_Forall {A} (P : A -> Prop) (f : A -> M A) :
  (forall a g a' g', f a g = Ok (a', g') -> P a -> P a') ->
  forall l g l' g', mapM f l g = Ok (l', g') -> Forall P l ->
    length l' = length l /\ Forall P l'.
Proof.
  intros Hf. induction l as [|a l IH]; intros g l' g' H Hl; cbn [mapM] in H.
  - cbn [ret Monad_M] in H. apply Ok_inj in H. injection H as <- _.
    split; [reflexivity|constructor].
  - inversion Hl as [|? ? Ha Hl']; subst.
    apply bindM_ok_inv in H as (a' & g1 & Ha' & H).
    apply bindM_ok_inv in H as (rest & g2 & Hrest & H).
    cbn [ret Monad_M] in H. apply Ok_inj in H. injection H as <- _.
    apply IH in Hrest as (Hlen & Hall); [|exact Hl'].
    split; [cbn [length]; now f_equal|].
    constructor; [now apply (Hf a g a' g1)|exact Hall].
Qed.

Lemma sparse_xavier_shaped d h m m' g g' :
  SparseMultiHeadAttentionBlock.xavier m g = Ok (m', g') ->
  sparse_shaped d h m ->
  sparse_shaped d h m' /\
  SparseMultiHeadAttentionBlock.block_size m' = SparseMultiHeadAttentionBlock.block_size m /\
  SparseMultiHeadAttentionBlock.stride m' = SparseMultiHeadAttentionBlock.stride m /\
  SparseMultiHeadAttentionBlock.causal m' = SparseMultiHeadAttentionBlock.causal m.
Proof.
  unfold SparseMultiHeadAttentionBlock.xavier.
  intros H (Hh & Hmod & Eh & Edk & Hq & Hk & Hv & Ho).
  apply bindM_ok_inv in H as (wq & g1 & Hwq & H).
  apply bindM_ok_inv in H as (wk & g2 & Hwk & H).
  apply bindM_ok_inv in H as (wv & g3 & Hwv & H).
  apply bindM_ok_inv in H as (wo & g4 & Hwo & H).
  cbn [ret Monad_M] in H. apply Ok_inj in H. injection H as <- _.
  apply (linear_xavier_shaped d d) in Hwq; [|exact Hq].
  apply (linear_xavier_shaped d d) in Hwk; [|exact Hk].
  apply (linear_xavier_shaped d d) in Hwv; [|exact Hv].
  apply (linear_xavier_shaped d d) in Hwo; [|exact Ho].
  split; [|repeat split]. unfold sparse_shaped.
  cbn [SparseMultiHeadAttentionBlock.h SparseMultiHeadAttentionBlock.d_k
       SparseMultiHeadAttentionBlock.w_q SparseMultiHeadAttentionBlock.w_k
       SparseMultiHeadAttentionBlock.w_v SparseMultiHeadAttentionBlock.w_o].
  auto 10.
Qed.

Lemma dense_xavier_shaped d h m m' g g' :
  MultiHeadAttentionBlock.xavier m g = Ok (m', g') ->
  dense_shaped d h m -> dense_shaped d h m'.
Proof.
  unfold MultiHeadAttentionBlock.xavier.
  intros H (Hh & Hmod & Eh & Edk & Hq & Hk & Hv & Ho).
  apply bindM_ok_inv in H as (wq & g1 & Hwq & H).
  apply bindM_ok_inv in H as (wk & g2 & Hwk & H).
  apply bindM_ok_inv in H as (wv & g3 & Hwv & H).
  apply bindM_ok_inv in H as (wo & g4 & Hwo & H).
  cbn [ret Monad_M] in H. apply Ok_inj in H. injection H as <- _.
  apply (linear_xavier_shaped d d) in Hwq; [|exact Hq].
  apply (linear_xavier_shaped d d) in Hwk; [|exact Hk].
  apply (linear_xavier_shaped d d) in Hwv; [|exact Hv].
  apply (linear_xavier_shaped d d) in Hwo; [|exact Ho].
  unfold dense_shaped.
  cbn [MultiHeadAttentionBlock.h MultiHeadAttentionBlock.d_k
       MultiHeadAttentionBlock.w_q MultiHeadAttentionBlock.w_k
       MultiHeadAttentionBlock.w_v MultiHeadAttentionBlock.w_o].
  auto 10.
Qed.

Lemma feed_forward_xavier_shaped d m m' g g' :
  FeedForwardBlock.xavier m g = Ok (m', g') ->
  feed_forward_shaped d m -> feed_forward_shaped d m'.
Proof.
  unfold FeedForwardBlock.xavier. intros H (dff & H1 & H2).
  apply bindM_ok_inv in H as (l1 & g1 & Hl1 & H).
  apply bindM_ok_inv in H as (l2 & g2 & Hl2 & H).
  cbn [ret Monad_M] in H. apply Ok_inj in H. injection H as <- _.
  exists dff. split.
  - now apply (linear_xavier_shaped _ _ _ _ _ _ Hl1).
  - now apply (linear_xavier_shaped _ _ _ _ _ _ Hl2).
Qed.

(** What holds of every encoder block and of every decoder block of a
    model built with the given sizes and sparsity settings. *)
Lemma encoder_block_xavier_shaped d h bs st b b' g g' :
  EncoderBlock.xavier b g = Ok (b', g') ->
  encoder_block_shaped d h b /\
  SparseMultiHeadAttentionBlock.block_size (EncoderBlock.self_attention_block b) = bs /\
  SparseMultiHeadAttentionBlock.stride (EncoderBlock.self_attention_block b) = st /\
  SparseMultiHeadAttentionBlock.causal (EncoderBlock.self_attention_block b) = false ->
  encoder_block_shaped d h b' /\
  SparseMultiHeadAttentionBlock.block_size (EncoderBlock.self_attention_block b') = bs /\
  SparseMultiHeadAttentionBlock.stride (EncoderBlock.self_attention_block b') = st /\
  SparseMultiHeadAttentionBlock.causal (EncoderBlock.self_attention_block b') = false.
Proof.
  unfold EncoderBlock.xavier. intros H ((Hsa & Hff & Hrcs) & Hbs & Hst & Hc).
  apply bindM_ok_inv in H as (sa & g1 & Esa & H).
  apply bindM_ok_inv in H as (ff & g2 & Eff & H).
  cbn [ret Monad_M] in H. apply Ok_inj in H. injection H as <- _.
  apply (sparse_xavier_shaped d h) in Esa as (Hsa' & Ebs & Est & Ec); [|exact Hsa].
  apply (feed_forward_xavier_shaped d) in Eff; [|exact Hff].
  cbn [EncoderBlock.self_attention_block].
  split; [|split; [congruence|split; congruence]].
  split; [exact Hsa'|]. split; [exact Eff|exact Hrcs].
Qed.

Lemma decoder_block_xavier_shaped d h bs st b b' g g' :
  DecoderBlock.xavier b g = Ok (b', g') ->
  decoder_block_shaped d h b /\
  SparseMultiHeadAttentionBlock.block_size (DecoderBlock.self_attention_block b) = bs /\
  SparseMultiHeadAttentionBlock.stride (DecoderBlock.self_attention_block b) = st /\
  SparseMultiHeadAttentionBlock.causal (DecoderBlock.self_attention_block b) = true ->
  decoder_block_shaped d h b' /\
  SparseMultiHeadAttentionBlock.block_size (DecoderBlock.self_attention_block b') = bs /\
  SparseMultiHeadAttentionBlock.stride (DecoderBlock.self_attention_block b') = st /\
  SparseMultiHeadAttentionBlock.causal (DecoderBlock.self_attention_block b') = true.
Proof.
  unfold DecoderBlock.xavier. intros H ((Hsa & Hca & Hff & Hrcs) & Hbs & Hst & Hc).
  apply bindM_ok_inv in H as (sa & g1 & Esa & H).
  apply bindM_ok_inv in H as (ca & g2 & Eca & H).
  apply bindM_ok_inv in H as (ff & g3 & Eff & H).
  cbn [ret Monad_M] in H. apply Ok_inj in H. injection H as <- _.
  apply (sparse_xavier_shaped d h) in Esa as (Hsa' & Ebs & Est & Ec); [|exact Hsa].
  apply (dense_xavier_shaped d h) in Eca; [|exact Hca].
  apply (feed_forward_xavier_shaped d) in Eff; [|exact Hff].
  cbn [DecoderBlock.self_attention_block].
  split; [|split; [congruence|split; congruence]].
  split; [exact Hsa'|]. split; [exact Eca|]. split; [exact Eff|exact Hrcs].
Qed.

Lemma embeddings_init_shaped d vocab g m g' :
  InputEmbeddings.init d vocab g = Ok (m, g') ->
  (0 <= d)%Z /\ (0 <= vocab)%Z /\ embeddings_shaped (Z.to_nat vocab) (Z.to_nat d) m.
Proof.
  unfold InputEmbeddings.init, Embedding.init. intros H.
  apply bindM_ok_inv in H as (e & g1 & He & H).
  cbn [ret Monad_M] in H. apply Ok_inj in H. injection H as <- _.
  apply bindM_ok_inv in He as (w0 & g0 & Hz & He).
  apply lift_ok_inv in Hz as (Hz & ->). apply full_ok_inv in Hz as (Hs & ->).
  inversion Hs as [|? ? Hn Hs']; subst. inversion Hs' as [|? ? Hd _]; subst.
  cbn [bind ret Monad_M normal_ shape dtype_of] in He.
  apply Ok_inj in He. injection He as <- _.
  split; [exact Hd|]. split; [exact Hn|]. split.
  - cbn [InputEmbeddings.d_model]. lia.
  - split; reflexivity.
Qed.

Lemma embeddings_xavier_shaped vocab d m m' g g' :
  InputEmbeddings.xavier m g = Ok (m', g') ->
  embeddings_shaped vocab d m -> embeddings_shaped vocab d m'.
Proof.
  unfold InputEmbeddings.xavier, Embedding.xavier. intros H (Ed & Hw).
  apply bindM_ok_inv in H as (e & g1 & He & H).
  cbn [ret Monad_M] in H. apply Ok_inj in H. injection H as <- _.
  apply bindM_ok_inv in He as (w & g2 & Hw' & He).
  cbn [ret Monad_M] in He. apply Ok_inj in He. injection He as <- _.
  split; [exact Ed|]. now apply (xavier_uniform_typed _ _ _ _ _ Hw').
Qed.

Lemma table_dtype d_model seq_len pe :
  PositionalEncoding.table d_model seq_len = Ok pe -> dtype_of pe = float32.
Proof.
  unfold PositionalEncoding.table. intros H.
  apply bind_ok_inv in H as (pe0 & H0 & H). apply full_ok_inv in H0 as (_ & ->).
  apply bind_ok_inv in H as (ar & _ & H).
  apply bind_ok_inv in H as (position & _ & H).
  apply bind_ok_inv in H as (dt & _ & H).
  apply bind_ok_inv in H as (even & _ & H).
  apply bind_ok_inv in H as (pe1 & H1 & H).
  apply setitem_cols_ok_inv in H1 as (rows & cols & s1 & _ & _ & ->).
  apply bind_ok_inv in H as (odd & _ & H).
  apply bind_ok_inv in H as (pe2 & H2 & H).
  apply setitem_cols_ok_inv in H2 as (rows2 & cols2 & s2 & _ & _ & ->).
  apply unsqueeze_ok_inv in H as (_ & ->). reflexivity.
Qed.

Lemma positions_init_shaped d_model seq_len p m :
  PositionalEncoding.init d_model seq_len p = Ok m ->
  (0 < d_model)%Z /\
  float_tensor [1; Z.to_nat seq_len; Z.to_nat d_model] (PositionalEncoding.pe m).
Proof.
  intros H. pose proof (init_ok_inv _ _ _ _ H) as Ht.
  pose proof (table_ok_inv _ _ _ Ht) as (_ & Hd & Hs & _).
  split; [exact Hd|]. split; [now apply table_dtype in Ht|exact Hs].
Qed.

(** The model construction returns, when it returns, has parameters of the
    shapes the sizes announce, [N] encoder and [N] decoder blocks, and in
    every sparse block the sparsity settings as given: not causal in the
    encoder, causal in the decoder. *)
Lemma build_shaped sv tv sl tl d N h p dff bs st g m g' :
  build_sparse_transformer sv tv sl tl d N h p dff bs st g = Ok (m, g') -> (0 < h)%Z ->
  (0 < d)%Z /\
  transformer_shaped (Z.to_nat sv) (Z.to_nat tv) (Z.to_nat sl) (Z.to_nat tl)
    (Z.to_nat d) (Z.to_nat h) m /\
  length (Encoder.layers (Transformer.encoder m)) = Z.to_nat N /\
  length (Decoder.layers (Transformer.decoder m)) = Z.to_nat N /\
  Forall (fun b =>
            SparseMultiHeadAttentionBlock.block_size (EncoderBlock.self_attention_block b) = bs /\
            SparseMultiHeadAttentionBlock.stride (EncoderBlock.self_attention_block b) = st /\
            SparseMultiHeadAttentionBlock.causal (EncoderBlock.self_attention_block b) = false)
         (Encoder.layers (Transformer.encoder m)) /\
  Forall (fun b =>
            SparseMultiHeadAttentionBlock.block_size (DecoderBlock.self_attention_block b) = bs /\
            SparseMultiHeadAttentionBlock.stride (DecoderBlock.self_attention_block b) = st /\
            SparseMultiHeadAttentionBlock.causal (DecoderBlock.self_attention_block b) = true)
         (Decoder.layers (Transformer.decoder m)).
Proof.
  unfold build_sparse_transformer. intros H Hh.
  apply bindM_ok_inv in H as (se & g1 & Hse & H).
  apply bindM_ok_inv in H as (te & g2 & Hte & H).
  apply bindM_ok_inv in H as (sp & g3 & Hsp & H). apply lift_ok_inv in Hsp as (Hsp & ->).
  apply bindM_ok_inv in H as (tp & g4 & Htp & H). apply lift_ok_inv in Htp as (Htp & ->).
  apply bindM_ok_inv in H as (ebs & g5 & Hebs & H).
  apply bindM_ok_inv in H as (dbs & g6 & Hdbs & H).
  apply bindM_ok_inv in H as (enc & g7 & Henc & H). apply lift_ok_inv in Henc as (Henc & ->).
  apply bindM_ok_inv in H as (dec & g8 & Hdec & H). apply lift_ok_inv in Hdec as (Hdec & ->).
  apply bindM_ok_inv in H as (pl & g9 & Hpl & H).
  apply embeddings_init_shaped in Hse as (_ & _ & Hse).
  apply embeddings_init_shaped in Hte as (_ & _ & Hte).
  apply positions_init_shaped in Hsp as (Hd & Hsp).
  apply positions_init_shaped in Htp as (_ & Htp).
  apply (repeatM_Forall _ _
           (fun g a g' E => encoder_block_built d h dff p bs st g a g' E Hh))
    in Hebs as (Helen & Hebs).
  apply (repeatM_Forall _ _
           (fun g a g' E => decoder_block_built d h dff p bs st g a g' E Hh))
    in Hdbs as (Hdlen & Hdbs).
  unfold Encoder.init in Henc. apply bind_ok_inv in Henc as (en & Hen & Henc).
  apply Ok_inj in Henc. subst enc. apply norm_init_shaped in Hen.
  unfold Decoder.init in Hdec. apply bind_ok_inv in Hdec as (dn & Hdn & Hdec).
  apply Ok_inj in Hdec. subst dec. apply norm_init_shaped in Hdn.
  unfold ProjectionLayer.init in Hpl. apply bindM_ok_inv in Hpl as (l & g10 & Hl & Hpl).
  cbn [ret Monad_M] in Hpl. apply Ok_inj in Hpl. injection Hpl as <- _.
  apply linear_init_shaped in Hl as (_ & _ & Hl).
  (* the pass over the parameters keeps all of this *)
  unfold Transformer.xavier, Encoder.xavier, Decoder.xavier in H.
  cbn [Transformer.encoder Transformer.decoder Transformer.src_embed Transformer.tgt_embed
       Transformer.src_pos Transformer.tgt_pos Transformer.projection_layer
       Encoder.layers Encoder.norm Decoder.layers Decoder.norm] in H.
  apply bindM_ok_inv in H as (enc' & h1 & Henc' & H).
  apply bindM_ok_inv in Henc' as (els & h1' & Hels & Henc').
  cbn [ret Monad_M] in Henc'. apply Ok_inj in Henc'. injection Henc' as <- _.
  apply bindM_ok_inv in H as (dec' & h2 & Hdec' & H).
  apply bindM_ok_inv in Hdec' as (dls & h2' & Hdls & Hdec').
  cbn [ret Monad_M] in Hdec'. apply Ok_inj in Hdec'. injection Hdec' as <- _.
  apply bindM_ok_inv in H as (se' & h3 & Hse' & H).
  apply bindM_ok_inv in H as (te' & h4 & Hte' & H).
  apply bindM_ok_inv in H as (pl' & h5 & Hpl' & H).
  cbn [ret Monad_M] in H. apply Ok_inj in H. injection H as <- _.
  eapply (mapM_Forall _ _
            (fun a g a' g' => encoder_block_xavier_shaped (Z.to_nat d) (Z.to_nat h) bs st
                                a a' g g'))
    in Hels as (Helen' & Hels); [|exact Hebs].
  eapply (mapM_Forall _ _
            (fun a g a' g' => decoder_block_xavier_shaped (Z.to_nat d) (Z.to_nat h) bs st
                                a a' g g'))
    in Hdls as (Hdlen' & Hdls); [|exact Hdbs].
  apply (embeddings_xavier_shaped (Z.to_nat sv) (Z.to_nat d)) in Hse'; [|exact Hse].
  apply (embeddings_xavier_shaped (Z.to_nat tv) (Z.to_nat d)) in Hte'; [|exact Hte].
  unfold ProjectionLayer.xavier in Hpl'. apply bindM_ok_inv in Hpl' as (l' & h6 & Hl' & Hpl').
  cbn [ret Monad_M] in Hpl'. apply Ok_inj in Hpl'. injection Hpl' as <- _.
  apply (linear_xavier_shaped (Z.to_nat d) (Z.to_nat tv)) in Hl'; [|exact Hl].
  cbn [Transformer.encoder Transformer.decoder Encoder.layers Decoder.layers].
  split; [exact Hd|]. split.
  - unfold transformer_shaped.
    cbn [Transformer.encoder Transformer.decoder Transformer.src_embed Transformer.tgt_embed
         Transformer.src_pos Transformer.tgt_pos Transformer.projection_layer
         Encoder.layers Encoder.norm Decoder.layers Decoder.norm ProjectionLayer.proj].
    split; [eapply Forall_impl; [|exact Hels]; now intros b (Hb & _)|].
    split; [exact Hen|].
    split; [eapply Forall_impl; [|exact Hdls]; now intros b (Hb & _)|].
    auto 10.
  - split; [congruence|]. split; [congruence|]. split.
    + eapply Forall_impl; [|exact Hels]. now intros b (_ & Hb).
    + eapply Forall_impl; [|exact Hdls]. now intros b (_ & Hb).
Qed.

(** ** Shape contracts of the layers *)

(** X11. A sparse attention block constructed with a positive number of
    heads, applied to a float32 input of shape (B, T, d_model) with no mask,
    a padding mask (B, 1, 1, T) or a full mask (B, 1, T, T), never fails and
    returns a float32 tensor of shape (B, T, d_model). *)
Theorem sparse_attention_keeps_shape :
  forall (d_model h : Z) (dropout : Q) (block_size stride : Z) (causal : bool)
         (g0 g1 : generator) (m : SparseMultiHeadAttentionBlock.t)
         (B T : nat) (x k v : tensor xreal) (mask : option (tensor bool)) (g : generator),
    SparseMultiHeadAttentionBlock.init d_model h dropout block_size stride causal g0
    = Ok (m, g1) ->
    (0 < h)%Z ->
    float_tensor [B; T; Z.to_nat d_model] x ->
    mask_fits B T T mask ->
    exists y g',
      SparseMultiHeadAttentionBlock.forward m x k v mask g = Ok (y, g') /\
      float_tensor [B; T; Z.to_nat d_model] y.
Proof.
  intros d h p bs st c g0 g1 m B T x k v mask g Hinit Hh Hx Hmask.
  apply sparse_init_shaped in Hinit as (Hm & _); [|exact Hh].
  now apply (sparse_forward_typed m B T (Z.to_nat d) (Z.to_nat h)).
Qed.

Lemma sparse_attention_keeps_shape_witness :
  exists m g1,
    SparseMultiHeadAttentionBlock.init 4 2 0 2 2 true zero_tape = Ok (m, g1) /\
    exists y g',
      SparseMultiHeadAttentionBlock.forward m (ones_tensor [1; 3; 4]) (ones_tensor [])
        (ones_tensor []) (Some (lower_triangular [1; 1; 3; 3])) zero_tape = Ok (y, g') /\
      float_tensor [1; 3; 4] y.
Proof.
  eexists. eexists. split; [reflexivity|].
  apply (sparse_attention_keeps_shape 4 2 0 2 2 true zero_tape _ _ 1 3 _ _ _ _ _ eq_refl).
  - lia.
  - split; reflexivity.
  - exists 3. split; [reflexivity|now right].
Defined.

(** X12. A dense attention block constructed with a positive number of
    heads and a positive [d_model], applied to a non-empty batch of queries
    (B, T, d_model) and keys and values (B, S, d_model), never fails and
    returns a float32 tensor of the shape of the queries. *)
Theorem dense_attention_keeps_query_shape :
  forall (d_model h : Z) (dropout : Q) (g0 g1 : generator) (m : MultiHeadAttentionBlock.t)
         (B T S : nat) (q k v : tensor xreal) (mask : option (tensor bool)) (g : generator),
    MultiHeadAttentionBlock.init d_model h dropout g0 = Ok (m, g1) ->
    (0 < h)%Z -> (0 < d_model)%Z -> 0 < B ->
    float_tensor [B; T; Z.to_nat d_model] q ->
    float_tensor [B; S; Z.to_nat d_model] k ->
    float_tensor [B; S; Z.to_nat d_model] v ->
    mask_fits B T S mask ->
    exists y g',
      MultiHeadAttentionBlock.forward m q k v mask g = Ok (y, g') /\
      float_tensor [B; T; Z.to_nat d_model] y.
Proof.
  intros d h p g0 g1 m B T S q k v mask g Hinit Hh Hd HB Hq Hk Hv Hmask.
  apply dense_init_shaped in Hinit; [|exact Hh].
  apply (dense_forward_typed m B T S (Z.to_nat d) (Z.to_nat h)); try assumption. lia.
Qed.

Lemma dense_attention_keeps_query_shape_witness :
  exists m g1,
    MultiHeadAttentionBlock.init 4 2 0 zero_tape = Ok (m, g1) /\
    exists y g',
      MultiHeadAttentionBlock.forward m (ones_tensor [1; 2; 4]) (ones_tensor [1; 3; 4])
        (ones_tensor [1; 3; 4]) None zero_tape = Ok (y, g') /\
      float_tensor [1; 2; 4] y.
Proof.
  eexists. eexists. split; [reflexivity|].
  apply (dense_attention_keeps_query_shape 4 2 0 zero_tape _ _ 1 2 3 _ _ _ _ _ eq_refl);
    try lia; try (split; reflexivity).
Defined.

(** X13. A constructed feed-forward block maps a float32 tensor of shape
    (B, T, d_model) to one of the same shape, without error. *)
Theorem feed_forward_keeps_shape :
  forall (d_model d_ff : Z) (dropout : Q) (g0 g1 : generator) (m : FeedForwardBlock.t)
         (B T : nat) (x : tensor xreal) (g : generator),
    FeedForwardBlock.init d_model d_ff dropout g0 = Ok (m, g1) ->
    float_tensor [B; T; Z.to_nat d_model] x ->
    exists y g',
      FeedForwardBlock.forward m x g = Ok (y, g') /\
      float_tensor [B; T; Z.to_nat d_model] y.
Proof.
  intros d dff p g0 g1 m B T x g Hinit Hx.
  apply feed_forward_init_shaped in Hinit. now apply feed_forward_typed.
Qed.

Lemma feed_forward_keeps_shape_witness :
  exists m g1,
    FeedForwardBlock.init 4 8 (1 # 2) zero_tape = Ok (m, g1) /\
    exists y g',
      FeedForwardBlock.forward m (ones_tensor [1; 2; 4]) zero_tape = Ok (y, g') /\
      float_tensor [1; 2; 4] y.
Proof.
  eexists. eexists. split; [reflexivity|].
  apply (feed_forward_keeps_shape 4 8 (1 # 2) zero_tape _ _ 1 2 _ _ eq_refl).
  split; reflexivity.
Defined.

(** X14. A constructed projection layer maps a float32 tensor of shape
    (B, T, d_model) to one of shape (B, T, vocab_size), without error. *)
Theorem projection_returns_vocabulary_scores :
  forall (d_model vocab_size : Z) (g0 g1 : generator) (m : ProjectionLayer.t)
         (B T : nat) (x : tensor xreal),
    ProjectionLayer.init d_model vocab_size g0 = Ok (m, g1) ->
    float_tensor [B; T; Z.to_nat d_model] x ->
    exists y,
      ProjectionLayer.forward m x = Ok y /\
      float_tensor [B; T; Z.to_nat vocab_size] y.
Proof.
  intros d v g0 g1 m B T x Hinit Hx. unfold ProjectionLayer.init in Hinit.
  apply bindM_ok_inv in Hinit as (l & g2 & Hl & Hinit).
  cbn [ret Monad_M] in Hinit. apply Ok_inj in Hinit. injection Hinit as <- _.
  apply linear_init_shaped in Hl as (_ & _ & Hl).
  exact (linear_typed _ _ _ [B; T] x Hl Hx).
Qed.

Lemma projection_returns_vocabulary_scores_witness :
  exists m g1,
    ProjectionLayer.init 4 5 zero_tape = Ok (m, g1) /\
    exists y, ProjectionLayer.forward m (ones_tensor [1; 2; 4]) = Ok y /\
              float_tensor [1; 2; 5] y.
Proof.
  eexists. eexists. split; [reflexivity|].
  apply (projection_returns_vocabulary_scores 4 5 zero_tape _ _ 1 2 _ eq_refl).
  split; reflexivity.
Defined.

(** ** The built model *)

(** X15. The encoder of a model built with a positive number of heads
    maps a float32 tensor of shape (B, S, d_model) to one of the same shape,
    without error, under no mask, a padding mask or a full mask. *)
Theorem built_encoder_keeps_shape :
  forall (src_vocab_size tgt_vocab_size src_seq_len tgt_seq_len d_model N h : Z)
         (dropout : Q) (d_ff block_size stride : Z) (g0 g1 : generator)
         (m : Transformer.t) (B S : nat) (x : tensor xreal)
         (mask : option (tensor bool)) (g : generator),
    build_sparse_transformer src_vocab_size tgt_vocab_size src_seq_len tgt_seq_len
      d_model N h dropout d_ff block_size stride g0 = Ok (m, g1) ->
    (0 < h)%Z ->
    float_tensor [B; S; Z.to_nat d_model] x ->
    mask_fits B S S mask ->
    exists y g',
      Encoder.forward (Transformer.encoder m) x mask g = Ok (y, g') /\
      float_tensor [B; S; Z.to_nat d_model] y.
Proof.
  intros sv tv sl tl d N h p dff bs st g0 g1 m B S x mask g Hb Hh Hx Hmask.
  apply build_shaped in Hb as (_ & (Hel & Hen & _) & _); [|exact Hh].
  now apply (encoder_typed _ B S (Z.to_nat d) (Z.to_nat h)).
Qed.

Lemma built_encoder_keeps_shape_witness :
  exists r,
    build_sparse_transformer 5 5 3 3 4 1 2 0 8 2 2 zero_tape = Ok r /\
    exists y g',
      Encoder.forward (Transformer.encoder (fst r)) (ones_tensor [1; 2; 4]) None zero_tape
      = Ok (y, g') /\
      float_tensor [1; 2; 4] y.
Proof.
  eexists. split; [vm_compute; reflexivity|].
  eapply (built_encoder_keeps_shape 5 5 3 3 4 1 2 0 8 2 2 zero_tape _ _ 1 2).
  - vm_compute; reflexivity.
  - lia.
  - split; reflexivity.
  - exact I.
Defined.

(** X16. The decoder of a model built with a positive number of heads,
    given a non-empty batch of targets (B, T, d_model) and an encoder output
    (B, S, d_model), returns a float32 tensor of shape (B, T, d_model),
    without error. *)
Theorem built_decoder_keeps_shape :
  forall (src_vocab_size tgt_vocab_size src_seq_len tgt_seq_len d_model N h : Z)
         (dropout : Q) (d_ff block_size stride : Z) (g0 g1 : generator)
         (m : Transformer.t) (B T S : nat) (x encoder_output : tensor xreal)
         (src_mask tgt_mask : option (tensor bool)) (g : generator),
    build_sparse_transformer src_vocab_size tgt_vocab_size src_seq_len tgt_seq_len
      d_model N h dropout d_ff block_size stride g0 = Ok (m, g1) ->
    (0 < h)%Z -> 0 < B ->
    float_tensor [B; T; Z.to_nat d_model] x ->
    float_tensor [B; S; Z.to_nat d_model] encoder_output ->
    mask_fits B T S src_mask -> mask_fits B T T tgt_mask ->
    exists y g',
      Decoder.forward (Transformer.decoder m) x encoder_output src_mask tgt_mask g
      = Ok (y, g') /\
      float_tensor [B; T; Z.to_nat d_model] y.
Proof.
  intros sv tv sl tl d N h p dff bs st g0 g1 m B T S x enc src tgt g Hb Hh HB Hx Henc
    Hsrc Htgt.
  apply build_shaped in Hb as (Hd & (_ & _ & Hdl & Hdn & _) & _); [|exact Hh].
  apply (decoder_typed _ B T S (Z.to_nat d) (Z.to_nat h)); try assumption. lia.
Qed.

Lemma built_decoder_keeps_shape_witness :
  exists r,
    build_sparse_transformer 5 5 3 3 4 1 2 0 8 2 2 zero_tape = Ok r /\
    exists y g',
      Decoder.forward (Transformer.decoder (fst r)) (ones_tensor [1; 2; 4])
        (ones_tensor [1; 3; 4]) None (Some (lower_triangular [1; 1; 2; 2])) zero_tape
      = Ok (y, g') /\
      float_tensor [1; 2; 4] y.
Proof.
  eexists. split; [vm_compute; reflexivity|].
  eapply (built_decoder_keeps_shape 5 5 3 3 4 1 2 0 8 2 2 zero_tape _ _ 1 2 3).
  - vm_compute; reflexivity.
  - lia.
  - lia.
  - split; reflexivity.
  - split; reflexivity.
  - exact I.
  - exists 2. split; [reflexivity|now right].
Defined.

(** X17. A model built with a positive number of heads, applied to a
    non-empty batch of source and target token ids within the vocabularies
    and no longer than the maximum lengths, with no source mask or a padding
    mask and no target mask, a padding mask or a full mask, never fails and
    returns float32 scores of shape (B, T, tgt_vocab_size). *)
Theorem built_transformer_returns_logits :
  forall (src_vocab_size tgt_vocab_size src_seq_len tgt_seq_len d_model N h : Z)
         (dropout : Q) (d_ff block_size stride : Z) (g0 g1 : generator)
         (m : Transformer.t) (B S T : nat) (encoder_input decoder_input : tensor Z)
         (encoder_mask decoder_mask : option (tensor bool)) (g : generator),
    build_sparse_transformer src_vocab_size tgt_vocab_size src_seq_len tgt_seq_len
      d_model N h dropout d_ff block_size stride g0 = Ok (m, g1) ->
    (0 < h)%Z -> 0 < B ->
    S <= Z.to_nat src_seq_len -> T <= Z.to_nat tgt_seq_len ->
    tokens B S (Z.to_nat src_vocab_size) encoder_input ->
    tokens B T (Z.to_nat tgt_vocab_size) decoder_input ->
    mask_fits B 1 S encoder_mask ->
    mask_fits B T T decoder_mask ->
    exists out g',
      Transformer.forward m encoder_input decoder_input encoder_mask decoder_mask g
      = Ok (out, g') /\
      float_tensor [B; T; Z.to_nat tgt_vocab_size] out.
Proof.
  intros sv tv sl tl d N h p dff bs st g0 g1 m B S T ein din emask dmask g
    Hb Hh HB HS HT Hein Hdin Hem Hdm.
  apply build_shaped in Hb as (Hd & Hm & _); [|exact Hh].
  assert (Hpad : forall R, mask_fits B R S emask).
  { intros R. destruct emask as [em|]; [|exact I].
    destruct Hem as (R' & Hs & [->| ->]); exists 1; auto. }
  apply (transformer_typed m (Z.to_nat sv) (Z.to_nat tv) (Z.to_nat sl) (Z.to_nat tl)
           (Z.to_nat d) (Z.to_nat h) B S T); try assumption; try apply Hpad. lia.
Qed.

Lemma built_transformer_returns_logits_witness :
  exists r,
    build_sparse_transformer 5 5 3 3 4 1 2 0 8 2 2 zero_tape = Ok r /\
    exists out g',
      Transformer.forward (fst r) (Tensor int64 [1; 3] (fun _ => 3%Z))
        (Tensor int64 [1; 2] (fun _ => 1%Z)) None
        (Some (lower_triangular [1; 1; 2; 2])) zero_tape = Ok (out, g') /\
      float_tensor [1; 2; 5] out.
Proof.
  eexists. split; [vm_compute; reflexivity|].
  eapply (built_transformer_returns_logits 5 5 3 3 4 1 2 0 8 2 2 zero_tape _ _ 1 3 2).
  - vm_compute; reflexivity.
  - lia.
  - lia.
  - simpl; lia.
  - simpl; lia.
  - split; [reflexivity|]. intros b t _ _. simpl. lia.
  - split; [reflexivity|]. intros b t _ _. simpl. lia.
  - exact I.
  - exists 2. split; [reflexivity|now right].
Defined.

(* ================================================================== *)
(** * Layers and randomness of the built model *)

(** ** The layers construction creates *)

(** Whatever holds of every block the loops of the construction create, and
    is kept by the pass over the parameters, holds of every block of the
    model returned; there are [N] blocks on either side. *)
Lemma build_blocks (PE : EncoderBlock.t -> Prop) (PD : DecoderBlock.t -> Prop)
    sv tv sl tl d N h p dff bs st g m g' :
  (forall g b g', encoder_block d h dff p bs st g = Ok (b, g') -> PE b) ->
  (forall b g b' g', EncoderBlock.xavier b g = Ok (b', g') -> PE b -> PE b') ->
  (forall g b g', decoder_block d h dff p bs st g = Ok (b, g') -> PD b) ->
  (forall b g b' g', DecoderBlock.xavier b g = Ok (b', g') -> PD b -> PD b') ->
  build_sparse_transformer sv tv sl tl d N h p dff bs st g = Ok (m, g') ->
  length (Encoder.layers (Transformer.encoder m)) = Z.to_nat N /\
  length (Decoder.layers (Transformer.decoder m)) = Z.to_nat N /\
  Forall PE (Encoder.layers (Transformer.encoder m)) /\
  Forall PD (Decoder.layers (Transformer.decoder m)) /\
  PositionalEncoding.init d sl p = Ok (Transformer.src_pos m) /\
  PositionalEncoding.init d tl p = Ok (Transformer.tgt_pos m) /\
  LayerNormalization.init d = Ok (Encoder.norm (Transformer.encoder m)) /\
  LayerNormalization.init d = Ok (Decoder.norm (Transformer.decoder m)).
Proof.
  intros HE HEx HD HDx H. unfold build_sparse_transformer in H.
  apply bindM_ok_inv in H as (se & g1 & _ & H).
  apply bindM_ok_inv in H as (te & g2 & _ & H).
  apply bindM_ok_inv in H as (sp & g3 & Hsp & H). apply lift_ok_inv in Hsp as (Hsp & _).
  apply bindM_ok_inv in H as (tp & g4 & Htp & H). apply lift_ok_inv in Htp as (Htp & _).
  apply bindM_ok_inv in H as (ebs & g5 & Hebs & H).
  apply bindM_ok_inv in H as (dbs & g6 & Hdbs & H).
  apply bindM_ok_inv in H as (enc & g7 & Henc & H). apply lift_ok_inv in Henc as (Henc & ->).
  apply bindM_ok_inv in H as (dec & g8 & Hdec & H). apply lift_ok_inv in Hdec as (Hdec & ->).
  apply bindM_ok_inv in H as (pl & g9 & _ & H).
  apply (repeatM_Forall PE _ HE) in Hebs as (Helen & Hebs).
  apply (repeatM_Forall PD _ HD) in Hdbs as (Hdlen & Hdbs).
  unfold Encoder.init in Henc. apply bind_ok_inv in Henc as (en & Hen & Henc).
  apply Ok_inj in Henc. subst enc.
  unfold Decoder.init in Hdec. apply bind_ok_inv in Hdec as (dn & Hdn & Hdec).
  apply Ok_inj in Hdec. subst dec.
  unfold Transformer.xavier, Encoder.xavier, Decoder.xavier in H.
  cbn [Transformer.encoder Transformer.decoder Transformer.src_embed Transformer.tgt_embed
       Transformer.src_pos Transformer.tgt_pos Transformer.projection_layer
       Encoder.layers Encoder.norm Decoder.layers Decoder.norm] in H.
  apply bindM_ok_inv in H as (enc' & h1 & Henc' & H).
  apply bindM_ok_inv in Henc' as (els & h1' & Hels & Henc').
  cbn [ret Monad_M] in Henc'. apply Ok_inj in Henc'. injection Henc' as <- _.
  apply bindM_ok_inv in H as (dec' & h2 & Hdec' & H).
  apply bindM_ok_inv in Hdec' as (dls & h2' & Hdls & Hdec').
  cbn [ret Monad_M] in Hdec'. apply Ok_inj in Hdec'. injection Hdec' as <- _.
  apply bindM_ok_inv in H as (se' & h3 & _ & H).
  apply bindM_ok_inv in H as (te' & h4 & _ & H).
  apply bindM_ok_inv in H as (pl' & h5 & _ & H).
  cbn [ret Monad_M] in H. apply Ok_inj in H. injection H as <- _.
  apply (mapM_Forall PE _ (fun a g a' g' => HEx a g a' g')) in Hels as (Helen' & Hels);
    [|exact Hebs].
  apply (mapM_Forall PD _ (fun a g a' g' => HDx a g a' g')) in Hdls as (Hdlen' & Hdls);
    [|exact Hdbs].
  cbn [Transformer.encoder Transformer.decoder Transformer.src_pos Transformer.tgt_pos
       Encoder.layers Encoder.norm Decoder.layers Decoder.norm].
  repeat split; try assumption; congruence.
Qed.

Lemma sparse_xavier_fields m m' g g' :
  SparseMultiHeadAttentionBlock.xavier m g = Ok (m', g') ->
  SparseMultiHeadAttentionBlock.h m' = SparseMultiHeadAttentionBlock.h m /\
  SparseMultiHeadAttentionBlock.d_k m' = SparseMultiHeadAttentionBlock.d_k m /\
  SparseMultiHeadAttentionBlock.block_size m' = SparseMultiHeadAttentionBlock.block_size m /\
  SparseMultiHeadAttentionBlock.stride m' = SparseMultiHeadAttentionBlock.stride m /\
  SparseMultiHeadAttentionBlock.causal m' = SparseMultiHeadAttentionBlock.causal m.
Proof.
  unfold SparseMultiHeadAttentionBlock.xavier. intros H.
  apply bindM_ok_inv in H as (wq & g1 & _ & H).
  apply bindM_ok_inv in H as (wk & g2 & _ & H).
  apply bindM_ok_inv in H as (wv & g3 & _ & H).
  apply bindM_ok_inv in H as (wo & g4 & _ & H).
  cbn [ret Monad_M] in H. apply Ok_inj in H. injection H as <- _. cbn. auto.
Qed.

Lemma sparse_init_causal d h p bs st c g m g' :
  SparseMultiHeadAttentionBlock.init d h p bs st c g = Ok (m, g') ->
  SparseMultiHeadAttentionBlock.causal m = c.
Proof.
  unfold SparseMultiHeadAttentionBlock.init.
  destruct (h =? 0)%Z; [discriminate|].
  destruct (negb (d mod h =? 0)%Z); [discriminate|]. intros H.
  apply bindM_ok_inv in H as (wq & g1 & _ & H).
  apply bindM_ok_inv in H as (wk & g2 & _ & H).
  apply bindM_ok_inv in H as (wv & g3 & _ & H).
  apply bindM_ok_inv in H as (wo & g4 & _ & H).
  apply bindM_ok_inv in H as (dr & g5 & _ & H).
  cbn [ret Monad_M] in H. apply Ok_inj in H. injection H as <- _. reflexivity.
Qed.

Lemma sparse_init_settings d h p bs st c g m g' :
  SparseMultiHeadAttentionBlock.init d h p bs st c g = Ok (m, g') ->
  sparse_settings d h bs st c m /\ h <> 0%Z /\ (d mod h = 0)%Z.
Proof.
  intros H. pose proof (sparse_init_causal _ _ _ _ _ _ _ _ _ H) as Hc.
  apply sparse_init_fields in H as (Hh & Hdk & Hbs & Hst & Hh0 & Hmod & _).
  unfold sparse_settings. auto 10.
Qed.

Lemma sparse_xavier_settings d h bs st c m m' g g' :
  SparseMultiHeadAttentionBlock.xavier m g = Ok (m', g') ->
  sparse_settings d h bs st c m -> sparse_settings d h bs st c m'.
Proof.
  intros H (Hh & Hdk & Hbs & Hst & Hc).
  apply sparse_xavier_fields in H as (Eh & Edk & Ebs & Est & Ec).
  unfold sparse_settings. repeat split; congruence.
Qed.

(** X18. A built model has [N] encoder and [N] decoder blocks.  Every
    sparse block stores [h], [d_model / h] and the sparsity settings as
    given; the encoder's are not causal, the decoder's are; an encoder block
    owns two residual wrappers and a decoder block three; with a layer
    built, [h] is not zero and divides [d_model]. *)
Theorem built_model_layers :
  forall (src_vocab_size tgt_vocab_size src_seq_len tgt_seq_len d_model N h : Z)
         (dropout : Q) (d_ff block_size stride : Z) (g g' : generator) (m : Transformer.t),
    build_sparse_transformer src_vocab_size tgt_vocab_size src_seq_len tgt_seq_len
      d_model N h dropout d_ff block_size stride g = Ok (m, g') ->
    length (Encoder.layers (Transformer.encoder m)) = Z.to_nat N /\
    length (Decoder.layers (Transformer.decoder m)) = Z.to_nat N /\
    Forall (fun b =>
              sparse_settings d_model h block_size stride false
                (EncoderBlock.self_attention_block b) /\
              length (EncoderBlock.residual_connections b) = 2)
           (Encoder.layers (Transformer.encoder m)) /\
    Forall (fun b =>
              sparse_settings d_model h block_size stride true
                (DecoderBlock.self_attention_block b) /\
              MultiHeadAttentionBlock.h (DecoderBlock.cross_attention_block b) = h /\
              MultiHeadAttentionBlock.d_k (DecoderBlock.cross_attention_block b)
              = (d_model / h)%Z /\
              length (DecoderBlock.residual_connection b) = 3)
           (Decoder.layers (Transformer.decoder m)) /\
    ((1 <= N)%Z -> h <> 0%Z /\ (d_model mod h = 0)%Z).
Proof.
  intros sv tv sl tl d N h p dff bs st g g' m Hb.
  pose proof (build_blocks
    (fun b => (sparse_settings d h bs st false (EncoderBlock.self_attention_block b) /\
               length (EncoderBlock.residual_connections b) = 2) /\
              h <> 0%Z /\ (d mod h = 0)%Z)
    (fun b => sparse_settings d h bs st true (DecoderBlock.self_attention_block b) /\
              MultiHeadAttentionBlock.h (DecoderBlock.cross_attention_block b) = h /\
              MultiHeadAttentionBlock.d_k (DecoderBlock.cross_attention_block b) = (d / h)%Z /\
              length (DecoderBlock.residual_connection b) = 3)
    sv tv sl tl d N h p dff bs st g m g') as HB.
  destruct HB as (Helen & Hdlen & HE & HD & _); [| | | |exact Hb|].
  - intros g0 b g0' H. unfold encoder_block in H.
    apply bindM_ok_inv in H as (sa & g1 & Hsa & H).
    apply bindM_ok_inv in H as (ff & g2 & _ & H).
    apply lift_ok_inv in H as (H & _). unfold EncoderBlock.init in H.
    apply bind_ok_inv in H as (rcs & Hrcs & H). apply Ok_inj in H. subst b.
    apply sparse_init_settings in Hsa as (Hsa & Hh0 & Hmod).
    apply residual_list_length in Hrcs. cbn. auto.
  - intros b g0 b' g0' H ((Hsa & Hlen) & Hdiv). unfold EncoderBlock.xavier in H.
    apply bindM_ok_inv in H as (sa & g1 & Esa & H).
    apply bindM_ok_inv in H as (ff & g2 & _ & H).
    cbn [ret Monad_M] in H. apply Ok_inj in H. injection H as <- _.
    cbn [EncoderBlock.self_attention_block EncoderBlock.residual_connections].
    split; [|exact Hdiv]. split; [|exact Hlen].
    now apply (sparse_xavier_settings _ _ _ _ _ _ _ _ _ Esa).
  - intros g0 b g0' H. unfold decoder_block in H.
    apply bindM_ok_inv in H as (sa & g1 & Hsa & H).
    apply bindM_ok_inv in H as (ca & g2 & Hca & H).
    apply bindM_ok_inv in H as (ff & g3 & _ & H).
    apply lift_ok_inv in H as (H & _). unfold DecoderBlock.init in H.
    apply bind_ok_inv in H as (rcs & Hrcs & H). apply Ok_inj in H. subst b.
    apply sparse_init_settings in Hsa as (Hsa & _).
    apply residual_list_length in Hrcs.
    cbn [DecoderBlock.self_attention_block DecoderBlock.cross_attention_block
         DecoderBlock.residual_connection].
    split; [exact Hsa|]. split; [|split; [|exact Hrcs]].
    + unfold MultiHeadAttentionBlock.init in Hca.
      destruct (h =? 0)%Z; [discriminate|].
      destruct (negb (d mod h =? 0)%Z); [discriminate|].
      apply bindM_ok_inv in Hca as (wq & h1 & _ & Hca).
      apply bindM_ok_inv in Hca as (wk & h2 & _ & Hca).
      apply bindM_ok_inv in Hca as (wv & h3 & _ & Hca).
      apply bindM_ok_inv in Hca as (wo & h4 & _ & Hca).
      apply bindM_ok_inv in Hca as (dr & h5 & _ & Hca).
      cbn [ret Monad_M] in Hca. apply Ok_inj in Hca. injection Hca as <- _. reflexivity.
    + unfold MultiHeadAttentionBlock.init in Hca.
      destruct (h =? 0)%Z; [discriminate|].
      destruct (negb (d mod h =? 0)%Z); [discriminate|].
      apply bindM_ok_inv in Hca as (wq & h1 & _ & Hca).
      apply bindM_ok_inv in Hca as (wk & h2 & _ & Hca).
      apply bindM_ok_inv in Hca as (wv & h3 & _ & Hca).
      apply bindM_ok_inv in Hca as (wo & h4 & _ & Hca).
      apply bindM_ok_inv in Hca as (dr & h5 & _ & Hca).
      cbn [ret Monad_M] in Hca. apply Ok_inj in Hca. injection Hca as <- _. reflexivity.
  - intros b g0 b' g0' H (Hsa & Hh & Hdk & Hlen). unfold DecoderBlock.xavier in H.
    apply bindM_ok_inv in H as (sa & g1 & Esa & H).
    apply bindM_ok_inv in H as (ca & g2 & Eca & H).
    apply bindM_ok_inv in H as (ff & g3 & _ & H).
    cbn [ret Monad_M] in H. apply Ok_inj in H. injection H as <- _.
    cbn [DecoderBlock.self_attention_block DecoderBlock.cross_attention_block
         DecoderBlock.residual_connection].
    split; [now apply (sparse_xavier_settings _ _ _ _ _ _ _ _ _ Esa)|].
    unfold MultiHeadAttentionBlock.xavier in Eca.
    apply bindM_ok_inv in Eca as (wq & h1 & _ & Eca).
    apply bindM_ok_inv in Eca as (wk & h2 & _ & Eca).
    apply bindM_ok_inv in Eca as (wv & h3 & _ & Eca).
    apply bindM_ok_inv in Eca as (wo & h4 & _ & Eca).
    cbn [ret Monad_M] in Eca. apply Ok_inj in Eca. injection Eca as <- _.
    cbn [MultiHeadAttentionBlock.h MultiHeadAttentionBlock.d_k]. auto.
  - split; [exact Helen|]. split; [exact Hdlen|]. split; [|split; [exact HD|]].
    + eapply Forall_impl; [|exact HE]. now intros b (Hb' & _).
    + intros HN.
      destruct (Encoder.layers (Transformer.encoder m)) as [|b rest];
        [cbn [length] in Helen; lia|].
      inversion HE as [|? ? (_ & Hdiv) _]. exact Hdiv.
Qed.

Lemma built_model_layers_witness :
  exists r,
    build_sparse_transformer 5 5 3 3 4 1 2 0 8 2 2 zero_tape = Ok r /\
    length (Encoder.layers (Transformer.encoder (fst r))) = Z.to_nat 1.
Proof.
  eexists. split; [vm_compute; reflexivity|].
  refine (proj1 (built_model_layers 5 5 3 3 4 1 2 0 8 2 2 zero_tape _ (fst _) _)).
  vm_compute; reflexivity.
Defined.

(** X19. With at least one layer requested, construction raises whenever
    [h] is zero or does not divide [d_model]. *)
Theorem construction_rejects_indivisible_heads :
  forall (src_vocab_size tgt_vocab_size src_seq_len tgt_seq_len d_model N h : Z)
         (dropout : Q) (d_ff block_size stride : Z) (g : generator),
    (1 <= N)%Z ->
    h = 0%Z \/ (d_model mod h <> 0)%Z ->
    exists e,
      build_sparse_transformer src_vocab_size tgt_vocab_size src_seq_len tgt_seq_len
        d_model N h dropout d_ff block_size stride g = Raise e.
Proof.
  intros sv tv sl tl d N h p dff bs st g HN Hbad.
  destruct (build_sparse_transformer sv tv sl tl d N h p dff bs st g) as [[m g']|e] eqn:E;
    [exfalso|now exists e].
  pose proof (build_blocks (fun _ => h <> 0%Z /\ (d mod h = 0)%Z) (fun _ => True)
                sv tv sl tl d N h p dff bs st g m g') as HB.
  destruct HB as (Helen & _ & HE & _); [| | | |exact E|]; auto.
  - intros g0 b g0' H. unfold encoder_block in H.
    apply bindM_ok_inv in H as (sa & g1 & Hsa & _).
    now apply sparse_init_settings in Hsa as (_ & Hh0 & Hmod).
  - destruct (Encoder.layers (Transformer.encoder m)) as [|b rest];
      [cbn [length] in Helen; lia|].
    inversion HE as [|? ? (Hh0 & Hmod) _]. destruct Hbad as [Hz|Hnd]; contradiction.
Qed.

Lemma construction_rejects_indivisible_heads_witness :
  exists e, build_sparse_transformer 5 5 3 3 4 1 3 0 8 2 2 zero_tape = Raise e.
Proof.
  apply (construction_rejects_indivisible_heads 5 5 3 3 4 1 3 0 8 2 2 zero_tape).
  - lia.
  - right. vm_compute. discriminate.
Defined.

(** X20. With no layer requested ([N <= 0]) construction never looks at
    [h] or [d_ff]: any two values give the same result. *)
Theorem construction_without_layers_ignores_heads :
  forall (src_vocab_size tgt_vocab_size src_seq_len tgt_seq_len d_model N h : Z)
         (dropout : Q) (d_ff block_size stride h' d_ff' : Z) (g : generator),
    (N <= 0)%Z ->
    build_sparse_transformer src_vocab_size tgt_vocab_size src_seq_len tgt_seq_len
      d_model N h dropout d_ff block_size stride g =
    build_sparse_transformer src_vocab_size tgt_vocab_size src_seq_len tgt_seq_len
      d_model N h' dropout d_ff' block_size stride g.
Proof.
  intros sv tv sl tl d N h p dff bs st h' dff' g HN.
  unfold build_sparse_transformer.
  replace (Z.to_nat N) with 0 by lia. reflexivity.
Qed.

Lemma construction_without_layers_ignores_heads_witness :
  build_sparse_transformer 5 5 3 3 4 0 2 0 8 2 2 zero_tape =
  build_sparse_transformer 5 5 3 3 4 0 0 0 (-1) 2 2 zero_tape.
Proof.
  apply (construction_without_layers_ignores_heads 5 5 3 3 4 0 2 0 8 2 2 0 (-1) zero_tape).
  lia.
Defined.

(** ** Stacks of layers *)

Lemma encoder_run_layers_app (l1 l2 : list EncoderBlock.t) x mask g :
  Encoder.run_layers (l1 ++ l2) x mask g =
  (y <- Encoder.run_layers l1 x mask ;; Encoder.run_layers l2 y mask) g.
Proof.
  revert x g. induction l1 as [|l l1 IH]; intros x g; cbn [app Encoder.run_layers].
  - cbn [bind ret Monad_M]. reflexivity.
  - cbn [bind Monad_M].
    destruct (EncoderBlock.forward l x mask g) as [[x1 g1]|e]; [|reflexivity].
    rewrite IH. reflexivity.
Qed.

(** X21. Running a stack of encoder or decoder blocks that is the
    concatenation of two stacks is running the first and then the second on
    its output, errors and generator state included. *)
Theorem layer_stacks_compose :
  forall (e1 e2 : list EncoderBlock.t) (d1 d2 : list DecoderBlock.t)
         (x encoder_output : tensor xreal) (src_mask tgt_mask : option (tensor bool))
         (g : generator),
    Encoder.run_layers (e1 ++ e2) x src_mask g =
    (y <- Encoder.run_layers e1 x src_mask ;; Encoder.run_layers e2 y src_mask) g /\
    Decoder.run_layers (d1 ++ d2) x encoder_output src_mask tgt_mask g =
    (y <- Decoder.run_layers d1 x encoder_output src_mask tgt_mask ;;
     Decoder.run_layers d2 y encoder_output src_mask tgt_mask) g.
Proof.
  intros. split; [apply encoder_run_layers_app | apply decoder_run_layers_app].
Qed.

(** ** Where randomness enters *)

Lemma deterministic_lift {A} (r : result A) : deterministic (lift r).
Proof. now exists r. Qed.

Lemma deterministic_ret {A} (a : A) : deterministic (ret a : M A).
Proof. now exists (Ok a). Qed.

Lemma deterministic_bind {A B} (c : M A) (k : A -> M B) :
  deterministic c -> (forall a, deterministic (k a)) -> deterministic (bind c k).
Proof.
  intros (r & Hr) Hk. destruct r as [a|e].
  - destruct (Hk a) as (rb & Hrb). exists rb. intros g.
    cbn [bind Monad_M]. rewrite Hr. cbn [lift]. apply Hrb.
  - exists (Raise e). intros g. cbn [bind Monad_M]. rewrite Hr. reflexivity.
Qed.

Lemma deterministic_dropout (d : Dropout.t) (x : tensor xreal) :
  no_dropout d -> deterministic (Dropout.forward d x).
Proof.
  intros Hd. exists (Ok x). intros g. unfold Dropout.forward.
  unfold no_dropout in Hd. rewrite Hd, orb_true_r. reflexivity.
Qed.

Lemma deterministic_sparse_forward (m : SparseMultiHeadAttentionBlock.t)
    (q k v : tensor xreal) (mask : option (tensor bool)) :
  no_dropout (SparseMultiHeadAttentionBlock.dropout m) ->
  deterministic (SparseMultiHeadAttentionBlock.forward m q k v mask).
Proof.
  intros Hd. unfold SparseMultiHeadAttentionBlock.forward.
  apply deterministic_bind; [apply deterministic_lift|]. intros [[B T] D].
  apply deterministic_bind; [apply deterministic_lift|]. intros [[q' k'] v'].
  apply deterministic_bind; [apply deterministic_lift|]. intros am.
  apply deterministic_bind; [|intros; apply deterministic_lift].
  unfold SparseMultiHeadAttentionBlock.compute_attention.
  apply deterministic_bind; [apply deterministic_lift|]. intros s.
  apply deterministic_bind; [now apply deterministic_dropout|].
  intros w. apply deterministic_lift.
Qed.

Lemma deterministic_dense_forward (m : MultiHeadAttentionBlock.t)
    (q k v : tensor xreal) (mask : option (tensor bool)) :
  no_dropout (MultiHeadAttentionBlock.dropout m) ->
  deterministic (MultiHeadAttentionBlock.forward m q k v mask).
Proof.
  intros Hd. unfold MultiHeadAttentionBlock.forward.
  do 6 (apply deterministic_bind; [apply deterministic_lift|]; intros ?).
  apply deterministic_bind.
  - unfold MultiHeadAttentionBlock.attention.
    apply deterministic_bind; [apply deterministic_lift|]. intros s.
    apply deterministic_bind; [now apply deterministic_dropout|]. intros w.
    apply deterministic_bind; [apply deterministic_lift|]. intros o.
    apply deterministic_ret.
  - intros [x w].
    apply deterministic_bind; [apply deterministic_lift|]. intros y.
    apply deterministic_lift.
Qed.

Lemma deterministic_feed_forward (m : FeedForwardBlock.t) (x : tensor xreal) :
  no_dropout (FeedForwardBlock.dropout m) ->
  deterministic (FeedForwardBlock.forward m x).
Proof.
  intros Hd. unfold FeedForwardBlock.forward.
  apply deterministic_bind; [apply deterministic_lift|]. intros a.
  apply deterministic_bind; [now apply deterministic_dropout|]. intros y.
  apply deterministic_lift.
Qed.

Lemma deterministic_residual (rc : ResidualConnection.t) (x : tensor xreal)
    (sublayer : tensor xreal -> M (tensor xreal)) :
  no_dropout (ResidualConnection.dropout rc) ->
  (forall y, deterministic (sublayer y)) ->
  deterministic (ResidualConnection.forward rc x sublayer).
Proof.
  intros Hd Hs. unfold ResidualConnection.forward.
  apply deterministic_bind; [apply deterministic_lift|]. intros n.
  apply deterministic_bind; [apply Hs|]. intros o.
  apply deterministic_bind; [now apply deterministic_dropout|]. intros y.
  apply deterministic_lift.
Qed.

Lemma module_at_Forall {A} (P : A -> Prop) (l : list A) i a :
  Forall P l -> module_at l i = Ok a -> P a.
Proof.
  unfold module_at. intros Hl H.
  destruct (nth_error l i) as [b|] eqn:E; [|discriminate].
  apply Ok_inj in H. subst b. apply nth_error_In in E.
  now apply (proj1 (Forall_forall P l) Hl).
Qed.

Lemma deterministic_module_at {A B} (P : A -> Prop) (l : list A) i (k : A -> M B) :
  Forall P l -> (forall a, P a -> deterministic (k a)) ->
  deterministic (bind (lift (module_at l i)) k).
Proof.
  intros Hl Hk. destruct (module_at l i) as [a|e] eqn:E.
  - destruct (Hk a (module_at_Forall P l i a Hl E)) as (r & Hr).
    exists r. intros g. cbn [bind Monad_M lift]. apply Hr.
  - exists (Raise e). intros g. reflexivity.
Qed.

Lemma deterministic_encoder_block (b : EncoderBlock.t) (x : tensor xreal)
    (mask : option (tensor bool)) :
  encoder_block_quiet b -> deterministic (EncoderBlock.forward b x mask).
Proof.
  intros (Hsa & Hff & Hrcs). unfold EncoderBlock.forward.
  apply (deterministic_module_at _ _ _ _ Hrcs). intros rc0 H0.
  apply deterministic_bind.
  - apply deterministic_residual; [exact H0|].
    intros y. now apply deterministic_sparse_forward.
  - intros x1. apply (deterministic_module_at _ _ _ _ Hrcs). intros rc1 H1.
    apply deterministic_residual; [exact H1|].
    intros y. now apply deterministic_feed_forward.
Qed.

Lemma deterministic_decoder_block (b : DecoderBlock.t) (x enc : tensor xreal)
    (src_mask tgt_mask : option (tensor bool)) :
  decoder_block_quiet b -> deterministic (DecoderBlock.forward b x enc src_mask tgt_mask).
Proof.
  intros (Hsa & Hca & Hff & Hrcs). unfold DecoderBlock.forward.
  apply (deterministic_module_at _ _ _ _ Hrcs). intros rc0 H0.
  apply deterministic_bind.
  - apply deterministic_residual; [exact H0|].
    intros y. now apply deterministic_sparse_forward.
  - intros x1. apply (deterministic_module_at _ _ _ _ Hrcs). intros rc1 H1.
    apply deterministic_bind.
    + apply deterministic_residual; [exact H1|].
      intros y. now apply deterministic_dense_forward.
    + intros x2. apply (deterministic_module_at _ _ _ _ Hrcs). intros rc2 H2.
      apply deterministic_residual; [exact H2|].
      intros y. now apply deterministic_feed_forward.
Qed.

Lemma deterministic_encoder (m : Encoder.t) (x : tensor xreal)
    (mask : option (tensor bool)) :
  Forall encoder_block_quiet (Encoder.layers m) ->
  deterministic (Encoder.forward m x mask).
Proof.
  intros Hl. unfold Encoder.forward.
  apply deterministic_bind; [|intros; apply deterministic_lift].
  revert x. induction Hl as [|b layers Hb Hl IH]; intros x; cbn [Encoder.run_layers].
  - apply deterministic_ret.
  - apply deterministic_bind; [now apply deterministic_encoder_block|exact IH].
Qed.

Lemma deterministic_decoder (m : Decoder.t) (x enc : tensor xreal)
    (src_mask tgt_mask : option (tensor bool)) :
  Forall decoder_block_quiet (Decoder.layers m) ->
  deterministic (Decoder.forward m x enc src_mask tgt_mask).
Proof.
  intros Hl. unfold Decoder.forward.
  apply deterministic_bind; [|intros; apply deterministic_lift].
  revert x. induction Hl as [|b layers Hb Hl IH]; intros x; cbn [Decoder.run_layers].
  - apply deterministic_ret.
  - apply deterministic_bind; [now apply deterministic_decoder_block|exact IH].
Qed.

Lemma deterministic_positions (m : PositionalEncoding.t) (x : tensor xreal) :
  no_dropout (PositionalEncoding.dropout m) ->
  deterministic (PositionalEncoding.forward m x).
Proof.
  intros Hd. unfold PositionalEncoding.forward.
  apply deterministic_bind; [apply deterministic_lift|]. intros y.
  now apply deterministic_dropout.
Qed.

(** Construction with rate zero leaves no dropout that draws. *)
Lemma dropout_init_rate p d : Dropout.init p = Ok d -> Dropout.p d = p.
Proof.
  unfold Dropout.init. destruct (Qle_bool 0 p && Qle_bool p 1); [|discriminate].
  intros H. apply Ok_inj in H. now subst.
Qed.

Lemma residual_list_inits n d p rcs :
  residual_list n d p = Ok rcs ->
  Forall (fun rc => ResidualConnection.init d p = Ok rc) rcs.
Proof.
  revert rcs. induction n as [|n IH]; intros rcs H; cbn [residual_list] in H.
  - apply Ok_inj in H. subst. constructor.
  - apply bind_ok_inv in H as (r & Hr & H). apply bind_ok_inv in H as (rest & Hrest & H).
    apply Ok_inj in H. subst. constructor; [exact Hr|now apply IH].
Qed.

Lemma residual_init_rate d p rc :
  ResidualConnection.init d p = Ok rc ->
  Dropout.p (ResidualConnection.dropout rc) = p /\
  LayerNormalization.init d = Ok (ResidualConnection.norm rc).
Proof.
  unfold ResidualConnection.init. intros H.
  apply bind_ok_inv in H as (dr & Hdr & H). apply bind_ok_inv in H as (nm & Hn & H).
  apply Ok_inj in H. subst rc. split; [now apply dropout_init_rate|exact Hn].
Qed.

Lemma sparse_init_rate d h p bs st c g m g' :
  SparseMultiHeadAttentionBlock.init d h p bs st c g = Ok (m, g') ->
  Dropout.p (SparseMultiHeadAttentionBlock.dropout m) = p.
Proof.
  unfold SparseMultiHeadAttentionBlock.init.
  destruct (h =? 0)%Z; [discriminate|].
  destruct (negb (d mod h =? 0)%Z); [discriminate|]. intros H.
  apply bindM_ok_inv in H as (wq & g1 & _ & H).
  apply bindM_ok_inv in H as (wk & g2 & _ & H).
  apply bindM_ok_inv in H as (wv & g3 & _ & H).
  apply bindM_ok_inv in H as (wo & g4 & _ & H).
  apply bindM_ok_inv in H as (dr & g5 & Hdr & H). apply lift_ok_inv in Hdr as (Hdr & _).
  cbn [ret Monad_M] in H. apply Ok_inj in H. injection H as <- _.
  now apply dropout_init_rate.
Qed.

Lemma dense_init_rate d h p g m g' :
  MultiHeadAttentionBlock.init d h p g = Ok (m, g') ->
  Dropout.p (MultiHeadAttentionBlock.dropout m) = p.
Proof.
  unfold MultiHeadAttentionBlock.init.
  destruct (h =? 0)%Z; [discriminate|].
  destruct (negb (d mod h =? 0)%Z); [discriminate|]. intros H.
  apply bindM_ok_inv in H as (wq & g1 & _ & H).
  apply bindM_ok_inv in H as (wk & g2 & _ & H).
  apply bindM_ok_inv in H as (wv & g3 & _ & H).
  apply bindM_ok_inv in H as (wo & g4 & _ & H).
  apply bindM_ok_inv in H as (dr & g5 & Hdr & H). apply lift_ok_inv in Hdr as (Hdr & _).
  cbn [ret Monad_M] in H. apply Ok_inj in H. injection H as <- _.
  now apply dropout_init_rate.
Qed.

Lemma feed_forward_init_rate d dff p g m g' :
  FeedForwardBlock.init d dff p g = Ok (m, g') ->
  Dropout.p (FeedForwardBlock.dropout m) = p.
Proof.
  unfold FeedForwardBlock.init. intros H.
  apply bindM_ok_inv in H as (l1 & g1 & _ & H).
  apply bindM_ok_inv in H as (dr & g2 & Hdr & H). apply lift_ok_inv in Hdr as (Hdr & _).
  apply bindM_ok_inv in H as (l2 & g3 & _ & H).
  cbn [ret Monad_M] in H. apply Ok_inj in H. injection H as <- _.
  now apply dropout_init_rate.
Qed.

Lemma sparse_xavier_dropout m m' g g' :
  SparseMultiHeadAttentionBlock.xavier m g = Ok (m', g') ->
  SparseMultiHeadAttentionBlock.dropout m' = SparseMultiHeadAttentionBlock.dropout m.
Proof.
  unfold SparseMultiHeadAttentionBlock.xavier. intros H.
  apply bindM_ok_inv in H as (wq & g1 & _ & H).
  apply bindM_ok_inv in H as (wk & g2 & _ & H).
  apply bindM_ok_inv in H as (wv & g3 & _ & H).
  apply bindM_ok_inv in H as (wo & g4 & _ & H).
  cbn [ret Monad_M] in H. apply Ok_inj in H. injection H as <- _. reflexivity.
Qed.

Lemma dense_xavier_dropout m m' g g' :
  MultiHeadAttentionBlock.xavier m g = Ok (m', g') ->
  MultiHeadAttentionBlock.dropout m' = MultiHeadAttentionBlock.dropout m.
Proof.
  unfold MultiHeadAttentionBlock.xavier. intros H.
  apply bindM_ok_inv in H as (wq & g1 & _ & H).
  apply bindM_ok_inv in H as (wk & g2 & _ & H).
  apply bindM_ok_inv in H as (wv & g3 & _ & H).
  apply bindM_ok_inv in H as (wo & g4 & _ & H).
  cbn [ret Monad_M] in H. apply Ok_inj in H. injection H as <- _. reflexivity.
Qed.

Lemma feed_forward_xavier_dropout m m' g g' :
  FeedForwardBlock.xavier m g = Ok (m', g') ->
  FeedForwardBlock.dropout m' = FeedForwardBlock.dropout m.
Proof.
  unfold FeedForwardBlock.xavier. intros H.
  apply bindM_ok_inv in H as (l1 & g1 & _ & H).
  apply bindM_ok_inv in H as (l2 & g2 & _ & H).
  cbn [ret Monad_M] in H. apply Ok_inj in H. injection H as <- _. reflexivity.
Qed.

(** What the loops of the construction give every block, and the pass
    over the parameters keeps: the dropout rate and the residual wrappers
    as constructed. *)
Lemma encoder_block_rates d h dff p bs st g b g' :
  encoder_block d h dff p bs st g = Ok (b, g') ->
  Dropout.p (SparseMultiHeadAttentionBlock.dropout (EncoderBlock.self_attention_block b)) = p /\
  Dropout.p (FeedForwardBlock.dropout (EncoderBlock.feed_forward_block b)) = p /\
  Forall (fun rc => ResidualConnection.init d p = Ok rc) (EncoderBlock.residual_connections b).
Proof.
  unfold encoder_block. intros H.
  apply bindM_ok_inv in H as (sa & g1 & Hsa & H).
  apply bindM_ok_inv in H as (ff & g2 & Hff & H).
  apply lift_ok_inv in H as (H & _). unfold EncoderBlock.init in H.
  apply bind_ok_inv in H as (rcs & Hrcs & H). apply Ok_inj in H. subst b.
  apply sparse_init_rate in Hsa. apply feed_forward_init_rate in Hff.
  apply residual_list_inits in Hrcs. cbn. auto.
Qed.

Lemma encoder_block_xavier_rates d p b g b' g' :
  EncoderBlock.xavier b g = Ok (b', g') ->
  Dropout.p (SparseMultiHeadAttentionBlock.dropout (EncoderBlock.self_attention_block b)) = p /\
  Dropout.p (FeedForwardBlock.dropout (EncoderBlock.feed_forward_block b)) = p /\
  Forall (fun rc => ResidualConnection.init d p = Ok rc)
         (EncoderBlock.residual_connections b) ->
  Dropout.p (SparseMultiHeadAttentionBlock.dropout (EncoderBlock.self_attention_block b')) = p /\
  Dropout.p (FeedForwardBlock.dropout (EncoderBlock.feed_forward_block b')) = p /\
  Forall (fun rc => ResidualConnection.init d p = Ok rc)
         (EncoderBlock.residual_connections b').
Proof.
  unfold EncoderBlock.xavier. intros H (Hsa & Hff & Hrcs).
  apply bindM_ok_inv in H as (sa & g1 & Esa & H).
  apply bindM_ok_inv in H as (ff & g2 & Eff & H).
  cbn [ret Monad_M] in H. apply Ok_inj in H. injection H as <- _.
  apply sparse_xavier_dropout in Esa. apply feed_forward_xavier_dropout in Eff.
  cbn [EncoderBlock.self_attention_block EncoderBlock.feed_forward_block
       EncoderBlock.residual_connections].
  rewrite Esa, Eff. auto.
Qed.

Lemma decoder_block_rates d h dff p bs st g b g' :
  decoder_block d h dff p bs st g = Ok (b, g') ->
  Dropout.p (SparseMultiHeadAttentionBlock.dropout (DecoderBlock.self_attention_block b)) = p /\
  Dropout.p (MultiHeadAttentionBlock.dropout (DecoderBlock.cross_attention_block b)) = p /\
  Dropout.p (FeedForwardBlock.dropout (DecoderBlock.feed_forward_block b)) = p /\
  Forall (fun rc => ResidualConnection.init d p = Ok rc) (DecoderBlock.residual_connection b).
Proof.
  unfold decoder_block. intros H.
  apply bindM_ok_inv in H as (sa & g1 & Hsa & H).
  apply bindM_ok_inv in H as (ca & g2 & Hca & H).
  apply bindM_ok_inv in H as (ff & g3 & Hff & H).
  apply lift_ok_inv in H as (H & _). unfold DecoderBlock.init in H.
  apply bind_ok_inv in H as (rcs & Hrcs & H). apply Ok_inj in H. subst b.
  apply sparse_init_rate in Hsa. apply dense_init_rate in Hca.
  apply feed_forward_init_rate in Hff. apply residual_list_inits in Hrcs. cbn. auto.
Qed.

Lemma decoder_block_xavier_rates d p b g b' g' :
  DecoderBlock.xavier b g = Ok (b', g') ->
  Dropout.p (SparseMultiHeadAttentionBlock.dropout (DecoderBlock.self_attention_block b)) = p /\
  Dropout.p (MultiHeadAttentionBlock.dropout (DecoderBlock.cross_attention_block b)) = p /\
  Dropout.p (FeedForwardBlock.dropout (DecoderBlock.feed_forward_block b)) = p /\
  Forall (fun rc => ResidualConnection.init d p = Ok rc)
         (DecoderBlock.residual_connection b) ->
  Dropout.p (SparseMultiHeadAttentionBlock.dropout (DecoderBlock.self_attention_block b')) = p /\
  Dropout.p (MultiHeadAttentionBlock.dropout (DecoderBlock.cross_attention_block b')) = p /\
  Dropout.p (FeedForwardBlock.dropout (DecoderBlock.feed_forward_block b')) = p /\
  Forall (fun rc => ResidualConnection.init d p = Ok rc)
         (DecoderBlock.residual_connection b').
Proof.
  unfold DecoderBlock.xavier. intros H (Hsa & Hca & Hff & Hrcs).
  apply bindM_ok_inv in H as (sa & g1 & Esa & H).
  apply bindM_ok_inv in H as (ca & g2 & Eca & H).
  apply bindM_ok_inv in H as (ff & g3 & Eff & H).
  cbn [ret Monad_M] in H. apply Ok_inj in H. injection H as <- _.
  apply sparse_xavier_dropout in Esa. apply dense_xavier_dropout in Eca.
  apply feed_forward_xavier_dropout in Eff.
  cbn [DecoderBlock.self_attention_block DecoderBlock.cross_attention_block
       DecoderBlock.feed_forward_block DecoderBlock.residual_connection].
  rewrite Esa, Eca, Eff. auto.
Qed.

Lemma build_rates sv tv sl tl d N h p dff bs st g m g' :
  build_sparse_transformer sv tv sl tl d N h p dff bs st g = Ok (m, g') ->
  Forall (fun b =>
    Dropout.p (SparseMultiHeadAttentionBlock.dropout (EncoderBlock.self_attention_block b))
    = p /\
    Dropout.p (FeedForwardBlock.dropout (EncoderBlock.feed_forward_block b)) = p /\
    Forall (fun rc => ResidualConnection.init d p = Ok rc)
           (EncoderBlock.residual_connections b))
    (Encoder.layers (Transformer.encoder m)) /\
  Forall (fun b =>
    Dropout.p (SparseMultiHeadAttentionBlock.dropout (DecoderBlock.self_attention_block b))
    = p /\
    Dropout.p (MultiHeadAttentionBlock.dropout (DecoderBlock.cross_attention_block b)) = p /\
    Dropout.p (FeedForwardBlock.dropout (DecoderBlock.feed_forward_block b)) = p /\
    Forall (fun rc => ResidualConnection.init d p = Ok rc)
           (DecoderBlock.residual_connection b))
    (Decoder.layers (Transformer.decoder m)) /\
  PositionalEncoding.init d sl p = Ok (Transformer.src_pos m) /\
  PositionalEncoding.init d tl p = Ok (Transformer.tgt_pos m) /\
  LayerNormalization.init d = Ok (Encoder.norm (Transformer.encoder m)) /\
  LayerNormalization.init d = Ok (Decoder.norm (Transformer.decoder m)).
Proof.
  intros H.
  eapply (build_blocks _ _ sv tv sl tl d N h p dff bs st g m g'
            (encoder_block_rates d h dff p bs st)
            (encoder_block_xavier_rates d p)
            (decoder_block_rates d h dff p bs st)
            (decoder_block_xavier_rates d p)) in H.
  destruct H as (_ & _ & HE & HD & Hrest). auto.
Qed.

(** X22. The pass over the parameters that ends construction leaves the
    positional tables and every layer normalisation as their constructors
    made them: scale one, shift zero. *)
Theorem built_model_keeps_positions_and_norms :
  forall (src_vocab_size tgt_vocab_size src_seq_len tgt_seq_len d_model N h : Z)
         (dropout : Q) (d_ff block_size stride : Z) (g g' : generator) (m : Transformer.t),
    build_sparse_transformer src_vocab_size tgt_vocab_size src_seq_len tgt_seq_len
      d_model N h dropout d_ff block_size stride g = Ok (m, g') ->
    PositionalEncoding.init d_model src_seq_len dropout = Ok (Transformer.src_pos m) /\
    PositionalEncoding.init d_model tgt_seq_len dropout = Ok (Transformer.tgt_pos m) /\
    LayerNormalization.init d_model = Ok (Encoder.norm (Transformer.encoder m)) /\
    LayerNormalization.init d_model = Ok (Decoder.norm (Transformer.decoder m)) /\
    Forall (fun b => Forall (fun rc => ResidualConnection.init d_model dropout = Ok rc)
                            (EncoderBlock.residual_connections b))
           (Encoder.layers (Transformer.encoder m)) /\
    Forall (fun b => Forall (fun rc => ResidualConnection.init d_model dropout = Ok rc)
                            (DecoderBlock.residual_connection b))
           (Decoder.layers (Transformer.decoder m)).
Proof.
  intros sv tv sl tl d N h p dff bs st g g' m Hb.
  apply build_rates in Hb as (HE & HD & Hsp & Htp & Hen & Hdn).
  repeat (split; [assumption|]). split.
  - eapply Forall_impl; [|exact HE]. now intros b (_ & _ & Hrc).
  - eapply Forall_impl; [|exact HD]. now intros b (_ & _ & _ & Hrc).
Qed.

Lemma built_model_keeps_positions_and_norms_witness :
  exists r,
    build_sparse_transformer 5 5 3 3 4 1 2 0 8 2 2 zero_tape = Ok r /\
    PositionalEncoding.init 4 3 0 = Ok (Transformer.src_pos (fst r)).
Proof.
  eexists. split; [vm_compute; reflexivity|].
  refine (proj1 (built_model_keeps_positions_and_norms 5 5 3 3 4 1 2 0 8 2 2 zero_tape _
                   (fst _) _)).
  vm_compute; reflexivity.
Defined.

(** X23. A model built with dropout rate zero draws no random numbers
    in its forward pass: the result is the same from every generator state,
    which is returned unchanged. *)
Theorem built_model_without_dropout_is_deterministic :
  forall (src_vocab_size tgt_vocab_size src_seq_len tgt_seq_len d_model N h : Z)
         (dropout : Q) (d_ff block_size stride : Z) (g0 g1 : generator) (m : Transformer.t)
         (encoder_input decoder_input : tensor Z)
         (encoder_mask decoder_mask : option (tensor bool)),
    build_sparse_transformer src_vocab_size tgt_vocab_size src_seq_len tgt_seq_len
      d_model N h dropout d_ff block_size stride g0 = Ok (m, g1) ->
    (dropout == 0)%Q ->
    exists r : result (tensor xreal),
      forall g,
        Transformer.forward m encoder_input decoder_input encoder_mask decoder_mask g =
        match r with Ok out => Ok (out, g) | Raise e => Raise e end.
Proof.
  intros sv tv sl tl d N h p dff bs st g0 g1 m ein din emask dmask Hb Hp.
  apply Qeq_bool_iff in Hp.
  apply build_rates in Hb as (HE & HD & Hsp & Htp & _ & _).
  assert (Hrc : forall rc, ResidualConnection.init d p = Ok rc ->
                           no_dropout (ResidualConnection.dropout rc)).
  { intros rc H. apply residual_init_rate in H as (E & _). unfold no_dropout. now rewrite E. }
  assert (HEq : Forall encoder_block_quiet (Encoder.layers (Transformer.encoder m))).
  { eapply Forall_impl; [|exact HE]. intros b (E1 & E2 & E3).
    unfold encoder_block_quiet, no_dropout. rewrite E1, E2.
    repeat split; try assumption. eapply Forall_impl; [|exact E3]. exact Hrc. }
  assert (HDq : Forall decoder_block_quiet (Decoder.layers (Transformer.decoder m))).
  { eapply Forall_impl; [|exact HD]. intros b (E1 & E2 & E3 & E4).
    unfold decoder_block_quiet, no_dropout. rewrite E1, E2, E3.
    repeat split; try assumption. eapply Forall_impl; [|exact E4]. exact Hrc. }
  assert (Hpos : forall L pe, PositionalEncoding.init d L p = Ok pe ->
                              no_dropout (PositionalEncoding.dropout pe)).
  { intros L pe H. unfold PositionalEncoding.init in H.
    apply bind_ok_inv in H as (dr & Hdr & H). apply bind_ok_inv in H as (t & _ & H).
    apply Ok_inj in H. subst pe. apply dropout_init_rate in Hdr.
    unfold no_dropout. cbn [PositionalEncoding.dropout]. now rewrite Hdr. }
  change (deterministic (Transformer.forward m ein din emask dmask)).
  unfold Transformer.forward.
  apply deterministic_bind; [apply deterministic_lift|]. intros src.
  apply deterministic_bind; [apply deterministic_positions, (Hpos _ _ Hsp)|]. intros src1.
  apply deterministic_bind; [now apply deterministic_encoder|]. intros enc.
  apply deterministic_bind; [apply deterministic_lift|]. intros tgt.
  apply deterministic_bind; [apply deterministic_positions, (Hpos _ _ Htp)|]. intros tgt1.
  apply deterministic_bind; [now apply deterministic_decoder|]. intros dec.
  apply deterministic_lift.
Qed.

Lemma built_model_without_dropout_is_deterministic_witness :
  exists r0,
    build_sparse_transformer 5 5 3 3 4 1 2 0 8 2 2 zero_tape = Ok r0 /\
    exists r : result (tensor xreal),
      forall g,
        Transformer.forward (fst r0) (Tensor int64 [1; 3] (fun _ => 3%Z))
          (Tensor int64 [1; 2] (fun _ => 1%Z)) None None g =
        match r with Ok out => Ok (out, g) | Raise e => Raise e end.
Proof.
  eexists. split; [vm_compute; reflexivity|].
  eapply (built_model_without_dropout_is_deterministic 5 5 3 3 4 1 2 0 8 2 2 zero_tape).
  - vm_compute; reflexivity.
  - reflexivity.
Defined.

(* ================================================================== *)
(** * Initial weights *)

(** ** The range of the weights *)

Lemma unit_samples_advance n g : unit_samples g -> unit_samples (advance n g).
Proof. intros H i. apply H. Qed.

Lemma yields_weaken {A} (P Q : A -> Prop) (c : M A) :
  (forall a, P a -> Q a) -> yields P c -> yields Q c.
Proof.
  intros HPQ Hc g a g' E Hg. destruct (Hc g a g' E Hg) as (Ha & Hg'). auto.
Qed.

Lemma yields_ret {A} (P : A -> Prop) (a : A) : P a -> yields P (ret a).
Proof.
  intros Ha g b g' E Hg. cbn [ret Monad_M] in E. apply Ok_inj in E.
  injection E as <- <-. auto.
Qed.

Lemma yields_lift {A} (r : result A) : yields (fun _ => True) (lift r).
Proof.
  intros g a g' E Hg. apply lift_ok_inv in E as (_ & ->). auto.
Qed.

Lemma yields_bind {A B} (P : A -> Prop) (Q : B -> Prop) (c : M A) (k : A -> M B) :
  yields P c -> (forall a, P a -> yields Q (k a)) -> yields Q (bind c k).
Proof.
  intros Hc Hk g b g' E Hg. apply bindM_ok_inv in E as (a & g1 & Ea & Eb).
  destruct (Hc g a g1 Ea Hg) as (Ha & Hg1). exact (Hk a Ha g1 b g' Eb Hg1).
Qed.

Lemma yields_repeatM {A} (P : A -> Prop) (c : M A) n :
  yields P c -> yields (Forall P) (repeatM n c).
Proof.
  intros Hc. induction n as [|n IH]; cbn [repeatM].
  - apply yields_ret. constructor.
  - apply (yields_bind P); [exact Hc|]. intros a Ha.
    apply (yields_bind (Forall P)); [exact IH|]. intros rest Hrest.
    apply yields_ret. now constructor.
Qed.

Lemma yields_mapM {A B} (P : B -> Prop) (f : A -> M B) l :
  (forall a, yields P (f a)) -> yields (Forall P) (mapM f l).
Proof.
  intros Hf. induction l as [|a l IH]; cbn [mapM].
  - apply yields_ret. constructor.
  - apply (yields_bind P); [apply Hf|]. intros b Hb.
    apply (yields_bind (Forall P)); [exact IH|]. intros rest Hrest.
    apply yields_ret. now constructor.
Qed.

Lemma yields_uniform (t : tensor xreal) a b :
  yields (fun r => shape r = shape t /\
                   forall idx, exists u, (0 <= u < 1)%R /\
                     item r idx = xadd (Fin a) (xmul (Fin (b - a)) (Fin u)))
         (uniform_ t a b).
Proof.
  intros g r g' E Hg. unfold uniform_, rand in E. cbn [bind ret Monad_M] in E.
  apply Ok_inj in E. injection E as <- <-. split; [|now apply unit_samples_advance].
  split; [reflexivity|]. intros idx. cbn [item]. eexists. split; [apply Hg|reflexivity].
Qed.

Lemma yields_normal (t : tensor xreal) : yields (fun _ => True) (normal_ t).
Proof.
  intros g r g' E Hg. unfold normal_ in E. apply Ok_inj in E. injection E as _ <-.
  split; [exact I|now apply unit_samples_advance].
Qed.

Lemma yields_xavier_uniform (w : tensor xreal) :
  yields within_xavier_bound (xavier_uniform_ w).
Proof.
  unfold xavier_uniform_.
  destruct (shape w) as [|fo [|fi [|? ?]]] eqn:Es;
    try (intros g a g' E; discriminate E).
  destruct (fi + fo =? 0); [intros g a g' E; discriminate E|].
  eapply yields_weaken; [|apply yields_uniform].
  intros r (Hs & Hitem). exists fo, fi. split; [now rewrite Hs|].
  intros idx. destruct (Hitem idx) as (u & Hu & ->). cbn [xmul xadd].
  eexists. split; [reflexivity|].
  set (a := (sqrt 3 * sqrt (2 / INR (fi + fo)))%R).
  assert (Ha : (0 <= a)%R).
  { unfold a. apply Rmult_le_pos; apply sqrt_pos. }
  apply Rabs_le. split; nra.
Qed.

Lemma yields_linear_init i o b : yields (fun _ => True) (Linear.init i o b).
Proof.
  unfold Linear.init.
  apply (yields_bind (fun _ => True)); [apply yields_lift|]. intros w0 _.
  apply (yields_bind (fun _ => True));
    [eapply yields_weaken; [|apply yields_uniform]; auto|]. intros w _.
  destruct b.
  - apply (yields_bind (fun _ => True)); [apply yields_lift|]. intros b0 _.
    apply (yields_bind (fun _ => True));
      [eapply yields_weaken; [|apply yields_uniform]; auto|]. intros b1 _.
    now apply yields_ret.
  - now apply yields_ret.
Qed.

Lemma yields_linear_xavier l : yields linear_within_bound (Linear.xavier l).
Proof.
  unfold Linear.xavier.
  apply (yields_bind within_xavier_bound); [apply yields_xavier_uniform|]. intros w Hw.
  now apply yields_ret.
Qed.

Lemma yields_sparse_init d h p bs st c :
  yields (fun _ => True) (SparseMultiHeadAttentionBlock.init d h p bs st c).
Proof.
  unfold SparseMultiHeadAttentionBlock.init.
  destruct (h =? 0)%Z; [apply yields_lift|].
  destruct (negb (d mod h =? 0)%Z); [apply yields_lift|].
  do 4 (apply (yields_bind (fun _ => True)); [apply yields_linear_init|]; intros ? _).
  apply (yields_bind (fun _ => True)); [apply yields_lift|]. intros dr _.
  now apply yields_ret.
Qed.

Lemma yields_dense_init d h p : yields (fun _ => True) (MultiHeadAttentionBlock.init d h p).
Proof.
  unfold MultiHeadAttentionBlock.init.
  destruct (h =? 0)%Z; [apply yields_lift|].
  destruct (negb (d mod h =? 0)%Z); [apply yields_lift|].
  do 4 (apply (yields_bind (fun _ => True)); [apply yields_linear_init|]; intros ? _).
  apply (yields_bind (fun _ => True)); [apply yields_lift|]. intros dr _.
  now apply yields_ret.
Qed.

Lemma yields_feed_forward_init d dff p :
  yields (fun _ => True) (FeedForwardBlock.init d dff p).
Proof.
  unfold FeedForwardBlock.init.
  apply (yields_bind (fun _ => True)); [apply yields_linear_init|]. intros l1 _.
  apply (yields_bind (fun _ => True)); [apply yields_lift|]. intros dr _.
  apply (yields_bind (fun _ => True)); [apply yields_linear_init|]. intros l2 _.
  now apply yields_ret.
Qed.

Lemma yields_encoder_block d h dff p bs st :
  yields (fun _ => True) (encoder_block d h dff p bs st).
Proof.
  unfold encoder_block.
  apply (yields_bind (fun _ => True)); [apply yields_sparse_init|]. intros sa _.
  apply (yields_bind (fun _ => True)); [apply yields_feed_forward_init|]. intros ff _.
  apply yields_lift.
Qed.

Lemma yields_decoder_block d h dff p bs st :
  yields (fun _ => True) (decoder_block d h dff p bs st).
Proof.
  unfold decoder_block.
  apply (yields_bind (fun _ => True)); [apply yields_sparse_init|]. intros sa _.
  apply (yields_bind (fun _ => True)); [apply yields_dense_init|]. intros ca _.
  apply (yields_bind (fun _ => True)); [apply yields_feed_forward_init|]. intros ff _.
  apply yields_lift.
Qed.

Lemma yields_embeddings_init d v : yields (fun _ => True) (InputEmbeddings.init d v).
Proof.
  unfold InputEmbeddings.init, Embedding.init.
  apply (yields_bind (fun _ => True)); [|intros e _; now apply yields_ret].
  apply (yields_bind (fun _ => True)); [apply yields_lift|]. intros w0 _.
  apply (yields_bind (fun _ => True)); [apply yields_normal|]. intros w _.
  now apply yields_ret.
Qed.

Lemma yields_sparse_xavier m :
  yields sparse_within_bound (SparseMultiHeadAttentionBlock.xavier m).
Proof.
  unfold SparseMultiHeadAttentionBlock.xavier.
  apply (yields_bind linear_within_bound); [apply yields_linear_xavier|]. intros wq Hq.
  apply (yields_bind linear_within_bound); [apply yields_linear_xavier|]. intros wk Hk.
  apply (yields_bind linear_within_bound); [apply yields_linear_xavier|]. intros wv Hv.
  apply (yields_bind linear_within_bound); [apply yields_linear_xavier|]. intros wo Ho.
  apply yields_ret. split; [exact Hq|]. split; [exact Hk|]. split; [exact Hv|exact Ho].
Qed.

Lemma yields_dense_xavier m :
  yields dense_within_bound (MultiHeadAttentionBlock.xavier m).
Proof.
  unfold MultiHeadAttentionBlock.xavier.
  apply (yields_bind linear_within_bound); [apply yields_linear_xavier|]. intros wq Hq.
  apply (yields_bind linear_within_bound); [apply yields_linear_xavier|]. intros wk Hk.
  apply (yields_bind linear_within_bound); [apply yields_linear_xavier|]. intros wv Hv.
  apply (yields_bind linear_within_bound); [apply yields_linear_xavier|]. intros wo Ho.
  apply yields_ret. split; [exact Hq|]. split; [exact Hk|]. split; [exact Hv|exact Ho].
Qed.

Lemma yields_feed_forward_xavier m :
  yields feed_forward_within_bound (FeedForwardBlock.xavier m).
Proof.
  unfold FeedForwardBlock.xavier.
  apply (yields_bind linear_within_bound); [apply yields_linear_xavier|]. intros l1 H1.
  apply (yields_bind linear_within_bound); [apply yields_linear_xavier|]. intros l2 H2.
  apply yields_ret. split; [exact H1|exact H2].
Qed.

Lemma yields_encoder_block_xavier b :
  yields encoder_block_within_bound (EncoderBlock.xavier b).
Proof.
  unfold EncoderBlock.xavier.
  apply (yields_bind sparse_within_bound); [apply yields_sparse_xavier|]. intros sa Hsa.
  apply (yields_bind feed_forward_within_bound); [apply yields_feed_forward_xavier|].
  intros ff Hff. apply yields_ret. split; [exact Hsa|exact Hff].
Qed.

Lemma yields_decoder_block_xavier b :
  yields decoder_block_within_bound (DecoderBlock.xavier b).
Proof.
  unfold DecoderBlock.xavier.
  apply (yields_bind sparse_within_bound); [apply yields_sparse_xavier|]. intros sa Hsa.
  apply (yields_bind dense_within_bound); [apply yields_dense_xavier|]. intros ca Hca.
  apply (yields_bind feed_forward_within_bound); [apply yields_feed_forward_xavier|].
  intros ff Hff. apply yields_ret. split; [exact Hsa|]. split; [exact Hca|exact Hff].
Qed.

Lemma yields_transformer_xavier m :
  yields transformer_within_bound (Transformer.xavier m).
Proof.
  unfold Transformer.xavier.
  apply (yields_bind (fun e => Forall encoder_block_within_bound (Encoder.layers e))).
  { unfold Encoder.xavier.
    apply (yields_bind (Forall encoder_block_within_bound)).
    - apply yields_mapM. apply yields_encoder_block_xavier.
    - intros ls Hls. apply yields_ret. exact Hls. }
  intros enc Henc.
  apply (yields_bind (fun e => Forall decoder_block_within_bound (Decoder.layers e))).
  { unfold Decoder.xavier.
    apply (yields_bind (Forall decoder_block_within_bound)).
    - apply yields_mapM. apply yields_decoder_block_xavier.
    - intros ls Hls. apply yields_ret. exact Hls. }
  intros dec Hdec.
  assert (Hemb : forall e,
            yields (fun e' => within_xavier_bound
                                (Embedding.weight (InputEmbeddings.embedding e')))
                   (InputEmbeddings.xavier e)).
  { intros e. unfold InputEmbeddings.xavier, Embedding.xavier.
    apply (yields_bind (fun e' => within_xavier_bound (Embedding.weight e'))).
    - apply (yields_bind within_xavier_bound); [apply yields_xavier_uniform|].
      intros w Hw. apply yields_ret. exact Hw.
    - intros e' He'. apply yields_ret. exact He'. }
  eapply yields_bind; [apply Hemb|]. intros se Hse.
  eapply yields_bind; [apply Hemb|]. intros te Hte.
  apply (yields_bind (fun pl => linear_within_bound (ProjectionLayer.proj pl))).
  { unfold ProjectionLayer.xavier.
    apply (yields_bind linear_within_bound); [apply yields_linear_xavier|].
    intros l Hl. apply yields_ret. exact Hl. }
  intros pl Hpl. apply yields_ret.
  split; [exact Henc|]. split; [exact Hdec|]. split; [exact Hse|]. split; [exact Hte|exact Hpl].
Qed.

(** X24. When the generator's samples lie in [0, 1), every weight matrix
    of a built model, the embedding tables included, has shape
    (fan_out, fan_in) and finite entries of absolute value at most
    sqrt(3) * sqrt(2 / (fan_in + fan_out)); the generator left behind has
    its samples in [0, 1) again. *)
Theorem built_model_weights_within_xavier_bound :
  forall (src_vocab_size tgt_vocab_size src_seq_len tgt_seq_len d_model N h : Z)
         (dropout : Q) (d_ff block_size stride : Z) (g g' : generator) (m : Transformer.t),
    build_sparse_transformer src_vocab_size tgt_vocab_size src_seq_len tgt_seq_len
      d_model N h dropout d_ff block_size stride g = Ok (m, g') ->
    unit_samples g ->
    transformer_within_bound m /\ unit_samples g'.
Proof.
  intros sv tv sl tl d N h p dff bs st g g' m.
  enough (Hy : yields transformer_within_bound
                 (build_sparse_transformer sv tv sl tl d N h p dff bs st))
    by exact (Hy g m g').
  unfold build_sparse_transformer.
  apply (yields_bind (fun _ => True)); [apply yields_embeddings_init|]. intros se _.
  apply (yields_bind (fun _ => True)); [apply yields_embeddings_init|]. intros te _.
  apply (yields_bind (fun _ => True)); [apply yields_lift|]. intros sp _.
  apply (yields_bind (fun _ => True)); [apply yields_lift|]. intros tp _.
  apply (yields_bind (fun _ => True)).
  { eapply yields_weaken; [|apply yields_repeatM, yields_encoder_block]. auto. }
  intros ebs _.
  apply (yields_bind (fun _ => True)).
  { eapply yields_weaken; [|apply yields_repeatM, yields_decoder_block]. auto. }
  intros dbs _.
  apply (yields_bind (fun _ => True)); [apply yields_lift|]. intros enc _.
  apply (yields_bind (fun _ => True)); [apply yields_lift|]. intros dec _.
  apply (yields_bind (fun _ => True)).
  { unfold ProjectionLayer.init.
    apply (yields_bind (fun _ => True)); [apply yields_linear_init|]. intros l _.
    now apply yields_ret. }
  intros pl _. apply yields_transformer_xavier.
Qed.

Lemma built_model_weights_within_xavier_bound_witness :
  exists r,
    build_sparse_transformer 5 5 3 3 4 1 2 0 8 2 2 zero_tape = Ok r /\
    transformer_within_bound (fst r).
Proof.
  eexists. split; [vm_compute; reflexivity|].
  refine (proj1 (built_model_weights_within_xavier_bound 5 5 3 3 4 1 2 0 8 2 2 zero_tape _
                   (fst _) _ _)).
  - vm_compute; reflexivity.
  - intros i. unfold zero_tape. lra.
Defined.

(* ================================================================== *)
(** * No influence of later positions *)

(** ** No attention to later positions *)

Lemma matmul_items (B H n m p : nat) (x y : tensor xreal) :
  float_tensor [B; H; n; m] x -> float_tensor [B; H; m; p] y ->
  exists o, matmul x y = Ok o /\ float_tensor [B; H; n; p] o /\
    forall b j i k, b < B -> j < H ->
      item o [b; j; i; k] =
      xsum (map (fun c => xmul (item x [b; j; i; c]) (item y [b; j; c; k])) (seq 0 m)).
Proof.
  intros (Hxd & Hxs) (Hyd & Hys). unfold matmul. rewrite Hxs, Hys.
  cbn [rev app]. rewrite Hxd, Hyd. cbn [dtype_eqb negb].
  rewrite Nat.eqb_refl. cbn [negb].
  rewrite (broadcast_rev_same [H; B]). cbn [bind Monad_result].
  eexists. split; [reflexivity|]. split; [now split|].
  intros b j i k Hb Hj. cbn [item length Nat.sub firstn nth rev app].
  rewrite (bidx_in_bounds [B; H] [b; j]) by (repeat constructor; assumption).
  reflexivity.
Qed.

Lemma xsum_products_finite {A} (f g : A -> xreal) (l : list A) :
  (forall a, In a l -> is_finite (f a) = true /\ is_finite (g a) = true) ->
  exists r, xsum (map (fun a => xmul (f a) (g a)) l) = Fin r.
Proof.
  unfold xsum. generalize 0%R as acc.
  induction l as [|a l IH]; intros acc Hl; cbn [map fold_left].
  - now exists acc.
  - destruct (Hl a (or_introl eq_refl)) as (Hf & Hg).
    destruct (f a) as [x| | |]; try discriminate Hf.
    destruct (g a) as [y| | |]; try discriminate Hg.
    cbn [xmul xadd]. apply IH. intros b Hb. apply Hl. now right.
Qed.

Lemma sparse_masked_scores_items (m : SparseMultiHeadAttentionBlock.t)
    (B H T Dk : nat) (q k : tensor xreal) (mask : tensor bool) :
  SparseMultiHeadAttentionBlock.d_k m = Z.of_nat Dk ->
  float_tensor [B; H; T; Dk] q -> float_tensor [B; H; T; Dk] k ->
  shape mask = [B; H; T; T] ->
  exists s, SparseMultiHeadAttentionBlock.masked_scores m q k mask = Ok s /\
    float_tensor [B; H; T; T] s /\
    forall b j r c', b < B -> j < H -> r < T -> c' < T ->
      item s [b; j; r; c'] =
      if item mask [b; j; r; c']
      then xdiv (xsum (map (fun c => xmul (item q [b; j; r; c]) (item k [b; j; c'; c]))
                           (seq 0 Dk)))
                (Fin (sqrt (IZR (Z.of_nat Dk))))
      else NInf.
Proof.
  intros Edk Hq Hk Hm. unfold SparseMultiHeadAttentionBlock.masked_scores.
  rewrite (transpose_last_two k _ _ _ _ (proj2 Hk)). cbn [bind Monad_result].
  destruct (matmul_items B H T Dk T q
              (Tensor (dtype_of k) [B; H; Dk; T] (fun idx => item k (swap 2 3 idx))) Hq)
    as (s & Es & (Hsd & Hss) & Hitem); [split; [exact (proj1 Hk)|reflexivity]|].
  rewrite Es. cbn [bind Monad_result]. rewrite Edk, math_sqrt_nat. cbn [bind Monad_result].
  unfold masked_fill, map2. cbn [shape div_scalar tmap tensor_not dtype_of].
  assert (Hm' : shape (if dtype_eqb (dtype_of mask) bool_ then mask else to_bool mask)
                = [B; H; T; T]).
  { destruct (dtype_eqb (dtype_of mask) bool_); [exact Hm|exact Hm]. }
  rewrite Hm', Hss, broadcast_shapes_same. cbn [bind Monad_result].
  eexists. split; [reflexivity|]. split; [split; [exact Hsd|reflexivity]|].
  intros b j r c' Hb Hj Hr Hc'. cbn [item].
  rewrite (bidx_in_bounds [B; H; T; T] [b; j; r; c']) by (repeat constructor; assumption).
  unfold div_scalar, tensor_not. cbn [item tmap].
  rewrite (Hitem b j r c' Hb Hj). cbn [item swap nth_error set_nth].
  destruct (dtype_eqb (dtype_of mask) bool_); cbn [item to_bool tmap];
    destruct (item mask [b; j; r; c']); reflexivity.
Qed.

Lemma softmax_rows_agree (s s' : tensor xreal) (b j r : nat) :
  shape s = shape s' ->
  (forall c, c < last_dim (shape s) -> item s [b; j; r; c] = item s' [b; j; r; c]) ->
  forall c, c < last_dim (shape s) ->
    item (softmax s) [b; j; r; c] = item (softmax s') [b; j; r; c].
Proof.
  intros Hsh Hrow c Hc. cbn [softmax item]. rewrite (Hrow c Hc). f_equal.
  unfold row. rewrite <- Hsh. apply map_ext_in. intros c' Hc'. apply in_seq in Hc'.
  cbn [row_index removelast app]. apply Hrow. lia.
Qed.

Lemma sparse_attention_core (m : SparseMultiHeadAttentionBlock.t) (B H T Dk t : nat)
    (q k v q' k' v' : tensor xreal) (mask : tensor bool) (g : generator) :
  SparseMultiHeadAttentionBlock.d_k m = Z.of_nat Dk -> 0 < Dk ->
  no_dropout (SparseMultiHeadAttentionBlock.dropout m) ->
  shape mask = [B; H; T; T] ->
  (forall b j r, b < B -> j < H -> r < T ->
     exists c, c < T /\ item mask [b; j; r; c] = true) ->
  (forall b j r c, b < B -> j < H -> r < T -> c < T -> r < c ->
     item mask [b; j; r; c] = false) \/ T <= t + 1 ->
  paired_heads B H T Dk t q q' -> paired_heads B H T Dk t k k' ->
  paired_heads B H T Dk t v v' ->
  exists o o',
    SparseMultiHeadAttentionBlock.compute_attention m q k v mask g = Ok (o, g) /\
    SparseMultiHeadAttentionBlock.compute_attention m q' k' v' mask g = Ok (o', g) /\
    paired_heads B H T Dk t o o'.
Proof.
  intros Edk HDk Hdrop Hms Hsome Hcausal
    (Hq & Hq' & Fq & Fq' & Aq) (Hk & Hk' & Fk & Fk' & Ak) (Hv & Hv' & Fv & Fv' & Av).
  destruct (sparse_masked_scores_items m B H T Dk q k mask Edk Hq Hk Hms)
    as (s & Es & Hs & Is).
  destruct (sparse_masked_scores_items m B H T Dk q' k' mask Edk Hq' Hk' Hms)
    as (s' & Es' & Hs' & Is').
  destruct (matmul_items B H T T Dk (softmax s) v (softmax_typed _ _ Hs) Hv)
    as (o & Eo & Ho & Io).
  destruct (matmul_items B H T T Dk (softmax s') v' (softmax_typed _ _ Hs') Hv')
    as (o' & Eo' & Ho' & Io').
  assert (Hsq : sqrt (IZR (Z.of_nat Dk)) <> 0%R).
  { apply Rgt_not_eq, sqrt_lt_R0. apply IZR_lt. lia. }
  (* the scores of unmasked keys are finite *)
  assert (Hfin : forall (x y : tensor xreal) b j r c',
            finite_heads B H T Dk x -> finite_heads B H T Dk y ->
            b < B -> j < H -> r < T -> c' < T ->
            is_finite
              (xdiv (xsum (map (fun c => xmul (item x [b; j; r; c]) (item y [b; j; c'; c]))
                               (seq 0 Dk)))
                    (Fin (sqrt (IZR (Z.of_nat Dk))))) = true).
  { intros x y b j r c' Fx Fy Hb Hj Hr Hc'.
    destruct (xsum_products_finite (fun c => item x [b; j; r; c])
                (fun c => item y [b; j; c'; c]) (seq 0 Dk)) as (z & ->).
    - intros c Hc. apply in_seq in Hc. split; [apply Fx|apply Fy]; lia.
    - unfold xdiv. now rewrite (Reqb_false _ _ Hsq). }
  (* every row of scores is finite or masked, and not masked throughout *)
  assert (Hrows : forall (x y sc : tensor xreal) b j r,
            finite_heads B H T Dk x -> finite_heads B H T Dk y ->
            shape sc = [B; H; T; T] ->
            (forall b j r c', b < B -> j < H -> r < T -> c' < T ->
               item sc [b; j; r; c'] =
               if item mask [b; j; r; c']
               then xdiv (xsum (map (fun c => xmul (item x [b; j; r; c])
                                                   (item y [b; j; c'; c])) (seq 0 Dk)))
                         (Fin (sqrt (IZR (Z.of_nat Dk))))
               else NInf) ->
            b < B -> j < H -> r < T ->
            (forall z, In z (row sc [b; j; r; 0]) -> z = NInf \/ exists a, z = Fin a) /\
            (exists a, In (Fin a) (row sc [b; j; r; 0]))).
  { intros x y sc b j r Fx Fy Hsh Isc Hb Hj Hr.
    unfold row. rewrite Hsh. cbn [last_dim last row_index removelast app]. split.
    - intros z Hz. apply in_map_iff in Hz as (c0 & <- & Hc0). apply in_seq in Hc0.
      rewrite (Isc b j r c0 Hb Hj Hr ltac:(lia)).
      destruct (item mask [b; j; r; c0]); [right|now left].
      pose proof (Hfin x y b j r c0 Fx Fy Hb Hj Hr ltac:(lia)) as F.
      destruct (xdiv _ _) as [a| | |]; try discriminate F. now exists a.
    - destruct (Hsome b j r Hb Hj Hr) as (c0 & Hc0 & Hm0).
      pose proof (Isc b j r c0 Hb Hj Hr Hc0) as E0. rewrite Hm0 in E0.
      pose proof (Hfin x y b j r c0 Fx Fy Hb Hj Hr Hc0) as F.
      destruct (xdiv _ _) as [a| | |]; try discriminate F.
      exists a. apply in_map_iff. exists c0. split; [exact E0|apply in_seq; lia]. }
  assert (Hweight : forall (sc : tensor xreal) b j r c',
            shape sc = [B; H; T; T] -> c' < T ->
            item (softmax sc) [b; j; r; c'] =
            softmax_row (row sc [b; j; r; 0]) (item sc [b; j; r; c'])).
  { intros sc b j r c' Hsh Hc'. reflexivity. }
  (* the weights are finite, and zero for a masked key *)
  assert (Hwfin : forall (x y sc : tensor xreal) b j r c',
            finite_heads B H T Dk x -> finite_heads B H T Dk y ->
            shape sc = [B; H; T; T] ->
            (forall b j r c', b < B -> j < H -> r < T -> c' < T ->
               item sc [b; j; r; c'] =
               if item mask [b; j; r; c']
               then xdiv (xsum (map (fun c => xmul (item x [b; j; r; c])
                                                   (item y [b; j; c'; c])) (seq 0 Dk)))
                         (Fin (sqrt (IZR (Z.of_nat Dk))))
               else NInf) ->
            b < B -> j < H -> r < T -> c' < T ->
            is_finite (item (softmax sc) [b; j; r; c']) = true /\
            (item mask [b; j; r; c'] = false -> item (softmax sc) [b; j; r; c'] = Fin 0)).
  { intros x y sc b j r c' Fx Fy Hsh Isc Hb Hj Hr Hc'.
    destruct (Hrows x y sc b j r Fx Fy Hsh Isc Hb Hj Hr) as (Hrow & Hex).
    rewrite (Hweight sc b j r c' Hsh Hc'). split.
    - destruct (softmax_row_distribution _ Hrow Hex) as (_ & Hw).
      destruct (Hw (item sc [b; j; r; c'])) as (w & -> & _); [|reflexivity].
      unfold row. rewrite Hsh. cbn [last_dim last row_index removelast app].
      apply in_map_iff. exists c'. split; [reflexivity|apply in_seq; lia].
    - intros Em. rewrite (Isc b j r c' Hb Hj Hr Hc'), Em.
      now apply softmax_row_masked. }
  (* up to [t] the scores agree *)
  assert (Hsame : forall b j r c', b < B -> j < H -> r < T -> c' < T -> r <= t ->
            item s [b; j; r; c'] = item s' [b; j; r; c']).
  { intros b j r c' Hb Hj Hr Hc' Hrt.
    rewrite (Is b j r c' Hb Hj Hr Hc'), (Is' b j r c' Hb Hj Hr Hc').
    destruct (item mask [b; j; r; c']) eqn:Em; [|reflexivity].
    assert (Hct : c' <= t).
    { destruct Hcausal as [Hfuture|HT]; [|lia].
      destruct (Nat.le_gt_cases c' r) as [Hle|Hgt]; [lia|].
      rewrite (Hfuture b j r c' Hb Hj Hr Hc' Hgt) in Em. discriminate Em. }
    do 2 f_equal. apply map_ext_in. intros c Hc. apply in_seq in Hc.
    rewrite (Aq b j r c), (Ak b j c' c) by lia. reflexivity. }
  assert (Hw : forall b j r c', b < B -> j < H -> r < T -> c' < T -> r <= t ->
            item (softmax s) [b; j; r; c'] = item (softmax s') [b; j; r; c']).
  { intros b j r c' Hb Hj Hr Hc' Hrt.
    apply softmax_rows_agree.
    - now rewrite (proj2 Hs), (proj2 Hs').
    - rewrite (proj2 Hs). cbn [last_dim last]. intros c Hc. now apply Hsame.
    - rewrite (proj2 Hs). cbn [last_dim last]. exact Hc'. }
  assert (Hrun : forall (x y z sc out : tensor xreal),
            SparseMultiHeadAttentionBlock.masked_scores m x y mask = Ok sc ->
            matmul (softmax sc) z = Ok out ->
            SparseMultiHeadAttentionBlock.compute_attention m x y z mask g = Ok (out, g)).
  { intros x y z sc out E1 E2. unfold SparseMultiHeadAttentionBlock.compute_attention.
    cbn [bind Monad_M]. unfold lift at 1. rewrite E1.
    unfold Dropout.forward. unfold no_dropout in Hdrop. rewrite Hdrop, orb_true_r.
    cbn [orb ret Monad_M]. unfold lift. now rewrite E2. }
  assert (Hofin : forall (x y z sc out : tensor xreal),
            finite_heads B H T Dk x -> finite_heads B H T Dk y -> finite_heads B H T Dk z ->
            shape sc = [B; H; T; T] ->
            (forall b j r c', b < B -> j < H -> r < T -> c' < T ->
               item sc [b; j; r; c'] =
               if item mask [b; j; r; c']
               then xdiv (xsum (map (fun c => xmul (item x [b; j; r; c])
                                                   (item y [b; j; c'; c])) (seq 0 Dk)))
                         (Fin (sqrt (IZR (Z.of_nat Dk))))
               else NInf) ->
            (forall b j i k0, b < B -> j < H ->
               item out [b; j; i; k0] =
               xsum (map (fun c => xmul (item (softmax sc) [b; j; i; c]) (item z [b; j; c; k0]))
                         (seq 0 T))) ->
            finite_heads B H T Dk out).
  { intros x y z sc out Fx Fy Fz Hsh Isc Iout b j r c Hb Hj Hr Hc.
    rewrite (Iout b j r c Hb Hj).
    destruct (xsum_products_finite (fun c' => item (softmax sc) [b; j; r; c'])
                (fun c' => item z [b; j; c'; c]) (seq 0 T)) as (a & ->); [|reflexivity].
    intros c' Hc'. apply in_seq in Hc'. split.
    - apply (Hwfin x y sc b j r c' Fx Fy Hsh Isc); lia.
    - apply Fz; lia. }
  exists o, o'. split; [now apply (Hrun q k v s o)|]. split; [now apply (Hrun q' k' v' s' o')|].
  split; [exact Ho|]. split; [exact Ho'|].
  split; [exact (Hofin q k v s o Fq Fk Fv (proj2 Hs) Is Io)|].
  split; [exact (Hofin q' k' v' s' o' Fq' Fk' Fv' (proj2 Hs') Is' Io')|].
  intros b j r c Hb Hj Hr Hc Hrt.
  rewrite (Io b j r c Hb Hj), (Io' b j r c Hb Hj). f_equal.
  apply map_ext_in. intros c' Hc'. apply in_seq in Hc'.
  destruct (Nat.le_gt_cases c' t) as [Hle|Hgt].
  - rewrite (Hw b j r c'), (Av b j c' c) by lia. reflexivity.
  - destruct Hcausal as [Hfuture|HT]; [|lia].
    destruct (Hwfin q k s b j r c' Fq Fk (proj2 Hs) Is) as (_ & ->); try lia.
    2:{ apply Hfuture; lia. }
    destruct (Hwfin q' k' s' b j r c' Fq' Fk' (proj2 Hs') Is') as (_ & ->); try lia.
    2:{ apply Hfuture; lia. }
    pose proof (Fv b j c' c Hb Hj ltac:(lia) Hc) as F1.
    pose proof (Fv' b j c' c Hb Hj ltac:(lia) Hc) as F2.
    destruct (item v [b; j; c'; c]) as [a| | |]; try discriminate F1.
    destruct (item v' [b; j; c'; c]) as [a'| | |]; try discriminate F2.
    cbn [xmul]. f_equal. ring.
Qed.



(** ** Layers that act position by position *)

Lemma is_finite_inv x : is_finite x = true -> exists r, x = Fin r.
Proof. destruct x as [r| | |]; try discriminate. now exists r. Qed.

Lemma linear_layer (l : Linear.t) (B T i o t : nat) :
  linear_shaped i o l -> linear_finite l ->
  layer_ok B T i o t (fun x => lift (Linear.forward l x)).
Proof.
  intros (Hwd & Hws) (Fw & Fb) x y g (Hx & Hy & Fx & Fy & A).
  assert (Hrun : forall z, float_tensor [B; T; i] z -> finite_rows B T i z ->
            exists z', Linear.forward l z = Ok z' /\ float_tensor [B; T; o] z' /\
              finite_rows B T o z' /\
              forall b r k, item z' [b; r; k] =
                let s := xsum (map (fun c => xmul (item z [b; r; c])
                                                  (item (Linear.weight l) [k; c]))
                                   (seq 0 i)) in
                match Linear.bias l with
                | Some bias => xadd s (item bias [k])
                | None => s
                end).
  { intros z (Hzd & Hzs) Fz. unfold Linear.forward, linear. rewrite Hws, Hzs.
    cbn [rev app]. rewrite Hzd, Hwd. cbn [dtype_eqb negb]. rewrite Nat.eqb_refl.
    cbn [negb]. eexists. split; [reflexivity|]. split; [split; reflexivity|].
    split; [|intros b r k; reflexivity].
    intros b r k Hb Hr Hk. cbn [item last row_index removelast app].
    destruct (xsum_products_finite (fun c => item z [b; r; c])
                (fun c => item (Linear.weight l) [k; c]) (seq 0 i)) as (s & ->).
    - intros c Hc. apply in_seq in Hc. split; [apply Fz; lia|apply Fw].
    - destruct (Linear.bias l) as [bias|]; [|reflexivity].
      destruct (is_finite_inv _ (Fb [k])) as (v & ->). reflexivity. }
  destruct (Hrun x Hx Fx) as (x' & Ex & Hx' & Fx' & Ix).
  destruct (Hrun y Hy Fy) as (y' & Ey & Hy' & Fy' & Iy).
  exists x', y'. unfold lift. rewrite Ex, Ey. repeat split; try assumption;
    try apply Hx'; try apply Hy'.
  intros b r k Hb Hr Hk Hrt. rewrite Ix, Iy. cbv zeta.
  replace (map (fun c => xmul (item y [b; r; c]) (item (Linear.weight l) [k; c])) (seq 0 i))
    with (map (fun c => xmul (item x [b; r; c]) (item (Linear.weight l) [k; c])) (seq 0 i));
    [reflexivity|].
  apply map_ext_in. intros c Hc. apply in_seq in Hc. rewrite (A b r c) by lia. reflexivity.
Qed.

(** Sums of squares are not negative. *)
Lemma fold_squares_nonneg (mu : R) (l : list xreal) : forall acc,
  (forall v, In v l -> is_finite v = true) -> (0 <= acc)%R ->
  exists s, fold_left xadd (map (fun v => xmul (xsub v (Fin mu)) (xsub v (Fin mu))) l)
                      (Fin acc) = Fin s /\ (0 <= s)%R.
Proof.
  induction l as [|v l IH]; intros acc Hl Hacc; cbn [map fold_left].
  - now exists acc.
  - destruct (is_finite_inv _ (Hl v (or_introl eq_refl))) as (a & ->).
    cbn [xsub xneg xadd xmul]. apply IH; [intros w Hw; apply Hl; now right|].
    pose proof (Rle_0_sqr (a + - mu)) as Hsq. unfold Rsqr in Hsq. lra.
Qed.

Lemma xsum_finite (l : list xreal) :
  (forall v, In v l -> is_finite v = true) -> exists s, xsum l = Fin s.
Proof.
  unfold xsum. generalize 0%R as acc.
  induction l as [|v l IH]; intros acc Hl; cbn [fold_left].
  - now exists acc.
  - destruct (is_finite_inv _ (Hl v (or_introl eq_refl))) as (a & ->).
    cbn [xadd]. apply IH. intros w Hw. apply Hl. now right.
Qed.

Lemma norm_layer (n : LayerNormalization.t) (B T D t : nat) :
  norm_shaped D n -> norm_finite n ->
  layer_ok B T D D t (fun x => lift (LayerNormalization.forward n x)).
Proof.
  intros ((Had & Has) & (Hbd & Hbs)) (Fa & Fb & (e & Ee & He)) x y g (Hx & Hy & Fx & Fy & A).
  assert (Hrun : forall z, float_tensor [B; T; D] z -> finite_rows B T D z ->
            exists z', LayerNormalization.forward n z = Ok z' /\ float_tensor [B; T; D] z' /\
              finite_rows B T D z' /\
              forall b r c, b < B -> r < T -> c < D ->
                item z' [b; r; c] =
                let row := map (fun j => item z [b; r; j]) (seq 0 D) in
                let mu := xdiv (xsum row) (x_of_nat D) in
                let var := xdiv (xsum (map (fun v => xmul (xsub v mu) (xsub v mu)) row))
                                (x_of_nat D) in
                xadd (xmul (item (LayerNormalization.alpha n) [c])
                           (xdiv (xsub (item z [b; r; c]) mu)
                                 (xsqrt (xadd var (LayerNormalization.eps n)))))
                     (item (LayerNormalization.bias n) [c])).
  { intros z (Hzd & Hzs) Fz.
    unfold LayerNormalization.forward, tensor_sub, tensor_div, tensor_mul, tensor_add, map2.
    cbn [shape mean_last var_last tmap add_scalar dtype_of]. rewrite Hzs.
    cbn [keepdim_shape removelast app]. rewrite broadcast_keepdim.
    cbn [bind Monad_result shape]. rewrite broadcast_keepdim.
    cbn [bind Monad_result shape]. rewrite Has, broadcast_vector_left.
    cbn [bind Monad_result shape]. rewrite Hbs, broadcast_vector_right.
    cbn [bind Monad_result dtype_of]. rewrite Hzd, Had, Hbd.
    eexists. split; [reflexivity|]. split; [split; reflexivity|].
    match goal with |- _ /\ ?Q => assert (Hitem : Q) end.
    { intros b r c Hb Hr Hc.
      assert (Hin3 : in_bounds [B; T; D] [b; r; c]) by (repeat constructor; assumption).
      assert (Ek : bidx [B; T; 1] [b; r; c] = [b; r; 0]).
      { cbn [bidx length Nat.sub skipn pin_ones Nat.eqb].
        destruct (Nat.eqb_spec B 1) as [->|_]; destruct (Nat.eqb_spec T 1) as [->|_];
          repeat match goal with
            | H : ?v < 1 |- _ => replace v with 0 by lia; clear H
            end; reflexivity. }
      assert (Ev : bidx [D] [b; r; c] = [c]).
      { cbn [bidx length Nat.sub skipn pin_ones].
        destruct (Nat.eqb_spec D 1) as [->|_]; [f_equal; lia | reflexivity]. }
      cbn [item]. rewrite !(bidx_in_bounds _ _ Hin3), Ek, Ev.
      unfold mean_last, var_last, add_scalar, tmap. cbn [item shape dtype_of]. cbv zeta.
      unfold row. rewrite Hzs. cbn [last_dim last row_index removelast app]. reflexivity. }
    split; [|exact Hitem].
    intros b r c Hb Hr Hc. rewrite (Hitem b r c Hb Hr Hc). cbv zeta.
    assert (HD : INR D <> 0%R) by (apply not_0_INR; lia).
    destruct (xsum_finite (map (fun j => item z [b; r; j]) (seq 0 D))) as (sm & Esm).
    { intros v Hv. apply in_map_iff in Hv as (j & <- & Hj). apply in_seq in Hj.
      apply Fz; lia. }
    rewrite Esm. unfold x_of_nat. unfold xdiv at 3 4 5. rewrite (Reqb_false _ _ HD).
    destruct (fold_squares_nonneg (sm / INR D) (map (fun j => item z [b; r; j]) (seq 0 D)) 0)
      as (sq & Esq & Hsq); [|lra|].
    { intros v Hv. apply in_map_iff in Hv as (j & <- & Hj). apply in_seq in Hj.
      apply Fz; lia. }
    unfold xsum at 1. rewrite Esq. unfold xdiv at 2. rewrite (Reqb_false _ _ HD).
    rewrite Ee. cbn [xadd xsqrt].
    assert (Hpos : (0 < sq / INR D + e)%R).
    { assert (0 <= sq / INR D)%R; [|lra].
      apply Rmult_le_pos; [exact Hsq|]. left. apply Rinv_0_lt_compat.
      apply lt_0_INR. lia. }
    rewrite (Rltb_false (sq / INR D + e) 0) by lra.
    destruct (is_finite_inv _ (Fz b r c Hb Hr Hc)) as (v & ->). cbn [xsub xneg xadd].
    unfold xdiv. rewrite (Reqb_false (sqrt (sq / INR D + e)) 0)
      by (apply Rgt_not_eq, sqrt_lt_R0; exact Hpos).
    destruct (is_finite_inv _ (Fa [c])) as (al & ->).
    destruct (is_finite_inv _ (Fb [c])) as (be & ->). reflexivity. }
  destruct (Hrun x Hx Fx) as (x' & Ex & Hx' & Fx' & Ix).
  destruct (Hrun y Hy Fy) as (y' & Ey & Hy' & Fy' & Iy).
  exists x', y'. unfold lift. rewrite Ex, Ey.
  split; [reflexivity|]. split; [reflexivity|].
  split; [exact Hx'|]. split; [exact Hy'|]. split; [exact Fx'|]. split; [exact Fy'|].
  intros b r c Hb Hr Hc Hrt. rewrite (Ix b r c Hb Hr Hc), (Iy b r c Hb Hr Hc).
  replace (map (fun j => item y [b; r; j]) (seq 0 D))
    with (map (fun j => item x [b; r; j]) (seq 0 D)).
  - rewrite (A b r c Hb Hr Hc Hrt). reflexivity.
  - apply map_ext_in. intros j Hj. apply in_seq in Hj. apply A; lia.
Qed.

Lemma layer_ok_compose (B T D1 D2 D3 t : nat) (f k : tensor xreal -> M (tensor xreal)) :
  layer_ok B T D1 D2 t f -> layer_ok B T D2 D3 t k ->
  layer_ok B T D1 D3 t (fun x => bind (f x) k).
Proof.
  intros Hf Hk x y g P.
  destruct (Hf x y g P) as (x1 & y1 & Ex & Ey & P1).
  destruct (Hk x1 y1 g P1) as (x2 & y2 & Ex2 & Ey2 & P2).
  exists x2, y2. cbn [bind Monad_M]. rewrite Ex, Ey. auto.
Qed.

Lemma add_paired (B T D t : nat) (x x' y y' : tensor xreal) :
  paired B T D t x x' -> paired B T D t y y' ->
  exists r r', tensor_add x y = Ok r /\ tensor_add x' y' = Ok r' /\ paired B T D t r r'.
Proof.
  intros ((Hxd & Hxs) & (Hxd' & Hxs') & Fx & Fx' & Ax)
         ((Hyd & Hys) & (Hyd' & Hys') & Fy & Fy' & Ay).
  unfold tensor_add, map2.
  rewrite Hxs, Hys, Hxs', Hys', broadcast_shapes_same, Hxd, Hyd, Hxd', Hyd'.
  cbn [bind Monad_result]. eexists _, _. split; [reflexivity|]. split; [reflexivity|].
  split; [split; reflexivity|]. split; [split; reflexivity|].
  assert (Hb : forall b r c, b < B -> r < T -> c < D ->
            bidx [B; T; D] [b; r; c] = [b; r; c]).
  { intros b r c Hb Hr Hc. apply bidx_in_bounds. repeat constructor; assumption. }
  split; [|split]; intros b r c Hb' Hr Hc; cbn [item]; rewrite (Hb b r c Hb' Hr Hc).
  - destruct (is_finite_inv _ (Fx b r c Hb' Hr Hc)) as (u & ->).
    destruct (is_finite_inv _ (Fy b r c Hb' Hr Hc)) as (v & ->). reflexivity.
  - destruct (is_finite_inv _ (Fx' b r c Hb' Hr Hc)) as (u & ->).
    destruct (is_finite_inv _ (Fy' b r c Hb' Hr Hc)) as (v & ->). reflexivity.
  - intros Hrt. now rewrite (Ax b r c), (Ay b r c).
Qed.

Lemma dropout_identity (d : Dropout.t) (x : tensor xreal) g :
  no_dropout d -> Dropout.forward d x g = Ok (x, g).
Proof.
  intros Hd. unfold Dropout.forward. unfold no_dropout in Hd.
  rewrite Hd, orb_true_r. reflexivity.
Qed.

Lemma residual_layer (rc : ResidualConnection.t) (B T D t : nat)
    (sublayer : tensor xreal -> M (tensor xreal)) :
  norm_shaped D (ResidualConnection.norm rc) ->
  norm_finite (ResidualConnection.norm rc) ->
  no_dropout (ResidualConnection.dropout rc) ->
  layer_ok B T D D t sublayer ->
  layer_ok B T D D t (fun x => ResidualConnection.forward rc x sublayer).
Proof.
  intros Hn Fn Hd Hs x y g P. unfold ResidualConnection.forward.
  destruct (norm_layer _ B T D t Hn Fn x y g P) as (nx & ny & Enx & Eny & Pn).
  destruct (Hs nx ny g Pn) as (ox & oy & Eox & Eoy & Po).
  destruct (add_paired B T D t x y ox oy P Po) as (rx & ry & Erx & Ery & Pr).
  exists rx, ry. cbn [bind Monad_M]. rewrite Enx, Eny, Eox, Eoy.
  rewrite !(dropout_identity _ _ _ Hd). unfold lift. rewrite Erx, Ery. auto.
Qed.

Lemma relu_paired (B T D t : nat) (x y : tensor xreal) :
  paired B T D t x y ->
  paired B T D t (tmap (dtype_of x) xrelu x) (tmap (dtype_of y) xrelu y).
Proof.
  intros ((Hxd & Hxs) & (Hyd & Hys) & Fx & Fy & A).
  split; [split; assumption|]. split; [split; assumption|].
  split; [|split]; intros b r c Hb Hr Hc; cbn [item tmap].
  - destruct (is_finite_inv _ (Fx b r c Hb Hr Hc)) as (u & ->). cbn [xrelu].
    destruct (Rltb u 0); reflexivity.
  - destruct (is_finite_inv _ (Fy b r c Hb Hr Hc)) as (u & ->). cbn [xrelu].
    destruct (Rltb u 0); reflexivity.
  - intros Hrt. now rewrite (A b r c).
Qed.

Lemma feed_forward_layer (m : FeedForwardBlock.t) (B T D t : nat) :
  feed_forward_shaped D m -> feed_forward_finite m ->
  no_dropout (FeedForwardBlock.dropout m) ->
  layer_ok B T D D t (FeedForwardBlock.forward m).
Proof.
  intros (dff & H1 & H2) (F1 & F2) Hd x y g P. unfold FeedForwardBlock.forward.
  destruct (linear_layer _ B T D dff t H1 F1 x y g P) as (ax & ay & Eax & Eay & Pa).
  destruct (linear_layer _ B T dff D t H2 F2 _ _ g (relu_paired _ _ _ _ _ _ Pa))
    as (ox & oy & Eox & Eoy & Po).
  exists ox, oy. cbn [bind Monad_M]. rewrite Eax, Eay.
  rewrite !(dropout_identity _ _ _ Hd). auto.
Qed.

(** Heads and back. *)
Lemma split_heads_paired (B T H Dk t : nat) (x y : tensor xreal) :
  paired B T (H * Dk) t x y ->
  exists s s',
    split_heads (Z.of_nat B) (Z.of_nat T) (Z.of_nat H) (Z.of_nat Dk) x = Ok s /\
    split_heads (Z.of_nat B) (Z.of_nat T) (Z.of_nat H) (Z.of_nat Dk) y = Ok s' /\
    paired_heads B H T Dk t s s'.
Proof.
  intros ((Hxd & Hxs) & (Hyd & Hys) & Fx & Fy & A).
  rewrite (split_heads_ok B T H Dk x Hxs), (split_heads_ok B T H Dk y Hys).
  eexists _, _. split; [reflexivity|]. split; [reflexivity|].
  split; [split; [exact Hxd|reflexivity]|]. split; [split; [exact Hyd|reflexivity]|].
  assert (Hidx : forall b j r c, b < B -> j < H -> r < T -> c < Dk ->
            unravel [B; T; H * Dk] (ravel [B; T; H; Dk] (swap 1 2 [b; j; r; c]))
            = [b; r; j * Dk + c] /\ j * Dk + c < H * Dk).
  { intros b j r c Hb Hj Hr Hc. cbn [swap nth_error set_nth].
    assert (Hlt : j * Dk + c < H * Dk) by nia. split; [|exact Hlt].
    replace (ravel [B; T; H; Dk] [b; r; j; c])
      with (ravel [B; T; H * Dk] [b; r; j * Dk + c])
      by (cbn [ravel numel fold_right]; ring).
    apply unravel_ravel. repeat constructor; assumption. }
  split; [|split]; intros b j r c Hb Hj Hr Hc; cbn [item];
    destruct (Hidx b j r c Hb Hj Hr Hc) as (-> & Hlt).
  - now apply Fx.
  - now apply Fy.
  - intros Hrt. now apply A.
Qed.

Lemma merged_index (B T H Dk b r f : nat) :
  b < B -> r < T -> f < H * Dk ->
  swap 1 2 (unravel [B; T; H; Dk] (ravel [B; T; H * Dk] [b; r; f]))
  = [b; f / Dk; r; f mod Dk] /\ f / Dk < H /\ f mod Dk < Dk.
Proof.
  intros Hb Hr Hf.
  assert (HDk : 0 < Dk) by (destruct Dk; [lia|lia]).
  assert (Hq : f / Dk < H) by (apply Nat.Div0.div_lt_upper_bound; lia).
  assert (Hm : f mod Dk < Dk) by (apply Nat.mod_upper_bound; lia).
  split; [|auto].
  replace (ravel [B; T; H * Dk] [b; r; f])
    with (ravel [B; T; H; Dk] [b; r; f / Dk; f mod Dk]).
  - rewrite unravel_ravel by (repeat constructor; assumption). reflexivity.
  - cbn [ravel numel fold_right]. pose proof (Nat.div_mod_eq f Dk). nia.
Qed.

Lemma merged_paired (B H T Dk t : nat) (o o' : tensor xreal) :
  paired_heads B H T Dk t o o' ->
  paired B T (H * Dk) t
    (Tensor (dtype_of o) [B; T; H * Dk]
       (fun idx => item o (swap 1 2 (unravel [B; T; H; Dk] (ravel [B; T; H * Dk] idx)))))
    (Tensor (dtype_of o') [B; T; H * Dk]
       (fun idx => item o' (swap 1 2 (unravel [B; T; H; Dk] (ravel [B; T; H * Dk] idx))))).
Proof.
  intros ((Hod & Hos) & (Hod' & Hos') & Fo & Fo' & A).
  split; [split; [exact Hod|reflexivity]|]. split; [split; [exact Hod'|reflexivity]|].
  split; [|split]; intros b r f Hb Hr Hf; cbn [item];
    destruct (merged_index B T H Dk b r f Hb Hr Hf) as (-> & Hq & Hm).
  - now apply Fo.
  - now apply Fo'.
  - intros Hrt. now apply A.
Qed.

(** The mask the sparse block builds for itself. *)
Lemma own_mask (m : SparseMultiHeadAttentionBlock.t) (B T d h : nat) :
  sparse_shaped d h m ->
  exists am,
    SparseMultiHeadAttentionBlock.attn_mask m B T None = Ok am /\
    shape am = [B; h; T; T] /\
    (forall b j r, b < B -> j < h -> r < T ->
       exists c, c < T /\ item am [b; j; r; c] = true) /\
    (SparseMultiHeadAttentionBlock.causal m = true ->
     forall b j r c, b < B -> j < h -> r < T -> c < T -> r < c ->
       item am [b; j; r; c] = false).
Proof.
  intros (Hh & _ & Eh & _).
  assert (Hh0 : (0 <= SparseMultiHeadAttentionBlock.h m)%Z) by lia.
  assert (Eh' : Z.to_nat (SparseMultiHeadAttentionBlock.h m) = h) by lia.
  unfold SparseMultiHeadAttentionBlock.attn_mask.
  destruct (build_sparse_mask_ok m T B Hh0) as (am & Eam). rewrite Eam.
  exists am. split; [reflexivity|].
  apply build_sparse_mask_ok_inv in Eam as (H' & Hsh & HH & Hitem).
  rewrite (HH Hh0), Eh' in *. split; [exact Hsh|]. split.
  - intros b j r Hb Hj Hr. exists r. split; [exact Hr|].
    rewrite (Hitem b j r r Hb Hj Hr Hr). unfold sparse_allow.
    rewrite Z.eqb_refl. cbn [orb andb].
    destruct (SparseMultiHeadAttentionBlock.causal m); [apply Z.leb_refl|reflexivity].
  - intros Hc b j r c Hb Hj Hr Hc' Hlt.
    rewrite (Hitem b j r c Hb Hj Hr Hc'), Hc. now apply sparse_allow_causal.
Qed.

Lemma sparse_forward_layer (m : SparseMultiHeadAttentionBlock.t) (B T d h t : nat) :
  sparse_shaped d h m -> sparse_finite m -> 0 < d ->
  no_dropout (SparseMultiHeadAttentionBlock.dropout m) ->
  SparseMultiHeadAttentionBlock.causal m = true \/ T <= t + 1 ->
  layer_ok B T d d t (fun x => SparseMultiHeadAttentionBlock.forward m x x x None).
Proof.
  intros Hm (Fq & Fk & Fv & Fo) Hd Hdrop Hc x y g P.
  destruct (own_mask m B T d h Hm) as (am & Eam & Ham & Hsome & Hfuture).
  destruct Hm as (Hh & Hmod & Eh & Edk & Hwq & Hwk & Hwv & Hwo).
  destruct (exact_division d h ltac:(lia) Hmod) as (Ed & _).
  remember (d / h) as Dk eqn:EDk. clear EDk Hmod. subst d.
  assert (HDk : 0 < Dk) by nia.
  pose proof P as ((Hxd & Hxs) & (Hyd & Hys) & _).
  destruct (linear_layer _ B T _ _ t Hwq Fq x y g P) as (xq & yq & Exq & Eyq & Pq).
  destruct (linear_layer _ B T _ _ t Hwk Fk x y g P) as (xk & yk & Exk & Eyk & Pk).
  destruct (linear_layer _ B T _ _ t Hwv Fv x y g P) as (xv & yv & Exv & Eyv & Pv).
  apply lift_ok_inv in Exq as (Exq & _). apply lift_ok_inv in Eyq as (Eyq & _).
  apply lift_ok_inv in Exk as (Exk & _). apply lift_ok_inv in Eyk as (Eyk & _).
  apply lift_ok_inv in Exv as (Exv & _). apply lift_ok_inv in Eyv as (Eyv & _).
  destruct (split_heads_paired B T h Dk t xq yq Pq) as (q & q' & Eq & Eq' & Hq).
  destruct (split_heads_paired B T h Dk t xk yk Pk) as (k & k' & Ek & Ek' & Hk).
  destruct (split_heads_paired B T h Dk t xv yv Pv) as (v & v' & Ev & Ev' & Hv).
  destruct (sparse_attention_core m B h T Dk t q k v q' k' v' am g Edk HDk Hdrop Ham Hsome)
    as (o & o' & Eo & Eo' & Po); try assumption.
  { destruct Hc as [Hc|Hc]; [left; now apply Hfuture|now right]. }
  pose proof (merged_paired B h T Dk t o o' Po) as Pm.
  destruct (linear_layer _ B T _ _ t Hwo Fo _ _ g Pm) as (rx & ry & Erx & Ery & Pr).
  apply lift_ok_inv in Erx as (Erx & _). apply lift_ok_inv in Ery as (Ery & _).
  assert (Hrun : forall z xq' xk' xv' q0 k0 v0 o0 r0,
            shape z = [B; T; h * Dk] ->
            Linear.forward (SparseMultiHeadAttentionBlock.w_q m) z = Ok xq' ->
            Linear.forward (SparseMultiHeadAttentionBlock.w_k m) z = Ok xk' ->
            Linear.forward (SparseMultiHeadAttentionBlock.w_v m) z = Ok xv' ->
            split_heads (Z.of_nat B) (Z.of_nat T) (Z.of_nat h) (Z.of_nat Dk) xq' = Ok q0 ->
            split_heads (Z.of_nat B) (Z.of_nat T) (Z.of_nat h) (Z.of_nat Dk) xk' = Ok k0 ->
            split_heads (Z.of_nat B) (Z.of_nat T) (Z.of_nat h) (Z.of_nat Dk) xv' = Ok v0 ->
            SparseMultiHeadAttentionBlock.compute_attention m q0 k0 v0 am g = Ok (o0, g) ->
            shape o0 = [B; h; T; Dk] ->
            Linear.forward (SparseMultiHeadAttentionBlock.w_o m)
              (Tensor (dtype_of o0) [B; T; h * Dk]
                 (fun idx => item o0 (swap 1 2 (unravel [B; T; h; Dk]
                                                  (ravel [B; T; h * Dk] idx))))) = Ok r0 ->
            SparseMultiHeadAttentionBlock.forward m z z z None g = Ok (r0, g)).
  { intros z xq' xk' xv' q0 k0 v0 o0 r0 Hz E1 E2 E3 E4 E5 E6 E7 Ho0 E8.
    unfold SparseMultiHeadAttentionBlock.forward. cbn [bind Monad_M].
    unfold lift at 1. rewrite Hz. cbn [unpack3].
    unfold SparseMultiHeadAttentionBlock.compute_qkv. rewrite Hz. cbn [unpack3].
    cbn [bind Monad_result]. rewrite Eh, Edk, E1. cbn [bind Monad_result].
    rewrite E4. cbn [bind Monad_result]. rewrite E2. cbn [bind Monad_result].
    rewrite E5. cbn [bind Monad_result]. rewrite E3. cbn [bind Monad_result].
    rewrite E6. cbn [bind Monad_result lift]. rewrite Eam. cbn [lift]. rewrite E7.
    unfold SparseMultiHeadAttentionBlock.output_projection, lift.
    rewrite (sparse_merge_ok B h T Dk o0 Ho0). cbn [bind Monad_result]. now rewrite E8. }
  exists rx, ry.
  split; [apply (Hrun x xq xk xv q k v o rx); try assumption; apply Po|].
  split; [apply (Hrun y yq yk yv q' k' v' o' ry); try assumption; apply Po|].
  exact Pr.
Qed.

(** Attention over a fixed set of keys and values. *)
Lemma dense_attention_core (drop : Dropout.t) (B H T S Dk t : nat)
    (q q' k v : tensor xreal) (g : generator) :
  0 < Dk -> no_dropout drop ->
  paired_heads B H T Dk t q q' ->
  float_tensor [B; H; S; Dk] k -> float_tensor [B; H; S; Dk] v ->
  finite_heads B H S Dk k -> finite_heads B H S Dk v ->
  exists o o' w w',
    MultiHeadAttentionBlock.attention q k v None (Some drop) g = Ok ((o, w), g) /\
    MultiHeadAttentionBlock.attention q' k v None (Some drop) g = Ok ((o', w'), g) /\
    paired_heads B H T Dk t o o'.
Proof.
  intros HDk Hdrop (Hq & Hq' & Fq & Fq' & Aq) Hk Hv Fk Fv.
  assert (Hsq : sqrt (IZR (Z.of_nat Dk)) <> 0%R).
  { apply Rgt_not_eq, sqrt_lt_R0. apply IZR_lt. lia. }
  assert (Hrun : forall z, float_tensor [B; H; T; Dk] z -> finite_heads B H T Dk z ->
            exists s o,
              MultiHeadAttentionBlock.attention z k v None (Some drop) g
              = Ok ((o, softmax s), g) /\
              float_tensor [B; H; T; Dk] o /\ finite_heads B H T Dk o /\
              shape s = [B; H; T; S] /\
              (forall b j r c', b < B -> j < H -> r < T -> c' < S ->
                 item s [b; j; r; c'] =
                 xdiv (xsum (map (fun c => xmul (item z [b; j; r; c]) (item k [b; j; c'; c]))
                                 (seq 0 Dk)))
                      (Fin (sqrt (IZR (Z.of_nat Dk))))) /\
              (forall b j r c, b < B -> j < H ->
                 item o [b; j; r; c] =
                 xsum (map (fun c' => xmul (item (softmax s) [b; j; r; c'])
                                           (item v [b; j; c'; c])) (seq 0 S)))).
  { intros z Hz Fz.
    destruct (matmul_items B H T Dk S z
                (Tensor (dtype_of k) [B; H; Dk; S] (fun idx => item k (swap 2 3 idx))) Hz)
      as (s0 & Es0 & (Hs0d & Hs0s) & Is0); [split; [exact (proj1 Hk)|reflexivity]|].
    set (s := div_scalar s0 (Fin (sqrt (IZR (Z.of_nat Dk))))).
    assert (Hs : float_tensor [B; H; T; S] s) by (split; assumption).
    destruct (matmul_items B H T S Dk (softmax s) v (softmax_typed _ _ Hs) Hv)
      as (o & Eo & Ho & Io).
    assert (Is : forall b j r c', b < B -> j < H -> r < T -> c' < S ->
              item s [b; j; r; c'] =
              xdiv (xsum (map (fun c => xmul (item z [b; j; r; c]) (item k [b; j; c'; c]))
                              (seq 0 Dk)))
                   (Fin (sqrt (IZR (Z.of_nat Dk))))).
    { intros b j r c' Hb Hj Hr Hc'. unfold s, div_scalar. cbn [item tmap].
      rewrite (Is0 b j r c' Hb Hj). reflexivity. }
    assert (Hsfin : forall b j r c', b < B -> j < H -> r < T -> c' < S ->
              exists a, item s [b; j; r; c'] = Fin a).
    { intros b j r c' Hb Hj Hr Hc'. rewrite (Is b j r c' Hb Hj Hr Hc').
      destruct (xsum_products_finite (fun c => item z [b; j; r; c])
                  (fun c => item k [b; j; c'; c]) (seq 0 Dk)) as (a & ->).
      - intros c Hc. apply in_seq in Hc. split; [apply Fz|apply Fk]; lia.
      - unfold xdiv. rewrite (Reqb_false _ _ Hsq). eexists; reflexivity. }
    exists s, o. split.
    { unfold MultiHeadAttentionBlock.attention, MultiHeadAttentionBlock.masked_scores.
      rewrite (proj2 Hz). cbn [rev app bind Monad_result Monad_M].
      rewrite (transpose_last_two k _ _ _ _ (proj2 Hk)). cbn [bind Monad_result].
      rewrite Es0. cbn [bind Monad_result]. rewrite math_sqrt_nat.
      cbn [bind Monad_result lift]. fold s.
      rewrite (dropout_identity _ _ _ Hdrop). unfold lift. rewrite Eo. reflexivity. }
    split; [exact Ho|]. split; [|split; [exact (proj2 Hs)|split; [exact Is|exact Io]]].
    intros b j r c Hb Hj Hr Hc. rewrite (Io b j r c Hb Hj).
    destruct (xsum_products_finite (fun c' => item (softmax s) [b; j; r; c'])
                (fun c' => item v [b; j; c'; c]) (seq 0 S)) as (a & ->); [|reflexivity].
    intros c' Hc'. apply in_seq in Hc'. split; [|apply Fv; lia].
    cbn [softmax item].
    destruct (softmax_row_distribution (row s [b; j; r; c'])) as (_ & Hw).
    - intros u Hu. unfold row in Hu. rewrite (proj2 Hs) in Hu. cbn [last_dim last] in Hu.
      apply in_map_iff in Hu as (c0 & <- & Hc0). apply in_seq in Hc0.
      cbn [row_index removelast app]. right. apply Hsfin; lia.
    - destruct (Hsfin b j r c' Hb Hj Hr ltac:(lia)) as (a & Ea). exists a.
      unfold row. rewrite (proj2 Hs). cbn [last_dim last].
      apply in_map_iff. exists c'. split; [exact Ea|apply in_seq; lia].
    - destruct (Hw (item s [b; j; r; c'])) as (w & -> & _); [|reflexivity].
      unfold row. rewrite (proj2 Hs). cbn [last_dim last].
      apply in_map_iff. exists c'. split; [reflexivity|apply in_seq; lia]. }
  destruct (Hrun q Hq Fq) as (s & o & Eo & Ho & Fo & Hss & Is & Io).
  destruct (Hrun q' Hq' Fq') as (s' & o' & Eo' & Ho' & Fo' & Hss' & Is' & Io').
  exists o, o', (softmax s), (softmax s'). split; [exact Eo|]. split; [exact Eo'|].
  split; [exact Ho|]. split; [exact Ho'|]. split; [exact Fo|]. split; [exact Fo'|].
  intros b j r c Hb Hj Hr Hc Hrt. rewrite (Io b j r c Hb Hj), (Io' b j r c Hb Hj).
  f_equal. apply map_ext_in. intros c' Hc'. apply in_seq in Hc'. f_equal.
  apply softmax_rows_agree.
  - now rewrite Hss, Hss'.
  - rewrite Hss. cbn [last_dim last]. intros c0 Hc0.
    rewrite (Is b j r c0), (Is' b j r c0) by assumption.
    do 2 f_equal. apply map_ext_in. intros c1 Hc1. apply in_seq in Hc1.
    rewrite (Aq b j r c1) by lia. reflexivity.
  - rewrite Hss. cbn [last_dim last]. lia.
Qed.

Lemma dense_split_eq (m : MultiHeadAttentionBlock.t) (B T H Dk : nat) (x : tensor xreal) :
  MultiHeadAttentionBlock.h m = Z.of_nat H -> MultiHeadAttentionBlock.d_k m = Z.of_nat Dk ->
  shape x = [B; T; H * Dk] ->
  MultiHeadAttentionBlock.split m x =
  split_heads (Z.of_nat B) (Z.of_nat T) (Z.of_nat H) (Z.of_nat Dk) x.
Proof.
  intros Hh Hd Hx. unfold MultiHeadAttentionBlock.split, shape_at. rewrite Hx, Hh, Hd.
  reflexivity.
Qed.

Lemma dense_forward_layer (m : MultiHeadAttentionBlock.t) (B T S d h t : nat)
    (enc : tensor xreal) :
  dense_shaped d h m -> dense_finite m -> 0 < B -> 0 < d ->
  no_dropout (MultiHeadAttentionBlock.dropout m) ->
  float_tensor [B; S; d] enc -> finite_rows B S d enc ->
  layer_ok B T d d t (fun x => MultiHeadAttentionBlock.forward m x enc enc None).
Proof.
  intros (Hh & Hmod & Eh & Edk & Hwq & Hwk & Hwv & Hwo) (Fq & Fk & Fv & Fo) HB Hd Hdrop
    Henc Fenc x y g P.
  destruct (exact_division d h ltac:(lia) Hmod) as (Ed & _).
  remember (d / h) as Dk eqn:EDk. clear EDk Hmod. subst d.
  assert (HDk : 0 < Dk) by nia.
  assert (Penc : paired B S (h * Dk) 0 enc enc).
  { split; [exact Henc|]. split; [exact Henc|]. split; [exact Fenc|]. split; [exact Fenc|].
    intros b r c _ _ _ _. reflexivity. }
  destruct (linear_layer _ B T _ _ t Hwq Fq x y g P) as (xq & yq & Exq & Eyq & Pq).
  destruct (linear_layer _ B S _ _ 0 Hwk Fk enc enc g Penc) as (xk & xk' & Exk & _ & Pk).
  destruct (linear_layer _ B S _ _ 0 Hwv Fv enc enc g Penc) as (xv & xv' & Exv & _ & Pv).
  apply lift_ok_inv in Exq as (Exq & _). apply lift_ok_inv in Eyq as (Eyq & _).
  apply lift_ok_inv in Exk as (Exk & _). apply lift_ok_inv in Exv as (Exv & _).
  destruct (split_heads_paired B T h Dk t xq yq Pq) as (q & q' & Eq & Eq' & Hq).
  assert (Pk1 : paired B S (h * Dk) 0 xk xk).
  { destruct Pk as (A1 & _ & A3 & _). split; [exact A1|]. split; [exact A1|].
    split; [exact A3|]. split; [exact A3|]. intros b r c _ _ _ _. reflexivity. }
  assert (Pv1 : paired B S (h * Dk) 0 xv xv).
  { destruct Pv as (A1 & _ & A3 & _). split; [exact A1|]. split; [exact A1|].
    split; [exact A3|]. split; [exact A3|]. intros b r c _ _ _ _. reflexivity. }
  destruct (split_heads_paired B S h Dk 0 xk xk Pk1) as (k & k0 & Ek & _ & (Hk & _ & Fkk & _)).
  destruct (split_heads_paired B S h Dk 0 xv xv Pv1) as (v & v0 & Ev & _ & (Hv & _ & Fvv & _)).
  destruct (dense_attention_core (MultiHeadAttentionBlock.dropout m) B h T S Dk t q q' k v g
              HDk Hdrop Hq Hk Hv Fkk Fvv) as (o & o' & w & w' & Eo & Eo' & Po).
  pose proof (merged_paired B h T Dk t o o' Po) as Pm.
  destruct (linear_layer _ B T _ _ t Hwo Fo _ _ g Pm) as (rx & ry & Erx & Ery & Pr).
  apply lift_ok_inv in Erx as (Erx & _). apply lift_ok_inv in Ery as (Ery & _).
  assert (Hrun : forall z xq' q0 o0 w0 r0,
            Linear.forward (MultiHeadAttentionBlock.w_q m) z = Ok xq' ->
            shape xq' = [B; T; h * Dk] ->
            split_heads (Z.of_nat B) (Z.of_nat T) (Z.of_nat h) (Z.of_nat Dk) xq' = Ok q0 ->
            MultiHeadAttentionBlock.attention q0 k v None
              (Some (MultiHeadAttentionBlock.dropout m)) g = Ok ((o0, w0), g) ->
            shape o0 = [B; h; T; Dk] ->
            Linear.forward (MultiHeadAttentionBlock.w_o m)
              (Tensor (dtype_of o0) [B; T; h * Dk]
                 (fun idx => item o0 (swap 1 2 (unravel [B; T; h; Dk]
                                                  (ravel [B; T; h * Dk] idx))))) = Ok r0 ->
            MultiHeadAttentionBlock.forward m z enc enc None g = Ok (r0, g)).
  { intros z xq' q0 o0 w0 r0 E1 Hs1 E2 E3 Ho0 E4.
    unfold MultiHeadAttentionBlock.forward. cbn [bind Monad_M].
    unfold lift at 1. rewrite E1. unfold lift at 1. rewrite Exk.
    unfold lift at 1. rewrite Exv.
    rewrite (dense_split_eq m B T h Dk xq' Eh Edk Hs1), E2.
    rewrite (dense_split_eq m B S h Dk xk Eh Edk (proj2 (proj1 Pk))), Ek.
    rewrite (dense_split_eq m B S h Dk xv Eh Edk (proj2 (proj1 Pv))), Ev.
    cbn [lift]. rewrite E3.
    rewrite (dense_merge_ok m B h T Dk o0 Eh Edk Ho0) by nia.
    cbn [lift]. unfold lift. now rewrite E4. }
  exists rx, ry.
  split; [apply (Hrun x xq q o w rx); try assumption; [apply Pq|apply Po]|].
  split; [apply (Hrun y yq q' o' w' ry); try assumption; [apply Pq|apply Po]|].
  exact Pr.
Qed.

(** Blocks and stacks. *)
Lemma encoder_block_layer (b : EncoderBlock.t) (B T d h t : nat) :
  encoder_block_shaped d h b -> encoder_block_finite b -> encoder_block_quiet b ->
  0 < d ->
  SparseMultiHeadAttentionBlock.causal (EncoderBlock.self_attention_block b) = true
  \/ T <= t + 1 ->
  layer_ok B T d d t (fun x => EncoderBlock.forward b x None).
Proof.
  intros (Hsa & Hff & (Hlen & Hrcs)) (Fsa & Fff & Frcs) (Qsa & Qff & Qrcs) Hd Hc x y g P.
  unfold EncoderBlock.forward.
  destruct (EncoderBlock.residual_connections b) as [|rc0 [|rc1 [|? ?]]];
    try discriminate Hlen.
  inversion Hrcs as [|? ? H0 Hrcs']; subst. inversion Hrcs' as [|? ? H1 _]; subst.
  inversion Frcs as [|? ? F0 Frcs']; subst. inversion Frcs' as [|? ? F1 _]; subst.
  inversion Qrcs as [|? ? Q0 Qrcs']; subst. inversion Qrcs' as [|? ? Q1 _]; subst.
  cbn [bind Monad_M module_at nth_error lift].
  destruct (residual_layer rc0 B T d t _ H0 F0 Q0
              (sparse_forward_layer _ B T d h t Hsa Fsa Hd Qsa Hc) x y g P)
    as (x1 & y1 & Ex1 & Ey1 & P1).
  destruct (residual_layer rc1 B T d t _ H1 F1 Q1
              (feed_forward_layer _ B T d t Hff Fff Qff) x1 y1 g P1)
    as (x2 & y2 & Ex2 & Ey2 & P2).
  exists x2, y2. rewrite Ex1, Ey1, Ex2, Ey2. auto.
Qed.

Lemma decoder_block_layer (b : DecoderBlock.t) (B T S d h t : nat) (enc : tensor xreal) :
  decoder_block_shaped d h b -> decoder_block_finite b -> decoder_block_quiet b ->
  0 < B -> 0 < d ->
  SparseMultiHeadAttentionBlock.causal (DecoderBlock.self_attention_block b) = true ->
  float_tensor [B; S; d] enc -> finite_rows B S d enc ->
  layer_ok B T d d t (fun x => DecoderBlock.forward b x enc None None).
Proof.
  intros (Hsa & Hca & Hff & (Hlen & Hrcs)) (Fsa & Fca & Fff & Frcs) (Qsa & Qca & Qff & Qrcs)
    HB Hd Hc Henc Fenc x y g P.
  unfold DecoderBlock.forward.
  destruct (DecoderBlock.residual_connection b) as [|rc0 [|rc1 [|rc2 [|? ?]]]];
    try discriminate Hlen.
  inversion Hrcs as [|? ? H0 Hrcs']; subst. inversion Hrcs' as [|? ? H1 Hrcs'']; subst.
  inversion Hrcs'' as [|? ? H2 _]; subst.
  inversion Frcs as [|? ? F0 Frcs']; subst. inversion Frcs' as [|? ? F1 Frcs'']; subst.
  inversion Frcs'' as [|? ? F2 _]; subst.
  inversion Qrcs as [|? ? Q0 Qrcs']; subst. inversion Qrcs' as [|? ? Q1 Qrcs'']; subst.
  inversion Qrcs'' as [|? ? Q2 _]; subst.
  cbn [bind Monad_M module_at nth_error lift].
  destruct (residual_layer rc0 B T d t _ H0 F0 Q0
              (sparse_forward_layer _ B T d h t Hsa Fsa Hd Qsa (or_introl Hc)) x y g P)
    as (x1 & y1 & Ex1 & Ey1 & P1).
  destruct (residual_layer rc1 B T d t _ H1 F1 Q1
              (dense_forward_layer _ B T S d h t enc Hca Fca HB Hd Qca Henc Fenc) x1 y1 g P1)
    as (x2 & y2 & Ex2 & Ey2 & P2).
  destruct (residual_layer rc2 B T d t _ H2 F2 Q2
              (feed_forward_layer _ B T d t Hff Fff Qff) x2 y2 g P2)
    as (x3 & y3 & Ex3 & Ey3 & P3).
  exists x3, y3. rewrite Ex1, Ey1, Ex2, Ey2, Ex3, Ey3. auto.
Qed.

Lemma encoder_layer (m : Encoder.t) (B T d h : nat) :
  Forall (fun b => encoder_block_shaped d h b /\ encoder_block_finite b /\
                   encoder_block_quiet b) (Encoder.layers m) ->
  norm_shaped d (Encoder.norm m) -> norm_finite (Encoder.norm m) -> 0 < d ->
  layer_ok B T d d T (fun x => Encoder.forward m x None).
Proof.
  intros Hl Hn Fn Hd. unfold Encoder.forward.
  apply (layer_ok_compose B T d d d T (fun x => Encoder.run_layers (Encoder.layers m) x None)
           (fun x => lift (LayerNormalization.forward (Encoder.norm m) x)));
    [|now apply norm_layer].
  induction Hl as [|b layers (Hb1 & Hb2 & Hb3) Hl IH]; cbn [Encoder.run_layers].
  - intros x y g P. exists x, y. auto.
  - apply (layer_ok_compose B T d d d T (fun x => EncoderBlock.forward b x None)
             (fun x => Encoder.run_layers layers x None)); [|exact IH].
    apply (encoder_block_layer b B T d h T); try assumption. right. lia.
Qed.

Lemma decoder_layer (m : Decoder.t) (B T S d h t : nat) (enc : tensor xreal) :
  Forall (fun b => decoder_block_shaped d h b /\ decoder_block_finite b /\
                   decoder_block_quiet b /\
                   SparseMultiHeadAttentionBlock.causal (DecoderBlock.self_attention_block b)
                   = true) (Decoder.layers m) ->
  norm_shaped d (Decoder.norm m) -> norm_finite (Decoder.norm m) ->
  0 < B -> 0 < d ->
  float_tensor [B; S; d] enc -> finite_rows B S d enc ->
  layer_ok B T d d t (fun x => Decoder.forward m x enc None None).
Proof.
  intros Hl Hn Fn HB Hd Henc Fenc. unfold Decoder.forward.
  apply (layer_ok_compose B T d d d t
           (fun x => Decoder.run_layers (Decoder.layers m) x enc None None)
           (fun x => lift (LayerNormalization.forward (Decoder.norm m) x)));
    [|now apply norm_layer].
  induction Hl as [|b layers (Hb1 & Hb2 & Hb3 & Hb4) Hl IH]; cbn [Decoder.run_layers].
  - intros x y g P. exists x, y. auto.
  - apply (layer_ok_compose B T d d d t (fun x => DecoderBlock.forward b x enc None None)
             (fun x => Decoder.run_layers layers x enc None None)); [|exact IH].
    now apply (decoder_block_layer b B T S d h t enc).
Qed.

(** The two embedding stages. *)
Lemma embed_paired (m : InputEmbeddings.t) (B T vocab d t : nat) (x y : tensor Z) :
  embeddings_shaped vocab d m ->
  (forall idx, is_finite (item (Embedding.weight (InputEmbeddings.embedding m)) idx) = true) ->
  tokens B T vocab x -> tokens B T vocab y -> same_prefix B T t x y ->
  exists ex ey,
    InputEmbeddings.forward m x = Ok ex /\ InputEmbeddings.forward m y = Ok ey /\
    paired B T d t ex ey.
Proof.
  intros (Ed & (Hwd & Hws)) Fw Hx Hy A.
  set (w := Embedding.weight (InputEmbeddings.embedding m)) in *.
  assert (Hrun : forall z, tokens B T vocab z ->
            InputEmbeddings.forward m z =
            Ok (mul_scalar
                  (Tensor (dtype_of w) ([B; T] ++ [d])
                     (fun idx => item w [Z.to_nat (item z (removelast idx)); last idx 0]))
                  (Fin (sqrt (IZR (Z.of_nat d)))))).
  { intros z (Hz & Hrange).
    unfold InputEmbeddings.forward, Embedding.forward. fold w. rewrite Hws, Hz, Ed.
    replace (forallb _ (indices [B; T])) with true.
    - cbn [bind Monad_result]. rewrite math_sqrt_nat. reflexivity.
    - symmetry. apply forallb_forall. intros idx Hin. apply indices_in_bounds in Hin.
      inversion Hin as [|b ? r1 ? Hb Hr1]; subst.
      inversion Hr1 as [|r ? r2 ? Hr Hr2]; subst. inversion Hr2; subst.
      specialize (Hrange b r Hb Hr). apply andb_true_iff. split.
      + apply Z.leb_le. lia.
      + apply Z.ltb_lt. lia. }
  eexists _, _. split; [exact (Hrun x Hx)|]. split; [exact (Hrun y Hy)|].
  assert (Hfin : forall z, finite_rows B T d
            (mul_scalar
               (Tensor (dtype_of w) ([B; T] ++ [d])
                  (fun idx => item w [Z.to_nat (item z (removelast idx)); last idx 0]))
               (Fin (sqrt (IZR (Z.of_nat d)))))).
  { intros z b r c _ _ _. unfold mul_scalar, tmap. cbn [item shape dtype_of].
    destruct (is_finite_inv _ (Fw [Z.to_nat (item z (removelast [b; r; c])); last [b; r; c] 0]))
      as (a & ->). reflexivity. }
  split; [split; [exact Hwd|reflexivity]|]. split; [split; [exact Hwd|reflexivity]|].
  split; [apply Hfin|]. split; [apply Hfin|].
  intros b r c Hb Hr Hc Hrt. unfold mul_scalar, tmap. cbn [item shape dtype_of removelast last].
  rewrite (A b r Hb Hr Hrt). reflexivity.
Qed.

Lemma positions_layer (p : PositionalEncoding.t) (B T L d t : nat) :
  float_tensor [1; L; d] (PositionalEncoding.pe p) ->
  finite_rows 1 L d (PositionalEncoding.pe p) ->
  no_dropout (PositionalEncoding.dropout p) -> T <= L ->
  layer_ok B T d d t (PositionalEncoding.forward p).
Proof.
  intros (Hpd & Hps) Fp Hdrop HT x y g (Hx & Hy & Fx & Fy & A).
  assert (Hrun : forall z, float_tensor [B; T; d] z ->
            PositionalEncoding.forward p z g =
            Ok (Tensor float32 [B; T; d]
                  (fun idx => xadd (item z (bidx [B; T; d] idx))
                                   (item (PositionalEncoding.pe p) (bidx [1; T; d] idx))), g)).
  { intros z (Hzd & Hzs).
    unfold PositionalEncoding.forward, PositionalEncoding.add_positions, shape_at, slice_to.
    rewrite Hzs, Hps. cbn [nth_error bind Monad_result set_nth].
    rewrite Nat.min_l by exact HT.
    unfold tensor_add, map2. cbn [shape dtype_of item]. rewrite Hzs, broadcast_batch_row.
    cbn [bind Monad_result Monad_M lift]. rewrite Hzd, Hpd.
    apply dropout_identity. exact Hdrop. }
  assert (Hitem : forall z b r c, b < B -> r < T -> c < d ->
            item (Tensor float32 [B; T; d]
                    (fun idx => xadd (item z (bidx [B; T; d] idx))
                                     (item (PositionalEncoding.pe p) (bidx [1; T; d] idx))))
                 [b; r; c]
            = xadd (item z [b; r; c]) (item (PositionalEncoding.pe p) [0; r; c])).
  { intros z b r c Hb Hr Hc. cbn [item].
    rewrite bidx_in_bounds by (repeat constructor; assumption).
    cbn [bidx length Nat.sub skipn pin_ones Nat.eqb].
    destruct (Nat.eqb_spec T 1) as [->|_]; destruct (Nat.eqb_spec d 1) as [E|_];
      try rewrite E in *;
      repeat match goal with
        | H : ?v < 1 |- _ => replace v with 0 by lia; clear H
        end; reflexivity. }
  assert (Hfin : forall z, finite_rows B T d z ->
            finite_rows B T d
              (Tensor float32 [B; T; d]
                 (fun idx => xadd (item z (bidx [B; T; d] idx))
                                  (item (PositionalEncoding.pe p) (bidx [1; T; d] idx))))).
  { intros z Fz b r c Hb Hr Hc. rewrite (Hitem z b r c Hb Hr Hc).
    destruct (is_finite_inv _ (Fz b r c Hb Hr Hc)) as (u & ->).
    destruct (is_finite_inv _ (Fp 0 r c ltac:(lia) ltac:(lia) Hc)) as (v & ->).
    reflexivity. }
  eexists _, _. split; [exact (Hrun x Hx)|]. split; [exact (Hrun y Hy)|].
  split; [split; reflexivity|]. split; [split; reflexivity|].
  split; [now apply Hfin|]. split; [now apply Hfin|].
  intros b r c Hb Hr Hc Hrt. rewrite !Hitem by assumption.
  rewrite (A b r c Hb Hr Hc Hrt). reflexivity.
Qed.

Lemma same_tokens_paired (B T t : nat) (x : tensor Z) : same_prefix B T t x x.
Proof. intros b r _ _ _. reflexivity. Qed.

(** The whole forward pass, for a model of finite parameters whose dropout
    layers are idle and whose decoder blocks are causal, without masks. *)
Lemma transformer_core (m : Transformer.t) (sv tv sl tl d h B S T t : nat)
    (encoder_input decoder_input decoder_input' : tensor Z) (g : generator) :
  transformer_shaped sv tv sl tl d h m -> transformer_finite sl tl d m ->
  transformer_quiet m -> decoder_causal m ->
  0 < B -> 0 < d -> S <= sl -> T <= tl ->
  tokens B S sv encoder_input ->
  tokens B T tv decoder_input -> tokens B T tv decoder_input' ->
  same_prefix B T t decoder_input decoder_input' ->
  exists out out',
    Transformer.forward m encoder_input decoder_input None None g = Ok (out, g) /\
    Transformer.forward m encoder_input decoder_input' None None g = Ok (out', g) /\
    paired B T tv t out out'.
Proof.
  intros (Hel & Hen & Hdl & Hdn & Hse & Hte & Hsp & Htp & Hpl)
         (Fel & Fen & Fdl & Fdn & Fse & Fte & Fsp & Ftp & Fpl)
         (Qel & Qdl & Qsp & Qtp) Hc HB Hd HS HT Hein Hdin Hdin' A.
  destruct (embed_paired _ B S sv d S _ _ Hse Fse Hein Hein (same_tokens_paired B S S _))
    as (s0 & s0' & Es0 & _ & Ps0).
  destruct (positions_layer _ B S sl d S Hsp Fsp Qsp HS s0 s0 g) as (s1 & s1' & Es1 & _ & Ps1).
  { destruct Ps0 as (A1 & _ & A3 & _). split; [exact A1|]. split; [exact A1|].
    split; [exact A3|]. split; [exact A3|]. intros b r c _ _ _ _. reflexivity. }
  destruct (encoder_layer (Transformer.encoder m) B S d h
              (Forall_and Hel (Forall_and Fel Qel)) Hen Fen Hd s1 s1 g)
    as (e & e' & Ee & _ & Pe).
  { destruct Ps1 as (A1 & _ & A3 & _). split; [exact A1|]. split; [exact A1|].
    split; [exact A3|]. split; [exact A3|]. intros b r c _ _ _ _. reflexivity. }
  destruct Pe as (He & _ & Fe & _).
  destruct (embed_paired _ B T tv d t _ _ Hte Fte Hdin Hdin' A) as (t0 & t0' & Et0 & Et0' & Pt0).
  destruct (positions_layer _ B T tl d t Htp Ftp Qtp HT t0 t0' g Pt0)
    as (t1 & t1' & Et1 & Et1' & Pt1).
  destruct (decoder_layer (Transformer.decoder m) B T S d h t e
              (Forall_and Hdl (Forall_and Fdl (Forall_and Qdl Hc))) Hdn Fdn HB Hd He Fe
              t1 t1' g Pt1) as (o & o' & Eo & Eo' & Po).
  destruct (linear_layer _ B T d tv t Hpl Fpl o o' g Po) as (r & r' & Er & Er' & Pr).
  assert (Hrun : forall z z0 z1 zo zr,
            InputEmbeddings.forward (Transformer.tgt_embed m) z = Ok z0 ->
            PositionalEncoding.forward (Transformer.tgt_pos m) z0 g = Ok (z1, g) ->
            Decoder.forward (Transformer.decoder m) z1 e None None g = Ok (zo, g) ->
            lift (Linear.forward (ProjectionLayer.proj (Transformer.projection_layer m)) zo) g
            = Ok (zr, g) ->
            Transformer.forward m encoder_input z None None g = Ok (zr, g)).
  { intros z z0 z1 zo zr E0 E1 E2 E3. unfold Transformer.forward. cbn [bind Monad_M].
    unfold lift at 1. rewrite Es0, Es1, Ee. unfold lift at 1. rewrite E0, E1, E2.
    exact E3. }
  exists r, r'. split; [exact (Hrun _ _ _ _ _ Et0 Et1 Eo Er)|].
  split; [exact (Hrun _ _ _ _ _ Et0' Et1' Eo' Er')|exact Pr].
Qed.

(** ** The parameters of a built model are finite *)

Lemma returns_weaken {A} (P Q : A -> Prop) (c : M A) :
  (forall a, P a -> Q a) -> returns P c -> returns Q c.
Proof. intros HPQ Hc g a g' E. exact (HPQ a (Hc g a g' E)). Qed.

Lemma returns_ret {A} (P : A -> Prop) (a : A) : P a -> returns P (ret a).
Proof.
  intros Ha g b g' E. cbn [ret Monad_M] in E. apply Ok_inj in E. injection E as <- _.
  exact Ha.
Qed.

Lemma returns_lift {A} (P : A -> Prop) (r : result A) :
  (forall a, r = Ok a -> P a) -> returns P (lift r).
Proof. intros H g a g' E. apply lift_ok_inv in E as (E & _). now apply H. Qed.

Lemma returns_bind {A B} (P : A -> Prop) (Q : B -> Prop) (c : M A) (k : A -> M B) :
  returns P c -> (forall a, P a -> returns Q (k a)) -> returns Q (bind c k).
Proof.
  intros Hc Hk g b g' E. apply bindM_ok_inv in E as (a & g1 & Ea & Eb).
  exact (Hk a (Hc g a g1 Ea) g1 b g' Eb).
Qed.

Lemma returns_repeatM {A} (P : A -> Prop) (c : M A) n :
  returns P c -> returns (Forall P) (repeatM n c).
Proof.
  intros Hc. induction n as [|n IH]; cbn [repeatM].
  - apply returns_ret. constructor.
  - apply (returns_bind P); [exact Hc|]. intros a Ha.
    apply (returns_bind (Forall P)); [exact IH|]. intros rest Hrest.
    apply returns_ret. now constructor.
Qed.

Lemma returns_mapM {A} (P : A -> Prop) (f : A -> M A) l :
  (forall a, P a -> returns P (f a)) -> Forall P l -> returns (Forall P) (mapM f l).
Proof.
  intros Hf Hl. induction Hl as [|a l Ha Hl IH]; cbn [mapM].
  - apply returns_ret. constructor.
  - apply (returns_bind P); [now apply Hf|]. intros b Hb.
    apply (returns_bind (Forall P)); [exact IH|]. intros rest Hrest.
    apply returns_ret. now constructor.
Qed.

Lemma returns_uniform (t : tensor xreal) a b :
  returns (fun r => forall idx, is_finite (item r idx) = true) (uniform_ t a b).
Proof.
  intros g r g' E. unfold uniform_, rand in E. cbn [bind ret Monad_M] in E.
  apply Ok_inj in E. injection E as <- _. intros idx. reflexivity.
Qed.

Lemma returns_xavier_uniform (w : tensor xreal) :
  returns (fun r => forall idx, is_finite (item r idx) = true) (xavier_uniform_ w).
Proof.
  unfold xavier_uniform_.
  destruct (shape w) as [|fo [|fi [|? ?]]]; try (intros g a g' E; discriminate E).
  destruct (fi + fo =? 0); [intros g a g' E; discriminate E|]. apply returns_uniform.
Qed.

Lemma returns_linear_init i o b : returns linear_finite (Linear.init i o b).
Proof.
  unfold Linear.init.
  apply (returns_bind (fun _ => True)); [now apply returns_lift|]. intros w0 _.
  eapply returns_bind; [apply returns_uniform|]. cbv beta. intros w Hw.
  destruct b.
  - apply (returns_bind (fun _ => True)); [now apply returns_lift|]. intros b0 _.
    eapply returns_bind; [apply returns_uniform|]. cbv beta. intros b1 Hb1.
    apply returns_ret. split; [exact Hw|exact Hb1].
  - apply returns_ret. split; [exact Hw|exact I].
Qed.

Lemma returns_linear_xavier l : linear_finite l -> returns linear_finite (Linear.xavier l).
Proof.
  intros (_ & Hb). unfold Linear.xavier.
  eapply returns_bind; [apply returns_xavier_uniform|]. cbv beta. intros w Hw.
  apply returns_ret. split; [exact Hw|exact Hb].
Qed.

Lemma returns_sparse_init d h p bs st c :
  returns sparse_finite (SparseMultiHeadAttentionBlock.init d h p bs st c).
Proof.
  unfold SparseMultiHeadAttentionBlock.init.
  destruct (h =? 0)%Z; [intros g a g' E; discriminate E|].
  destruct (negb (d mod h =? 0)%Z); [intros g a g' E; discriminate E|].
  apply (returns_bind linear_finite); [apply returns_linear_init|]. intros wq Hq.
  apply (returns_bind linear_finite); [apply returns_linear_init|]. intros wk Hk.
  apply (returns_bind linear_finite); [apply returns_linear_init|]. intros wv Hv.
  apply (returns_bind linear_finite); [apply returns_linear_init|]. intros wo Ho.
  apply (returns_bind (fun _ => True)); [now apply returns_lift|]. intros dr _.
  apply returns_ret. split; [exact Hq|]. split; [exact Hk|]. split; [exact Hv|exact Ho].
Qed.

Lemma returns_dense_init d h p : returns dense_finite (MultiHeadAttentionBlock.init d h p).
Proof.
  unfold MultiHeadAttentionBlock.init.
  destruct (h =? 0)%Z; [intros g a g' E; discriminate E|].
  destruct (negb (d mod h =? 0)%Z); [intros g a g' E; discriminate E|].
  apply (returns_bind linear_finite); [apply returns_linear_init|]. intros wq Hq.
  apply (returns_bind linear_finite); [apply returns_linear_init|]. intros wk Hk.
  apply (returns_bind linear_finite); [apply returns_linear_init|]. intros wv Hv.
  apply (returns_bind linear_finite); [apply returns_linear_init|]. intros wo Ho.
  apply (returns_bind (fun _ => True)); [now apply returns_lift|]. intros dr _.
  apply returns_ret. split; [exact Hq|]. split; [exact Hk|]. split; [exact Hv|exact Ho].
Qed.

Lemma returns_feed_forward_init d dff p :
  returns feed_forward_finite (FeedForwardBlock.init d dff p).
Proof.
  unfold FeedForwardBlock.init.
  apply (returns_bind linear_finite); [apply returns_linear_init|]. intros l1 H1.
  apply (returns_bind (fun _ => True)); [now apply returns_lift|]. intros dr _.
  apply (returns_bind linear_finite); [apply returns_linear_init|]. intros l2 H2.
  apply returns_ret. split; [exact H1|exact H2].
Qed.

Lemma norm_init_finite d n : LayerNormalization.init d = Ok n -> norm_finite n.
Proof.
  unfold LayerNormalization.init. intros H.
  apply bind_ok_inv in H as (a & Ha & H). apply full_ok_inv in Ha as (_ & ->).
  apply bind_ok_inv in H as (b & Hb & H). apply full_ok_inv in Hb as (_ & ->).
  apply Ok_inj in H. subst n. split; [reflexivity|]. split; [reflexivity|].
  eexists. split; [reflexivity|]. apply Rinv_0_lt_compat. lra.
Qed.

Lemma residual_list_finite n d p rcs :
  residual_list n d p = Ok rcs ->
  Forall (fun rc => norm_finite (ResidualConnection.norm rc)) rcs.
Proof.
  intros H. apply residual_list_inits in H.
  eapply Forall_impl; [|exact H]. intros rc Hrc.
  apply residual_init_rate in Hrc as (_ & Hn). now apply norm_init_finite in Hn.
Qed.

Lemma returns_encoder_block d h dff p bs st :
  returns encoder_block_finite (encoder_block d h dff p bs st).
Proof.
  unfold encoder_block.
  apply (returns_bind sparse_finite); [apply returns_sparse_init|]. intros sa Hsa.
  apply (returns_bind feed_forward_finite); [apply returns_feed_forward_init|]. intros ff Hff.
  apply returns_lift. intros b Hb. unfold EncoderBlock.init in Hb.
  apply bind_ok_inv in Hb as (rcs & Hrcs & Hb). apply Ok_inj in Hb. subst b.
  split; [exact Hsa|]. split; [exact Hff|]. now apply residual_list_finite in Hrcs.
Qed.

Lemma returns_decoder_block d h dff p bs st :
  returns decoder_block_finite (decoder_block d h dff p bs st).
Proof.
  unfold decoder_block.
  apply (returns_bind sparse_finite); [apply returns_sparse_init|]. intros sa Hsa.
  apply (returns_bind dense_finite); [apply returns_dense_init|]. intros ca Hca.
  apply (returns_bind feed_forward_finite); [apply returns_feed_forward_init|]. intros ff Hff.
  apply returns_lift. intros b Hb. unfold DecoderBlock.init in Hb.
  apply bind_ok_inv in Hb as (rcs & Hrcs & Hb). apply Ok_inj in Hb. subst b.
  split; [exact Hsa|]. split; [exact Hca|]. split; [exact Hff|].
  now apply residual_list_finite in Hrcs.
Qed.

Lemma returns_sparse_xavier m :
  sparse_finite m -> returns sparse_finite (SparseMultiHeadAttentionBlock.xavier m).
Proof.
  intros (Fq & Fk & Fv & Fo). unfold SparseMultiHeadAttentionBlock.xavier.
  apply (returns_bind linear_finite); [now apply returns_linear_xavier|]. intros wq Hq.
  apply (returns_bind linear_finite); [now apply returns_linear_xavier|]. intros wk Hk.
  apply (returns_bind linear_finite); [now apply returns_linear_xavier|]. intros wv Hv.
  apply (returns_bind linear_finite); [now apply returns_linear_xavier|]. intros wo Ho.
  apply returns_ret. split; [exact Hq|]. split; [exact Hk|]. split; [exact Hv|exact Ho].
Qed.

Lemma returns_dense_xavier m :
  dense_finite m -> returns dense_finite (MultiHeadAttentionBlock.xavier m).
Proof.
  intros (Fq & Fk & Fv & Fo). unfold MultiHeadAttentionBlock.xavier.
  apply (returns_bind linear_finite); [now apply returns_linear_xavier|]. intros wq Hq.
  apply (returns_bind linear_finite); [now apply returns_linear_xavier|]. intros wk Hk.
  apply (returns_bind linear_finite); [now apply returns_linear_xavier|]. intros wv Hv.
  apply (returns_bind linear_finite); [now apply returns_linear_xavier|]. intros wo Ho.
  apply returns_ret. split; [exact Hq|]. split; [exact Hk|]. split; [exact Hv|exact Ho].
Qed.

Lemma returns_feed_forward_xavier m :
  feed_forward_finite m -> returns feed_forward_finite (FeedForwardBlock.xavier m).
Proof.
  intros (F1 & F2). unfold FeedForwardBlock.xavier.
  apply (returns_bind linear_finite); [now apply returns_linear_xavier|]. intros l1 H1.
  apply (returns_bind linear_finite); [now apply returns_linear_xavier|]. intros l2 H2.
  apply returns_ret. split; [exact H1|exact H2].
Qed.

Lemma returns_encoder_block_xavier b :
  encoder_block_finite b -> returns encoder_block_finite (EncoderBlock.xavier b).
Proof.
  intros (Fsa & Fff & Frcs). unfold EncoderBlock.xavier.
  apply (returns_bind sparse_finite); [now apply returns_sparse_xavier|]. intros sa Hsa.
  apply (returns_bind feed_forward_finite); [now apply returns_feed_forward_xavier|].
  intros ff Hff. apply returns_ret. split; [exact Hsa|]. split; [exact Hff|exact Frcs].
Qed.

Lemma returns_decoder_block_xavier b :
  decoder_block_finite b -> returns decoder_block_finite (DecoderBlock.xavier b).
Proof.
  intros (Fsa & Fca & Fff & Frcs). unfold DecoderBlock.xavier.
  apply (returns_bind sparse_finite); [now apply returns_sparse_xavier|]. intros sa Hsa.
  apply (returns_bind dense_finite); [now apply returns_dense_xavier|]. intros ca Hca.
  apply (returns_bind feed_forward_finite); [now apply returns_feed_forward_xavier|].
  intros ff Hff. apply returns_ret.
  split; [exact Hsa|]. split; [exact Hca|]. split; [exact Hff|exact Frcs].
Qed.

Lemma positions_init_finite d_model seq_len p m :
  PositionalEncoding.init d_model seq_len p = Ok m ->
  finite_rows 1 (Z.to_nat seq_len) (Z.to_nat d_model) (PositionalEncoding.pe m).
Proof.
  intros H. apply init_ok_inv, table_ok_inv in H as (_ & Hd & _ & Hitem).
  intros b r c Hb Hr Hc. replace b with 0 by lia.
  rewrite (Hitem r c Hr Hc). cbv zeta. rewrite angle_divisor by lia.
  destruct (c mod 2 =? 0); reflexivity.
Qed.

Lemma positions_init_rate d_model seq_len p m :
  PositionalEncoding.init d_model seq_len p = Ok m ->
  Dropout.p (PositionalEncoding.dropout m) = p.
Proof.
  unfold PositionalEncoding.init. intros H.
  apply bind_ok_inv in H as (dr & Hdr & H).
  apply bind_ok_inv in H as (pe & _ & H). apply Ok_inj in H. subst m.
  now apply dropout_init_rate in Hdr.
Qed.

Lemma returns_embeddings_xavier m :
  returns (fun m' => forall idx,
             is_finite (item (Embedding.weight (InputEmbeddings.embedding m')) idx) = true)
          (InputEmbeddings.xavier m).
Proof.
  unfold InputEmbeddings.xavier, Embedding.xavier.
  apply (returns_bind (fun e => forall idx, is_finite (item (Embedding.weight e) idx) = true)).
  - eapply returns_bind; [apply returns_xavier_uniform|]. cbv beta. intros w Hw.
    apply returns_ret. exact Hw.
  - intros e He. apply returns_ret. exact He.
Qed.

Lemma returns_transformer_xavier (sl tl d : nat) (m : Transformer.t) :
  Forall encoder_block_finite (Encoder.layers (Transformer.encoder m)) ->
  norm_finite (Encoder.norm (Transformer.encoder m)) ->
  Forall decoder_block_finite (Decoder.layers (Transformer.decoder m)) ->
  norm_finite (Decoder.norm (Transformer.decoder m)) ->
  finite_rows 1 sl d (PositionalEncoding.pe (Transformer.src_pos m)) ->
  finite_rows 1 tl d (PositionalEncoding.pe (Transformer.tgt_pos m)) ->
  linear_finite (ProjectionLayer.proj (Transformer.projection_layer m)) ->
  returns (transformer_finite sl tl d) (Transformer.xavier m).
Proof.
  intros Fel Fen Fdl Fdn Fsp Ftp Fpl. unfold Transformer.xavier.
  apply (returns_bind (fun e => Forall encoder_block_finite (Encoder.layers e) /\
                                norm_finite (Encoder.norm e))).
  { unfold Encoder.xavier.
    apply (returns_bind (Forall encoder_block_finite)).
    - apply returns_mapM; [apply returns_encoder_block_xavier|exact Fel].
    - intros ls Hls. apply returns_ret. split; [exact Hls|exact Fen]. }
  intros enc (Hel & Hen).
  apply (returns_bind (fun e => Forall decoder_block_finite (Decoder.layers e) /\
                                norm_finite (Decoder.norm e))).
  { unfold Decoder.xavier.
    apply (returns_bind (Forall decoder_block_finite)).
    - apply returns_mapM; [apply returns_decoder_block_xavier|exact Fdl].
    - intros ls Hls. apply returns_ret. split; [exact Hls|exact Fdn]. }
  intros dec (Hdl & Hdn).
  eapply returns_bind; [apply returns_embeddings_xavier|]. cbv beta. intros se Hse.
  eapply returns_bind; [apply returns_embeddings_xavier|]. cbv beta. intros te Hte.
  apply (returns_bind (fun pl => linear_finite (ProjectionLayer.proj pl))).
  { unfold ProjectionLayer.xavier.
    apply (returns_bind linear_finite); [now apply returns_linear_xavier|].
    intros l Hl. apply returns_ret. exact Hl. }
  intros pl Hpl. apply returns_ret.
  split; [exact Hel|]. split; [exact Hen|]. split; [exact Hdl|]. split; [exact Hdn|].
  split; [exact Hse|]. split; [exact Hte|]. split; [exact Fsp|]. split; [exact Ftp|exact Hpl].
Qed.

Lemma build_finite sv tv sl tl d N h p dff bs st :
  returns (transformer_finite (Z.to_nat sl) (Z.to_nat tl) (Z.to_nat d))
          (build_sparse_transformer sv tv sl tl d N h p dff bs st).
Proof.
  unfold build_sparse_transformer.
  apply (returns_bind (fun _ => True)); [intros ? ? ? _; exact I|]. intros se _.
  apply (returns_bind (fun _ => True)); [intros ? ? ? _; exact I|]. intros te _.
  apply (returns_bind (fun sp => finite_rows 1 (Z.to_nat sl) (Z.to_nat d)
                                   (PositionalEncoding.pe sp))).
  { apply returns_lift. intros sp. apply positions_init_finite. }
  intros sp Hsp.
  apply (returns_bind (fun tp => finite_rows 1 (Z.to_nat tl) (Z.to_nat d)
                                   (PositionalEncoding.pe tp))).
  { apply returns_lift. intros tp. apply positions_init_finite. }
  intros tp Htp.
  apply (returns_bind (Forall encoder_block_finite));
    [apply returns_repeatM, returns_encoder_block|]. intros ebs Hebs.
  apply (returns_bind (Forall decoder_block_finite));
    [apply returns_repeatM, returns_decoder_block|]. intros dbs Hdbs.
  apply (returns_bind (fun e => Forall encoder_block_finite (Encoder.layers e) /\
                                norm_finite (Encoder.norm e))).
  { apply returns_lift. intros e He. unfold Encoder.init in He.
    apply bind_ok_inv in He as (n & Hn & He). apply Ok_inj in He. subst e.
    split; [exact Hebs|now apply norm_init_finite in Hn]. }
  intros enc (Hel & Hen).
  apply (returns_bind (fun e => Forall decoder_block_finite (Decoder.layers e) /\
                                norm_finite (Decoder.norm e))).
  { apply returns_lift. intros e He. unfold Decoder.init in He.
    apply bind_ok_inv in He as (n & Hn & He). apply Ok_inj in He. subst e.
    split; [exact Hdbs|now apply norm_init_finite in Hn]. }
  intros dec (Hdl & Hdn).
  apply (returns_bind (fun pl => linear_finite (ProjectionLayer.proj pl))).
  { unfold ProjectionLayer.init.
    apply (returns_bind linear_finite); [apply returns_linear_init|].
    intros l Hl. apply returns_ret. exact Hl. }
  intros pl Hpl. now apply returns_transformer_xavier.
Qed.

Lemma rate_no_dropout (dr : Dropout.t) (p : Q) :
  Dropout.p dr = p -> Qeq_bool p 0 = true -> no_dropout dr.
Proof. intros <- H. exact H. Qed.

Lemma build_quiet sv tv sl tl d N h p dff bs st g m g' :
  build_sparse_transformer sv tv sl tl d N h p dff bs st g = Ok (m, g') ->
  Qeq_bool p 0 = true -> transformer_quiet m.
Proof.
  intros H Hp. apply build_rates in H as (He & Hd & Hsp & Htp & _).
  assert (Hrc : forall rcs, Forall (fun rc => ResidualConnection.init d p = Ok rc) rcs ->
            Forall (fun rc => no_dropout (ResidualConnection.dropout rc)) rcs).
  { intros rcs Hrcs. eapply Forall_impl; [|exact Hrcs]. intros rc Hi.
    apply residual_init_rate in Hi as (Hi & _). exact (rate_no_dropout _ _ Hi Hp). }
  split; [|split; [|split]].
  - eapply Forall_impl; [|exact He]. intros b (H1 & H2 & H3).
    split; [exact (rate_no_dropout _ _ H1 Hp)|].
    split; [exact (rate_no_dropout _ _ H2 Hp)|now apply Hrc].
  - eapply Forall_impl; [|exact Hd]. intros b (H1 & H2 & H3 & H4).
    split; [exact (rate_no_dropout _ _ H1 Hp)|].
    split; [exact (rate_no_dropout _ _ H2 Hp)|].
    split; [exact (rate_no_dropout _ _ H3 Hp)|now apply Hrc].
  - apply positions_init_rate in Hsp. exact (rate_no_dropout _ _ Hsp Hp).
  - apply positions_init_rate in Htp. exact (rate_no_dropout _ _ Htp Hp).
Qed.

(** A built model without dropout, run without masks. *)
Lemma built_core sv tv sl tl d N h p dff bs st g0 m g1 (B S T t : nat)
    (encoder_input decoder_input decoder_input' : tensor Z) (g : generator) :
  build_sparse_transformer sv tv sl tl d N h p dff bs st g0 = Ok (m, g1) ->
  (0 < h)%Z -> Qeq_bool p 0 = true ->
  0 < B -> S <= Z.to_nat sl -> T <= Z.to_nat tl ->
  tokens B S (Z.to_nat sv) encoder_input ->
  tokens B T (Z.to_nat tv) decoder_input -> tokens B T (Z.to_nat tv) decoder_input' ->
  same_prefix B T t decoder_input decoder_input' ->
  exists out out',
    Transformer.forward m encoder_input decoder_input None None g = Ok (out, g) /\
    Transformer.forward m encoder_input decoder_input' None None g = Ok (out', g) /\
    paired B T (Z.to_nat tv) t out out'.
Proof.
  intros Hb Hh Hp HB HS HT Hein Hdin Hdin' A.
  destruct (build_shaped _ _ _ _ _ _ _ _ _ _ _ _ _ _ Hb Hh) as (Hd & Hsh & _ & _ & _ & Hc).
  pose proof (build_finite sv tv sl tl d N h p dff bs st g0 m g1 Hb) as Hf.
  pose proof (build_quiet _ _ _ _ _ _ _ _ _ _ _ _ _ _ Hb Hp) as Hq.
  apply (transformer_core m (Z.to_nat sv) (Z.to_nat tv) (Z.to_nat sl) (Z.to_nat tl)
           (Z.to_nat d) (Z.to_nat h) B S T t); try assumption; [|lia].
  unfold decoder_causal. eapply Forall_impl; [|exact Hc]. intros b (_ & _ & E). exact E.
Qed.

(** X26. A model built with a positive number of heads and dropout rate
    zero, run without masks on a non-empty batch, is autoregressive: two
    target sequences that agree up to position [t] give, for one source
    sequence, scores that agree at every position up to [t], and neither
    run fails or draws a random number.  (The sparse pattern is modelled
    from the spec; the proof uses of it only that a position attends to
    itself and that a causal pattern hides every later position.) *)
Theorem built_model_is_autoregressive :
  forall (src_vocab_size tgt_vocab_size src_seq_len tgt_seq_len d_model N h : Z)
         (dropout : Q) (d_ff block_size stride : Z) (g0 g1 : generator) (m : Transformer.t)
         (B S T t : nat) (encoder_input decoder_input decoder_input' : tensor Z)
         (g : generator),
    build_sparse_transformer src_vocab_size tgt_vocab_size src_seq_len tgt_seq_len
      d_model N h dropout d_ff block_size stride g0 = Ok (m, g1) ->
    (0 < h)%Z -> Qeq_bool dropout 0 = true ->
    0 < B -> S <= Z.to_nat src_seq_len -> T <= Z.to_nat tgt_seq_len ->
    tokens B S (Z.to_nat src_vocab_size) encoder_input ->
    tokens B T (Z.to_nat tgt_vocab_size) decoder_input ->
    tokens B T (Z.to_nat tgt_vocab_size) decoder_input' ->
    same_prefix B T t decoder_input decoder_input' ->
    exists out out',
      Transformer.forward m encoder_input decoder_input None None g = Ok (out, g) /\
      Transformer.forward m encoder_input decoder_input' None None g = Ok (out', g) /\
      forall b r c, b < B -> r < T -> c < Z.to_nat tgt_vocab_size -> r <= t ->
        item out [b; r; c] = item out' [b; r; c].
Proof.
  intros sv tv sl tl d N h p dff bs st g0 g1 m B S T t ein din din' g
    Hb Hh Hp HB HS HT Hein Hdin Hdin' A.
  destruct (built_core sv tv sl tl d N h p dff bs st g0 m g1 B S T t ein din din' g
              Hb Hh Hp HB HS HT Hein Hdin Hdin' A) as (out & out' & E & E' & P).
  exists out, out'. split; [exact E|]. split; [exact E'|]. apply P.
Qed.

Lemma built_model_is_autoregressive_witness :
  exists r,
    build_sparse_transformer 5 5 3 3 4 1 2 0 8 2 2 zero_tape = Ok r /\
    exists out out',
      Transformer.forward (fst r) (Tensor int64 [1; 3] (fun _ => 3%Z))
        (Tensor int64 [1; 2] (fun _ => 1%Z)) None None zero_tape = Ok (out, zero_tape) /\
      Transformer.forward (fst r) (Tensor int64 [1; 3] (fun _ => 3%Z))
        (Tensor int64 [1; 2] (fun idx => if nth 1 idx 0 =? 0 then 1%Z else 2%Z))
        None None zero_tape = Ok (out', zero_tape) /\
      forall b r' c, b < 1 -> r' < 2 -> c < Z.to_nat 5 -> r' <= 0 ->
        item out [b; r'; c] = item out' [b; r'; c].
Proof.
  eexists. split; [vm_compute; reflexivity|].
  eapply (built_model_is_autoregressive 5 5 3 3 4 1 2 0 8 2 2 zero_tape _ _ 1 3 2 0).
  - vm_compute; reflexivity.
  - lia.
  - reflexivity.
  - lia.
  - simpl; lia.
  - simpl; lia.
  - split; [reflexivity|]. intros b t _ _. simpl. lia.
  - split; [reflexivity|]. intros b t _ _. simpl. lia.
  - split; [reflexivity|]. intros b t _ _. cbn [item nth]. destruct (t =? 0); simpl; lia.
  - intros b t _ _ Ht. cbn [item nth]. replace t with 0 by lia. reflexivity.
Defined.

(** X27. A model built with a positive number of heads and dropout rate
    zero, run without masks on a non-empty batch of token ids within the
    vocabularies and the maximum lengths, returns finite scores: no
    infinity and no [NaN] at any position.  (Of the sparse pattern, which is
    modelled from the spec, the proof uses only that a position attends to
    itself.) *)
Theorem built_model_logits_are_finite :
  forall (src_vocab_size tgt_vocab_size src_seq_len tgt_seq_len d_model N h : Z)
         (dropout : Q) (d_ff block_size stride : Z) (g0 g1 : generator) (m : Transformer.t)
         (B S T : nat) (encoder_input decoder_input : tensor Z) (g : generator),
    build_sparse_transformer src_vocab_size tgt_vocab_size src_seq_len tgt_seq_len
      d_model N h dropout d_ff block_size stride g0 = Ok (m, g1) ->
    (0 < h)%Z -> Qeq_bool dropout 0 = true ->
    0 < B -> S <= Z.to_nat src_seq_len -> T <= Z.to_nat tgt_seq_len ->
    tokens B S (Z.to_nat src_vocab_size) encoder_input ->
    tokens B T (Z.to_nat tgt_vocab_size) decoder_input ->
    exists out,
      Transformer.forward m encoder_input decoder_input None None g = Ok (out, g) /\
      forall b r c, b < B -> r < T -> c < Z.to_nat tgt_vocab_size ->
        exists v, item out [b; r; c] = Fin v.
Proof.
  intros sv tv sl tl d N h p dff bs st g0 g1 m B S T ein din g Hb Hh Hp HB HS HT Hein Hdin.
  destruct (built_core sv tv sl tl d N h p dff bs st g0 m g1 B S T T ein din din g
              Hb Hh Hp HB HS HT Hein Hdin Hdin (same_tokens_paired B T T din))
    as (out & out' & E & _ & (_ & _ & F & _)).
  exists out. split; [exact E|]. intros b r c Hb' Hr Hc.
  apply is_finite_inv. now apply F.
Qed.

Lemma built_model_logits_are_finite_witness :
  exists r,
    build_sparse_transformer 5 5 3 3 4 1 2 0 8 2 2 zero_tape = Ok r /\
    exists out,
      Transformer.forward (fst r) (Tensor int64 [1; 3] (fun _ => 3%Z))
        (Tensor int64 [1; 2] (fun _ => 1%Z)) None None zero_tape = Ok (out, zero_tape) /\
      forall b r' c, b < 1 -> r' < 2 -> c < Z.to_nat 5 -> exists v, item out [b; r'; c] = Fin v.
Proof.
  eexists. split; [vm_compute; reflexivity|].
  eapply (built_model_logits_are_finite 5 5 3 3 4 1 2 0 8 2 2 zero_tape _ _ 1 3 2).
  - vm_compute; reflexivity.
  - lia.
  - reflexivity.
  - lia.
  - simpl; lia.
  - simpl; lia.
  - split; [reflexivity|]. intros b t _ _. simpl. lia.
  - split; [reflexivity|]. intros b t _ _. simpl. lia.
Defined.
